(** * Tealer: the TEAL parser, its control-flow graph and the command line output

    A shallow embedding of
      - [tealer/teal/instructions/parse_transaction_field.py]
        ([_parse_int], [TX_FIELD_TXT_TO_OBJECT], [parse_transaction_field]),
      - [tealer/teal/parse_teal.py] (the four parsing passes, the numbering of
        basic blocks, the version check, the discovery of subroutines),
      - [tealer/__main__.py] ([handle_output], [choose_detectors],
        [choose_printers]),
    followed by the properties proved about them.

    Python objects with identity (instructions, basic blocks) live in arenas:
    an instruction is named by its position in the list [instructions], a
    basic block by the position at which [create_bb] appended it to
    [all_bbs].  Lists of references are lists of such positions, so that
    aliasing is kept.  Exceptions and [sys.exit] are outcomes of a small
    error monad. *)

From Stdlib Require Import ZArith String Ascii List Lia Bool.
From Stdlib Require Import Sorting.Sorted Sorting.Permutation.
From stdpp Require Import gmap strings list fin_maps sorting.

Open Scope string_scope.
Open Scope list_scope.
Open Scope Z_scope.

(** ** Outcomes of Python code *)

Inductive PyExn : Type :=
| IndexError
| KeyError (key : string)
| ValueError
| AssertionError
| AttributeError.

(** What [print(f"Parse error at line {idx}: {e}")] writes before
    [sys.exit(1)]. *)
Record ParseErrorReport : Type := mkParseErrorReport {
  report_idx : Z;
  report_msg : string
}.

Inductive Outcome (A : Type) : Type :=
| Ok (a : A)
| Raise (e : PyExn)
| Exit (code : Z) (stdout : ParseErrorReport).

Arguments Ok {A} a.
Arguments Raise {A} e.
Arguments Exit {A} code stdout.

#[global] Instance outcome_ret : MRet Outcome := fun _ a => Ok a.

#[global] Instance outcome_bind : MBind Outcome := fun _ _ k m =>
  match m with
  | Ok a => k a
  | Raise e => Raise e
  | Exit c o => Exit c o
  end.

#[global] Instance outcome_fmap : FMap Outcome := fun _ _ f m =>
  match m with
  | Ok a => Ok (f a)
  | Raise e => Raise e
  | Exit c o => Exit c o
  end.

(** [for x in xs: body] over a state, stopping at the first exception. *)
Fixpoint for_each {A S : Type} (body : S -> A -> Outcome S) (xs : list A) (s : S)
  : Outcome S :=
  match xs with
  | [] => Ok s
  | x :: xs' => s' ← body s x; for_each body xs' s'
  end.

Definition of_option {A : Type} (e : PyExn) (o : option A) : Outcome A :=
  match o with
  | Some a => Ok a
  | None => Raise e
  end.

(** ** Python strings *)

Module PyStr.

(** [s.startswith(p)] *)
Definition startswith (s p : string) : bool := String.prefix p s.

(** [s[n:]] *)
Fixpoint slice_from (n : nat) (s : string) : string :=
  match n, s with
  | O, _ => s
  | S _, EmptyString => EmptyString
  | S n', String _ s' => slice_from n' s'
  end.

(** [s.replace(" ", "")] *)
Fixpoint remove_spaces (s : string) : string :=
  match s with
  | EmptyString => EmptyString
  | String c s' =>
      if Ascii.eqb c " "%char then remove_spaces s'
      else String c (remove_spaces s')
  end.

(** The ASCII characters for which [str.isspace] holds: TAB, LF, VT, FF,
    CR, FS, GS, RS, US and the space. *)
Definition isspace (c : ascii) : bool :=
  let n := nat_of_ascii c in
  ((9 <=? n) && (n <=? 13) || (28 <=? n) && (n <=? 32))%nat.

Fixpoint lstrip (s : string) : string :=
  match s with
  | EmptyString => EmptyString
  | String c s' => if isspace c then lstrip s' else s
  end.

Fixpoint rstrip (s : string) : string :=
  match s with
  | EmptyString => EmptyString
  | String c s' =>
      match rstrip s' with
      | EmptyString => if isspace c then EmptyString else String c EmptyString
      | r => String c r
      end
  end.

(** [s.strip()] *)
Definition strip (s : string) : string := rstrip (lstrip s).

(** The line boundaries of [str.splitlines] among the ASCII characters:
    LF, VT, FF, CR, FS, GS, RS (and CR LF as one boundary). *)
Definition is_linebreak (c : ascii) : bool :=
  let n := nat_of_ascii c in
  ((10 <=? n) && (n <=? 13) || (28 <=? n) && (n <=? 30))%nat.

(** [splitlines_aux cur s]: [cur] is the line being read, reversed. *)
Fixpoint splitlines_aux (cur : list ascii) (s : string) : list string :=
  match s with
  | EmptyString =>
      match cur with
      | [] => []
      | _ => [string_of_list_ascii (rev cur)]
      end
  | String c s' =>
      if is_linebreak c then
        let rest :=
          match s' with
          | String c' s'' =>
              if Ascii.eqb c "013"%char && Ascii.eqb c' "010"%char
              then s'' else s'
          | EmptyString => s'
          end in
        string_of_list_ascii (rev cur) :: splitlines_aux [] rest
      else splitlines_aux (c :: cur) s'
  end.

(** [s.splitlines()] *)
Definition splitlines (s : string) : list string := splitlines_aux [] s.

(** The value of a character as a digit, as [int] reads it: ['0'..'9'],
    then the letters of either case from 10 on. *)
Definition digit_value (c : ascii) : option Z :=
  let n := Z.of_nat (nat_of_ascii c) in
  if (48 <=? n) && (n <=? 57) then Some (n - 48)
  else if (97 <=? n) && (n <=? 122) then Some (n - 97 + 10)
  else if (65 <=? n) && (n <=? 90) then Some (n - 65 + 10)
  else None.

Definition digit_in (base : Z) (c : ascii) : option Z :=
  match digit_value c with
  | Some d => if d <? base then Some d else None
  | None => None
  end.

(** The digits of an integer, most significant first, with single
    underscores between them; [after_us] tells that the character just
    read was an underscore. *)
Fixpoint int_digits (base : Z) (after_us : bool) (acc : Z) (s : string)
  : option Z :=
  match s with
  | EmptyString => if after_us then None else Some acc
  | String c s' =>
      if Ascii.eqb c "_"%char then
        if after_us then None else int_digits base true acc s'
      else
        match digit_in base c with
        | Some d => int_digits base false (acc * base + d) s'
        | None => None
        end
  end.

(** The base prefix [int] accepts for the bases used here. *)
Definition has_base_prefix (base : Z) (s : string) : bool :=
  match s with
  | String "0" (String c _) =>
      ((base =? 16) && (Ascii.eqb c "x" || Ascii.eqb c "X"))
      || ((base =? 8) && (Ascii.eqb c "o" || Ascii.eqb c "O"))
      || ((base =? 2) && (Ascii.eqb c "b" || Ascii.eqb c "B"))
  | _ => false
  end.

Definition int_unsigned (base : Z) (s : string) : option Z :=
  let body :=
    if has_base_prefix base s then
      match slice_from 2 s with
      | String "_" s' => s'
      | s' => s'
      end
    else s in
  match body with
  | EmptyString => None
  | String c _ =>
      if Ascii.eqb c "_"%char then None else int_digits base false 0 body
  end.

(** [int(s, base)] for a base among 2, 8, 10 and 16; [None] stands for
    [ValueError].  Surrounding white space is skipped, one sign is
    allowed, then the optional prefix of the base and the digits. *)
Definition int (s : string) (base : Z) : option Z :=
  match strip s with
  | String "-" s' => Z.opp <$> int_unsigned base s'
  | String "+" s' => int_unsigned base s'
  | s' => int_unsigned base s'
  end.

(** [split_aux sep cur s]: [cur] is the piece being read, reversed. *)
Fixpoint split_aux (sep : ascii) (cur : list ascii) (s : string) : list string :=
  match s with
  | EmptyString => [string_of_list_ascii (rev cur)]
  | String c s' =>
      if Ascii.eqb c sep then string_of_list_ascii (rev cur) :: split_aux sep [] s'
      else split_aux sep (c :: cur) s'
  end.

(** [s.split(sep)] for a separator of one character. *)
Definition split (s : string) (sep : ascii) : list string := split_aux sep [] s.

(** [sub in s] *)
Fixpoint contains (s sub : string) : bool :=
  String.prefix sub s
  || match s with
     | EmptyString => false
     | String _ s' => contains s' sub
     end.

End PyStr.

(** ** [parse_transaction_field.py] *)

(** [_parse_int]: hexadecimal after [0x], octal after another [0],
    decimal otherwise. *)
Definition _parse_int (x : string) : option Z :=
  if PyStr.startswith x "0x" then PyStr.int (PyStr.slice_from 2 x) 16
  else if PyStr.startswith x "0" then PyStr.int x 8
  else PyStr.int x 10.


(** The classes of [transaction_field] that the parser builds: the nullary
    ones named in [TX_FIELD_TXT_TO_OBJECT] (the class [Type] is written
    [Type'] here), and the five array fields, which carry their index ([-1]
    when the index is taken from the stack). *)
Inductive TransactionField : Type :=
| Sender
| Fee
| FirstValid
| FirstValidTime
| LastValid
| Note
| Lease
| Receiver
| Amount
| CloseRemainderTo
| VotePK
| SelectionPK
| VoteFirst
| VoteLast
| VoteKeyDilution
| Type'
| TypeEnum
| XferAsset
| AssetAmount
| AssetSender
| AssetReceiver
| AssetCloseTo
| GroupIndex
| TxID
| ApplicationID
| OnCompletion
| NumAppArgs
| NumAccounts
| NumApplications
| NumAssets
| ApprovalProgram
| ClearStateProgram
| RekeyTo
| ConfigAsset
| ConfigAssetTotal
| ConfigAssetDecimals
| ConfigAssetDefaultFrozen
| ConfigAssetUnitName
| ConfigAssetName
| ConfigAssetURL
| ConfigAssetMetadataHash
| ConfigAssetManager
| ConfigAssetReserve
| ConfigAssetFreeze
| ConfigAssetClawback
| FreezeAsset
| FreezeAssetAccount
| FreezeAssetFrozen
| GlobalNumUint
| GlobalNumByteSlice
| LocalNumUint
| LocalNumByteSlice
| ExtraProgramPages
| Nonparticipation
| NumLogs
| CreatedAssetID
| CreatedApplicationID
| LastLog
| StateProofPK
| Accounts (idx : Z)
| ApplicationArgs (idx : Z)
| Applications (idx : Z)
| Assets (idx : Z)
| Logs (idx : Z).

(** The entries of the dict literal [TX_FIELD_TXT_TO_OBJECT], in the order
    of the source. *)
Definition TX_FIELD_TXT_TO_OBJECT_items : list (string * TransactionField) :=
  [
    ("Sender", Sender);
    ("Fee", Fee);
    ("FirstValid", FirstValid);
    ("FirstValidTime", FirstValidTime);
    ("LastValid", LastValid);
    ("Note", Note);
    ("Lease", Lease);
    ("Receiver", Receiver);
    ("Amount", Amount);
    ("CloseRemainderTo", CloseRemainderTo);
    ("VotePK", VotePK);
    ("SelectionPK", SelectionPK);
    ("VoteFirst", VoteFirst);
    ("VoteLast", VoteLast);
    ("VoteKeyDilution", VoteKeyDilution);
    ("Type", Type');
    ("TypeEnum", TypeEnum);
    ("XferAsset", XferAsset);
    ("AssetAmount", AssetAmount);
    ("AssetSender", AssetSender);
    ("AssetReceiver", AssetReceiver);
    ("AssetCloseTo", AssetCloseTo);
    ("GroupIndex", GroupIndex);
    ("TxID", TxID);
    ("ApplicationID", ApplicationID);
    ("OnCompletion", OnCompletion);
    ("NumAppArgs", NumAppArgs);
    ("NumAccounts", NumAccounts);
    ("NumApplications", NumApplications);
    ("NumAssets", NumAssets);
    ("ApprovalProgram", ApprovalProgram);
    ("ClearStateProgram", ClearStateProgram);
    ("RekeyTo", RekeyTo);
    ("ConfigAsset", ConfigAsset);
    ("ConfigAssetTotal", ConfigAssetTotal);
    ("ConfigAssetDecimals", ConfigAssetDecimals);
    ("ConfigAssetDefaultFrozen", ConfigAssetDefaultFrozen);
    ("ConfigAssetUnitName", ConfigAssetUnitName);
    ("ConfigAssetName", ConfigAssetName);
    ("ConfigAssetURL", ConfigAssetURL);
    ("ConfigAssetMetadataHash", ConfigAssetMetadataHash);
    ("ConfigAssetManager", ConfigAssetManager);
    ("ConfigAssetReserve", ConfigAssetReserve);
    ("ConfigAssetFreeze", ConfigAssetFreeze);
    ("ConfigAssetClawback", ConfigAssetClawback);
    ("FreezeAsset", FreezeAsset);
    ("FreezeAssetAccount", FreezeAssetAccount);
    ("FreezeAssetFrozen", FreezeAssetFrozen);
    ("GlobalNumUint", GlobalNumUint);
    ("GlobalNumByteSlice", GlobalNumByteSlice);
    ("LocalNumUint", LocalNumUint);
    ("LocalNumByteSlice", LocalNumByteSlice);
    ("ExtraProgramPages", ExtraProgramPages);
    ("Nonparticipation", Nonparticipation);
    ("NumLogs", NumLogs);
    ("CreatedAssetID", CreatedAssetID);
    ("CreatedApplicationID", CreatedApplicationID);
    ("LastLog", LastLog);
    ("StateProofPK", StateProofPK)
  ].

Definition TX_FIELD_TXT_TO_OBJECT : gmap string TransactionField :=
  list_to_map TX_FIELD_TXT_TO_OBJECT_items.

(** [parse_transaction_field(tx_field, use_stack)].  [int] raises
    [ValueError] and the lookup in the dict [KeyError]. *)
Definition array_index (tx_field : string) (name_and_space : string)
    (use_stack : bool) : Outcome Z :=
  if use_stack then Ok (-1)
  else of_option ValueError
         (_parse_int (PyStr.slice_from (String.length name_and_space) tx_field)).

Definition parse_transaction_field (tx_field : string) (use_stack : bool)
  : Outcome TransactionField :=
  if PyStr.startswith tx_field "Accounts" then
    Accounts <$> array_index tx_field "Accounts " use_stack
  else if PyStr.startswith tx_field "ApplicationArgs" then
    ApplicationArgs <$> array_index tx_field "ApplicationArgs " use_stack
  else if PyStr.startswith tx_field "Applications" then
    Applications <$> array_index tx_field "Applications " use_stack
  else if PyStr.startswith tx_field "Assets" then
    Assets <$> array_index tx_field "Assets " use_stack
  else if PyStr.startswith tx_field "Logs" then
    Logs <$> array_index tx_field "Logs " use_stack
  else
    let tx_field := PyStr.remove_spaces tx_field in
    of_option (KeyError tx_field) (TX_FIELD_TXT_TO_OBJECT !! tx_field).


(** ** The data model of [parse_teal.py] *)

(** Modelled from the spec: [ContractType] of
    [tealer/teal/instructions/instructions.py], the mode of an
    instruction or of a contract. *)
Inductive ContractType : Type := STATELESS | STATEFULL | ANY.

#[global] Instance ContractType_eq_dec : EqDecision ContractType.
Proof. solve_decision. Defined.

(** Modelled from the spec: the class of the object an instruction holds
    in its [field] attribute: the five families [_verify_version] looks
    at, or anything else.  The object has a name and the version from
    which it is supported. *)
Inductive FieldClass : Type :=
| TransactionFieldClass
| AssetHoldingFieldClass
| AssetParamsFieldClass
| AppParamsFieldClass
| AcctParamsFieldClass
| OtherFieldClass.

Record FieldObj : Type := mkFieldObj {
  field_class : FieldClass;
  field_name : string;
  field_version : Z
}.

(** Modelled from the spec: the classes of instructions of
    [tealer/teal/instructions/instructions.py] that the parser tells
    apart, with the attributes it reads from them. *)
Inductive InsClass : Type :=
| Label (label : string)
| B (label : string)
| BZ (label : string)
| BNZ (label : string)
| Switch (labels : list string)
| Match (labels : list string)
| Err
| Return
| Retsub
| Callsub (label : string)
| Pragma (program_version : Z)
| Intcblock (constants : list Z)
| Bytecblock (constants : list string)
| Txn
| Method (method_signature : string)
| OtherInstruction (mnemonic : string).

#[global] Instance InsClass_eq_dec : EqDecision InsClass.
Proof. solve_decision. Defined.

(** The identity of a [Subroutine] object: the one made for [__main__], or
    the one stored under a name in the dict [subroutines]. *)
Inductive SubroutineRef : Type :=
| MainSubroutine
| NamedSubroutine (name : string).

(** The texts appended to [tealer_comments], by what they are made from
    (the selector of a method is a hash of its signature, the cost of a
    block a sum over its instructions; neither is computed here). *)
Inductive TealerComment : Type :=
| ApplicationID_is_0_in_Creation_Txn
| method_selector_of (method_signature : string)
| Subroutine_named (name : string)
| block_id_and_cost (idx : option nat).

(** Modelled from the spec: what [parse_line] builds from a line, an
    instruction without links yet, with its class, the version from
    which it is supported, its mode and its field if it has one. *)
Record ParsedInstruction : Type := mkParsedInstruction {
  parsed_class : InsClass;
  parsed_version : Z;
  parsed_mode : ContractType;
  parsed_field : option FieldObj
}.

Inductive ParseResult : Type :=
| ParseError (msg : string)
| Parsed (ins : option ParsedInstruction).

(** Modelled from the spec: an [Instruction] object, with its source
    line, its default and jump successors [next], its predecessors
    [prev], the block [bb] it belongs to, and its comments.  [ins_next],
    [ins_prev] and [ins_bb] hold positions in the arenas; [add_next] and
    [add_prev] append to the lists. *)
Record Instruction : Type := mkInstruction {
  ins_class : InsClass;
  ins_version : Z;
  ins_mode : ContractType;
  ins_field : option FieldObj;
  ins_line : Z;
  ins_next : list nat;
  ins_prev : list nat;
  ins_bb : option nat;
  comments_before_ins : list string;
  ins_tealer_comments : list TealerComment;
  called_subroutine : option SubroutineRef
}.

Definition new_instruction (p : ParsedInstruction) : Instruction :=
  {| ins_class := parsed_class p;
     ins_version := parsed_version p;
     ins_mode := parsed_mode p;
     ins_field := parsed_field p;
     ins_line := 0;
     ins_next := [];
     ins_prev := [];
     ins_bb := None;
     comments_before_ins := [];
     ins_tealer_comments := [];
     called_subroutine := None |}.

Definition ins_add_next (n : nat) (i : Instruction) : Instruction :=
  {| ins_class := ins_class i; ins_version := ins_version i;
     ins_mode := ins_mode i; ins_field := ins_field i; ins_line := ins_line i;
     ins_next := ins_next i ++ [n];
     ins_prev := ins_prev i; ins_bb := ins_bb i;
     comments_before_ins := comments_before_ins i;
     ins_tealer_comments := ins_tealer_comments i;
     called_subroutine := called_subroutine i |}.

Definition ins_add_prev (p : nat) (i : Instruction) : Instruction :=
  {| ins_class := ins_class i; ins_version := ins_version i;
     ins_mode := ins_mode i; ins_field := ins_field i; ins_line := ins_line i;
     ins_next := ins_next i;
     ins_prev := ins_prev i ++ [p];
     ins_bb := ins_bb i;
     comments_before_ins := comments_before_ins i;
     ins_tealer_comments := ins_tealer_comments i;
     called_subroutine := called_subroutine i |}.

Definition ins_set_line (l : Z) (i : Instruction) : Instruction :=
  {| ins_class := ins_class i; ins_version := ins_version i;
     ins_mode := ins_mode i; ins_field := ins_field i;
     ins_line := l;
     ins_next := ins_next i; ins_prev := ins_prev i; ins_bb := ins_bb i;
     comments_before_ins := comments_before_ins i;
     ins_tealer_comments := ins_tealer_comments i;
     called_subroutine := called_subroutine i |}.

Definition ins_set_bb (b : nat) (i : Instruction) : Instruction :=
  {| ins_class := ins_class i; ins_version := ins_version i;
     ins_mode := ins_mode i; ins_field := ins_field i; ins_line := ins_line i;
     ins_next := ins_next i; ins_prev := ins_prev i;
     ins_bb := Some b;
     comments_before_ins := comments_before_ins i;
     ins_tealer_comments := ins_tealer_comments i;
     called_subroutine := called_subroutine i |}.

Definition ins_set_comments_before (cs : list string) (i : Instruction)
  : Instruction :=
  {| ins_class := ins_class i; ins_version := ins_version i;
     ins_mode := ins_mode i; ins_field := ins_field i; ins_line := ins_line i;
     ins_next := ins_next i; ins_prev := ins_prev i; ins_bb := ins_bb i;
     comments_before_ins := cs;
     ins_tealer_comments := ins_tealer_comments i;
     called_subroutine := called_subroutine i |}.

Definition ins_add_tealer_comment (c : TealerComment) (i : Instruction)
  : Instruction :=
  {| ins_class := ins_class i; ins_version := ins_version i;
     ins_mode := ins_mode i; ins_field := ins_field i; ins_line := ins_line i;
     ins_next := ins_next i; ins_prev := ins_prev i; ins_bb := ins_bb i;
     comments_before_ins := comments_before_ins i;
     ins_tealer_comments := ins_tealer_comments i ++ [c];
     called_subroutine := called_subroutine i |}.

Definition ins_set_called_subroutine (s : SubroutineRef) (i : Instruction)
  : Instruction :=
  {| ins_class := ins_class i; ins_version := ins_version i;
     ins_mode := ins_mode i; ins_field := ins_field i; ins_line := ins_line i;
     ins_next := ins_next i; ins_prev := ins_prev i; ins_bb := ins_bb i;
     comments_before_ins := comments_before_ins i;
     ins_tealer_comments := ins_tealer_comments i;
     called_subroutine := Some s |}.

(** [isinstance] tests of the parser. *)
Definition is_Label (c : InsClass) : bool :=
  match c with Label _ => true | _ => false end.
Definition is_B (c : InsClass) : bool :=
  match c with B _ => true | _ => false end.
Definition is_Callsub (c : InsClass) : bool :=
  match c with Callsub _ => true | _ => false end.
(** [isinstance(ins, (B, Err, Return, Retsub))] *)
Definition is_unconditional_jump_or_exit (c : InsClass) : bool :=
  match c with
  | B _ | Err | Return | Retsub => true
  | _ => false
  end.

(** Modelled from the spec: a [BasicBlock] object of
    [tealer/teal/basic_blocks.py], with its instructions in order, its
    successors and predecessors, its index, its subroutine and its
    comments.  [bb_instructions] holds positions in [instructions];
    [bb_next] and [bb_prev] hold blocks by the position at which
    [create_bb] made them; [add_instruction], [add_next] and [add_prev]
    append to the lists. *)
Record BasicBlock : Type := mkBasicBlock {
  bb_instructions : list nat;
  bb_next : list nat;
  bb_prev : list nat;
  bb_idx : option nat;
  bb_subroutine : option SubroutineRef;
  bb_tealer_comments : list TealerComment
}.

(** [BasicBlock()] *)
Definition new_bb : BasicBlock :=
  {| bb_instructions := []; bb_next := []; bb_prev := []; bb_idx := None;
     bb_subroutine := None; bb_tealer_comments := [] |}.

Definition bb_add_instruction (i : nat) (b : BasicBlock) : BasicBlock :=
  {| bb_instructions := bb_instructions b ++ [i];
     bb_next := bb_next b; bb_prev := bb_prev b; bb_idx := bb_idx b;
     bb_subroutine := bb_subroutine b;
     bb_tealer_comments := bb_tealer_comments b |}.

Definition bb_add_next (n : nat) (b : BasicBlock) : BasicBlock :=
  {| bb_instructions := bb_instructions b;
     bb_next := bb_next b ++ [n];
     bb_prev := bb_prev b; bb_idx := bb_idx b;
     bb_subroutine := bb_subroutine b;
     bb_tealer_comments := bb_tealer_comments b |}.

Definition bb_add_prev (p : nat) (b : BasicBlock) : BasicBlock :=
  {| bb_instructions := bb_instructions b; bb_next := bb_next b;
     bb_prev := bb_prev b ++ [p];
     bb_idx := bb_idx b;
     bb_subroutine := bb_subroutine b;
     bb_tealer_comments := bb_tealer_comments b |}.

Definition bb_set_idx (i : nat) (b : BasicBlock) : BasicBlock :=
  {| bb_instructions := bb_instructions b; bb_next := bb_next b;
     bb_prev := bb_prev b;
     bb_idx := Some i;
     bb_subroutine := bb_subroutine b;
     bb_tealer_comments := bb_tealer_comments b |}.

Definition bb_set_subroutine (s : SubroutineRef) (b : BasicBlock) : BasicBlock :=
  {| bb_instructions := bb_instructions b; bb_next := bb_next b;
     bb_prev := bb_prev b; bb_idx := bb_idx b;
     bb_subroutine := Some s;
     bb_tealer_comments := bb_tealer_comments b |}.

Definition bb_append_comment (c : TealerComment) (b : BasicBlock) : BasicBlock :=
  {| bb_instructions := bb_instructions b; bb_next := bb_next b;
     bb_prev := bb_prev b; bb_idx := bb_idx b;
     bb_subroutine := bb_subroutine b;
     bb_tealer_comments := bb_tealer_comments b ++ [c] |}.

Definition bb_insert_comment_first (c : TealerComment) (b : BasicBlock)
  : BasicBlock :=
  {| bb_instructions := bb_instructions b; bb_next := bb_next b;
     bb_prev := bb_prev b; bb_idx := bb_idx b;
     bb_subroutine := bb_subroutine b;
     bb_tealer_comments := c :: bb_tealer_comments b |}.

(** Modelled from the spec: [bb.entry_instr] is the first instruction of
    the block, [bb.instructions[0]], and [bb.exit_instr] the last one,
    [bb.instructions[-1]]; both raise [IndexError] on an empty block. *)
Definition entry_instr (b : BasicBlock) : Outcome nat :=
  of_option IndexError (head (bb_instructions b)).
Definition exit_instr (b : BasicBlock) : Outcome nat :=
  of_option IndexError (last (bb_instructions b)).

(** ** The passes of [parse_teal] *)

(** [defaultdict(list)]: the keys in the order of their insertion.
    [d[k].append(v)] makes the key with an empty list when it is new. *)
Fixpoint defaultdict_append (k : string) (v : nat) (d : list (string * list nat))
  : list (string * list nat) :=
  match d with
  | [] => [(k, [v])]
  | (k', vs) :: d' =>
      if String.eqb k' k then (k', vs ++ [v]) :: d'
      else (k', vs) :: defaultdict_append k v d'
  end.

(** The local variables and the in-place arguments of [_first_pass]. *)
Record FirstPass : Type := mkFirstPass {
  fp_idx : Z;
  fp_prev : option nat;
  fp_intcblock_ins : list nat;
  fp_bytecblock_ins : list nat;
  fp_instruction_comments : list string;
  fp_labels : gmap string nat;
  fp_subroutines : list (string * list nat);
  fp_instructions : list Instruction
}.

Definition first_pass_init : FirstPass :=
  {| fp_idx := 0; fp_prev := None; fp_intcblock_ins := [];
     fp_bytecblock_ins := []; fp_instruction_comments := [];
     fp_labels := ∅; fp_subroutines := []; fp_instructions := [] |}.

(** [line.strip().startswith("//")] *)
Definition is_comment_line (line : string) : bool :=
  PyStr.startswith (PyStr.strip line) "//".

(** [_add_instruction_comments] *)
Definition _add_instruction_comments (ins : Instruction) : Instruction :=
  match ins_class ins, ins_field ins with
  | Txn, Some {| field_class := TransactionFieldClass;
                 field_name := "ApplicationID" |} =>
      ins_add_tealer_comment ApplicationID_is_0_in_Creation_Txn ins
  | Method method_signature, _ =>
      ins_add_tealer_comment (method_selector_of method_signature) ins
  | _, _ => ins
  end.

Section Parser.

(** Modelled from the spec: [parse_line] of
    [tealer/teal/instructions/parse_instruction.py], which turns one line
    into an instruction, into nothing (a blank line), or raises
    [ParseError]. *)
Variable parse_line : string -> ParseResult.

(** The [try] block of the loop of [_first_pass]: the instruction of the
    line, if any, and the comments buffered so far. *)
Definition read_line (st : FirstPass) (line : string)
  : Outcome (option Instruction * list string) :=
  if is_comment_line line then
    Ok (None, fp_instruction_comments st ++ [line])
  else
    match parse_line line with
    | ParseError e =>
        Exit 1 {| report_idx := fp_idx st; report_msg := e |}
    | Parsed None => Ok (None, fp_instruction_comments st)
    | Parsed (Some p) =>
        match fp_instruction_comments st with
        | [] => Ok (Some (new_instruction p), [])
        | cs => Ok (Some (ins_set_comments_before cs (new_instruction p)), [])
        end
    end.

(** The rest of the body of the loop, for a line that gave an
    instruction; [me] is the position the instruction takes in
    [instructions]. *)
Definition record_instruction (st : FirstPass) (idx : Z)
    (comments : list string) (ins : Instruction) : FirstPass :=
  let me := length (fp_instructions st) in
  let intcblock_ins :=
    match ins_class ins with
    | Intcblock _ => fp_intcblock_ins st ++ [me]
    | _ => fp_intcblock_ins st
    end in
  let bytecblock_ins :=
    match ins_class ins with
    | Bytecblock _ => fp_bytecblock_ins st ++ [me]
    | _ => fp_bytecblock_ins st
    end in
  let ins := _add_instruction_comments (ins_set_line idx ins) in
  let labels :=
    match ins_class ins with
    | Label l => <[l := me]> (fp_labels st)
    | _ => fp_labels st
    end in
  let ins :=
    match fp_prev st with
    | Some prev => ins_add_prev prev ins
    | None => ins
    end in
  let instructions :=
    match fp_prev st with
    | Some prev => alter (ins_add_next me) prev (fp_instructions st)
    | None => fp_instructions st
    end in
  let prev :=
    if is_unconditional_jump_or_exit (ins_class ins) then None else Some me in
  let subroutines :=
    match ins_class ins with
    | Callsub l => defaultdict_append l me (fp_subroutines st)
    | _ => fp_subroutines st
    end in
  {| fp_idx := idx; fp_prev := prev;
     fp_intcblock_ins := intcblock_ins;
     fp_bytecblock_ins := bytecblock_ins;
     fp_instruction_comments := comments;
     fp_labels := labels;
     fp_subroutines := subroutines;
     fp_instructions := instructions ++ [ins] |}.

Definition first_pass_line (st : FirstPass) (line : string) : Outcome FirstPass :=
  '(ins, comments) ← read_line st line;
  let idx := fp_idx st + 1 in
  match ins with
  | None =>
      Ok {| fp_idx := idx; fp_prev := fp_prev st;
            fp_intcblock_ins := fp_intcblock_ins st;
            fp_bytecblock_ins := fp_bytecblock_ins st;
            fp_instruction_comments := comments;
            fp_labels := fp_labels st;
            fp_subroutines := fp_subroutines st;
            fp_instructions := fp_instructions st |}
  | Some ins => Ok (record_instruction st idx comments ins)
  end.

(** [_first_pass], called on empty [labels], [subroutines] and
    [instructions] as [parse_teal] does. *)
Definition _first_pass (lines : list string) : Outcome FirstPass :=
  for_each first_pass_line lines first_pass_init.

(** [ins.add_next(labels[l]); labels[l].add_prev(ins)] for the
    instruction at position [i]. *)
Definition link_jump (labels : gmap string nat) (i : nat)
    (instructions : list Instruction) (l : string)
  : Outcome (list Instruction) :=
  target ← of_option (KeyError l) (labels !! l);
  Ok (alter (ins_add_prev i) target (alter (ins_add_next target) i instructions)).

Definition second_pass_ins (labels : gmap string nat)
    (instructions : list Instruction) (i : nat) : Outcome (list Instruction) :=
  match ins_class <$> instructions !! i with
  | Some (B l) | Some (BZ l) | Some (BNZ l) => link_jump labels i instructions l
  | Some (Switch ls) | Some (Match ls) =>
      for_each (link_jump labels i) ls instructions
  | _ => Ok instructions
  end.

(** [_second_pass] *)
Definition _second_pass (instructions : list Instruction)
    (labels : gmap string nat) : Outcome (list Instruction) :=
  for_each (second_pass_ins labels) (seq 0 (length instructions)) instructions.

End Parser.

(** The state of the loop of [create_bb]: the list [all_bbs], the block
    [bb] being filled, and the instructions (whose [bb] is set). *)
Record CreateBB : Type := mkCreateBB {
  cb_all_bbs : list BasicBlock;
  cb_bb : nat;
  cb_instructions : list Instruction
}.

(** [next_bb = BasicBlock(); all_bbs.append(next_bb); bb = next_bb],
    with [bb.add_next(next_bb); next_bb.add_prev(bb)] in between when
    [with_edge] holds. *)
Definition start_block (with_edge : bool) (st : CreateBB) : CreateBB :=
  let next_bb := length (cb_all_bbs st) in
  let all_bbs := cb_all_bbs st ++ [new_bb] in
  let all_bbs :=
    if with_edge then
      alter (bb_add_prev (cb_bb st)) next_bb
        (alter (bb_add_next next_bb) (cb_bb st) all_bbs)
    else all_bbs in
  {| cb_all_bbs := all_bbs; cb_bb := next_bb;
     cb_instructions := cb_instructions st |}.

Definition block_is_empty (st : CreateBB) : bool :=
  match cb_all_bbs st !! cb_bb st with
  | Some b => bool_decide (length (bb_instructions b) = 0%nat)
  | None => true
  end.

(** The body of the loop of [create_bb] for the instruction at position
    [i]; [ins == instructions[-1]] compares objects, that is positions. *)
Definition create_bb_ins (st : CreateBB) (i : nat) : CreateBB :=
  match cb_instructions st !! i with
  | None => st
  | Some ins =>
      let st :=
        if is_Label (ins_class ins) && negb (block_is_empty st)
        then start_block true st else st in
      let st :=
        {| cb_all_bbs := alter (bb_add_instruction i) (cb_bb st) (cb_all_bbs st);
           cb_bb := cb_bb st;
           cb_instructions := alter (ins_set_bb (cb_bb st)) i (cb_instructions st) |} in
      let is_last := bool_decide (S i = length (cb_instructions st)) in
      if bool_decide (1 < length (ins_next ins))%nat || is_Callsub (ins_class ins)
      then
        if is_last then st
        else
          let st := start_block true st in
          if bool_decide (length (ins_next ins) = 0%nat) || is_B (ins_class ins)
          then start_block false st
          else st
      else
        if bool_decide (length (ins_next ins) = 0%nat) || is_B (ins_class ins)
        then
          if is_last then st else start_block false st
        else st
  end.

(** [create_bb], called on an empty [all_bbs] as [parse_teal] does. *)
Definition create_bb (instructions : list Instruction) : CreateBB :=
  fold_left create_bb_ins (seq 0 (length instructions))
    {| cb_all_bbs := [new_bb]; cb_bb := 0%nat; cb_instructions := instructions |}.

(** The body of the inner loop of [_fourth_pass]: the block [b] and one
    instruction [next_ins] of [ins.next]. *)
Definition link_blocks (instructions : list Instruction) (b : nat)
    (bbs : list BasicBlock) (next_ins : nat) : Outcome (list BasicBlock) :=
  match instructions !! next_ins ≫= ins_bb, bbs !! b with
  | Some next_bb, Some bb =>
      if bool_decide (next_bb ∈ bb_next bb) then Ok bbs
      else
        match bbs !! next_bb with
        | Some nb =>
            if bool_decide (b ∈ bb_prev nb) then Raise AssertionError
            else Ok (alter (bb_add_prev b) next_bb (alter (bb_add_next next_bb) b bbs))
        | None => Ok bbs
        end
  | None, Some bb => Raise AttributeError
  | _, None => Ok bbs
  end.

Definition fourth_pass_bb (instructions : list Instruction)
    (bbs : list BasicBlock) (b : nat) : Outcome (list BasicBlock) :=
  match bbs !! b with
  | None => Ok bbs
  | Some bb =>
      ins ← exit_instr bb;
      match instructions !! ins with
      | Some ins => for_each (link_blocks instructions b) (ins_next ins) bbs
      | None => Ok bbs
      end
  end.

(** [_fourth_pass] *)
Definition _fourth_pass (instructions : list Instruction)
    (basic_blocks : list BasicBlock) : Outcome (list BasicBlock) :=
  for_each (fourth_pass_bb instructions) (seq 0 (length basic_blocks)) basic_blocks.

(** [sorted(xs, key=...)] on elements paired with their keys: a stable
    sort, here by insertion from the right. *)
Fixpoint insert_by_key {A : Type} (x : Z * A) (l : list (Z * A)) : list (Z * A) :=
  match l with
  | [] => [x]
  | y :: l' => if x.1 <=? y.1 then x :: l else y :: insert_by_key x l'
  end.

Definition sorted_by_key {A : Type} (l : list (Z * A)) : list (Z * A) :=
  foldr insert_by_key [] l.

(** The key of [_add_basic_blocks_idx]: [x.entry_instr.line]. *)
Definition entry_line (instructions : list Instruction) (store : list BasicBlock)
    (b : nat) : Outcome Z :=
  match store !! b with
  | Some bb =>
      ins ← entry_instr bb;
      match instructions !! ins with
      | Some ins => Ok (ins_line ins)
      | None => Raise IndexError
      end
  | None => Raise IndexError
  end.

Fixpoint keyed (instructions : list Instruction) (store : list BasicBlock)
    (bbs : list nat) : Outcome (list (Z * nat)) :=
  match bbs with
  | [] => Ok []
  | b :: bbs' =>
      k ← entry_line instructions store b;
      ks ← keyed instructions store bbs';
      Ok ((k, b) :: ks)
  end.

(** [for i, bb in enumerate(bbs): bb.idx = i], from position [i] on. *)
Fixpoint assign_idx (i : nat) (bbs : list nat) (store : list BasicBlock)
  : list BasicBlock :=
  match bbs with
  | [] => store
  | b :: bbs' => assign_idx (S i) bbs' (alter (bb_set_idx i) b store)
  end.

(** [_add_basic_blocks_idx]: [bbs] is the list of blocks it is given,
    [store] the block objects; it returns the sorted list and the objects
    with their [idx] set. *)
Definition _add_basic_blocks_idx (instructions : list Instruction)
    (store : list BasicBlock) (bbs : list nat)
  : Outcome (list nat * list BasicBlock) :=
  ks ← keyed instructions store bbs;
  let bbs := (sorted_by_key ks).*2 in
  Ok (bbs, assign_idx 0 bbs store).

(** [_detect_contract_type] *)
Fixpoint _detect_contract_type (instructions : list Instruction) : ContractType :=
  match instructions with
  | [] => ANY
  | ins :: instructions' =>
      if bool_decide (ins_mode ins ≠ ANY) then ins_mode ins
      else _detect_contract_type instructions'
  end.

(** What [_verify_version] prints on the error stream, by content. *)
Inductive Diagnostic : Type :=
| InstructionNotSupported (line : Z) (ins : InsClass)
    (program_version supported_from : Z)
| FieldNotSupported (line : Z) (ins : InsClass) (field : FieldObj)
    (program_version supported_from : Z)
| BothModes (stateless_ins stateful_ins : list Z).

(** [field is not None and isinstance(field, (TransactionField,
    AssetHoldingField, AssetParamsField, AppParamsField, AcctParamsField))] *)
Definition checked_field (ins : Instruction) : option FieldObj :=
  match ins_field ins with
  | Some f =>
      match field_class f with
      | OtherFieldClass => None
      | _ => Some f
      end
  | None => None
  end.

(** The local variables of [_verify_version], and what it has printed on
    the error stream. *)
Record VerifyVersion : Type := mkVerifyVersion {
  vv_error : bool;
  vv_stderr : list Diagnostic;
  vv_stateful_ins : list Instruction;
  vv_stateless_ins : list Instruction
}.

(** The version checks of one turn of the loop of [_verify_version]: the
    diagnostic printed, if any. *)
Definition version_diagnostic (program_version : Z) (ins : Instruction)
  : option Diagnostic :=
  if program_version <? ins_version ins then
    Some (InstructionNotSupported (ins_line ins) (ins_class ins)
            program_version (ins_version ins))
  else
    match checked_field ins with
    | Some f =>
        if program_version <? field_version f then
          Some (FieldNotSupported (ins_line ins) (ins_class ins) f
                  program_version (field_version f))
        else None
    | None => None
    end.

(** One turn of the loop of [_verify_version]. *)
Definition verify_ins (program_version : Z) (st : VerifyVersion)
    (ins : Instruction) : VerifyVersion :=
  let '(error, stderr) :=
    match version_diagnostic program_version ins with
    | Some d => (true, vv_stderr st ++ [d])
    | None => (vv_error st, vv_stderr st)
    end in
  {| vv_error := error;
     vv_stderr := stderr;
     vv_stateful_ins :=
       match ins_mode ins with
       | STATEFULL => vv_stateful_ins st ++ [ins]
       | _ => vv_stateful_ins st
       end;
     vv_stateless_ins :=
       match ins_mode ins with
       | STATELESS => vv_stateless_ins st ++ [ins]
       | _ => vv_stateless_ins st
       end |}.

(** [_verify_version]: the boolean it returns and what it prints. *)
Definition _verify_version (ins_list : list Instruction) (program_version : Z)
  : bool * list Diagnostic :=
  let st :=
    fold_left (verify_ins program_version) ins_list
      {| vv_error := false; vv_stderr := [];
         vv_stateful_ins := []; vv_stateless_ins := [] |} in
  match vv_stateless_ins st, vv_stateful_ins st with
  | _ :: _, _ :: _ =>
      (true,
       vv_stderr st ++
         [BothModes (ins_line <$> vv_stateless_ins st)
                    (ins_line <$> vv_stateful_ins st)])
  | _, _ => (vv_error st, vv_stderr st)
  end.

(** [_identify_subroutine_blocks].  [stack] has its top first:
    [stack.pop()] takes the head and [stack.append] puts a new head. *)
Definition push_unseen (subroutines_blocks : list nat) (stack : list nat)
    (next_bb : nat) : list nat :=
  if bool_decide (next_bb ∉ subroutines_blocks) && bool_decide (next_bb ∉ stack)
  then next_bb :: stack
  else stack.

Definition successors (store : list BasicBlock) (b : nat) : list nat :=
  match store !! b with
  | Some bb => bb_next bb
  | None => []
  end.

(** At most [fuel] turns of the [while] loop: the lists
    [subroutines_blocks] and [stack] afterwards. *)
Fixpoint dfs_loop (fuel : nat) (store : list BasicBlock)
    (subroutines_blocks stack : list nat) : list nat * list nat :=
  match fuel, stack with
  | S fuel', bb :: stack' =>
      let subroutines_blocks := subroutines_blocks ++ [bb] in
      dfs_loop fuel' store subroutines_blocks
        (fold_left (push_unseen subroutines_blocks) (successors store bb) stack')
  | _, _ => (subroutines_blocks, stack)
  end.

(** Every block the loop can meet is the entry or a successor of a block
    of [store]; the loop takes each of them off the stack once at most. *)
Definition dfs_fuel (store : list BasicBlock) : nat :=
  S (length (store ≫= bb_next)).

Definition _identify_subroutine_blocks (store : list BasicBlock)
    (entry_block : nat) : list nat :=
  (dfs_loop (dfs_fuel store) store [] [entry_block]).1.

(** Modelled from the spec: a [Subroutine] object of
    [tealer/teal/subroutine.py]: its name, entry block, blocks and the
    blocks of the [callsub] instructions that call it. *)
Record Subroutine : Type := mkSubroutine {
  subroutine_name : string;
  subroutine_entry : nat;
  subroutine_blocks : list nat;
  caller_blocks : list (option nat)
}.

(** Modelled from the spec: the [Teal] object of [tealer/teal/teal.py],
    with the arenas its lists point into and what parsing printed on the
    error stream. *)
Record Teal : Type := mkTeal {
  teal_version : Z;
  teal_mode : ContractType;
  teal_instructions : list Instruction;
  teal_bbs : list nat;
  teal_store : list BasicBlock;
  teal_main : Subroutine;
  teal_subroutines : gmap string Subroutine;
  teal_int_constants : option (list Z);
  teal_byte_constants : option (list string);
  teal_contract_name : string;
  teal_stderr : list Diagnostic
}.

Definition set_subroutine_of (s : SubroutineRef) (blocks : list nat)
    (store : list BasicBlock) : list BasicBlock :=
  fold_left (λ store bi, alter (bb_set_subroutine s) bi store) blocks store.

(** One turn of the loop of [parse_teal] over [subroutine_callsubs]. *)
Definition discover_subroutine (labels : gmap string nat)
    (st : list Instruction * list BasicBlock * gmap string Subroutine)
    (item : string * list nat)
  : Outcome (list Instruction * list BasicBlock * gmap string Subroutine) :=
  let '(instructions, store, subroutines) := st in
  let '(subroutine_name, callsubs) := item in
  label_ins ← of_option (KeyError subroutine_name) (labels !! subroutine_name);
  subroutine_entry_block ←
    of_option AttributeError (instructions !! label_ins ≫= ins_bb);
  let store :=
    alter (bb_append_comment (Subroutine_named subroutine_name))
      subroutine_entry_block store in
  let subroutine_blocks := _identify_subroutine_blocks store subroutine_entry_block in
  let subroutine_obj :=
    {| subroutine_name := subroutine_name;
       subroutine_entry := subroutine_entry_block;
       subroutine_blocks := subroutine_blocks;
       caller_blocks := (λ ins, instructions !! ins ≫= ins_bb) <$> callsubs |} in
  let instructions :=
    fold_left
      (λ instructions ins,
         alter (ins_set_called_subroutine (NamedSubroutine subroutine_name))
           ins instructions)
      callsubs instructions in
  let store :=
    set_subroutine_of (NamedSubroutine subroutine_name) subroutine_blocks store in
  Ok (instructions, store, <[subroutine_name := subroutine_obj]> subroutines).

(** [for bi in all_bbs: if bi._subroutine is None: bi.subroutine = main_program] *)
Definition default_to_main (all_bbs : list nat) (store : list BasicBlock)
  : list BasicBlock :=
  fold_left
    (λ store bi,
       match store !! bi ≫= bb_subroutine with
       | None => alter (bb_set_subroutine MainSubroutine) bi store
       | Some _ => store
       end)
    all_bbs store.

(** [_fill_intc_bytec_info], for one of the two lists: the constants of
    the only instruction of the list when it lies in the entry block. *)
Definition only_in_entry_block {A : Type} (constants_of : InsClass -> option A)
    (instructions : list Instruction) (block_ins : list nat) (entry_block : nat)
  : option A :=
  match block_ins with
  | [i] =>
      match instructions !! i with
      | Some ins =>
          if bool_decide (ins_bb ins = Some entry_block)
          then constants_of (ins_class ins) else None
      | None => None
      end
  | _ => None
  end.

Section ParseTeal.

Variable parse_line : string -> ParseResult.

(** [parse_teal], up to the call of [_apply_transaction_context_analysis]
    (the dataflow analyses are other modules). *)
Definition parse_teal (source_code : string) (contract_name : string)
  : Outcome Teal :=
  let lines := PyStr.splitlines source_code in
  fp ← _first_pass parse_line lines;
  let labels := fp_labels fp in
  let subroutine_callsubs := fp_subroutines fp in
  instructions ← _second_pass (fp_instructions fp) labels;
  let cb := create_bb instructions in
  let instructions := cb_instructions cb in
  store ← _fourth_pass instructions (cb_all_bbs cb);
  '(all_bbs, store) ←
    _add_basic_blocks_idx instructions store (seq 0 (length store));
  let mode := _detect_contract_type instructions in
  first ← of_option IndexError (instructions !! 0%nat);
  let version :=
    match ins_class first with
    | Pragma program_version => program_version
    | _ => 1
    end in
  let '(_, stderr) := _verify_version instructions version in
  '(instructions, store, subroutines) ←
    for_each (discover_subroutine labels) subroutine_callsubs
      (instructions, store, ∅);
  entry ← of_option IndexError (all_bbs !! 0%nat);
  let main_entry_point_blocks := _identify_subroutine_blocks store entry in
  let main_program :=
    {| subroutine_name := "__main__";
       subroutine_entry := entry;
       subroutine_blocks := main_entry_point_blocks;
       caller_blocks := [] |} in
  let store := set_subroutine_of MainSubroutine main_entry_point_blocks store in
  let store := default_to_main all_bbs store in
  let store :=
    fold_left
      (λ store bb,
         alter (λ b, bb_insert_comment_first (block_id_and_cost (bb_idx b)) b)
           bb store)
      all_bbs store in
  Ok {| teal_version := version;
        teal_mode := mode;
        teal_instructions := instructions;
        teal_bbs := all_bbs;
        teal_store := store;
        teal_main := main_program;
        teal_subroutines := subroutines;
        teal_int_constants :=
          only_in_entry_block
            (λ c, match c with Intcblock cs => Some cs | _ => None end)
            instructions (fp_intcblock_ins fp) entry;
        teal_byte_constants :=
          only_in_entry_block
            (λ c, match c with Bytecblock cs => Some cs | _ => None end)
            instructions (fp_bytecblock_ins fp) entry;
        teal_contract_name := contract_name;
        teal_stderr := stderr |}.

End ParseTeal.

(** ** A fragment of [parse_line] *)

Module Sample.

(** The text before the first ["//"]. *)
Fixpoint before_comment (s : string) : string :=
  match s with
  | String "/" (String "/" _) => EmptyString
  | String c s' => String c (before_comment s')
  | EmptyString => EmptyString
  end.

(** [s.split()]: the words between runs of white space; [cur] is the
    word being read, reversed. *)
Fixpoint words_aux (cur : list ascii) (s : string) : list string :=
  let flush rest :=
    match cur with
    | [] => rest
    | _ => string_of_list_ascii (rev cur) :: rest
    end in
  match s with
  | EmptyString => flush []
  | String c s' =>
      if PyStr.isspace c then flush (words_aux [] s')
      else words_aux (c :: cur) s'
  end.

Definition words (s : string) : list string := words_aux [] s.

Fixpoint last_char (s : string) : option ascii :=
  match s with
  | EmptyString => None
  | String c EmptyString => Some c
  | String _ s' => last_char s'
  end.

Fixpoint without_last (s : string) : string :=
  match s with
  | EmptyString | String _ EmptyString => EmptyString
  | String c s' => String c (without_last s')
  end.

Definition plain (c : InsClass) (version : Z) (mode : ContractType)
  : ParseResult :=
  Parsed (Some {| parsed_class := c; parsed_version := version;
                  parsed_mode := mode; parsed_field := None |}).

(** Modelled from the spec: [parse_line] is not among the files at hand;
    this is the part of it that the scenarios of the specification
    exercise: blank lines, labels ([name:]), [#pragma version N], the
    branching, calling and exiting opcodes, and a few plain opcodes with
    the version and mode the specification gives them ([log] from
    version 5, [app_global_get] for applications, [arg] for
    signatures).  Anything else is a parse error. *)
Definition parse_line (line : string) : ParseResult :=
  match words (before_comment line) with
  | [] => Parsed None
  | ["#pragma"; "version"; n] =>
      match PyStr.int n 10 with
      | Some v => plain (Pragma v) 1 ANY
      | None => ParseError line
      end
  | ["b"; l] => plain (B l) 2 ANY
  | ["bz"; l] => plain (BZ l) 2 ANY
  | ["bnz"; l] => plain (BNZ l) 1 ANY
  | "switch" :: ls => plain (Switch ls) 8 ANY
  | "match" :: ls => plain (Match ls) 8 ANY
  | ["err"] => plain Err 1 ANY
  | ["return"] => plain Return 2 ANY
  | ["retsub"] => plain Retsub 4 ANY
  | ["callsub"; l] => plain (Callsub l) 4 ANY
  | ["int"; n] =>
      match _parse_int n with
      | Some _ => plain (OtherInstruction "int") 1 ANY
      | None => ParseError line
      end
  | ["pop"] => plain (OtherInstruction "pop") 1 ANY
  | ["log"] => plain (OtherInstruction "log") 5 STATEFULL
  | ["app_global_get"] => plain (OtherInstruction "app_global_get") 2 STATEFULL
  | ["arg"; n] =>
      match _parse_int n with
      | Some _ => plain (OtherInstruction "arg") 1 STATELESS
      | None => ParseError line
      end
  | ["txn"; f] =>
      match parse_transaction_field f false with
      | Ok ApplicationID =>
          Parsed (Some {| parsed_class := Txn; parsed_version := 1;
                          parsed_mode := ANY;
                          parsed_field :=
                            Some {| field_class := TransactionFieldClass;
                                    field_name := f;
                                    field_version := 2 |} |})
      | Ok _ =>
          Parsed (Some {| parsed_class := Txn; parsed_version := 1;
                          parsed_mode := ANY;
                          parsed_field :=
                            Some {| field_class := TransactionFieldClass;
                                    field_name := f;
                                    field_version := 1 |} |})
      | _ => ParseError line
      end
  | [w] =>
      match last_char w with
      | Some ":"%char => plain (Label (without_last w)) 1 ANY
      | _ => ParseError line
      end
  | _ => ParseError line
  end.

(** The program of [tests/detectors/subroutine_patterns.py]. *)
Definition MULTIPLE_RETURN_POINTS : string :=
"
#pragma version 7       // B0
callsub subroutine_0
callsub subroutine_0    // B1
int 1                   // B2
return
subroutine_0:           // B3
    retsub
".

End Sample.


(** ** [__main__.py]: [handle_output] *)

Section Output.

(** Modelled from the spec: the results of detectors ([SupportedOutput],
    of [tealer/utils/output.py]), what their [to_json] gives and the
    results of printers are left open. *)
Variables SupportedOutput Json PrinterResult : Type.
Variable to_json : SupportedOutput -> Json.

(** The options [handle_output] reads. *)
Record Args : Type := mkArgs {
  args_json : option string;
  args_dest : string;
  args_all_paths_in_one : bool
}.

(** The dict [json_output]. *)
Record JsonOutput : Type := mkJsonOutput {
  success : bool;
  error : option string;
  result : list Json
}.

(** What [handle_output] does, by case. *)
Inductive OutputAction : Type :=
| PrintErrorAndExit (error : string) (code : Z)
| WriteToFiles (outputs : list SupportedOutput) (dest : string)
    (all_paths_in_one : bool)
| PrintJson (json_output : JsonOutput)
| WriteJsonFile (dest filename : string) (json_output : JsonOutput).

(** [handle_output] *)
Definition handle_output (args : Args) (detector_results : list SupportedOutput)
    (_printer_results : list PrinterResult) (error : option string)
  : OutputAction :=
  match args_json args with
  | None =>
      match error with
      | Some e => PrintErrorAndExit e (-1)
      | None =>
          WriteToFiles detector_results (args_dest args)
            (args_all_paths_in_one args)
      end
  | Some json =>
      let json_results := to_json <$> detector_results in
      let json_output :=
        {| success := bool_decide (error ≠ None);
           error := error;
           result := json_results |} in
      if String.eqb json "-" then PrintJson json_output
      else WriteJsonFile (args_dest args) json json_output
  end.

(** The serialized object of a run, if the run produces one. *)
Definition json_of (a : OutputAction) : option JsonOutput :=
  match a with
  | PrintJson j | WriteJsonFile _ _ j => Some j
  | _ => None
  end.

End Output.

Arguments success {Json} _.
Arguments error {Json} _.
Arguments result {Json} _.
Arguments json_of {SupportedOutput Json} a.
Arguments PrintJson {SupportedOutput Json} json_output.

(** ** Integer literals, as the specification describes them *)

(** The three ways of writing an integer, by the digits that follow the
    prefix, most significant first. *)
Inductive IntLiteral : Type :=
| HexLiteral (digits : string)
| OctalLiteral (digits : string)
| DecimalLiteral (digits : string).

(** The text of a literal: [0x] before hexadecimal digits, [0] before
    octal digits, nothing before decimal digits. *)
Definition literal_text (l : IntLiteral) : string :=
  match l with
  | HexLiteral ds => String "0" (String "x" ds)
  | OctalLiteral ds => String "0" ds
  | DecimalLiteral ds => ds
  end.

Fixpoint index_of (c : ascii) (s : string) : option nat :=
  match s with
  | EmptyString => None
  | String c' s' => if Ascii.eqb c c' then Some 0%nat else S <$> index_of c s'
  end.

(** The value of a digit: its place among [0123456789abcdef], in either
    case. *)
Definition digit_of_char (c : ascii) : option Z :=
  match index_of c "0123456789abcdef", index_of c "0123456789ABCDEF" with
  | Some d, _ | None, Some d => Some (Z.of_nat d)
  | None, None => None
  end.

Definition is_digit_of (base : Z) (c : ascii) : bool :=
  match digit_of_char c with
  | Some d => d <? base
  | None => false
  end.

Fixpoint all_digits_of (base : Z) (s : string) : bool :=
  match s with
  | EmptyString => true
  | String c s' => is_digit_of base c && all_digits_of base s'
  end.

(** The number written by digits in a base: each digit times the power of
    the base of its place. *)
Fixpoint positional_value (base : Z) (s : string) : Z :=
  match s with
  | EmptyString => 0
  | String c s' =>
      default 0 (digit_of_char c) * base ^ Z.of_nat (String.length s')
      + positional_value base s'
  end.

Definition literal_value (l : IntLiteral) : Z :=
  match l with
  | HexLiteral ds => positional_value 16 ds
  | OctalLiteral ds => positional_value 8 ds
  | DecimalLiteral ds => positional_value 10 ds
  end.

(** A hexadecimal literal has a digit at least; the octal literal without
    digits is the text [0]; a decimal literal does not begin with [0]. *)
Definition well_formed_literal (l : IntLiteral) : bool :=
  match l with
  | HexLiteral ds =>
      negb (String.eqb ds "") && all_digits_of 16 ds
  | OctalLiteral ds => all_digits_of 8 ds
  | DecimalLiteral ds =>
      match ds with
      | String c _ => negb (Ascii.eqb c "0") && all_digits_of 10 ds
      | EmptyString => false
      end
  end.

(** What [int] needs of a character that the specification counts as a
    digit of the base: it reads it with the same value, and takes it
    for nothing else. *)
Definition plain_digit (base : Z) (c : ascii) : bool :=
  implb (is_digit_of base c)
    (bool_decide (PyStr.digit_in base c = digit_of_char c)
     && negb (PyStr.isspace c)
     && negb (Ascii.eqb c "_") && negb (Ascii.eqb c "-")
     && negb (Ascii.eqb c "+")
     && negb (Ascii.eqb c "x") && negb (Ascii.eqb c "X")
     && negb (Ascii.eqb c "o") && negb (Ascii.eqb c "O")).

(** ** Field tokens, as the specification describes them *)

(** The five array fields, by name, in the order in which
    [parse_transaction_field] tries them. *)
Definition array_fields : list (string * (Z -> TransactionField)) :=
  [("Accounts", Accounts); ("ApplicationArgs", ApplicationArgs);
   ("Applications", Applications); ("Assets", Assets); ("Logs", Logs)].

(** The array field a token names: the one whose name it begins with. *)
Definition array_field_of (tx_field : string)
  : option (string * (Z -> TransactionField)) :=
  List.find (λ p, PyStr.startswith tx_field p.1) array_fields.

Definition is_array_field (f : TransactionField) : bool :=
  match f with
  | Accounts _ | ApplicationArgs _ | Applications _ | Assets _ | Logs _ => true
  | _ => false
  end.

(** ** Instructions used as examples *)

(** An instruction of version 5 (as [itxn]) that carries a transaction
    field of version 6 (as [StateProofPK]), on line 2. *)
Definition itxn_StateProofPK : Instruction :=
  ins_set_line 2
    (new_instruction
       {| parsed_class := OtherInstruction "itxn";
          parsed_version := 5;
          parsed_mode := STATEFULL;
          parsed_field :=
            Some {| field_class := TransactionFieldClass;
                    field_name := "StateProofPK";
                    field_version := 6 |} |}).

(** An instruction of version 2 (as [txn]) with the same field. *)
Definition txn_StateProofPK : Instruction :=
  ins_set_line 2
    (new_instruction
       {| parsed_class := Txn;
          parsed_version := 2;
          parsed_mode := ANY;
          parsed_field :=
            Some {| field_class := TransactionFieldClass;
                    field_name := "StateProofPK";
                    field_version := 6 |} |}).

(** ** Lines and labels, as the specification speaks of them *)

(** A line that is not malformed: a comment, or a line [parse_line]
    accepts. *)
Definition well_formed_line (parse_line : string -> ParseResult) (line : string)
  : Prop :=
  is_comment_line line = true \/ exists r, parse_line line = Parsed r.

(** A line that gives no instruction: a comment or a blank line. *)
Definition no_instruction_line (parse_line : string -> ParseResult) (line : string)
  : Prop :=
  is_comment_line line = true \/ parse_line line = Parsed None.

(** A line that is turned into an instruction. *)
Definition instruction_line (parse_line : string -> ParseResult) (line : string)
  : Prop :=
  is_comment_line line = false /\ exists p, parse_line line = Parsed (Some p).

(** The instruction at position [t] is the last [Label] of the name. *)
Definition is_last_label (instructions : list Instruction) (name : string)
    (t : nat) : Prop :=
  (ins_class <$> instructions) !! t = Some (Label name)
  /\ forall j, (t < j)%nat ->
       (ins_class <$> instructions) !! j <> Some (Label name).

(** The default links of the instruction at position [i], given the
    classes of all instructions: to the next instruction unless this one
    is an unconditional jump or exit, and from the previous instruction
    unless that one is. *)
Definition default_next (classes : list InsClass) (i : nat) : list nat :=
  match classes !! i, classes !! S i with
  | Some c, Some _ => if is_unconditional_jump_or_exit c then [] else [S i]
  | _, _ => []
  end.

Definition default_prev (classes : list InsClass) (i : nat) : list nat :=
  match i with
  | O => []
  | S j =>
      match classes !! j with
      | Some c => if is_unconditional_jump_or_exit c then [] else [j]
      | None => []
      end
  end.

(** What holds of the state of [_first_pass] after each line. *)
Record first_pass_inv (st : FirstPass) : Prop := mkFirstPassInv {
  fpi_idx : 0 <= fp_idx st;
  fpi_prev :
    fp_prev st
    = head (default_prev (ins_class <$> fp_instructions st)
              (length (fp_instructions st)));
  fpi_links : forall i ins,
    fp_instructions st !! i = Some ins ->
    ins_next ins = default_next (ins_class <$> fp_instructions st) i
    /\ ins_prev ins = default_prev (ins_class <$> fp_instructions st) i
    /\ ins_bb ins = None;
  fpi_lines : forall i ins,
    fp_instructions st !! i = Some ins -> 1 <= ins_line ins <= fp_idx st;
  fpi_lines_increase : forall i j a b,
    (i < j)%nat ->
    fp_instructions st !! i = Some a -> fp_instructions st !! j = Some b ->
    ins_line a < ins_line b;
  fpi_labels : forall name t,
    fp_labels st !! name = Some t <-> is_last_label (fp_instructions st) name t
}.

(** The labels an instruction jumps to: those of [B], [BZ], [BNZ],
    [Switch] and [Match]. *)
Definition jump_targets (c : InsClass) : list string :=
  match c with
  | B l | BZ l | BNZ l => [l]
  | Switch ls | Match ls => ls
  | _ => []
  end.

(** An unconditional jump ([B]) or an unconditional exit ([Err],
    [Return], [Retsub]). *)
Definition jump_or_exit (c : InsClass) : Prop :=
  (exists l, c = B l) \/ c = Err \/ c = Return \/ c = Retsub.

(** The instructions the jumps of an instruction lead to, given the map
    of labels. *)
Definition targets_of (labels : gmap string nat) (c : InsClass) : list nat :=
  omap (λ l, labels !! l) (jump_targets c).

(** [instructions'] is [instructions] after the instruction at position
    [i] was linked to the targets [ts], in this order: the instruction
    has them as further successors, each of them has the instruction
    among its further predecessors, and nothing else has changed of the
    successors. *)
Definition linked_to (i : nat) (ts : list nat)
    (instructions instructions' : list Instruction) : Prop :=
  ins_class <$> instructions' = ins_class <$> instructions
  /\ forall k a, instructions !! k = Some a ->
       exists a', instructions' !! k = Some a'
         /\ ins_next a' = ins_next a ++ (if decide (k = i) then ts else [])
         /\ exists ps, ins_prev a' = ins_prev a ++ ps /\ (k ∈ ts -> i ∈ ps).

(** [instructions'] is [instructions] after the turns of the loop of
    [_second_pass] for the first [m] instructions. *)
Definition jumps_linked (labels : gmap string nat) (m : nat)
    (instructions instructions' : list Instruction) : Prop :=
  ins_class <$> instructions' = ins_class <$> instructions
  /\ forall k a, instructions !! k = Some a ->
       exists a', instructions' !! k = Some a'
         /\ ins_next a' =
            ins_next a ++
              (if decide (k < m)%nat then targets_of labels (ins_class a) else [])
         /\ ((k < m)%nat ->
             Forall2 (λ l t, labels !! l = Some t)
               (jump_targets (ins_class a)) (targets_of labels (ins_class a)))
         /\ exists ps, ins_prev a' = ins_prev a ++ ps
              /\ forall j b, (j < m)%nat -> instructions !! j = Some b ->
                   k ∈ targets_of labels (ins_class b) -> j ∈ ps.

(** The order of [sorted] on elements paired with their keys. *)
Definition key_le {A : Type} (x y : Z * A) : Prop := x.1 <= y.1.

(** ** Reachability between basic blocks *)

(** One step along a successor edge of the block graph. *)
Definition succ_edge (store : list BasicBlock) (a b : nat) : Prop :=
  b ∈ successors store a.

(** [b] is reachable from [a] by following successor edges. *)
Definition reachable (store : list BasicBlock) (a b : nat) : Prop :=
  rtc (succ_edge store) a b.

(** What holds of [subroutines_blocks] and [stack] at each turn of the
    loop of [_identify_subroutine_blocks] started at [entry]. *)
Record dfs_inv (store : list BasicBlock) (entry : nat)
    (visited stack : list nat) : Prop := mkDfsInv {
  dfs_nodup : NoDup (visited ++ stack);
  dfs_reachable : forall x, x ∈ visited ++ stack -> reachable store entry x;
  dfs_closed : forall v s,
    v ∈ visited -> s ∈ successors store v -> s ∈ visited ++ stack;
  dfs_entry : entry ∈ visited ++ stack;
  dfs_universe : forall x,
    x ∈ visited ++ stack -> x ∈ entry :: (store ≫= bb_next)
}.

(** ** The stages of [parse_teal] *)

(** The values [parse_teal] goes through before it returns [teal]: the
    state after pass 1, the instructions after pass 2, the blocks after
    pass 4, the numbered blocks, and the instructions, blocks and
    subroutines after the loop over [subroutine_callsubs]. *)
Record parse_teal_stages (parse_line : string -> ParseResult)
    (source_code : string) (teal : Teal) : Type := mkStages {
  st_fp : FirstPass;
  st_instructions2 : list Instruction;
  st_store4 : list BasicBlock;
  st_store5 : list BasicBlock;
  st_store6 : list BasicBlock;
  st_entry : nat;
  st_first_pass :
    _first_pass parse_line (PyStr.splitlines source_code) = Ok st_fp;
  st_second_pass :
    _second_pass (fp_instructions st_fp) (fp_labels st_fp) = Ok st_instructions2;
  st_fourth_pass :
    _fourth_pass (cb_instructions (create_bb st_instructions2))
      (cb_all_bbs (create_bb st_instructions2)) = Ok st_store4;
  st_idx :
    _add_basic_blocks_idx (cb_instructions (create_bb st_instructions2))
      st_store4 (seq 0 (length st_store4)) = Ok (teal_bbs teal, st_store5);
  st_discover :
    for_each (discover_subroutine (fp_labels st_fp)) (fp_subroutines st_fp)
      (cb_instructions (create_bb st_instructions2), st_store5, ∅)
    = Ok (teal_instructions teal, st_store6, teal_subroutines teal);
  st_entry_block : teal_bbs teal !! 0%nat = Some st_entry;
  st_main :
    teal_main teal =
    {| subroutine_name := "__main__";
       subroutine_entry := st_entry;
       subroutine_blocks := _identify_subroutine_blocks st_store6 st_entry;
       caller_blocks := [] |};
  st_store :
    teal_store teal =
    fold_left
      (λ store bb,
         alter (λ b, bb_insert_comment_first (block_id_and_cost (bb_idx b)) b)
           bb store)
      (teal_bbs teal)
      (default_to_main (teal_bbs teal)
         (set_subroutine_of MainSubroutine
            (_identify_subroutine_blocks st_store6 st_entry) st_store6))
}.

(** The attributes of a block that stay as they are once the blocks are
    numbered, and those of an instruction that stay as they are once
    pass 2 is over. *)
Definition bb_shape (b : BasicBlock) : list nat * list nat * list nat * option nat :=
  (bb_instructions b, bb_next b, bb_prev b, bb_idx b).

Definition ins_shape (i : Instruction) : InsClass * Z * list nat * list nat :=
  (ins_class i, ins_line i, ins_next i, ins_prev i).

(** What holds of the state of [create_bb] before the turn of its loop
    for the instruction at position [i]: the blocks made so far hold, one
    after the other, the instructions before [i]; the block being filled
    is the last one made. *)
Record create_bb_inv (instructions : list Instruction) (i : nat)
    (st : CreateBB) : Prop := mkCreateBBInv {
  cbi_concat : concat (bb_instructions <$> cb_all_bbs st) = seq 0 i;
  cbi_current : S (cb_bb st) = length (cb_all_bbs st);
  cbi_shape : ins_shape <$> cb_instructions st = ins_shape <$> instructions;
  cbi_subroutine : Forall (λ b, bb_subroutine b = None) (cb_all_bbs st)
}.

(** The subroutine a block refers to, if the block exists and has one. *)
Definition subroutine_of (store : list BasicBlock) (b : nat)
  : option SubroutineRef :=
  store !! b ≫= bb_subroutine.

(** What holds of the subroutines and blocks at each turn of the loop of
    [parse_teal] over [subroutine_callsubs]; [instructions0] and [store0]
    are the instructions and blocks before the loop. *)
Record discover_inv (labels : gmap string nat)
    (instructions0 : list Instruction) (store0 : list BasicBlock)
    (store : list BasicBlock) (subs : gmap string Subroutine) : Prop :=
  mkDiscoverInv {
  di_subs : forall name sub,
    subs !! name = Some sub ->
    (exists label_ins,
        labels !! name = Some label_ins
        /\ instructions0 !! label_ins ≫= ins_bb = Some (subroutine_entry sub))
    /\ forall b,
         b ∈ subroutine_blocks sub <-> reachable store0 (subroutine_entry sub) b;
  di_blocks : forall b,
    match subroutine_of store b with
    | None => True
    | Some MainSubroutine => False
    | Some (NamedSubroutine name) =>
        exists sub, subs !! name = Some sub /\ b ∈ subroutine_blocks sub
    end
}.

(** ** Modes and diagnostics, as a reader of the output sees them *)

(** The lines of the instructions of a mode, in order. *)
Definition lines_of_mode (m : ContractType) (ins_list : list Instruction) : list Z :=
  ins_line <$> filter (λ ins, ins_mode ins = m) ins_list.

(** ** The instructions of a source, as its lines give them *)

(** The lines that are turned into instructions, each with its number
    (the first line of the list has the number [k]) and with what
    [parse_line] makes of it. *)
Fixpoint numbered_instructions (parse_line : string -> ParseResult) (k : Z)
    (lines : list string) : list (Z * ParsedInstruction) :=
  match lines with
  | [] => []
  | line :: lines' =>
      (if is_comment_line line then []
       else
         match parse_line line with
         | Parsed (Some p) => [(k, p)]
         | _ => []
         end)
      ++ numbered_instructions parse_line (k + 1) lines'
  end.

(** What [parse_line] made of the line of an instruction. *)
Definition parsed_of (a : Instruction) : ParsedInstruction :=
  {| parsed_class := ins_class a;
     parsed_version := ins_version a;
     parsed_mode := ins_mode a;
     parsed_field := ins_field a |}.

(** What an instruction keeps of its line: the number of the line, what
    [parse_line] made of it, and the comments before it. *)
Definition ins_origin (a : Instruction) : Z * ParsedInstruction * list string :=
  (ins_line a, parsed_of a, comments_before_ins a).

(** The positions of the instructions whose class satisfies [P]. *)
Definition positions_of (P : InsClass -> bool) (instructions : list Instruction)
  : list nat :=
  filter (λ i, default false (P ∘ ins_class <$> instructions !! i))
    (seq 0 (length instructions)).

Definition is_Intcblock (c : InsClass) : bool :=
  match c with Intcblock _ => true | _ => false end.
Definition is_Bytecblock (c : InsClass) : bool :=
  match c with Bytecblock _ => true | _ => false end.
Definition is_Callsub_to (name : string) (c : InsClass) : bool :=
  bool_decide (c = Callsub name).

(** What holds of the lists the first pass collects: the positions of the
    constant blocks, and for each label called the positions of the
    [callsub] instructions that call it. *)
Record first_pass_lists (st : FirstPass) : Prop := mkFirstPassLists {
  fpl_intcblock :
    fp_intcblock_ins st = positions_of is_Intcblock (fp_instructions st);
  fpl_bytecblock :
    fp_bytecblock_ins st = positions_of is_Bytecblock (fp_instructions st);
  fpl_keys : NoDup (fp_subroutines st).*1;
  fpl_callsubs : forall name ps,
    (name, ps) ∈ fp_subroutines st
    <-> ps <> [] /\ ps = positions_of (is_Callsub_to name) (fp_instructions st)
}.

(** ** The blocks that [create_bb] makes *)

(** The tests of the two [if]s of [create_bb] that close a block after
    an instruction: after the first one the block made next is a default
    successor, after the second one it is not. *)
Definition closes_with_edge (ins : Instruction) : bool :=
  bool_decide (1 < length (ins_next ins))%nat || is_Callsub (ins_class ins).

Definition closes_without_edge (ins : Instruction) : bool :=
  bool_decide (length (ins_next ins) = 0%nat) || is_B (ins_class ins).

(** The instruction at position [j] closes no block and the instruction
    after it is no label. *)
Definition joined (instructions : list Instruction) (j : nat) : bool :=
  match instructions !! j, instructions !! S j with
  | Some a, Some a' =>
      negb (closes_with_edge a) && negb (closes_without_edge a)
      && negb (is_Label (ins_class a'))
  | _, _ => false
  end.

(** The block has a last instruction, and [create_bb] goes on after it
    with a default edge: the first [if] holds of it or the second does
    not. *)
Definition falls_through (instructions : list Instruction) (blk : BasicBlock)
  : bool :=
  match last (bb_instructions blk) ≫= (instructions !!.) with
  | Some a => closes_with_edge a || negb (closes_without_edge a)
  | None => false
  end.

(** What holds of the blocks of [create_bb] before the turn of its loop
    for the instruction at position [i]: each instruction before [i] lies
    in the block its [bb] names; two instructions in a row share their
    block when they are joined; a block has the block made after it as
    its only successor when it falls through, and none otherwise; a
    block that is left empty comes after an instruction of which both
    tests hold. *)
Record create_bb_blocks (instructions : list Instruction) (i : nat)
    (st : CreateBB) : Prop := mkCreateBBBlocks {
  cbb_inv : create_bb_inv instructions i st;
  cbb_member : forall j a,
    (j < i)%nat -> cb_instructions st !! j = Some a ->
    exists b blk,
      ins_bb a = Some b /\ cb_all_bbs st !! b = Some blk
      /\ j ∈ bb_instructions blk;
  cbb_joined : forall j a a',
    (S j < i)%nat ->
    cb_instructions st !! j = Some a -> cb_instructions st !! S j = Some a' ->
    ins_bb a = ins_bb a' <-> joined instructions j = true;
  cbb_next : forall b blk,
    cb_all_bbs st !! b = Some blk ->
    bb_next blk =
    if bool_decide (S b < length (cb_all_bbs st))%nat
       && falls_through instructions blk
    then [S b] else [];
  cbb_prev : forall b blk,
    cb_all_bbs st !! b = Some blk ->
    bb_prev blk =
    match b with
    | O => []
    | S p =>
        match cb_all_bbs st !! p with
        | Some pb => if falls_through instructions pb then [p] else []
        | None => []
        end
    end;
  cbb_empty : forall b blk,
    cb_all_bbs st !! b = Some blk -> bb_instructions blk = [] ->
    b = cb_bb st
    \/ exists j a,
         instructions !! j = Some a /\ (S j < length instructions)%nat
         /\ closes_with_edge a = true /\ closes_without_edge a = true
}.

(** What holds of the block being filled before the turn for the
    instruction at position [i]: it is empty when the instruction before
    closed a block, and ends with that instruction otherwise. *)
Definition create_bb_open (instructions : list Instruction) (i : nat)
    (st : CreateBB) : Prop :=
  match i with
  | O => cb_all_bbs st !! cb_bb st = Some new_bb
  | S i' =>
      exists a blk,
        cb_instructions st !! i' = Some a
        /\ cb_all_bbs st !! cb_bb st = Some blk
        /\ if bool_decide (S i' < length instructions)%nat
              && (closes_with_edge a || closes_without_edge a)
           then bb_instructions blk = []
           else ins_bb a = Some (cb_bb st)
                /\ last (bb_instructions blk) = Some i'
  end.

(** ** The instructions after the second pass *)

(** What the two passes over the instructions leave: the successors of
    an instruction are its default successor followed by the targets of
    its jumps, each label it jumps to has a target, and the map of labels
    holds, under each name, the last label of this name. *)
Record linked_program (labels : gmap string nat)
    (instructions : list Instruction) : Prop := mkLinkedProgram {
  lp_next : forall k a,
    instructions !! k = Some a ->
    ins_next a
    = default_next (ins_class <$> instructions) k
      ++ targets_of labels (ins_class a);
  lp_targets : forall k a,
    instructions !! k = Some a ->
    Forall2 (λ l t, labels !! l = Some t)
      (jump_targets (ins_class a)) (targets_of labels (ins_class a));
  lp_labels : forall name t,
    labels !! name = Some t <-> is_last_label instructions name t
}.

(** ** The edges between blocks *)

(** The block of the instruction at a position: [ins.bb]. *)
Definition bb_of (instructions : list Instruction) (i : nat) : option nat :=
  instructions !! i ≫= ins_bb.

(** [b'] is in [b.next]; [b] is in [b'.prev]. *)
Definition has_next (bbs : list BasicBlock) (b b' : nat) : Prop :=
  exists blk, bbs !! b = Some blk /\ b' ∈ bb_next blk.

Definition has_prev (bbs : list BasicBlock) (b' b : nat) : Prop :=
  exists blk', bbs !! b' = Some blk' /\ b ∈ bb_prev blk'.

(** The successors and the predecessors of the blocks mirror each other,
    lead to blocks of the list, and hold no block twice. *)
Record edges_ok (bbs : list BasicBlock) : Prop := mkEdgesOk {
  eo_sym : forall b b', has_next bbs b b' <-> has_prev bbs b' b;
  eo_range : forall b b', has_next bbs b b' -> (b' < length bbs)%nat;
  eo_nodup : forall b blk,
    bbs !! b = Some blk -> NoDup (bb_next blk) /\ NoDup (bb_prev blk)
}.

(** The last instruction of the block [b] has a successor that lies in
    the block [b']. *)
Definition exit_successor (instructions : list Instruction)
    (bbs : list BasicBlock) (b b' : nat) : Prop :=
  exists blk e a n,
    bbs !! b = Some blk /\ last (bb_instructions blk) = Some e
    /\ instructions !! e = Some a /\ n ∈ ins_next a
    /\ bb_of instructions n = Some b'.

(** Each block has a last instruction, and the successors of this one
    lie in blocks of the list. *)
Definition exits_known (instructions : list Instruction)
    (bbs : list BasicBlock) : Prop :=
  forall b blk,
    bbs !! b = Some blk ->
    exists e a,
      last (bb_instructions blk) = Some e /\ instructions !! e = Some a
      /\ Forall (λ n, exists b', bb_of instructions n = Some b'
                        /\ (b' < length bbs)%nat) (ins_next a).

(** ** The sources that [parse_teal] accepts *)

(** The classes of the instructions of a source, in order. *)
Definition source_classes (parse_line : string -> ParseResult)
    (lines : list string) : list InsClass :=
  (λ x, parsed_class x.2) <$> numbered_instructions parse_line 1 lines.

(** The labels an instruction needs: those it jumps to, and the one a
    [callsub] calls. *)
Definition labels_used (c : InsClass) : list string :=
  match c with
  | Callsub l => [l]
  | _ => jump_targets c
  end.

(** Each label that an instruction needs is the label of an instruction. *)
Definition labels_defined (classes : list InsClass) : Prop :=
  forall c l, c ∈ classes -> l ∈ labels_used c -> Label l ∈ classes.

(** What the loop of [parse_teal] over [subroutine_callsubs] stores for
    the label [name] that the instructions at the positions [callsubs]
    call: the name, the block of the label as entry block, and the blocks
    of the calling instructions, in their order. *)
Definition subroutine_for (labels : gmap string nat)
    (instructions : list Instruction) (name : string) (callsubs : list nat)
    (sub : Subroutine) : Prop :=
  subroutine_name sub = name
  /\ labels !! name ≫= bb_of instructions = Some (subroutine_entry sub)
  /\ caller_blocks sub = bb_of instructions <$> callsubs.

(** What an instruction has from its line of the source: the number of
    the line and what [parse_line] made of it. *)
Definition ins_source (a : Instruction) : Z * ParsedInstruction :=
  (ins_line a, parsed_of a).

(** ** The choice of detectors and printers ([tealer/__main__.py]) *)

(** What [raise TealerException(msg)] gives, or the value returned. *)
Inductive Chosen (A : Type) : Type :=
| Returned (a : A)
| TealerException (msg : string).

Arguments Returned {A} a.
Arguments TealerException {A} msg.

(** The options [choose_detectors] and [choose_printers] read. *)
Record ChooseArgs : Type := mkChooseArgs {
  detectors_to_run : string;
  detectors_to_exclude : option string;
  exclude_stateful : bool;
  exclude_stateless : bool;
  printers_to_run : option string
}.

(** [{c.NAME: c for c in classes}]: a later class replaces an earlier one
    of the same name. *)
Definition by_name {C : Type} (NAME : C -> string) (classes : list C)
  : gmap string C :=
  foldl (λ m c, <[NAME c := c]> m) ∅ classes.

(** The loop over the names of [choose_detectors] and of
    [choose_printers]: the classes of the names, in order, or the
    exception for the first name that is no key; [message] builds the
    text of the exception. *)
Fixpoint choose_by_name {C : Type} (classes : gmap string C)
    (message : string -> string) (names : list string) : Chosen (list C) :=
  match names with
  | [] => Returned []
  | name :: names' =>
      match classes !! name with
      | Some c =>
          match choose_by_name classes message names' with
          | Returned cs => Returned (c :: cs)
          | TealerException msg => TealerException msg
          end
      | None => TealerException (message name)
      end
  end.

Section Choose.

(** Modelled from the spec: the detector and printer classes (subclasses
    of [AbstractDetector] and [AbstractPrinter], of other modules) are
    values with a [NAME], and for detectors a [TYPE]; of the values of
    [DetectorType] only the two that [choose_detectors] compares with
    are named. *)
Variables Detector Printer DetectorType : Type.
Context `{EqDecision DetectorType}.
Variable DetectorType_STATEFULL DetectorType_STATELESS : DetectorType.
Variable Detector_NAME : Detector -> string.
Variable Detector_TYPE : Detector -> DetectorType.
Variable Printer_NAME : Printer -> string.

(** [choose_detectors] *)
Definition choose_detectors (args : ChooseArgs)
    (all_detector_classes : list Detector) : Chosen (list Detector) :=
  let detectors := by_name Detector_NAME all_detector_classes in
  match
    if String.eqb (detectors_to_run args) "all"
    then Returned all_detector_classes
    else
      choose_by_name detectors
        (λ detector, "Error: " +:+ detector +:+ " is not a detector")
        (PyStr.split (detectors_to_run args) ","%char)
  with
  | TealerException msg => TealerException msg
  | Returned detectors_to_run =>
      let detectors_to_run :=
        match detectors_to_exclude args with
        | Some exclude =>
            if String.eqb exclude "" then detectors_to_run
            else
              filter (λ d, PyStr.contains exclude (Detector_NAME d) = false)
                detectors_to_run
        | None => detectors_to_run
        end in
      let detectors_to_run :=
        if exclude_stateful args
        then filter (λ d, Detector_TYPE d <> DetectorType_STATEFULL) detectors_to_run
        else detectors_to_run in
      let detectors_to_run :=
        if exclude_stateless args
        then filter (λ d, Detector_TYPE d <> DetectorType_STATELESS) detectors_to_run
        else detectors_to_run in
      Returned detectors_to_run
  end.

(** [choose_printers] *)
Definition choose_printers (args : ChooseArgs)
    (all_printer_classes : list Printer) : Chosen (list Printer) :=
  match printers_to_run args with
  | None => Returned []
  | Some names =>
      choose_by_name (by_name Printer_NAME all_printer_classes)
        (λ printer, printer +:+ " is not a printer")
        (PyStr.split names ","%char)
  end.

End Choose.

(** [sub] occurs in [s]: some characters, then [sub], then the rest. *)
Definition occurs_in (sub s : string) : Prop :=
  exists before after, s = before +:+ sub +:+ after.

(** [c] is the last class of the list that has the name. *)
Definition last_named {C : Type} (NAME : C -> string) (classes : list C)
    (name : string) (c : C) : Prop :=
  exists before after,
    classes = before ++ c :: after /\ NAME c = name
    /\ Forall (λ c', NAME c' <> name) after.


(** * Properties *)

(** ** Command line output *)

Lemma handle_output_json_object
    {SupportedOutput Json PrinterResult : Type} (to_json : SupportedOutput -> Json)
    (args : Args) (detector_results : list SupportedOutput)
    (printer_results : list PrinterResult)
    (error : option string) (json : string) :
  args_json args = Some json ->
  json_of (handle_output SupportedOutput Json PrinterResult to_json args
             detector_results printer_results error)
  = Some {| success := bool_decide (error ≠ None);
            error := error;
            result := to_json <$> detector_results |}.
Proof.
  intros Hjson. unfold handle_output. rewrite Hjson.
  destruct (String.eqb json "-"); reflexivity.
Qed.

(** C1, on the code: a run with [--json -] that ends without an error
    prints an object whose [error] is null and whose [success] is false. *)
Theorem handle_output_no_error_success_false :
  handle_output nat nat nat id
    {| args_json := Some "-"; args_dest := "."; args_all_paths_in_one := false |}
    [] [] None
  = PrintJson {| success := false; error := None; result := [] |}.
Proof. reflexivity. Qed.

(** ** Integer literals *)

Section IntLiterals.

Lemma plain_digit_16 c : plain_digit 16 c = true.
Proof. destruct c as [[] [] [] [] [] [] [] []]; vm_compute; reflexivity. Qed.

Lemma plain_digit_8 c : plain_digit 8 c = true.
Proof. destruct c as [[] [] [] [] [] [] [] []]; vm_compute; reflexivity. Qed.

Lemma plain_digit_10 c : plain_digit 10 c = true.
Proof. destruct c as [[] [] [] [] [] [] [] []]; vm_compute; reflexivity. Qed.

Variable base : Z.
Hypothesis plain : forall c, plain_digit base c = true.

Lemma digit_facts c :
  is_digit_of base c = true ->
  PyStr.digit_in base c = digit_of_char c
  /\ PyStr.isspace c = false
  /\ Ascii.eqb c "_" = false /\ Ascii.eqb c "-" = false
  /\ Ascii.eqb c "+" = false
  /\ Ascii.eqb c "x" = false /\ Ascii.eqb c "X" = false
  /\ Ascii.eqb c "o" = false /\ Ascii.eqb c "O" = false.
Proof.
  intros Hd. pose proof (plain c) as Hp. unfold plain_digit in Hp.
  rewrite Hd in Hp. simpl in Hp.
  repeat (apply andb_prop in Hp; destruct Hp as [Hp ?]).
  apply bool_decide_eq_true_1 in Hp.
  repeat match goal with
         | H : negb _ = true |- _ => apply negb_true_iff in H
         end.
  repeat split; assumption.
Qed.

Lemma is_digit_of_value c :
  is_digit_of base c = true -> exists d, digit_of_char c = Some d.
Proof.
  unfold is_digit_of. destruct (digit_of_char c); [eauto | discriminate].
Qed.

Lemma int_digits_value s : forall acc,
  all_digits_of base s = true ->
  PyStr.int_digits base false acc s
  = Some (acc * base ^ Z.of_nat (String.length s) + positional_value base s).
Proof.
  induction s as [| c s IH]; intros acc Hall; simpl.
  - f_equal. lia.
  - simpl in Hall. apply andb_prop in Hall as [Hc Hs].
    destruct (digit_facts c Hc) as (Hin & _ & Hus & _).
    destruct (is_digit_of_value c Hc) as [d Hd].
    rewrite Hus, Hin, Hd. simpl. rewrite (IH _ Hs). f_equal.
    rewrite Nat2Z.inj_succ, Z.pow_succ_r by lia. ring.
Qed.

Lemma lstrip_digits s :
  all_digits_of base s = true -> PyStr.lstrip s = s.
Proof.
  destruct s as [| c s]; [reflexivity |]. simpl. intros Hall.
  apply andb_prop in Hall as [Hc _].
  destruct (digit_facts c Hc) as (_ & Hsp & _). by rewrite Hsp.
Qed.

Lemma rstrip_digits s :
  all_digits_of base s = true -> PyStr.rstrip s = s.
Proof.
  induction s as [| c s IH]; [reflexivity |]. simpl. intros Hall.
  apply andb_prop in Hall as [Hc Hs]. rewrite (IH Hs).
  destruct (digit_facts c Hc) as (_ & Hsp & _).
  destruct s; [by rewrite Hsp | reflexivity].
Qed.

Lemma strip_digits s :
  all_digits_of base s = true -> PyStr.strip s = s.
Proof.
  intros Hall. unfold PyStr.strip. rewrite (lstrip_digits s Hall).
  by apply rstrip_digits.
Qed.

(** [int] on a non-empty run of digits of the base whose second
    character, if any, is a digit too. *)
Lemma int_of_digits s :
  s <> "" -> all_digits_of base s = true ->
  PyStr.int s base = Some (positional_value base s).
Proof.
  intros Hne Hall. unfold PyStr.int. rewrite (strip_digits s Hall).
  destruct s as [| c s]; [done |].
  pose proof Hall as Hall'. simpl in Hall'.
  apply andb_prop in Hall' as [Hc Hs].
  destruct (digit_facts c Hc) as (_ & _ & Hus & Hminus & Hplus & _).
  assert (Hunsigned : PyStr.int_unsigned base (String c s)
                      = Some (positional_value base (String c s))).
  { unfold PyStr.int_unsigned.
    assert (Hpre : PyStr.has_base_prefix base (String c s) = false).
    { unfold PyStr.has_base_prefix.
      destruct (Ascii.eqb_spec c "0"); [subst c |].
      - destruct s as [| c' s]; [reflexivity |].
        simpl in Hs. apply andb_prop in Hs as [Hc' _].
        destruct (digit_facts c' Hc') as (_ & _ & _ & _ & _ & Hx & HX & Ho & HO).
        rewrite Hx, HX, Ho, HO.
        assert (Hb : Ascii.eqb c' "b" = true \/ Ascii.eqb c' "B" = true ->
                     (base =? 2) = false).
        { intros Hbb. destruct (Z.eqb_spec base 2) as [-> |]; [| done].
          unfold is_digit_of in Hc'.
          destruct Hbb as [Hbb | Hbb]; apply Ascii.eqb_eq in Hbb; subst c';
            vm_compute in Hc'; discriminate. }
        destruct (Ascii.eqb c' "b") eqn:Eb, (Ascii.eqb c' "B") eqn:EB;
          rewrite ?andb_false_r, ?Hb by auto; reflexivity.
      - destruct c as [[] [] [] [] [] [] [] []]; try reflexivity; done. }
    rewrite Hpre. rewrite Hus.
    rewrite (int_digits_value _ 0 Hall). reflexivity. }
  destruct (Ascii.eqb_spec c "-"); [done |].
  destruct (Ascii.eqb_spec c "+"); [done |].
  destruct c as [[] [] [] [] [] [] [] []]; try exact Hunsigned; done.
Qed.

End IntLiterals.

Lemma prefix_cons_ne a b s1 s2 :
  a <> b -> String.prefix (String a s1) (String b s2) = false.
Proof. intros Hne. simpl. destruct (ascii_dec a b); [done | reflexivity]. Qed.

Lemma prefix_cons_eq a s1 s2 :
  String.prefix (String a s1) (String a s2) = String.prefix s1 s2.
Proof. simpl. destruct (ascii_dec a a); [reflexivity | done]. Qed.

Lemma prefix_empty s : String.prefix "" s = true.
Proof. destruct s; reflexivity. Qed.

Lemma parse_int_hex ds :
  well_formed_literal (HexLiteral ds) = true ->
  _parse_int (literal_text (HexLiteral ds)) = Some (positional_value 16 ds).
Proof.
  simpl. intros Hwf. apply andb_prop in Hwf as [Hne Hall].
  unfold _parse_int, PyStr.startswith.
  rewrite !prefix_cons_eq, prefix_empty. simpl PyStr.slice_from.
  apply (int_of_digits 16 plain_digit_16); [| exact Hall].
  intros ->. discriminate.
Qed.

Lemma parse_int_octal ds :
  well_formed_literal (OctalLiteral ds) = true ->
  _parse_int (literal_text (OctalLiteral ds)) = Some (positional_value 8 ds).
Proof.
  simpl. intros Hall.
  assert (Hall0 : all_digits_of 8 (String "0" ds) = true) by exact Hall.
  unfold _parse_int, PyStr.startswith.
  assert (Hx : String.prefix "0x" (String "0" ds) = false).
  { rewrite prefix_cons_eq. destruct ds as [| c ds]; [reflexivity |].
    apply prefix_cons_ne. intros Heq. subst c. simpl in Hall. discriminate. }
  rewrite Hx, prefix_cons_eq, prefix_empty.
  assert (Hne : String "0" ds <> "") by discriminate.
  rewrite (int_of_digits 8 plain_digit_8 _ Hne Hall0).
  reflexivity.
Qed.

Lemma parse_int_decimal ds :
  well_formed_literal (DecimalLiteral ds) = true ->
  _parse_int (literal_text (DecimalLiteral ds)) = Some (positional_value 10 ds).
Proof.
  simpl. destruct ds as [| c ds]; [discriminate |]. intros Hwf.
  apply andb_prop in Hwf as [Hc Hall].
  apply negb_true_iff, Ascii.eqb_neq in Hc.
  unfold _parse_int, PyStr.startswith.
  rewrite !prefix_cons_ne by congruence.
  apply (int_of_digits 10 plain_digit_10); [discriminate | exact Hall].
Qed.

(** C7: [_parse_int] reads the digits after [0x] in base 16, the digits
    after another leading [0] in base 8 (so that the text [0] is zero) and
    digits that do not begin with [0] in base 10; any text goes to [int]
    with the base its beginning selects; [0x1A] is 26, [017] is 15, [0] is
    0 and [42] is 42. *)
Theorem parse_int_formats :
  (forall l : IntLiteral,
     well_formed_literal l = true ->
     _parse_int (literal_text l) = Some (literal_value l))
  /\ (forall x : string,
        _parse_int x =
        if PyStr.startswith x "0x" then PyStr.int (PyStr.slice_from 2 x) 16
        else if PyStr.startswith x "0" then PyStr.int x 8
        else PyStr.int x 10)
  /\ _parse_int "0x1A" = Some 26
  /\ _parse_int "017" = Some 15
  /\ _parse_int "0" = Some 0
  /\ _parse_int "42" = Some 42.
Proof.
  split; [| repeat split ].
  intros [ds | ds | ds] Hwf.
  - by apply parse_int_hex.
  - by apply parse_int_octal.
  - by apply parse_int_decimal.
Qed.

Lemma parse_int_formats_witness :
  well_formed_literal (HexLiteral "1A") = true
  /\ _parse_int (literal_text (HexLiteral "1A")) = Some (literal_value (HexLiteral "1A"))
  /\ literal_value (HexLiteral "1A") = 26.
Proof.
  split; [reflexivity |]. split; [| reflexivity].
  apply (proj1 parse_int_formats (HexLiteral "1A")). reflexivity.
Defined.

(** ** Transaction fields *)

(** Two prefixes of one string: one is a prefix of the other. *)
Lemma prefix_comparable p1 : forall p2 s,
  String.prefix p1 s = true -> String.prefix p2 s = true ->
  String.prefix p1 p2 = true \/ String.prefix p2 p1 = true.
Proof.
  induction p1 as [| a p1 IH]; intros p2 s H1 H2.
  - left. apply prefix_empty.
  - destruct p2 as [| b p2]; [right; reflexivity |].
    destruct s as [| c s]; [discriminate |].
    simpl in H1, H2 |- *.
    destruct (ascii_dec a c) as [-> |]; [| discriminate].
    destruct (ascii_dec b c) as [-> |]; [| discriminate].
    destruct (ascii_dec c c); [| done].
    eauto.
Qed.

Lemma startswith_exclusive (tx_field p1 p2 : string) :
  String.prefix p1 p2 = false -> String.prefix p2 p1 = false ->
  PyStr.startswith tx_field p1 = true -> PyStr.startswith tx_field p2 = false.
Proof.
  unfold PyStr.startswith. intros H12 H21 H1.
  destruct (String.prefix p2 tx_field) eqn:H2; [| reflexivity].
  destruct (prefix_comparable _ _ _ H1 H2); congruence.
Qed.

(** The dict holds the pairs of its literal. *)
Lemma TX_FIELD_TXT_TO_OBJECT_lookup (k : string) (f : TransactionField) :
  TX_FIELD_TXT_TO_OBJECT !! k = Some f <-> (k, f) ∈ TX_FIELD_TXT_TO_OBJECT_items.
Proof.
  unfold TX_FIELD_TXT_TO_OBJECT. symmetry. apply elem_of_list_to_map.
  compute_done.
Qed.

Lemma TX_FIELD_TXT_TO_OBJECT_nullary (k : string) (f : TransactionField) :
  TX_FIELD_TXT_TO_OBJECT !! k = Some f -> is_array_field f = false.
Proof.
  rewrite TX_FIELD_TXT_TO_OBJECT_lookup. revert k f.
  assert (H : Forall (λ p, is_array_field p.2 = false) TX_FIELD_TXT_TO_OBJECT_items).
  { unfold TX_FIELD_TXT_TO_OBJECT_items. repeat constructor. }
  intros k f Hin. rewrite Forall_forall in H. exact (H _ Hin).
Qed.

(** C8: a token that begins with the name of one of the five array fields
    gives that field, with the index [-1] when [use_stack] holds and else
    with the integer read from what follows the name and one more
    character; any other token is looked up, its spaces removed, in the
    dict, which gives a field without index, and it is an error ([KeyError])
    when the dict does not have it.  A token begins with one array name at
    most. *)
Theorem parse_transaction_field_cases (tx_field : string) (use_stack : bool) :
  match array_field_of tx_field with
  | Some (name, mk) =>
      parse_transaction_field tx_field use_stack =
      if use_stack then Ok (mk (-1))
      else mk <$> of_option ValueError
                    (_parse_int (PyStr.slice_from (S (String.length name)) tx_field))
  | None =>
      match TX_FIELD_TXT_TO_OBJECT !! PyStr.remove_spaces tx_field with
      | Some f =>
          parse_transaction_field tx_field use_stack = Ok f
          /\ is_array_field f = false
      | None =>
          parse_transaction_field tx_field use_stack
          = Raise (KeyError (PyStr.remove_spaces tx_field))
      end
  end
  /\ (forall name mk,
        (name, mk) ∈ array_fields ->
        PyStr.startswith tx_field name = true ->
        array_field_of tx_field = Some (name, mk)).
Proof.
  split.
  - unfold array_field_of, array_fields, parse_transaction_field, array_index.
    simpl List.find.
    repeat match goal with
           | |- context [PyStr.startswith tx_field ?p] =>
               destruct (PyStr.startswith tx_field p);
                 [destruct use_stack; reflexivity |]
           end.
    destruct (TX_FIELD_TXT_TO_OBJECT !! PyStr.remove_spaces tx_field) as [f |] eqn:Hf;
      [| reflexivity].
    split; [reflexivity |]. eapply TX_FIELD_TXT_TO_OBJECT_nullary, Hf.
  - intros name mk Hin Hpre. unfold array_field_of, array_fields in *.
    simpl List.find.
    repeat match goal with
           | H : _ ∈ _ :: _ |- _ => apply elem_of_cons in H as [H | H]
           | H : _ ∈ [] |- _ => apply elem_of_nil in H; destruct H
           end;
      injection Hin as -> ->;
      repeat match goal with
             | H : PyStr.startswith _ ?n = true
               |- context [PyStr.startswith tx_field ?p] =>
                 first
                   [ rewrite H
                   | rewrite (startswith_exclusive tx_field n p eq_refl eq_refl H) ]
             end;
      reflexivity.
Qed.

Lemma parse_transaction_field_cases_witness :
  PyStr.startswith "Assets 0x10" "Assets" = true
  /\ array_field_of "Assets 0x10" = Some ("Assets", Assets)
  /\ parse_transaction_field "Assets 0x10" false = Ok (Assets 16).
Proof.
  split; [reflexivity |]. split.
  - apply (proj2 (parse_transaction_field_cases "Assets 0x10" false));
      [set_solver | reflexivity].
  - reflexivity.
Defined.

(** ** Version validation *)

Lemma verify_ins_stderr program_version ins_list : forall st,
  vv_stderr (fold_left (verify_ins program_version) ins_list st)
  = vv_stderr st ++ omap (version_diagnostic program_version) ins_list.
Proof.
  induction ins_list as [| ins ins_list IH]; intros st; simpl.
  - by rewrite app_nil_r.
  - rewrite IH. unfold verify_ins.
    destruct (version_diagnostic program_version ins); simpl.
    + by rewrite <- app_assoc.
    + reflexivity.
Qed.

(** What [_verify_version] prints: the diagnostics of the instructions, in
    order, then at most one message about modes. *)
Lemma verify_version_stderr ins_list program_version :
  exists both,
    (_verify_version ins_list program_version).2
    = omap (version_diagnostic program_version) ins_list ++ both
    /\ forall d, d ∈ both -> exists l1 l2, d = BothModes l1 l2.
Proof.
  unfold _verify_version.
  set (st := fold_left _ _ _).
  assert (Hst : vv_stderr st = omap (version_diagnostic program_version) ins_list).
  { subst st. by rewrite verify_ins_stderr. }
  destruct (vv_stateless_ins st), (vv_stateful_ins st); simpl;
    first [ exists []; rewrite app_nil_r; split; [exact Hst | by inversion 1]
          | eexists [_]; rewrite Hst; split; [reflexivity |];
            intros d Hd; apply list_elem_of_singleton in Hd; eauto ].
Qed.

(** C2, amended: a field diagnostic is printed for an instruction exactly
    when the program version is not below the version of the instruction
    and is below the version of its field, the field being of one of the
    five families. *)
Theorem verify_version_field_diagnostic
    (ins_list : list Instruction) (program_version : Z)
    (line : Z) (c : InsClass) (f : FieldObj) (v supported_from : Z) :
  FieldNotSupported line c f v supported_from
    ∈ (_verify_version ins_list program_version).2
  <->
  exists ins,
    ins ∈ ins_list
    /\ ins_version ins <= program_version
    /\ checked_field ins = Some f
    /\ program_version < field_version f
    /\ line = ins_line ins /\ c = ins_class ins
    /\ v = program_version /\ supported_from = field_version f.
Proof.
  destruct (verify_version_stderr ins_list program_version) as (both & -> & Hboth).
  rewrite elem_of_app, list_elem_of_omap. split.
  - intros [(ins & Hin & Hd) | Hb].
    + exists ins. split; [exact Hin |]. unfold version_diagnostic in Hd.
      destruct (Z.ltb_spec program_version (ins_version ins)); [discriminate |].
      destruct (checked_field ins) as [f' |]; [| discriminate].
      destruct (Z.ltb_spec program_version (field_version f')); [| discriminate].
      injection Hd as ? ? ? ? ?. subst. repeat split; done.
    + apply Hboth in Hb as (? & ? & ?). discriminate.
  - intros (ins & Hin & Hv & Hf & Hfv & -> & -> & -> & ->).
    left. exists ins. split; [exact Hin |]. unfold version_diagnostic.
    destruct (Z.ltb_spec program_version (ins_version ins)); [lia |].
    rewrite Hf. destruct (Z.ltb_spec program_version (field_version f)); [done | lia].
Qed.

Lemma verify_version_field_diagnostic_witness :
  FieldNotSupported 2 Txn
    {| field_class := TransactionFieldClass; field_name := "StateProofPK";
       field_version := 6 |} 3 6
  ∈ (_verify_version [txn_StateProofPK] 3).2.
Proof.
  apply (proj2 (verify_version_field_diagnostic [txn_StateProofPK] 3 2 Txn _ 3 6)).
  exists txn_StateProofPK. simpl.
  repeat split; try reflexivity; try lia. apply list_elem_of_singleton. reflexivity.
Defined.

(** C2 as stated fails: the program version 3 is below the version 6 of
    the field of this instruction, and below the version 5 of the
    instruction itself; only the instruction is reported. *)
Lemma verify_version_field_not_reported :
  itxn_StateProofPK ∈ [itxn_StateProofPK]
  /\ (exists f, checked_field itxn_StateProofPK = Some f /\ 3 < field_version f)
  /\ (_verify_version [itxn_StateProofPK] 3).2
     = [InstructionNotSupported 2 (OtherInstruction "itxn") 3 5]
  /\ forall line c f v supported_from,
       FieldNotSupported line c f v supported_from
       ∉ (_verify_version [itxn_StateProofPK] 3).2.
Proof.
  split; [apply list_elem_of_singleton; reflexivity |].
  split; [eexists; split; [reflexivity | simpl; lia] |].
  split; [reflexivity |].
  intros line c f v supported_from Hin.
  apply list_elem_of_singleton in Hin. discriminate.
Qed.

(** ** The first pass *)

Lemma for_each_app {A S : Type} (body : S -> A -> Outcome S) (xs ys : list A) (s : S) :
  for_each body (xs ++ ys) s = (s' ← for_each body xs s; for_each body ys s').
Proof.
  revert s. induction xs as [| x xs IH]; intros s; simpl; [reflexivity |].
  destruct (body s x); simpl; [apply IH | reflexivity | reflexivity].
Qed.

Section FirstPass.

Variable parse_line : string -> ParseResult.

(** A well-formed line moves the counter [idx] by one. *)
Lemma first_pass_line_well_formed st line :
  well_formed_line parse_line line ->
  exists st', first_pass_line parse_line st line = Ok st'
              /\ fp_idx st' = fp_idx st + 1.
Proof.
  intros Hwf. unfold first_pass_line, read_line.
  destruct (is_comment_line line) eqn:Hc; simpl.
  - eexists; split; reflexivity.
  - destruct Hwf as [Hwf | [r Hr]]; [congruence |]. rewrite Hr.
    destruct r as [p |]; simpl; [| eexists; split; reflexivity].
    destruct (fp_instruction_comments st); simpl; eexists; split; reflexivity.
Qed.

Lemma first_pass_lines_well_formed lines : forall st,
  Forall (well_formed_line parse_line) lines ->
  exists st', for_each (first_pass_line parse_line) lines st = Ok st'
              /\ fp_idx st' = fp_idx st + Z.of_nat (length lines).
Proof.
  induction lines as [| line lines IH]; intros st Hall; simpl.
  - exists st. split; [reflexivity | lia].
  - apply Forall_cons in Hall as [Hline Hall].
    destruct (first_pass_line_well_formed st line Hline) as (st1 & -> & Hidx).
    simpl. destruct (IH st1 Hall) as (st' & -> & Hidx').
    exists st'. split; [reflexivity | lia].
Qed.

Lemma first_pass_line_malformed st line msg :
  is_comment_line line = false -> parse_line line = ParseError msg ->
  first_pass_line parse_line st line
  = Exit 1 {| report_idx := fp_idx st; report_msg := msg |}.
Proof.
  intros Hc Hp. unfold first_pass_line, read_line. by rewrite Hc, Hp.
Qed.

Lemma first_pass_malformed (pre post : list string) (line msg : string) :
  Forall (well_formed_line parse_line) pre ->
  is_comment_line line = false ->
  parse_line line = ParseError msg ->
  _first_pass parse_line (pre ++ line :: post)
  = Exit 1 {| report_idx := Z.of_nat (length pre); report_msg := msg |}.
Proof.
  intros Hpre Hc Hp. unfold _first_pass. rewrite for_each_app.
  destruct (first_pass_lines_well_formed pre first_pass_init Hpre)
    as (st & -> & Hidx).
  simpl. rewrite (first_pass_line_malformed st line msg Hc Hp). simpl.
  by rewrite Hidx.
Qed.

(** C6: when the line of 0-based index [k] is the first malformed one
    (the [k] lines before it are comments or are accepted by
    [parse_line]), [_first_pass] exits with status 1 after printing [k]
    and the message, whatever the lines that follow are, and
    [parse_teal] exits in the same way: no [Teal] object is built. *)
Theorem parse_error_at_first_malformed_line
    (source_code contract_name : string) (pre post : list string)
    (line msg : string) :
  PyStr.splitlines source_code = pre ++ line :: post ->
  Forall (well_formed_line parse_line) pre ->
  is_comment_line line = false ->
  parse_line line = ParseError msg ->
  let report := {| report_idx := Z.of_nat (length pre); report_msg := msg |} in
  (forall post', _first_pass parse_line (pre ++ line :: post') = Exit 1 report)
  /\ parse_teal parse_line source_code contract_name = Exit 1 report.
Proof.
  intros Hlines Hpre Hc Hp report. split.
  - intros post'. by apply first_pass_malformed.
  - unfold parse_teal. rewrite Hlines.
    by rewrite (first_pass_malformed pre post line msg Hpre Hc Hp).
Qed.

End FirstPass.

Lemma parse_error_at_first_malformed_line_witness :
  parse_teal Sample.parse_line "int 1
// a comment
frobnicate 3
int 2" "" = Exit 1 {| report_idx := 2; report_msg := "frobnicate 3" |}.
Proof.
  refine (proj2 (parse_error_at_first_malformed_line Sample.parse_line
                   _ "" ["int 1"; "// a comment"] ["int 2"] "frobnicate 3"
                   "frobnicate 3" _ _ _ _)).
  - reflexivity.
  - apply Forall_cons. split; [right; eexists; reflexivity |].
    apply Forall_cons. split; [left; reflexivity | apply Forall_nil; exact I].
  - reflexivity.
  - reflexivity.
Defined.

(** ** Sources without instructions *)

Section NoInstruction.

Variable parse_line : string -> ParseResult.

Lemma instruction_line_dec line :
  {instruction_line parse_line line} + {~ instruction_line parse_line line}.
Proof.
  unfold instruction_line.
  destruct (is_comment_line line); [right; intros [? _]; discriminate |].
  destruct (parse_line line) as [msg | [p |]].
  - right. intros [_ [p Hp]]. discriminate.
  - left. eauto.
  - right. intros [_ [p Hp]]. discriminate.
Qed.

(** A line that gives no instruction leaves [instructions] as it is,
    unless it is malformed. *)
Lemma first_pass_line_no_instruction st line :
  ~ instruction_line parse_line line ->
  match first_pass_line parse_line st line with
  | Ok st' => fp_instructions st' = fp_instructions st
  | Raise _ => False
  | Exit _ _ => ~ no_instruction_line parse_line line
  end.
Proof.
  intros Hno. unfold first_pass_line, read_line, no_instruction_line.
  destruct (is_comment_line line) eqn:Hc; simpl; [reflexivity |].
  destruct (parse_line line) as [msg | [p |]] eqn:Hp; simpl.
  - intros [? | ?]; discriminate.
  - destruct Hno. split; [exact Hc | eauto].
  - reflexivity.
Qed.

Lemma first_pass_no_instruction lines : forall st,
  Forall (λ line, ~ instruction_line parse_line line) lines ->
  match for_each (first_pass_line parse_line) lines st with
  | Ok st' => fp_instructions st' = fp_instructions st
  | Raise _ => False
  | Exit _ _ => ~ Forall (no_instruction_line parse_line) lines
  end.
Proof.
  induction lines as [| line lines IH]; intros st Hall; simpl; [reflexivity |].
  apply Forall_cons in Hall as [Hline Hall].
  pose proof (first_pass_line_no_instruction st line Hline) as H1.
  destruct (first_pass_line parse_line st line) as [st1 | e | c o]; simpl.
  - specialize (IH st1 Hall).
    destruct (for_each _ lines st1) as [st' | e | c o]; simpl in *.
    + congruence.
    + exact IH.
    + intros Hf. apply Forall_cons in Hf as [_ Hf]. exact (IH Hf).
  - exact H1.
  - intros Hf. apply Forall_cons in Hf as [Hf _]. exact (H1 Hf).
Qed.

Lemma no_instruction_line_not_instruction line :
  no_instruction_line parse_line line -> ~ instruction_line parse_line line.
Proof.
  intros [Hc | Hp] [Hc' [p Hp']]; congruence.
Qed.

(** Without instructions, [_fourth_pass] asks the empty block made by
    [create_bb] for its exit instruction. *)
Lemma parse_teal_without_instructions source_code contract_name fp :
  _first_pass parse_line (PyStr.splitlines source_code) = Ok fp ->
  fp_instructions fp = [] ->
  parse_teal parse_line source_code contract_name = Raise IndexError.
Proof.
  intros Hfp Hnil. unfold parse_teal. rewrite Hfp. simpl. rewrite Hnil.
  reflexivity.
Qed.

Lemma instruction_line_somewhere lines :
  Exists (instruction_line parse_line) lines
  \/ Forall (λ line, ~ instruction_line parse_line line) lines.
Proof.
  induction lines as [| line lines [IH | IH]].
  - right. apply Forall_nil. exact I.
  - left. by apply Exists_cons_tl.
  - destruct (instruction_line_dec line) as [Hl | Hl].
    + left. by apply Exists_cons_hd.
    + right. by apply Forall_cons.
Qed.

(** C9: on a source whose lines are all comments or blank, [parse_teal]
    raises [IndexError]: it neither returns a [Teal] object nor reports
    a parse error; and when [parse_teal] returns a [Teal] object, some
    line of the source was turned into an instruction. *)
Theorem parse_teal_needs_an_instruction (source_code contract_name : string) :
  (Forall (no_instruction_line parse_line) (PyStr.splitlines source_code) ->
   parse_teal parse_line source_code contract_name = Raise IndexError)
  /\ (forall teal,
        parse_teal parse_line source_code contract_name = Ok teal ->
        Exists (instruction_line parse_line) (PyStr.splitlines source_code)).
Proof.
  split.
  - intros Hall.
    assert (Hno : Forall (λ line, ~ instruction_line parse_line line)
                    (PyStr.splitlines source_code)).
    { eapply Forall_impl; [exact Hall |].
      apply no_instruction_line_not_instruction. }
    pose proof (first_pass_no_instruction _ first_pass_init Hno) as H.
    destruct (for_each _ _ _) as [fp | e | c o] eqn:Hfp; [| done | done].
    by apply (parse_teal_without_instructions _ _ fp).
  - intros teal Hok.
    destruct (instruction_line_somewhere (PyStr.splitlines source_code))
      as [Hex | Hno]; [exact Hex |].
    pose proof (first_pass_no_instruction _ first_pass_init Hno) as H.
    destruct (for_each _ _ _) as [fp | e | c o] eqn:Hfp.
    + rewrite (parse_teal_without_instructions _ contract_name fp Hfp H) in Hok.
      discriminate.
    + done.
    + unfold parse_teal, _first_pass in Hok. rewrite Hfp in Hok. discriminate.
Qed.

End NoInstruction.

Lemma parse_teal_needs_an_instruction_witness :
  parse_teal Sample.parse_line "// only a comment

" "" = Raise IndexError.
Proof.
  apply (proj1 (parse_teal_needs_an_instruction Sample.parse_line _ "")).
  apply Forall_cons. split; [left; reflexivity |].
  apply Forall_cons. split; [right; reflexivity | apply Forall_nil; exact I].
Defined.

(** ** Links made by the first pass *)

Lemma add_instruction_comments_cases ins :
  _add_instruction_comments ins = ins
  \/ exists c, _add_instruction_comments ins = ins_add_tealer_comment c ins.
Proof.
  unfold _add_instruction_comments. repeat (case_match; eauto).
Qed.

(** An update that keeps an attribute keeps the list of this attribute. *)
Lemma fmap_alter_same {A B : Type} (g : A -> B) (f : A -> A) (i : nat) (l : list A) :
  (forall x, g (f x) = g x) -> g <$> alter f i l = g <$> l.
Proof.
  intros Hgf. apply list_eq. intros j. rewrite !list_lookup_fmap.
  destruct (decide (i = j)) as [-> |].
  - rewrite list_lookup_alter_eq. destruct (l !! j); simpl; [by rewrite Hgf | done].
  - by rewrite list_lookup_alter_ne.
Qed.

Lemma default_next_app_lt classes c i :
  (S i < length classes)%nat ->
  default_next (classes ++ [c]) i = default_next classes i.
Proof.
  intros Hlt. unfold default_next.
  rewrite !lookup_app_l by lia. reflexivity.
Qed.

Lemma default_prev_app_le classes c i :
  (i <= length classes)%nat ->
  default_prev (classes ++ [c]) i = default_prev classes i.
Proof.
  intros Hle. unfold default_prev. destruct i as [| j]; [reflexivity |].
  rewrite lookup_app_l by lia. reflexivity.
Qed.

Lemma default_next_last classes i :
  (length classes <= S i)%nat -> default_next classes i = [].
Proof.
  intros Hle. unfold default_next.
  rewrite (lookup_ge_None_2 classes (S i)) by lia. by destruct (classes !! i).
Qed.

Lemma is_last_label_snoc_other instructions ins name t :
  ins_class ins <> Label name ->
  is_last_label (instructions ++ [ins]) name t <-> is_last_label instructions name t.
Proof.
  intros Hne. unfold is_last_label. rewrite fmap_app. simpl.
  set (classes := ins_class <$> instructions).
  assert (Hnew : forall j, (classes ++ [ins_class ins]) !! j = Some (Label name) ->
                           classes !! j = Some (Label name)).
  { intros j Hj. apply lookup_app_Some in Hj as [Hj | [_ Hj]]; [exact Hj |].
    apply list_lookup_singleton_Some in Hj as [_ Hj]. congruence. }
  split; intros [Hat Hlast]; split.
  - by apply Hnew.
  - intros j Hlt Hj. apply (Hlast j Hlt). by apply lookup_app_l_Some.
  - by apply lookup_app_l_Some.
  - intros j Hlt Hj. exact (Hlast j Hlt (Hnew j Hj)).
Qed.

Lemma is_last_label_snoc_same instructions ins name t :
  ins_class ins = Label name ->
  is_last_label (instructions ++ [ins]) name t <-> t = length instructions.
Proof.
  intros Hc. unfold is_last_label. rewrite fmap_app. simpl.
  set (classes := ins_class <$> instructions).
  assert (Hlen : length classes = length instructions) by apply length_fmap.
  assert (Hat : (classes ++ [ins_class ins]) !! length instructions
                = Some (Label name)).
  { rewrite <- Hlen, list_lookup_middle by done. by rewrite Hc. }
  split.
  - intros [Ht Hlast].
    destruct (decide (t < length instructions)%nat) as [Hlt |].
    + destruct (Hlast _ Hlt Hat).
    + apply lookup_lt_Some in Ht. rewrite length_app in Ht. simpl in Ht. lia.
  - intros ->. split; [exact Hat |].
    intros j Hlt Hj. apply lookup_lt_Some in Hj.
    rewrite length_app in Hj. simpl in Hj. lia.
Qed.

Lemma is_last_label_classes instructions instructions' name t :
  ins_class <$> instructions' = ins_class <$> instructions ->
  is_last_label instructions' name t <-> is_last_label instructions name t.
Proof. unfold is_last_label. by intros ->. Qed.

Lemma head_default_prev classes i p :
  head (default_prev classes i) = Some p ->
  default_prev classes i = [p] /\ i = S p
  /\ exists c, classes !! p = Some c /\ is_unconditional_jump_or_exit c = false.
Proof.
  unfold default_prev. destruct i as [| j]; [discriminate |].
  destruct (classes !! j) as [c |] eqn:Hc; [| discriminate].
  destruct (is_unconditional_jump_or_exit c) eqn:Hs; [discriminate |].
  simpl. intros [= <-]. eauto.
Qed.

Lemma head_default_prev_None classes i :
  head (default_prev classes i) = None -> default_prev classes i = [].
Proof. destruct (default_prev classes i); [done | discriminate]. Qed.

Section RecordInstruction.

Variables (st : FirstPass) (comments : list string) (ins : Instruction).
Hypothesis Hinv : first_pass_inv st.
Hypothesis Hnext : ins_next ins = [].
Hypothesis Hprev : ins_prev ins = [].
Hypothesis Hbb : ins_bb ins = None.

Let n := length (fp_instructions st).
Let classes := ins_class <$> fp_instructions st.
Let st' := record_instruction st (fp_idx st + 1) comments ins.

(** The object that [record_instruction] appends. *)
Let ins' :=
  let ins1 := _add_instruction_comments (ins_set_line (fp_idx st + 1) ins) in
  match fp_prev st with
  | Some prev => ins_add_prev prev ins1
  | None => ins1
  end.

Let before :=
  match fp_prev st with
  | Some prev => alter (ins_add_next n) prev (fp_instructions st)
  | None => fp_instructions st
  end.

Lemma record_instruction_instructions :
  fp_instructions st' = before ++ [ins'].
Proof. reflexivity. Qed.

Lemma appended_attributes :
  ins_class ins' = ins_class ins
  /\ ins_next ins' = []
  /\ ins_prev ins' = default_prev classes n
  /\ ins_bb ins' = None
  /\ ins_line ins' = fp_idx st + 1.
Proof.
  subst ins'. cbv zeta.
  pose proof (eq_sym (fpi_prev st Hinv)) as Hp. fold classes n in Hp.
  destruct (add_instruction_comments_cases (ins_set_line (fp_idx st + 1) ins))
    as [-> | [c ->]];
    (destruct (fp_prev st) as [p |];
     [ apply head_default_prev in Hp as (-> & _ & _)
     | apply head_default_prev_None in Hp as -> ];
     simpl; rewrite ?Hnext, ?Hprev, ?Hbb; done).
Qed.

Lemma before_classes : ins_class <$> before = classes.
Proof.
  subst before. destruct (fp_prev st); [| reflexivity].
  by apply fmap_alter_same.
Qed.

Lemma before_length : length before = n.
Proof.
  subst before. destruct (fp_prev st); [| reflexivity]. apply length_alter.
Qed.

Lemma record_instruction_classes :
  ins_class <$> fp_instructions st' = classes ++ [ins_class ins].
Proof.
  rewrite record_instruction_instructions, fmap_app, before_classes. simpl.
  by destruct appended_attributes as (-> & _).
Qed.

(** The instructions recorded before keep their attributes, but the
    previous one, which gets the new instruction as its successor. *)
Lemma before_lookup i a' :
  before !! i = Some a' ->
  exists a, fp_instructions st !! i = Some a
    /\ ins_class a' = ins_class a /\ ins_prev a' = ins_prev a
    /\ ins_bb a' = ins_bb a /\ ins_line a' = ins_line a
    /\ ins_next a' = default_next (classes ++ [ins_class ins]) i.
Proof.
  intros Hi.
  assert (Hlt : (i < n)%nat).
  { rewrite <- before_length. by eapply lookup_lt_Some. }
  pose proof (eq_sym (fpi_prev st Hinv)) as Hp. fold classes n in Hp.
  assert (Hcl : length classes = n) by apply length_fmap.
  subst before. destruct (fp_prev st) as [p |].
  - apply head_default_prev in Hp as (_ & Hn & c & Hc & Hstop).
    destruct (decide (p = i)) as [-> | Hne].
    + rewrite list_lookup_alter_eq in Hi.
      destruct (fp_instructions st !! i) as [a |] eqn:Ha; [| discriminate].
      injection Hi as <-. exists a. repeat split; try reflexivity.
      destruct (fpi_links st Hinv i a Ha) as (Hnx & _). simpl. rewrite Hnx.
      fold classes. rewrite default_next_last by lia. simpl.
      assert (Hmid : (classes ++ [ins_class ins]) !! S i = Some (ins_class ins)).
      { rewrite <- Hn, <- Hcl. by apply list_lookup_middle. }
      unfold default_next. rewrite lookup_app_l, Hc, Hmid, Hstop by lia.
      by rewrite Hn.
    + rewrite list_lookup_alter_ne in Hi by done.
      exists a'. repeat split; try done.
      destruct (fpi_links st Hinv i a' Hi) as (Hnx & _). rewrite Hnx.
      fold classes. symmetry.
      destruct (decide (S i < n)%nat); [apply default_next_app_lt; lia |].
      assert (i = p) by lia. done.
  - exists a'. repeat split; try done.
    destruct (fpi_links st Hinv i a' Hi) as (Hnx & _). rewrite Hnx.
    fold classes.
    destruct (decide (S i < n)%nat);
      [symmetry; apply default_next_app_lt; lia |].
    rewrite default_next_last by lia.
    apply head_default_prev_None in Hp. unfold default_prev in Hp.
    assert (Hn : n = S i) by lia. rewrite Hn in Hp.
    unfold default_next. rewrite lookup_app_l by lia.
    destruct (classes !! i) as [c |]; [| done].
    destruct (is_unconditional_jump_or_exit c); [| discriminate].
    by destruct ((classes ++ [ins_class ins]) !! S i).
Qed.

Lemma record_instruction_lookup i a' :
  fp_instructions st' !! i = Some a' ->
  ((i < n)%nat /\ before !! i = Some a') \/ (i = n /\ a' = ins').
Proof.
  rewrite record_instruction_instructions. intros Hi.
  apply lookup_app_Some in Hi as [Hi | [Hge Hi]].
  - left. split; [| exact Hi]. rewrite <- before_length.
    by eapply lookup_lt_Some.
  - apply list_lookup_singleton_Some in Hi as [Hi <-].
    rewrite before_length in Hge, Hi. right. split; [lia | reflexivity].
Qed.

Lemma record_instruction_labels name t :
  fp_labels st' !! name = Some t <-> is_last_label (fp_instructions st') name t.
Proof.
  destruct appended_attributes as (Hc & _).
  rewrite record_instruction_instructions.
  assert (Hbefore : forall name t,
            fp_labels st !! name = Some t <-> is_last_label before name t).
  { intros name' t'. rewrite (fpi_labels st Hinv).
    symmetry. apply is_last_label_classes, before_classes. }
  assert (Hlabels :
            fp_labels st' =
            match ins_class ins with
            | Label l => <[l := n]> (fp_labels st)
            | _ => fp_labels st
            end).
  { subst st'. unfold record_instruction. simpl.
    destruct (add_instruction_comments_cases (ins_set_line (fp_idx st + 1) ins))
      as [-> | [c ->]]; reflexivity. }
  rewrite Hlabels.
  destruct (decide (ins_class ins = Label name)) as [Hl | Hl].
  - rewrite Hl, lookup_insert_eq.
    rewrite is_last_label_snoc_same by congruence.
    rewrite before_length. split; [by intros [= <-] | by intros ->].
  - rewrite is_last_label_snoc_other by congruence.
    rewrite <- Hbefore.
    destruct (ins_class ins) as [l | | | | | | | | | | | | | | |]; try reflexivity.
    rewrite lookup_insert_ne; [reflexivity | congruence].
Qed.

Lemma record_instruction_inv : first_pass_inv st'.
Proof.
  destruct appended_attributes as (Hc & Hnx & Hpv & Hb & Hln).
  assert (Hcl : length classes = n) by apply length_fmap.
  pose proof (fpi_idx st Hinv) as Hidx.
  split.
  - simpl. lia.
  - rewrite record_instruction_classes, record_instruction_instructions.
    rewrite length_app, before_length. simpl.
    replace (n + 1)%nat with (S n) by lia. unfold default_prev.
    rewrite <- Hcl, list_lookup_middle by done. rewrite Hcl.
    subst st'. unfold record_instruction. simpl.
    destruct (add_instruction_comments_cases (ins_set_line (fp_idx st + 1) ins))
      as [-> | [c ->]];
      destruct (fp_prev st); simpl;
      by destruct (is_unconditional_jump_or_exit (ins_class ins)).
  - intros i a' Hi. rewrite record_instruction_classes.
    apply record_instruction_lookup in Hi as [[Hlt Hi] | [-> ->]].
    + apply before_lookup in Hi as (a & Ha & _ & Hp & Hbb' & _ & Hn).
      destruct (fpi_links st Hinv i a Ha) as (_ & Hpa & Hba).
      rewrite Hn, Hp, Hbb', Hpa, Hba. fold classes.
      rewrite default_prev_app_le by lia. done.
    + rewrite Hnx, Hpv, Hb.
      rewrite default_next_last by (rewrite length_app; simpl; lia).
      rewrite default_prev_app_le by lia. done.
  - intros i a' Hi. simpl.
    apply record_instruction_lookup in Hi as [[Hlt Hi] | [-> ->]].
    + apply before_lookup in Hi as (a & Ha & _ & _ & _ & Hl & _).
      pose proof (fpi_lines st Hinv i a Ha). lia.
    + lia.
  - intros i j a' b' Hij Hi Hj.
    apply record_instruction_lookup in Hi as [[Hlti Hi] | [-> ->]];
      apply record_instruction_lookup in Hj as [[Hltj Hj] | [-> ->]];
      try lia.
    + apply before_lookup in Hi as (a & Ha & _ & _ & _ & Hla & _).
      apply before_lookup in Hj as (b & Hb' & _ & _ & _ & Hlb & _).
      rewrite Hla, Hlb. by apply (fpi_lines_increase st Hinv i j).
    + apply before_lookup in Hi as (a & Ha & _ & _ & _ & Hla & _).
      pose proof (fpi_lines st Hinv i a Ha). lia.
  - apply record_instruction_labels.
Qed.

End RecordInstruction.

Section FirstPassInvariant.

Variable parse_line : string -> ParseResult.

Lemma first_pass_init_inv : first_pass_inv first_pass_init.
Proof.
  split; simpl; try done.
  intros name t. rewrite lookup_empty. split; [done |].
  intros [Hat _]. discriminate.
Qed.

Lemma first_pass_line_inv st line st' :
  first_pass_inv st ->
  first_pass_line parse_line st line = Ok st' ->
  first_pass_inv st'.
Proof.
  intros Hinv. unfold first_pass_line, read_line.
  assert (Hskip : forall comments,
            first_pass_inv
              {| fp_idx := fp_idx st + 1; fp_prev := fp_prev st;
                 fp_intcblock_ins := fp_intcblock_ins st;
                 fp_bytecblock_ins := fp_bytecblock_ins st;
                 fp_instruction_comments := comments;
                 fp_labels := fp_labels st;
                 fp_subroutines := fp_subroutines st;
                 fp_instructions := fp_instructions st |}).
  { intros comments. destruct Hinv as [H1 H2 H3 H4 H5 H6].
    split; simpl; try done; [lia |].
    intros i a Ha. specialize (H4 i a Ha). lia. }
  destruct (is_comment_line line); simpl.
  - intros [= <-]. apply Hskip.
  - destruct (parse_line line) as [msg | [p |]]; simpl; [discriminate | |].
    + destruct (fp_instruction_comments st); simpl; intros [= <-];
        by apply record_instruction_inv.
    + intros [= <-]. apply Hskip.
Qed.

Lemma first_pass_lines_inv lines : forall st st',
  first_pass_inv st ->
  for_each (first_pass_line parse_line) lines st = Ok st' ->
  first_pass_inv st'.
Proof.
  induction lines as [| line lines IH]; intros st st' Hinv; simpl.
  - by intros [= <-].
  - destruct (first_pass_line parse_line st line) as [st1 | |] eqn:H1;
      simpl; [| discriminate | discriminate].
    intros Hrest. eapply IH; [| exact Hrest].
    by eapply first_pass_line_inv.
Qed.

Lemma first_pass_inv_holds lines fp :
  _first_pass parse_line lines = Ok fp -> first_pass_inv fp.
Proof. apply first_pass_lines_inv, first_pass_init_inv. Qed.

End FirstPassInvariant.

Lemma jump_or_exit_iff c :
  jump_or_exit c <-> is_unconditional_jump_or_exit c = true.
Proof.
  unfold jump_or_exit. split.
  - intros [[l ->] | [-> | [-> | ->]]]; reflexivity.
  - destruct c; try discriminate; eauto.
Qed.

(** C3: after pass 1, two consecutive instructions are linked by a
    default edge in both directions (the second is the only successor of
    the first, the first the only predecessor of the second) unless the
    first is [B], [Err], [Return] or [Retsub], in which case pass 1 links
    them in neither direction; a [Callsub] is linked to the instruction
    that follows it. *)
Theorem first_pass_default_edges (parse_line : string -> ParseResult)
    (lines : list string) (fp : FirstPass) (i : nat) (a b : Instruction) :
  _first_pass parse_line lines = Ok fp ->
  fp_instructions fp !! i = Some a ->
  fp_instructions fp !! S i = Some b ->
  (~ jump_or_exit (ins_class a) -> ins_next a = [S i] /\ ins_prev b = [i])
  /\ (jump_or_exit (ins_class a) -> ins_next a = [] /\ ins_prev b = [])
  /\ (forall l, ins_class a = Callsub l -> ins_next a = [S i] /\ ins_prev b = [i]).
Proof.
  intros Hfp Ha Hb.
  pose proof (first_pass_inv_holds parse_line lines fp Hfp) as Hinv.
  destruct (fpi_links fp Hinv i a Ha) as (Hnx & _).
  destruct (fpi_links fp Hinv (S i) b Hb) as (_ & Hpv & _).
  rewrite Hnx, Hpv. unfold default_next, default_prev.
  rewrite !list_lookup_fmap, Ha, Hb. simpl.
  repeat split.
  - destruct (is_unconditional_jump_or_exit (ins_class a)) eqn:E; [| done].
    destruct H. by apply jump_or_exit_iff.
  - destruct (is_unconditional_jump_or_exit (ins_class a)) eqn:E; [| done].
    destruct H. by apply jump_or_exit_iff.
  - apply jump_or_exit_iff in H. by rewrite H.
  - apply jump_or_exit_iff in H. by rewrite H.
  - by rewrite H.
  - by rewrite H.
Qed.

Lemma first_pass_default_edges_witness :
  exists fp a b,
    _first_pass Sample.parse_line ["callsub f"; "int 1"; "return"; "f:"; "retsub"]
    = Ok fp
    /\ fp_instructions fp !! 0%nat = Some a
    /\ fp_instructions fp !! 1%nat = Some b
    /\ ins_class a = Callsub "f"
    /\ ins_next a = [1%nat] /\ ins_prev b = [0%nat].
Proof.
  eexists _, _, _.
  split; [vm_compute; reflexivity |].
  split; [reflexivity |]. split; [reflexivity |]. split; [reflexivity |].
  eapply (first_pass_default_edges Sample.parse_line
            ["callsub f"; "int 1"; "return"; "f:"; "retsub"] _ 0%nat);
    [vm_compute; reflexivity | reflexivity | reflexivity | reflexivity].
Defined.

(** ** Links made by the second pass *)

Lemma same_classes_lookup (l l' : list Instruction) k a :
  ins_class <$> l' = ins_class <$> l -> l !! k = Some a ->
  exists a', l' !! k = Some a' /\ ins_class a' = ins_class a.
Proof.
  intros Hcl Ha.
  assert (H : (ins_class <$> l') !! k = Some (ins_class a)).
  { rewrite Hcl, list_lookup_fmap, Ha. reflexivity. }
  rewrite list_lookup_fmap in H.
  destruct (l' !! k) as [a' |]; [| discriminate].
  injection H as H. eauto.
Qed.

Lemma linked_to_nil i instructions : linked_to i [] instructions instructions.
Proof.
  split; [reflexivity |]. intros k a Ha. exists a. split; [exact Ha |].
  split; [by destruct (decide (k = i)); rewrite app_nil_r |].
  exists []. split; [by rewrite app_nil_r |]. by intros ?%elem_of_nil.
Qed.

Lemma linked_to_trans i ts1 ts2 l1 l2 l3 :
  linked_to i ts1 l1 l2 -> linked_to i ts2 l2 l3 ->
  linked_to i (ts1 ++ ts2) l1 l3.
Proof.
  intros [Hc1 H1] [Hc2 H2]. split; [congruence |].
  intros k a Ha.
  destruct (H1 k a Ha) as (a2 & Ha2 & Hn2 & ps2 & Hp2 & Hin2).
  destruct (H2 k a2 Ha2) as (a3 & Ha3 & Hn3 & ps3 & Hp3 & Hin3).
  exists a3. split; [exact Ha3 |]. split.
  - rewrite Hn3, Hn2, <- app_assoc. by destruct (decide (k = i)).
  - exists (ps2 ++ ps3). split; [by rewrite Hp3, Hp2, app_assoc |].
    intros Hk. apply elem_of_app. apply elem_of_app in Hk as [Hk | Hk]; auto.
Qed.

Lemma link_jump_linked labels i instructions l instructions' :
  link_jump labels i instructions l = Ok instructions' ->
  exists t, labels !! l = Some t /\ linked_to i [t] instructions instructions'.
Proof.
  unfold link_jump. destruct (labels !! l) as [t |]; simpl; [| discriminate].
  intros [= <-]. exists t. split; [reflexivity |]. split.
  - rewrite !fmap_alter_same; done.
  - intros k a Ha. rewrite list_lookup_alter.
    destruct (decide (t = k)) as [-> | Hkt].
    + rewrite list_lookup_alter. destruct (decide (i = k)) as [-> | Hki].
      * rewrite Ha. simpl. eexists. split; [reflexivity |]. simpl.
        rewrite decide_True by done. split; [reflexivity |].
        exists [k]. split; [reflexivity |]. intros _. apply list_elem_of_singleton; done.
      * rewrite Ha. simpl. eexists. split; [reflexivity |]. simpl.
        rewrite decide_False by done. split; [by rewrite app_nil_r |].
        exists [i]. split; [reflexivity |]. intros _. apply list_elem_of_singleton; done.
    + rewrite list_lookup_alter. destruct (decide (i = k)) as [-> | Hki].
      * rewrite Ha. simpl. eexists. split; [reflexivity |]. simpl.
        rewrite decide_True by done. split; [reflexivity |].
        exists []. split; [by rewrite app_nil_r |].
        intros Hk%list_elem_of_singleton. congruence.
      * exists a. split; [exact Ha |].
        rewrite decide_False by done. split; [by rewrite app_nil_r |].
        exists []. split; [by rewrite app_nil_r |].
        intros Hk%list_elem_of_singleton. congruence.
Qed.

Lemma link_jumps_linked labels i ls : forall instructions instructions',
  for_each (link_jump labels i) ls instructions = Ok instructions' ->
  exists ts, Forall2 (λ l t, labels !! l = Some t) ls ts
    /\ linked_to i ts instructions instructions'.
Proof.
  induction ls as [| l ls IH]; intros instructions instructions'; simpl.
  - intros [= <-]. exists []. split; [constructor | apply linked_to_nil].
  - destruct (link_jump labels i instructions l) as [l1 | |] eqn:H1;
      simpl; [| discriminate | discriminate].
    intros Hrest.
    apply link_jump_linked in H1 as (t & Ht & Hl1).
    apply IH in Hrest as (ts & Hts & Hl2).
    exists (t :: ts). split; [by constructor |].
    by apply (linked_to_trans i [t] ts instructions l1 instructions').
Qed.

Lemma targets_of_Forall2 (labels : gmap string nat) (ls : list string)
    (ts : list nat) :
  Forall2 (λ l t, labels !! l = Some t) ls ts ->
  omap (λ l, labels !! l) ls = ts.
Proof.
  induction 1 as [| l t ls ts Hl _ IH]; [reflexivity |].
  cbn. rewrite Hl. cbn. by rewrite IH.
Qed.

(** The turn of the loop of [_second_pass] for position [i] links the
    instruction to the labels it jumps to, one after the other. *)
Lemma second_pass_ins_links labels instructions i :
  second_pass_ins labels instructions i =
  match instructions !! i with
  | Some a => for_each (link_jump labels i) (jump_targets (ins_class a)) instructions
  | None => Ok instructions
  end.
Proof.
  unfold second_pass_ins. destruct (instructions !! i) as [a |]; [| reflexivity].
  simpl. destruct (ins_class a); simpl; try reflexivity;
    by destruct (link_jump labels i instructions _).
Qed.

Lemma jumps_linked_0 labels instructions :
  jumps_linked labels 0 instructions instructions.
Proof.
  split; [reflexivity |]. intros k a Ha. exists a. split; [exact Ha |].
  split; [by rewrite app_nil_r |]. split; [lia |].
  exists []. split; [by rewrite app_nil_r |]. intros j b Hj. lia.
Qed.

Lemma jumps_linked_step labels m instructions cur cur' :
  jumps_linked labels m instructions cur ->
  second_pass_ins labels cur m = Ok cur' ->
  (m < length instructions)%nat ->
  jumps_linked labels (S m) instructions cur'.
Proof.
  intros [Hcl Hcur] Hstep Hm.
  rewrite second_pass_ins_links in Hstep.
  destruct (lookup_lt_is_Some_2 instructions m Hm) as [am Ham].
  destruct (same_classes_lookup _ _ _ _ Hcl Ham) as (am' & Ham' & Hcm).
  rewrite Ham', Hcm in Hstep.
  apply link_jumps_linked in Hstep as (ts & Hall & Hcl' & Hlink).
  pose proof (targets_of_Forall2 _ _ _ Hall) as Hts.
  fold (targets_of labels (ins_class am)) in Hts.
  split; [congruence |].
  intros k a Ha.
  destruct (Hcur k a Ha) as (a1 & Ha1 & Hn1 & Hdef1 & ps1 & Hp1 & Hin1).
  destruct (Hlink k a1 Ha1) as (a2 & Ha2 & Hn2 & ps2 & Hp2 & Hin2).
  exists a2. split; [exact Ha2 |]. split; [| split].
  - rewrite Hn2, Hn1, <- app_assoc. f_equal.
    destruct (decide (k = m)) as [-> | Hne].
    + rewrite decide_False, decide_True by lia. simpl.
      assert (a = am) by congruence. subst a. by rewrite Hts.
    + rewrite app_nil_r.
      destruct (decide (k < m)%nat);
        [rewrite decide_True by lia | rewrite decide_False by lia]; done.
  - intros Hk. destruct (decide (k = m)) as [-> | Hne].
    + assert (a = am) by congruence. subst a. by rewrite Hts.
    + apply Hdef1. lia.
  - exists (ps1 ++ ps2). split; [by rewrite Hp2, Hp1, app_assoc |].
    intros j b Hj Hb Hk. apply elem_of_app.
    destruct (decide (j = m)) as [-> | Hne].
    + right. apply Hin2. assert (b = am) by congruence. subst b. by rewrite <- Hts.
    + left. apply (Hin1 j b); [lia | done | done].
Qed.

Lemma second_pass_prefix labels instructions m : forall instructions',
  (m <= length instructions)%nat ->
  for_each (second_pass_ins labels) (seq 0 m) instructions = Ok instructions' ->
  jumps_linked labels m instructions instructions'.
Proof.
  induction m as [| m IH]; intros instructions' Hm.
  - simpl. intros [= <-]. apply jumps_linked_0.
  - rewrite seq_S, for_each_app. simpl.
    destruct (for_each _ (seq 0 m) instructions) as [cur | |] eqn:Hcur;
      simpl; [| discriminate | discriminate].
    destruct (second_pass_ins labels cur m) as [cur' | |] eqn:Hstep;
      simpl; [| discriminate | discriminate].
    intros [= <-].
    eapply jumps_linked_step; [apply IH; [lia | reflexivity] | exact Hstep | lia].
Qed.

Lemma second_pass_jumps_linked labels instructions instructions' :
  _second_pass instructions labels = Ok instructions' ->
  jumps_linked labels (length instructions) instructions instructions'.
Proof. by apply second_pass_prefix. Qed.

Lemma link_jumps_total labels i ls : forall instructions,
  Forall (λ l, is_Some (labels !! l)) ls ->
  exists instructions', for_each (link_jump labels i) ls instructions = Ok instructions'.
Proof.
  induction ls as [| l ls IH]; intros instructions Hall; simpl; [eauto |].
  apply Forall_cons in Hall as [[t Ht] Hall].
  assert (Hl : exists l1, link_jump labels i instructions l = Ok l1).
  { unfold link_jump. rewrite Ht. simpl. eauto. }
  destruct Hl as [l1 ->]. simpl. apply IH, Hall.
Qed.

Lemma second_pass_prefix_total labels instructions m :
  (forall i a l, instructions !! i = Some a -> l ∈ jump_targets (ins_class a) ->
                 is_Some (labels !! l)) ->
  (m <= length instructions)%nat ->
  exists cur, for_each (second_pass_ins labels) (seq 0 m) instructions = Ok cur.
Proof.
  intros Hdef. induction m as [| m IH]; intros Hm; [simpl; eauto |].
  destruct IH as [cur Hcur]; [lia |].
  rewrite seq_S, for_each_app, Hcur. simpl.
  pose proof (second_pass_prefix labels instructions m cur ltac:(lia) Hcur)
    as [Hcl _].
  destruct (lookup_lt_is_Some_2 instructions m ltac:(lia)) as [am Ham].
  destruct (same_classes_lookup _ _ _ _ Hcl Ham) as (am' & Ham' & Hcm).
  rewrite second_pass_ins_links, Ham', Hcm.
  destruct (link_jumps_total labels m (jump_targets (ins_class am)) cur)
    as [cur' ->]; [| simpl; eauto].
  apply Forall_forall. intros l Hl. by apply (Hdef m am l).
Qed.

Lemma second_pass_total labels instructions :
  (forall i a l, instructions !! i = Some a -> l ∈ jump_targets (ins_class a) ->
                 is_Some (labels !! l)) ->
  exists instructions', _second_pass instructions labels = Ok instructions'.
Proof. intros Hdef. by apply second_pass_prefix_total. Qed.

(** C10: after the first pass the map of labels holds, under each name,
    the last [Label] instruction of this name, whatever the number of
    definitions; when each label jumped to has a definition at least the
    second pass returns, having printed nothing; and it gives each
    instruction, as further successors, the last [Label] of each label
    the instruction jumps to, in order, each of which gets the
    instruction among its predecessors. *)
Theorem duplicate_labels_last_definition (parse_line : string -> ParseResult)
    (lines : list string) (fp : FirstPass) :
  _first_pass parse_line lines = Ok fp ->
  (forall name t,
     fp_labels fp !! name = Some t <-> is_last_label (fp_instructions fp) name t)
  /\ ((forall i a l,
         fp_instructions fp !! i = Some a -> l ∈ jump_targets (ins_class a) ->
         exists t, is_last_label (fp_instructions fp) l t) ->
      exists instructions',
        _second_pass (fp_instructions fp) (fp_labels fp) = Ok instructions')
  /\ (forall instructions',
        _second_pass (fp_instructions fp) (fp_labels fp) = Ok instructions' ->
        forall i a,
          fp_instructions fp !! i = Some a ->
          exists a' ts,
            instructions' !! i = Some a'
            /\ ins_next a' = ins_next a ++ ts
            /\ Forall2 (is_last_label (fp_instructions fp))
                 (jump_targets (ins_class a)) ts
            /\ forall t, t ∈ ts ->
                 exists b', instructions' !! t = Some b' /\ i ∈ ins_prev b').
Proof.
  intros Hfp.
  pose proof (first_pass_inv_holds parse_line lines fp Hfp) as Hinv.
  pose proof (fpi_labels fp Hinv) as Hlabels.
  split; [exact Hlabels |]. split.
  - intros Hdef. apply second_pass_total. intros i a l Ha Hl.
    destruct (Hdef i a l Ha Hl) as [t Ht]. exists t. by apply Hlabels.
  - intros instructions' Hsp i a Ha.
    destruct (second_pass_jumps_linked _ _ _ Hsp) as [Hcl Hlinked].
    destruct (Hlinked i a Ha) as (a' & Ha' & Hnx & Hdef & ps & Hpv & Hin).
    assert (Hi : (i < length (fp_instructions fp))%nat)
      by (by eapply lookup_lt_Some).
    rewrite decide_True in Hnx by done.
    exists a', (targets_of (fp_labels fp) (ins_class a)).
    split; [exact Ha' |]. split; [exact Hnx |]. split.
    + eapply Forall2_impl; [exact (Hdef Hi) |].
      intros l t Hlt. by apply Hlabels.
    + intros t Ht.
      assert (Hlast : exists l, is_last_label (fp_instructions fp) l t).
      { apply list_elem_of_omap in Ht as (l & _ & Hl). exists l. by apply Hlabels. }
      destruct Hlast as (l & Hat & _). rewrite list_lookup_fmap in Hat.
      destruct (fp_instructions fp !! t) as [b |] eqn:Hb; [| discriminate].
      destruct (Hlinked t b Hb) as (b' & Hb' & _ & _ & psb & Hpb & Hinb).
      exists b'. split; [exact Hb' |]. rewrite Hpb. apply elem_of_app. right.
      by apply (Hinb i a).
Qed.

Lemma duplicate_labels_last_definition_witness :
  exists fp,
    _first_pass Sample.parse_line ["b x"; "x:"; "int 1"; "x:"; "return"] = Ok fp
    /\ is_last_label (fp_instructions fp) "x" 3.
Proof.
  eexists. split; [vm_compute; reflexivity |].
  apply (proj1 (duplicate_labels_last_definition Sample.parse_line
                  ["b x"; "x:"; "int 1"; "x:"; "return"] _
                  ltac:(vm_compute; reflexivity))).
  vm_compute. reflexivity.
Defined.

(** ** Numbering of the basic blocks *)

Section SortedByKey.

Context {A : Type}.
Implicit Types (x : Z * A) (l : list (Z * A)).

Lemma insert_by_key_perm x l : insert_by_key x l ≡ₚ x :: l.
Proof.
  induction l as [| y l IH]; simpl; [reflexivity |].
  destruct (x.1 <=? y.1); [reflexivity |].
  rewrite IH. apply Permutation_swap.
Qed.

Lemma sorted_by_key_perm l : sorted_by_key l ≡ₚ l.
Proof.
  induction l as [| x l IH]; simpl; [reflexivity |].
  rewrite insert_by_key_perm. by rewrite IH.
Qed.

Lemma insert_by_key_sorted x l :
  StronglySorted key_le l -> StronglySorted key_le (insert_by_key x l).
Proof.
  induction 1 as [| y l Hl IH Hy]; simpl.
  - repeat constructor.
  - destruct (Z.leb_spec x.1 y.1) as [Hle | Hgt].
    + constructor; [by constructor |].
      constructor; [exact Hle |].
      eapply Forall_impl; [exact Hy |]. unfold key_le. intros z Hz. lia.
    + constructor; [exact IH |].
      rewrite insert_by_key_perm. constructor; [unfold key_le; lia | exact Hy].
Qed.

Lemma sorted_by_key_sorted l : StronglySorted key_le (sorted_by_key l).
Proof.
  induction l as [| x l IH]; simpl; [constructor |].
  by apply insert_by_key_sorted.
Qed.

End SortedByKey.

Lemma StronglySorted_lookup {A : Type} (R : A -> A -> Prop) (l : list A) i j x y :
  StronglySorted R l -> (i < j)%nat -> l !! i = Some x -> l !! j = Some y -> R x y.
Proof.
  intros Hs. revert i j. induction Hs as [| z l Hs IH Hz]; intros i j Hij Hi Hj.
  - by rewrite lookup_nil in Hi.
  - destruct j as [| j]; [lia |]. simpl in Hj.
    destruct i as [| i]; simpl in Hi.
    + injection Hi as <-. rewrite Forall_forall in Hz. apply Hz.
      by eapply list_elem_of_lookup_2.
    + apply (IH i j); [lia | done | done].
Qed.

Section BlockIndices.

Variable instructions : list Instruction.

Lemma keyed_spec store bbs : forall ks,
  keyed instructions store bbs = Ok ks ->
  ks.*2 = bbs
  /\ Forall (λ kb, entry_line instructions store kb.2 = Ok kb.1) ks.
Proof.
  induction bbs as [| b bbs IH]; intros ks; simpl.
  - intros [= <-]. split; [reflexivity | constructor].
  - destruct (entry_line instructions store b) as [k | |] eqn:Hk;
      simpl; [| discriminate | discriminate].
    destruct (keyed instructions store bbs) as [ks' | |];
      simpl; [| discriminate | discriminate].
    intros [= <-]. destruct (IH ks' eq_refl) as [H1 H2].
    split; [by rewrite fmap_cons, H1 | by constructor].
Qed.

Lemma keyed_total store bbs :
  (forall b, b ∈ bbs -> exists k, entry_line instructions store b = Ok k) ->
  exists ks, keyed instructions store bbs = Ok ks.
Proof.
  induction bbs as [| b bbs IH]; intros Hall; simpl; [eauto |].
  destruct (Hall b) as [k ->]; [by left |]. simpl.
  destruct IH as [ks ->]; [| simpl; eauto].
  intros b' Hb'. apply Hall. by right.
Qed.

(** Setting [idx] keeps the other attributes of the blocks. *)
Lemma assign_idx_instructions bbs : forall i store,
  bb_instructions <$> assign_idx i bbs store = bb_instructions <$> store.
Proof.
  induction bbs as [| b bbs IH]; intros i store; simpl; [reflexivity |].
  rewrite IH. by apply fmap_alter_same.
Qed.

Lemma assign_idx_next bbs : forall i store,
  bb_next <$> assign_idx i bbs store = bb_next <$> store.
Proof.
  induction bbs as [| b bbs IH]; intros i store; simpl; [reflexivity |].
  rewrite IH. by apply fmap_alter_same.
Qed.

Lemma assign_idx_length bbs : forall i store,
  length (assign_idx i bbs store) = length store.
Proof.
  induction bbs as [| b bbs IH]; intros i store; simpl; [reflexivity |].
  by rewrite IH, length_alter.
Qed.

Lemma assign_idx_not_in bbs : forall i store b,
  b ∉ bbs -> assign_idx i bbs store !! b = store !! b.
Proof.
  induction bbs as [| b' bbs IH]; intros i store b Hb; simpl; [reflexivity |].
  apply not_elem_of_cons in Hb as [Hne Hb].
  rewrite IH by done. by rewrite list_lookup_alter_ne.
Qed.

(** Each block of a list without repetition gets its position. *)
Lemma assign_idx_lookup bbs : forall i store p b,
  NoDup bbs -> bbs !! p = Some b -> is_Some (store !! b) ->
  assign_idx i bbs store !! b ≫= bb_idx = Some (i + p)%nat.
Proof.
  induction bbs as [| b' bbs IH]; intros i store p b Hnd Hp Hb.
  - by rewrite lookup_nil in Hp.
  - apply NoDup_cons in Hnd as [Hnotin Hnd]. simpl.
    destruct p as [| p]; simpl in Hp.
    + injection Hp as ->. rewrite assign_idx_not_in by done.
      rewrite list_lookup_alter_eq. destruct Hb as [bb ->]. simpl.
      f_equal. lia.
    + rewrite (IH (S i) _ p b Hnd Hp).
      * f_equal. lia.
      * destruct (decide (b' = b)) as [-> |].
        -- rewrite list_lookup_alter_eq. destruct Hb as [bb ->]. by eexists.
        -- by rewrite list_lookup_alter_ne.
Qed.

Lemma entry_line_same_instructions store store' b :
  bb_instructions <$> store' = bb_instructions <$> store ->
  entry_line instructions store' b = entry_line instructions store b.
Proof.
  intros Hsame. unfold entry_line.
  assert (H : (bb_instructions <$> store') !! b = (bb_instructions <$> store) !! b)
    by (by rewrite Hsame).
  rewrite !list_lookup_fmap in H.
  destruct (store' !! b) as [bb' |], (store !! b) as [bb |];
    simpl in H; try discriminate; [| reflexivity].
  injection H as H. unfold entry_instr. by rewrite H.
Qed.

Lemma entry_line_Ok_lookup store b k :
  entry_line instructions store b = Ok k -> is_Some (store !! b).
Proof.
  unfold entry_line. destruct (store !! b); [eauto | discriminate].
Qed.

(** What [_add_basic_blocks_idx] returns when it returns. *)
Lemma add_basic_blocks_idx_spec store bbs bbs' store' :
  NoDup bbs ->
  _add_basic_blocks_idx instructions store bbs = Ok (bbs', store') ->
  bbs' ≡ₚ bbs
  /\ bb_instructions <$> store' = bb_instructions <$> store
  /\ bb_next <$> store' = bb_next <$> store
  /\ (forall i j bi bj ki kj,
        (i < j)%nat -> bbs' !! i = Some bi -> bbs' !! j = Some bj ->
        entry_line instructions store' bi = Ok ki ->
        entry_line instructions store' bj = Ok kj ->
        ki <= kj)
  /\ (forall i b, bbs' !! i = Some b ->
        (exists k, entry_line instructions store' b = Ok k)
        /\ store' !! b ≫= bb_idx = Some i).
Proof.
  intros Hnd. unfold _add_basic_blocks_idx.
  destruct (keyed instructions store bbs) as [ks | |] eqn:Hks;
    simpl; [| discriminate | discriminate].
  intros [= <- <-].
  destruct (keyed_spec store bbs ks Hks) as [Hbbs Hkeys].
  assert (Hperm : (sorted_by_key ks).*2 ≡ₚ bbs).
  { rewrite <- Hbbs. apply fmap_Permutation, sorted_by_key_perm. }
  assert (Hsame : bb_instructions <$> assign_idx 0 (sorted_by_key ks).*2 store
                  = bb_instructions <$> store)
    by apply assign_idx_instructions.
  assert (Hkeys' : Forall (λ kb, entry_line instructions store kb.2 = Ok kb.1)
                     (sorted_by_key ks)).
  { by rewrite sorted_by_key_perm. }
  rewrite Forall_lookup in Hkeys'.
  split; [exact Hperm |]. split; [exact Hsame |].
  split; [apply assign_idx_next |]. split.
  - intros i j bi bj ki kj Hij Hi Hj Hki Hkj.
    rewrite list_lookup_fmap in Hi, Hj.
    destruct (sorted_by_key ks !! i) as [[ki' bi'] |] eqn:Hi'; [| discriminate].
    destruct (sorted_by_key ks !! j) as [[kj' bj'] |] eqn:Hj'; [| discriminate].
    simpl in Hi, Hj. injection Hi as ->. injection Hj as ->.
    rewrite (entry_line_same_instructions _ _ _ Hsame) in Hki.
    rewrite (entry_line_same_instructions _ _ _ Hsame) in Hkj.
    pose proof (Hkeys' _ _ Hi') as Hi''. pose proof (Hkeys' _ _ Hj') as Hj''.
    simpl in Hi'', Hj''.
    assert (ki' = ki) by congruence. assert (kj' = kj) by congruence. subst.
    exact (StronglySorted_lookup key_le _ i j _ _
             (sorted_by_key_sorted ks) Hij Hi' Hj').
  - intros i b Hi.
    assert (Hk : exists k, entry_line instructions store b = Ok k).
    { rewrite list_lookup_fmap in Hi.
      destruct (sorted_by_key ks !! i) as [[k b'] |] eqn:Hi'; [| discriminate].
      simpl in Hi. injection Hi as ->. exists k. exact (Hkeys' _ _ Hi'). }
    split.
    + by rewrite (entry_line_same_instructions _ _ _ Hsame).
    + destruct Hk as [k Hk].
      rewrite (assign_idx_lookup _ 0 store i b); [done | | done |].
      * by rewrite Hperm.
      * by eapply entry_line_Ok_lookup.
Qed.

End BlockIndices.

(** ** The walk of [_identify_subroutine_blocks] *)

Section Dfs.

Variable store : list BasicBlock.
Variable entry : nat.

(** Pushing the successors that are neither visited nor on the stack. *)
Lemma push_unseen_spec visited succs : forall stack,
  NoDup stack ->
  (forall x, x ∈ stack -> x ∉ visited) ->
  NoDup (fold_left (push_unseen visited) succs stack)
  /\ (forall x, x ∈ fold_left (push_unseen visited) succs stack
                <-> x ∈ stack \/ (x ∈ succs /\ x ∉ visited)).
Proof.
  induction succs as [| s succs IH]; intros stack Hnd Hdisj.
  - split; [exact Hnd |]. intros x. split; [by left |].
    intros [H | [H _]]; [exact H | by apply elem_of_nil in H].
  - change (fold_left (push_unseen visited) (s :: succs) stack)
      with (fold_left (push_unseen visited) succs (push_unseen visited stack s)).
    assert (Hpush : NoDup (push_unseen visited stack s)
              /\ (forall x, x ∈ push_unseen visited stack s -> x ∉ visited)
              /\ (forall x, x ∈ push_unseen visited stack s
                     <-> x ∈ stack \/ (x = s /\ x ∉ visited))).
    { unfold push_unseen.
      destruct (bool_decide_reflect (s ∉ visited)) as [Hv | Hv]; simpl.
      - destruct (bool_decide_reflect (s ∉ stack)) as [Hs | Hs]; simpl.
        + split; [by constructor |]. split.
          * intros x [-> | Hx]%elem_of_cons; auto.
          * intros x. rewrite elem_of_cons. intuition (subst; auto).
        + split; [exact Hnd |]. split; [exact Hdisj |].
          assert (s ∈ stack) by (by destruct (decide (s ∈ stack))).
          intuition (subst; auto).
      - split; [exact Hnd |]. split; [exact Hdisj |].
        assert (s ∈ visited) by (by destruct (decide (s ∈ visited))).
        intuition (subst; auto). }
    destruct Hpush as (Hnd1 & Hdisj1 & Hin1).
    destruct (IH _ Hnd1 Hdisj1) as [Hnd' Hin'].
    split; [exact Hnd' |]. intros x. rewrite Hin', Hin1, elem_of_cons.
    intuition (subst; auto).
Qed.

Lemma successors_universe b s :
  s ∈ successors store b -> s ∈ store ≫= bb_next.
Proof.
  unfold successors. destruct (store !! b) as [bb |] eqn:Hb.
  - intros Hs. apply list_elem_of_bind. exists bb.
    split; [exact Hs | by eapply list_elem_of_lookup_2].
  - by intros ?%elem_of_nil.
Qed.

Lemma dfs_inv_init : dfs_inv store entry [] [entry].
Proof.
  split; simpl.
  - apply NoDup_singleton.
  - intros x ->%list_elem_of_singleton. apply rtc_refl.
  - by intros v s ?%elem_of_nil.
  - by left.
  - intros x ->%list_elem_of_singleton. by left.
Qed.

(** One turn of the loop keeps the invariant. *)
Lemma dfs_inv_step visited b stack :
  dfs_inv store entry visited (b :: stack) ->
  dfs_inv store entry (visited ++ [b])
    (fold_left (push_unseen (visited ++ [b])) (successors store b) stack).
Proof.
  intros [Hnd Hreach Hclosed Hentry Huniv].
  apply NoDup_app in Hnd as (Hndv & Hdisj & Hnds).
  apply NoDup_cons in Hnds as [Hb Hnds].
  assert (Hbv : b ∉ visited).
  { intros Hbv. apply (Hdisj b Hbv). by left. }
  destruct (push_unseen_spec (visited ++ [b]) (successors store b) stack Hnds)
    as [Hnd' Hin'].
  { intros x Hx [Hxv | ->%list_elem_of_singleton]%elem_of_app.
    - apply (Hdisj x Hxv). by right.
    - done. }
  split.
  - apply NoDup_app. split; [| split; [| exact Hnd']].
    + apply NoDup_app. split; [exact Hndv |]. split; [| apply NoDup_singleton].
      intros x Hx ->%list_elem_of_singleton. done.
    + intros x Hx Hx'. apply Hin' in Hx' as [Hx' | [_ Hx']]; [| done].
      apply elem_of_app in Hx as [Hx | ->%list_elem_of_singleton].
      * apply (Hdisj x Hx). by right.
      * done.
  - intros x [[Hx | ->%list_elem_of_singleton]%elem_of_app | Hx]%elem_of_app.
    + apply Hreach, elem_of_app. by left.
    + apply Hreach, elem_of_app. right. by left.
    + apply Hin' in Hx as [Hx | [Hx _]].
      * apply Hreach, elem_of_app. right. by right.
      * eapply rtc_r; [| exact Hx]. apply Hreach, elem_of_app. right. by left.
  - intros v s [Hv | ->%list_elem_of_singleton]%elem_of_app Hs.
    + apply Hclosed in Hs; [| exact Hv].
      apply elem_of_app in Hs as [Hs | [-> | Hs]%elem_of_cons].
      * apply elem_of_app. left. apply elem_of_app. by left.
      * apply elem_of_app. left. apply elem_of_app. right. by left.
      * apply elem_of_app. right. apply Hin'. by left.
    + destruct (decide (s ∈ visited ++ [b])) as [Hsv | Hsv].
      * apply elem_of_app. by left.
      * apply elem_of_app. right. apply Hin'. by right.
  - apply elem_of_app in Hentry as [He | [-> | He]%elem_of_cons].
    + apply elem_of_app. left. apply elem_of_app. by left.
    + apply elem_of_app. left. apply elem_of_app. right. by left.
    + apply elem_of_app. right. apply Hin'. by left.
  - intros x [[Hx | ->%list_elem_of_singleton]%elem_of_app | Hx]%elem_of_app.
    + apply Huniv, elem_of_app. by left.
    + apply Huniv, elem_of_app. right. by left.
    + apply Hin' in Hx as [Hx | [Hx _]].
      * apply Huniv, elem_of_app. right. by right.
      * right. by eapply successors_universe.
Qed.

Lemma dfs_inv_bound visited stack :
  dfs_inv store entry visited stack ->
  (length visited + length stack <= dfs_fuel store)%nat.
Proof.
  intros [Hnd _ _ _ Huniv]. rewrite <- length_app.
  change (dfs_fuel store) with (length (entry :: (store ≫= bb_next))).
  apply submseteq_length, NoDup_submseteq; [exact Hnd | exact Huniv].
Qed.

(** With enough fuel the loop ends: the stack is empty. *)
Lemma dfs_loop_ends fuel : forall visited stack,
  dfs_inv store entry visited stack ->
  (dfs_fuel store <= length visited + fuel)%nat ->
  (dfs_loop fuel store visited stack).2 = []
  /\ dfs_inv store entry (dfs_loop fuel store visited stack).1 [].
Proof.
  induction fuel as [| fuel IH]; intros visited stack Hinv Hfuel.
  - pose proof (dfs_inv_bound _ _ Hinv) as Hb.
    assert (Hs : stack = []) by (apply length_zero_iff_nil; lia).
    subst stack. simpl. by split.
  - destruct stack as [| b stack]; [simpl; by split |].
    simpl. apply IH.
    + by apply dfs_inv_step.
    + rewrite length_app. simpl. lia.
Qed.

(** The blocks found are the blocks reachable from the entry. *)
Lemma dfs_inv_final visited :
  dfs_inv store entry visited [] ->
  NoDup visited /\ forall b, b ∈ visited <-> reachable store entry b.
Proof.
  intros [Hnd Hreach Hclosed Hentry _]. rewrite app_nil_r in Hnd, Hentry.
  split; [exact Hnd |]. intros b. split.
  - intros Hb. apply Hreach. by rewrite app_nil_r.
  - revert b. apply (rtc_ind_r (λ b, b ∈ visited)); [exact Hentry |].
    intros y z _ Hyz IH.
    specialize (Hclosed y z IH Hyz). by rewrite app_nil_r in Hclosed.
Qed.

Lemma identify_subroutine_blocks_spec :
  (dfs_loop (dfs_fuel store) store [] [entry]).2 = []
  /\ NoDup (_identify_subroutine_blocks store entry)
  /\ forall b,
       b ∈ _identify_subroutine_blocks store entry <-> reachable store entry b.
Proof.
  destruct (dfs_loop_ends (dfs_fuel store) [] [entry] dfs_inv_init)
    as [Hstack Hinv]; [simpl; lia |].
  split; [exact Hstack |]. by apply dfs_inv_final.
Qed.

End Dfs.

(** ** The stages of [parse_teal] *)

Lemma parse_teal_has_stages parse_line source_code contract_name teal :
  parse_teal parse_line source_code contract_name = Ok teal ->
  inhabited (parse_teal_stages parse_line source_code teal).
Proof.
  unfold parse_teal.
  destruct (_first_pass parse_line (PyStr.splitlines source_code))
    as [fp | |] eqn:H1; simpl; [| discriminate | discriminate].
  destruct (_second_pass (fp_instructions fp) (fp_labels fp))
    as [instructions2 | |] eqn:H2; simpl; [| discriminate | discriminate].
  destruct (_fourth_pass _ _) as [store4 | |] eqn:H4;
    simpl; [| discriminate | discriminate].
  destruct (_add_basic_blocks_idx _ _ _) as [[all_bbs store5] | |] eqn:H5;
    simpl; [| discriminate | discriminate].
  destruct (cb_instructions (create_bb instructions2) !! 0%nat) as [first |];
    simpl; [| discriminate].
  destruct (_verify_version _ _) as [err stderr].
  destruct (for_each _ (fp_subroutines fp) _) as [[[instructions6 store6] subs] | |]
    eqn:H6; simpl; [| discriminate | discriminate].
  destruct (all_bbs !! 0%nat) as [entry |] eqn:He; simpl; [| discriminate].
  intros [= <-]. simpl.
  constructor.
  by refine (mkStages _ _ _ fp instructions2 store4 store5 store6 entry
               H1 H2 H4 _ _ _ _ _).
Qed.

(** ** Attributes that the later stages keep *)

Lemma fold_alter_same {A B X : Type} (g : A -> B) (f : X -> A -> A) (k : X -> nat)
    (xs : list X) : forall l : list A,
  (forall x a, g (f x a) = g a) ->
  g <$> fold_left (λ l x, alter (f x) (k x) l) xs l = g <$> l.
Proof.
  induction xs as [| x xs IH]; intros l Hg; simpl; [reflexivity |].
  rewrite IH by done. by apply fmap_alter_same.
Qed.

Lemma for_each_cons {A S : Type} (body : S -> A -> Outcome S) x xs s :
  for_each body (x :: xs) s = (s' ← body s x; for_each body xs s').
Proof. reflexivity. Qed.

Lemma set_subroutine_of_shape s blocks store :
  bb_shape <$> set_subroutine_of s blocks store = bb_shape <$> store.
Proof.
  unfold set_subroutine_of.
  by apply (fold_alter_same bb_shape (λ _, bb_set_subroutine s) id).
Qed.

Lemma default_to_main_shape all_bbs : forall store,
  bb_shape <$> default_to_main all_bbs store = bb_shape <$> store.
Proof.
  unfold default_to_main.
  induction all_bbs as [| b all_bbs IH]; intros store; simpl; [reflexivity |].
  rewrite IH. destruct (store !! b ≫= bb_subroutine); [reflexivity |].
  by apply fmap_alter_same.
Qed.

Lemma discover_subroutine_shape labels instructions store subs item
    instructions' store' subs' :
  discover_subroutine labels (instructions, store, subs) item
  = Ok (instructions', store', subs') ->
  bb_shape <$> store' = bb_shape <$> store
  /\ ins_shape <$> instructions' = ins_shape <$> instructions
  /\ ins_bb <$> instructions' = ins_bb <$> instructions.
Proof.
  unfold discover_subroutine. destruct item as [name callsubs].
  destruct (labels !! name) as [label_ins |]; simpl; [| discriminate].
  destruct (instructions !! label_ins ≫= ins_bb) as [entry |];
    simpl; [| discriminate].
  intros [= <- <- <-]. split; [| split].
  - rewrite set_subroutine_of_shape. by apply fmap_alter_same.
  - by apply (fold_alter_same ins_shape
                (λ _, ins_set_called_subroutine (NamedSubroutine name)) id).
  - by apply (fold_alter_same ins_bb
                (λ _, ins_set_called_subroutine (NamedSubroutine name)) id).
Qed.

Lemma discover_subroutines_shape labels items : forall instructions store subs
    instructions' store' subs',
  for_each (discover_subroutine labels) items (instructions, store, subs)
  = Ok (instructions', store', subs') ->
  bb_shape <$> store' = bb_shape <$> store
  /\ ins_shape <$> instructions' = ins_shape <$> instructions
  /\ ins_bb <$> instructions' = ins_bb <$> instructions.
Proof.
  induction items as [| item items IH];
    intros instructions store subs instructions' store' subs'.
  - simpl. intros H. injection H as H1 H2 H3. by subst.
  - rewrite for_each_cons. destruct (discover_subroutine labels (instructions, store, subs) item)
      as [[[instructions1 store1] subs1] | |] eqn:H1;
      simpl; [| discriminate | discriminate].
    intros Hrest. apply discover_subroutine_shape in H1 as (Hs1 & Hi1 & Hb1).
    apply IH in Hrest as (Hs & Hi & Hb).
    repeat split; congruence.
Qed.

(** A projection of the list of shapes. *)
Lemma fmap_shape_proj {A S B : Type} (shape : A -> S) (proj : S -> B) (g : A -> B)
    (l l' : list A) :
  (forall a, proj (shape a) = g a) ->
  shape <$> l' = shape <$> l -> g <$> l' = g <$> l.
Proof.
  intros Hproj Hshape.
  assert (H : proj <$> (shape <$> l') = proj <$> (shape <$> l)) by (by rewrite Hshape).
  rewrite <- !list_fmap_compose in H.
  rewrite <- (list_fmap_ext (proj ∘ shape) g l') by (intros; apply Hproj).
  rewrite <- (list_fmap_ext (proj ∘ shape) g l) by (intros; apply Hproj).
  exact H.
Qed.

Lemma same_fmap_lookup {A B : Type} (g : A -> B) (l l' : list A) i a :
  g <$> l' = g <$> l -> l !! i = Some a ->
  exists a', l' !! i = Some a' /\ g a' = g a.
Proof.
  intros Hsame Ha.
  assert (H : (g <$> l') !! i = Some (g a)).
  { rewrite Hsame, list_lookup_fmap, Ha. reflexivity. }
  rewrite list_lookup_fmap in H.
  destruct (l' !! i) as [a' |]; [| discriminate].
  injection H as H. eauto.
Qed.

Lemma same_fmap_length {A B : Type} (g : A -> B) (l l' : list A) :
  g <$> l' = g <$> l -> length l' = length l.
Proof.
  intros H. rewrite <- (length_fmap g l'), <- (length_fmap g l). by rewrite H.
Qed.

(** From the numbered blocks to the blocks of the [Teal] object. *)
Lemma stages_store_shape parse_line source_code teal
    (stg : parse_teal_stages parse_line source_code teal) :
  bb_shape <$> teal_store teal = bb_shape <$> st_store5 _ _ _ stg
  /\ bb_shape <$> st_store6 _ _ _ stg = bb_shape <$> st_store5 _ _ _ stg
  /\ ins_shape <$> teal_instructions teal
     = ins_shape <$> cb_instructions (create_bb (st_instructions2 _ _ _ stg))
  /\ ins_bb <$> teal_instructions teal
     = ins_bb <$> cb_instructions (create_bb (st_instructions2 _ _ _ stg)).
Proof.
  destruct (discover_subroutines_shape _ _ _ _ _ _ _ _ (st_discover _ _ _ stg))
    as (Hs & Hi & Hb).
  repeat split; try done.
  rewrite (st_store _ _ _ stg).
  rewrite (fold_alter_same bb_shape
             (λ _ b, bb_insert_comment_first (block_id_and_cost (bb_idx b)) b) id)
    by done.
  by rewrite default_to_main_shape, set_subroutine_of_shape.
Qed.

(** ** The blocks made by [create_bb] *)

Lemma for_each_preserves {A S : Type} (body : S -> A -> Outcome S)
    (P : S -> S -> Prop) (xs : list A) :
  (forall s, P s s) ->
  (forall s1 s2 s3, P s1 s2 -> P s2 s3 -> P s1 s3) ->
  (forall s x s', body s x = Ok s' -> P s s') ->
  forall s s', for_each body xs s = Ok s' -> P s s'.
Proof.
  intros Hrefl Htrans Hstep.
  induction xs as [| x xs IH]; intros s s'.
  - simpl. intros [= <-]. apply Hrefl.
  - rewrite for_each_cons.
    destruct (body s x) as [s1 | |] eqn:H1; simpl; [| discriminate | discriminate].
    intros Hrest. eapply Htrans; [by eapply Hstep | by apply IH].
Qed.

Lemma link_jump_lines labels i instructions l instructions' :
  link_jump labels i instructions l = Ok instructions' ->
  ins_line <$> instructions' = ins_line <$> instructions.
Proof.
  unfold link_jump. destruct (labels !! l); simpl; [| discriminate].
  intros [= <-]. by rewrite !fmap_alter_same.
Qed.

Lemma second_pass_lines labels instructions instructions' :
  _second_pass instructions labels = Ok instructions' ->
  ins_line <$> instructions' = ins_line <$> instructions.
Proof.
  apply (for_each_preserves _ (λ l l', ins_line <$> l' = ins_line <$> l));
    [done | congruence |].
  intros cur i cur'. rewrite second_pass_ins_links.
  destruct (cur !! i) as [a |]; [| by intros [= <-]].
  apply (for_each_preserves _ (λ l l', ins_line <$> l' = ins_line <$> l));
    [done | congruence |].
  intros ? ? ?. apply link_jump_lines.
Qed.

Lemma link_blocks_instructions instructions b bbs next_ins bbs' :
  link_blocks instructions b bbs next_ins = Ok bbs' ->
  bb_instructions <$> bbs' = bb_instructions <$> bbs.
Proof.
  unfold link_blocks.
  destruct (instructions !! next_ins ≫= ins_bb) as [next_bb |],
    (bbs !! b) as [bb |]; try discriminate; try (by intros [= <-]).
  destruct (bool_decide (next_bb ∈ bb_next bb)); [by intros [= <-] |].
  destruct (bbs !! next_bb) as [nb |]; [| by intros [= <-]].
  destruct (bool_decide (b ∈ bb_prev nb)); [discriminate |].
  intros [= <-]. by rewrite !fmap_alter_same.
Qed.

Lemma fourth_pass_instructions instructions bbs bbs' :
  _fourth_pass instructions bbs = Ok bbs' ->
  bb_instructions <$> bbs' = bb_instructions <$> bbs.
Proof.
  apply (for_each_preserves _
           (λ l l', bb_instructions <$> l' = bb_instructions <$> l));
    [done | congruence |].
  intros cur b cur'. unfold fourth_pass_bb.
  destruct (cur !! b) as [bb |]; [| by intros [= <-]].
  destruct (exit_instr bb) as [e | |]; simpl; [| discriminate | discriminate].
  destruct (instructions !! e) as [ins |]; [| by intros [= <-]].
  apply (for_each_preserves _
           (λ l l', bb_instructions <$> l' = bb_instructions <$> l));
    [done | congruence |].
  intros ? ? ?. apply link_blocks_instructions.
Qed.

Lemma concat_snoc_nil {A : Type} (L : list (list A)) :
  concat (L ++ [[]]) = concat L.
Proof. by rewrite concat_app, app_nil_r. Qed.

Lemma concat_alter_last {A : Type} (L : list (list A)) (x : A) (n : nat) :
  S n = length L -> concat (alter (λ l, l ++ [x]) n L) = concat L ++ [x].
Proof.
  revert n. induction L as [| l L IH]; intros n Hn; [discriminate |].
  destruct n as [| n].
  - destruct L; [| discriminate]. simpl. by rewrite !app_nil_r.
  - change (alter (λ l, l ++ [x]) (S n) (l :: L))
      with (l :: alter (λ l, l ++ [x]) n L).
    simpl in Hn. rewrite !concat_cons, IH by lia. by rewrite app_assoc.
Qed.

Section CreateBB.

Variable instructions : list Instruction.

Lemma start_block_inv with_edge i st :
  create_bb_inv instructions i st ->
  create_bb_inv instructions i (start_block with_edge st).
Proof.
  intros [Hc Hcur Hshape Hsub]. unfold start_block. split; simpl.
  - assert (H : bb_instructions <$>
                  (if with_edge
                   then alter (bb_add_prev (cb_bb st)) (length (cb_all_bbs st))
                          (alter (bb_add_next (length (cb_all_bbs st))) (cb_bb st)
                             (cb_all_bbs st ++ [new_bb]))
                   else cb_all_bbs st ++ [new_bb])
                = (bb_instructions <$> cb_all_bbs st) ++ [[]]).
    { destruct with_edge; rewrite ?fmap_alter_same by done;
        by rewrite fmap_app. }
    by rewrite H, concat_snoc_nil.
  - destruct with_edge; rewrite ?length_alter, length_app; simpl; lia.
  - exact Hshape.
  - assert (Hnew : Forall (λ b, bb_subroutine b = None) (cb_all_bbs st ++ [new_bb])).
    { apply Forall_app. split; [exact Hsub | by repeat constructor]. }
    destruct with_edge; [| exact Hnew].
    repeat (apply Forall_alter; [| by intros]). exact Hnew.
Qed.

Lemma create_bb_ins_inv i st :
  (i < length instructions)%nat ->
  create_bb_inv instructions i st ->
  create_bb_inv instructions (S i) (create_bb_ins st i).
Proof.
  intros Hi Hinv. unfold create_bb_ins.
  assert (Hlen : length (cb_instructions st) = length instructions)
    by (eapply same_fmap_length, cbi_shape; exact Hinv).
  destruct (lookup_lt_is_Some_2 (cb_instructions st) i ltac:(lia)) as [ins ->].
  set (st1 := if is_Label (ins_class ins) && negb (block_is_empty st)
              then start_block true st else st).
  assert (Hinv1 : create_bb_inv instructions i st1).
  { subst st1. destruct (_ && _); [by apply start_block_inv | exact Hinv]. }
  clearbody st1. clear Hinv.
  set (st2 := {| cb_all_bbs := alter (bb_add_instruction i) (cb_bb st1) (cb_all_bbs st1);
                 cb_bb := cb_bb st1;
                 cb_instructions := alter (ins_set_bb (cb_bb st1)) i (cb_instructions st1) |}).
  assert (Hinv2 : create_bb_inv instructions (S i) st2).
  { destruct Hinv1 as [Hc Hcur Hshape Hsub]. subst st2. split; simpl.
    - rewrite (list_fmap_alter bb_instructions _ (λ l, l ++ [i])); [| by apply Forall_true].
      rewrite concat_alter_last by (by rewrite length_fmap).
      rewrite Hc. symmetry. apply (seq_S i 0).
    - by rewrite length_alter.
    - by rewrite fmap_alter_same.
    - apply Forall_alter; [exact Hsub | by intros]. }
  clearbody st2.
  repeat match goal with
         | |- context [if ?c then _ else _] => destruct c
         end;
    repeat apply start_block_inv; exact Hinv2.
Qed.

Lemma create_bb_prefix_inv m :
  (m <= length instructions)%nat ->
  create_bb_inv instructions m
    (fold_left create_bb_ins (seq 0 m)
       {| cb_all_bbs := [new_bb]; cb_bb := 0%nat;
          cb_instructions := instructions |}).
Proof.
  induction m as [| m IH]; intros Hm.
  - split; try done. by repeat constructor.
  - rewrite seq_S, fold_left_app. simpl.
    apply create_bb_ins_inv; [lia | apply IH; lia].
Qed.

Lemma create_bb_inv_holds :
  create_bb_inv instructions (length instructions) (create_bb instructions).
Proof. by apply create_bb_prefix_inv. Qed.

End CreateBB.

(** ** The order of the numbered blocks *)

Lemma seq_StronglySorted start len : StronglySorted lt (seq start len).
Proof.
  revert start. induction len as [| len IH]; intros start; simpl; [constructor |].
  constructor; [apply IH |]. apply Forall_forall. intros x Hx.
  apply elem_of_seq in Hx. lia.
Qed.

(** In a list of lists whose concatenation is sorted, the elements of an
    earlier list are below those of a later one. *)
Lemma concat_sorted_lookup (L : list (list nat)) : forall b1 b2 l1 l2 x y,
  StronglySorted lt (concat L) ->
  (b1 < b2)%nat -> L !! b1 = Some l1 -> L !! b2 = Some l2 ->
  x ∈ l1 -> y ∈ l2 -> (x < y)%nat.
Proof.
  induction L as [| l L IH]; intros b1 b2 l1 l2 x y Hs Hlt H1 H2 Hx Hy.
  - by rewrite lookup_nil in H1.
  - simpl in Hs. destruct b2 as [| b2]; [lia |]. simpl in H2.
    destruct b1 as [| b1]; simpl in H1.
    + injection H1 as ->.
      apply (StronglySorted_app_1_elem_of lt l1 (concat L) x y Hs Hx).
      apply list_elem_of_In, in_concat. exists l2.
      split; apply list_elem_of_In; [| exact Hy].
      by eapply list_elem_of_lookup_2.
    + apply (IH b1 b2 l1 l2 x y); try done; [| lia].
      by eapply StronglySorted_app_1_r.
Qed.

Lemma entry_line_same_lines instructions instructions' store b :
  ins_line <$> instructions' = ins_line <$> instructions ->
  entry_line instructions' store b = entry_line instructions store b.
Proof.
  intros Hsame. unfold entry_line.
  destruct (store !! b) as [bb |]; [| reflexivity].
  destruct (entry_instr bb) as [e | |]; simpl; try reflexivity.
  assert (H : (ins_line <$> instructions') !! e = (ins_line <$> instructions) !! e)
    by (by rewrite Hsame).
  rewrite !list_lookup_fmap in H.
  destruct (instructions' !! e), (instructions !! e); simpl in H;
    try discriminate; [| reflexivity].
  by injection H as ->.
Qed.

(** Blocks that hold, one after the other, instructions whose lines
    increase: the entry lines increase with the blocks. *)
Lemma entry_lines_increase instructions store n b1 b2 k1 k2 :
  concat (bb_instructions <$> store) = seq 0 n ->
  (forall i j a b, (i < j)%nat -> instructions !! i = Some a ->
     instructions !! j = Some b -> ins_line a < ins_line b) ->
  (b1 < b2)%nat ->
  entry_line instructions store b1 = Ok k1 ->
  entry_line instructions store b2 = Ok k2 ->
  k1 < k2.
Proof.
  intros Hconcat Hlines Hlt. unfold entry_line, entry_instr.
  destruct (store !! b1) as [bb1 |] eqn:Hb1; [| discriminate].
  destruct (store !! b2) as [bb2 |] eqn:Hb2; [| discriminate].
  destruct (bb_instructions bb1) as [| e1 r1] eqn:He1; [discriminate |].
  destruct (bb_instructions bb2) as [| e2 r2] eqn:He2; [discriminate |].
  simpl.
  destruct (instructions !! e1) as [i1 |] eqn:Hi1; [| discriminate].
  destruct (instructions !! e2) as [i2 |] eqn:Hi2; [| discriminate].
  intros [= <-] [= <-].
  apply (Hlines e1 e2); [| done | done].
  apply (concat_sorted_lookup (bb_instructions <$> store) b1 b2
           (e1 :: r1) (e2 :: r2)).
  - rewrite Hconcat. apply seq_StronglySorted.
  - exact Hlt.
  - by rewrite list_lookup_fmap, Hb1, <- He1.
  - by rewrite list_lookup_fmap, Hb2, <- He2.
  - by left.
  - by left.
Qed.

Section NumberedBlocks.

Variable parse_line : string -> ParseResult.
Variables (source_code : string) (teal : Teal).
Variable stg : parse_teal_stages parse_line source_code teal.

Let fp := st_fp _ _ _ stg.
Let instructions2 := st_instructions2 _ _ _ stg.
Let cb := create_bb instructions2.

Lemma stages_lines :
  ins_line <$> teal_instructions teal = ins_line <$> fp_instructions fp.
Proof.
  destruct (stages_store_shape _ _ _ stg) as (_ & _ & Hi & _).
  pose proof (cbi_shape _ _ _ (create_bb_inv_holds instructions2)) as Hcb.
  pose proof (second_pass_lines _ _ _ (st_second_pass _ _ _ stg)) as H2.
  etrans; [| exact H2].
  etrans; [exact (fmap_shape_proj ins_shape (λ s, s.1.1.2) ins_line _ _
                    ltac:(done) Hi) |].
  exact (fmap_shape_proj ins_shape (λ s, s.1.1.2) ins_line _ _
           ltac:(done) Hcb).
Qed.

Lemma stages_lines_increase i j a b :
  (i < j)%nat ->
  teal_instructions teal !! i = Some a -> teal_instructions teal !! j = Some b ->
  ins_line a < ins_line b.
Proof.
  intros Hij Ha Hb.
  pose proof (first_pass_inv_holds _ _ _ (st_first_pass _ _ _ stg)) as Hinv.
  destruct (same_fmap_lookup ins_line _ _ i a (eq_sym stages_lines) Ha)
    as (a0 & Ha0 & <-).
  destruct (same_fmap_lookup ins_line _ _ j b (eq_sym stages_lines) Hb)
    as (b0 & Hb0 & <-).
  by apply (fpi_lines_increase _ Hinv i j).
Qed.

Lemma stages_block_instructions :
  bb_instructions <$> teal_store teal = bb_instructions <$> cb_all_bbs cb
  /\ bb_idx <$> teal_store teal = bb_idx <$> st_store5 _ _ _ stg
  /\ length (teal_store teal) = length (st_store4 _ _ _ stg).
Proof.
  destruct (stages_store_shape _ _ _ stg) as (Hs & _).
  pose proof (fourth_pass_instructions _ _ _ (st_fourth_pass _ _ _ stg)) as H4.
  destruct (add_basic_blocks_idx_spec _ _ _ _ _ (NoDup_seq _ _) (st_idx _ _ _ stg))
    as (_ & H5 & _).
  pose proof (fmap_shape_proj bb_shape (λ s, s.1.1.1) bb_instructions _ _
                ltac:(done) Hs) as Hins.
  split; [exact (eq_trans Hins (eq_trans H5 H4)) |]. split.
  - exact (fmap_shape_proj bb_shape (λ s, s.2) bb_idx _ _ ltac:(done) Hs).
  - apply (same_fmap_length bb_instructions). exact (eq_trans Hins H5).
Qed.

Lemma stages_entry_line b :
  entry_line (teal_instructions teal) (teal_store teal) b
  = entry_line (cb_instructions cb) (st_store5 _ _ _ stg) b.
Proof.
  destruct (stages_store_shape _ _ _ stg) as (Hs & _ & Hi & _).
  rewrite (entry_line_same_lines (cb_instructions cb) (teal_instructions teal)).
  - apply entry_line_same_instructions.
    exact (fmap_shape_proj bb_shape (λ s, s.1.1.1) bb_instructions _ _
             ltac:(done) Hs).
  - exact (fmap_shape_proj ins_shape (λ s, s.1.1.2) ins_line _ _ ltac:(done) Hi).
Qed.

Lemma stages_sorted :
  teal_bbs teal ≡ₚ seq 0 (length (teal_store teal))
  /\ (forall i j bi bj,
        (i < j)%nat ->
        teal_bbs teal !! i = Some bi -> teal_bbs teal !! j = Some bj ->
        exists ki kj,
          entry_line (teal_instructions teal) (teal_store teal) bi = Ok ki
          /\ entry_line (teal_instructions teal) (teal_store teal) bj = Ok kj
          /\ ki < kj)
  /\ (forall i b,
        teal_bbs teal !! i = Some b ->
        exists blk, teal_store teal !! b = Some blk /\ bb_idx blk = Some i).
Proof.
  destruct stages_block_instructions as (Hins & Hidx & Hlen).
  destruct (add_basic_blocks_idx_spec _ _ _ _ _ (NoDup_seq _ _) (st_idx _ _ _ stg))
    as (Hperm & _ & _ & Hle & Hpos).
  assert (Hnd : NoDup (teal_bbs teal)).
  { rewrite Hperm. apply NoDup_seq. }
  split; [by rewrite Hlen |]. split.
  - intros i j bi bj Hij Hi Hj.
    destruct (Hpos i bi Hi) as [[ki Hki] _].
    destruct (Hpos j bj Hj) as [[kj Hkj] _].
    exists ki, kj. rewrite !stages_entry_line.
    split; [exact Hki |]. split; [exact Hkj |].
    pose proof (Hle i j bi bj ki kj Hij Hi Hj Hki Hkj) as Hkle.
    assert (Hne : bi <> bj).
    { intros ->. pose proof (NoDup_lookup _ _ _ _ Hnd Hi Hj). lia. }
    rewrite <- stages_entry_line in Hki, Hkj.
    assert (Hinc : forall b1 b2 k1 k2, (b1 < b2)%nat ->
              entry_line (teal_instructions teal) (teal_store teal) b1 = Ok k1 ->
              entry_line (teal_instructions teal) (teal_store teal) b2 = Ok k2 ->
              k1 < k2).
    { intros b1 b2 k1 k2.
      apply (entry_lines_increase _ _ (length instructions2)).
      - rewrite Hins. apply (cbi_concat _ _ _ (create_bb_inv_holds instructions2)).
      - apply stages_lines_increase. }
    destruct (decide (bi < bj)%nat).
    + by apply (Hinc bi bj).
    + pose proof (Hinc bj bi kj ki ltac:(lia) Hkj Hki). lia.
  - intros i b Hi. destruct (Hpos i b Hi) as [_ Hb].
    destruct (st_store5 _ _ _ stg !! b) as [blk5 |] eqn:H5; [| discriminate].
    simpl in Hb.
    destruct (same_fmap_lookup bb_idx _ _ b blk5 Hidx H5) as (blk & Hblk & Hi').
    exists blk. split; [exact Hblk | congruence].
Qed.

End NumberedBlocks.

(** C5: in the [Teal] object that [parse_teal] returns, the list of
    blocks holds every block once, the entry lines of the blocks increase
    along the list, and the block at position [i] has [idx] equal to [i]:
    the indices are 0, 1, ..., one for each block. *)
Theorem basic_blocks_sorted_and_numbered (parse_line : string -> ParseResult)
    (source_code contract_name : string) (teal : Teal) :
  parse_teal parse_line source_code contract_name = Ok teal ->
  teal_bbs teal ≡ₚ seq 0 (length (teal_store teal))
  /\ (forall i j bi bj,
        (i < j)%nat ->
        teal_bbs teal !! i = Some bi -> teal_bbs teal !! j = Some bj ->
        exists ki kj,
          entry_line (teal_instructions teal) (teal_store teal) bi = Ok ki
          /\ entry_line (teal_instructions teal) (teal_store teal) bj = Ok kj
          /\ ki < kj)
  /\ (forall i b,
        teal_bbs teal !! i = Some b ->
        exists blk, teal_store teal !! b = Some blk /\ bb_idx blk = Some i).
Proof.
  intros Hok. destruct (parse_teal_has_stages _ _ _ _ Hok) as [stg].
  exact (stages_sorted parse_line source_code teal stg).
Qed.

Lemma basic_blocks_sorted_and_numbered_witness :
  exists teal,
    parse_teal Sample.parse_line Sample.MULTIPLE_RETURN_POINTS "" = Ok teal
    /\ teal_bbs teal = [0; 1; 2; 3]%nat
    /\ forall i b,
         teal_bbs teal !! i = Some b ->
         exists blk, teal_store teal !! b = Some blk /\ bb_idx blk = Some i.
Proof.
  eexists. split; [vm_compute; reflexivity |]. split; [reflexivity |].
  eapply (basic_blocks_sorted_and_numbered Sample.parse_line
            Sample.MULTIPLE_RETURN_POINTS "").
  vm_compute. reflexivity.
Defined.

(** ** Subroutines *)

Lemma successors_same_next store store' b :
  bb_next <$> store' = bb_next <$> store ->
  successors store' b = successors store b.
Proof.
  intros Hsame. unfold successors.
  assert (H : (bb_next <$> store') !! b = (bb_next <$> store) !! b)
    by (by rewrite Hsame).
  rewrite !list_lookup_fmap in H.
  destruct (store' !! b), (store !! b); simpl in H; try discriminate;
    [by injection H | reflexivity].
Qed.

(** Reachability looks at the successors of the blocks only. *)
Lemma reachable_same_next store store' a b :
  bb_next <$> store' = bb_next <$> store ->
  reachable store' a b <-> reachable store a b.
Proof.
  intros Hsame. unfold reachable.
  assert (Hedge : forall x y, succ_edge store' x y <-> succ_edge store x y).
  { intros x y. unfold succ_edge. by rewrite (successors_same_next _ _ _ Hsame). }
  split; apply rtc_subrel; intros x y; apply Hedge.
Qed.

Lemma shape_next (store store' : list BasicBlock) :
  bb_shape <$> store' = bb_shape <$> store -> bb_next <$> store' = bb_next <$> store.
Proof. by apply (fmap_shape_proj bb_shape (λ s, s.1.1.2) bb_next). Qed.

Lemma subroutine_of_alter_keep f x store b :
  (forall bb, bb_subroutine (f bb) = bb_subroutine bb) ->
  subroutine_of (alter f x store) b = subroutine_of store b.
Proof.
  intros Hf. unfold subroutine_of. destruct (decide (x = b)) as [-> |].
  - rewrite list_lookup_alter_eq. destruct (store !! b); simpl; [apply Hf | done].
  - by rewrite list_lookup_alter_ne.
Qed.

Lemma subroutine_of_alter_set s x store b :
  subroutine_of (alter (bb_set_subroutine s) x store) b
  = if decide (x = b) then store !! b ≫= (λ _, Some s) else subroutine_of store b.
Proof.
  unfold subroutine_of. destruct (decide (x = b)) as [-> |].
  - rewrite list_lookup_alter_eq. by destruct (store !! b).
  - by rewrite list_lookup_alter_ne.
Qed.

Lemma set_subroutine_of_lookup s blocks : forall store b,
  (b ∈ blocks -> is_Some (store !! b) ->
   subroutine_of (set_subroutine_of s blocks store) b = Some s)
  /\ (b ∉ blocks ->
      subroutine_of (set_subroutine_of s blocks store) b = subroutine_of store b).
Proof.
  unfold set_subroutine_of.
  induction blocks as [| x blocks IH]; intros store b; simpl.
  - split; [by intros ?%elem_of_nil | done].
  - destruct (IH (alter (bb_set_subroutine s) x store) b) as [IHin IHout].
    assert (Hsome : is_Some (store !! b) ->
                    is_Some (alter (bb_set_subroutine s) x store !! b)).
    { intros [bb Hbb]. rewrite list_lookup_alter.
      destruct (decide (x = b)) as [-> |]; rewrite ?Hbb; by eexists. }
    split.
    + intros Hin Hb. destruct (decide (b ∈ blocks)) as [Hb' | Hb'].
      * by apply IHin, Hsome.
      * rewrite IHout by done. rewrite subroutine_of_alter_set.
        apply elem_of_cons in Hin as [-> | Hin]; [| done].
        rewrite decide_True by done. by destruct Hb as [bb ->].
    + intros Hout. apply not_elem_of_cons in Hout as [Hne Hout].
      rewrite IHout by done. rewrite subroutine_of_alter_set.
      by rewrite decide_False.
Qed.

Lemma default_to_main_lookup all_bbs : forall store b,
  (forall s, subroutine_of store b = Some s ->
     subroutine_of (default_to_main all_bbs store) b = Some s)
  /\ (b ∈ all_bbs -> is_Some (store !! b) ->
      is_Some (subroutine_of (default_to_main all_bbs store) b))
  /\ (subroutine_of store b = None ->
      subroutine_of (default_to_main all_bbs store) b = None
      \/ subroutine_of (default_to_main all_bbs store) b = Some MainSubroutine).
Proof.
  unfold default_to_main.
  induction all_bbs as [| x all_bbs IH]; intros store b; simpl.
  - split; [done |]. split; [by intros ?%elem_of_nil | by left].
  - set (store1 := match store !! x ≫= bb_subroutine with
                   | Some _ => store
                   | None => alter (bb_set_subroutine MainSubroutine) x store
                   end).
    destruct (IH store1 b) as (IHkeep & IHin & IHnone).
    assert (H1 : forall s, subroutine_of store b = Some s ->
                           subroutine_of store1 b = Some s).
    { intros s Hs. subst store1.
      destruct (store !! x ≫= bb_subroutine) eqn:Hx; [exact Hs |].
      rewrite subroutine_of_alter_set. destruct (decide (x = b)) as [-> |]; [| done].
      unfold subroutine_of in Hs. congruence. }
    assert (Hsome : is_Some (store !! b) -> is_Some (store1 !! b)).
    { intros [bb Hbb]. subst store1.
      destruct (store !! x ≫= bb_subroutine); [by eexists |].
      rewrite list_lookup_alter.
      destruct (decide (x = b)) as [-> |]; rewrite ?Hbb; by eexists. }
    split; [| split].
    + intros s Hs. by apply IHkeep, H1.
    + intros Hin Hb. apply elem_of_cons in Hin as [-> | Hin].
      * assert (Hx : is_Some (subroutine_of store1 x)).
        { subst store1. unfold subroutine_of at 1.
          destruct (store !! x ≫= bb_subroutine) eqn:Hx; [by rewrite Hx |].
          fold (subroutine_of (alter (bb_set_subroutine MainSubroutine) x store) x).
          rewrite subroutine_of_alter_set, decide_True by done.
          destruct Hb as [bb ->]. by eexists. }
        destruct Hx as [s Hs]. rewrite (IHkeep s Hs). by eexists.
      * by apply IHin, Hsome.
    + intros Hnone.
      assert (Hcases : (exists s, subroutine_of store1 b = Some s)
                       \/ subroutine_of store1 b = None)
        by (destruct (subroutine_of store1 b); eauto).
      destruct Hcases as [[s Hs1] | Hs1].
      * right. rewrite (IHkeep s Hs1). subst store1.
        destruct (store !! x ≫= bb_subroutine) eqn:Hx; [congruence |].
        rewrite subroutine_of_alter_set in Hs1.
        destruct (decide (x = b)) as [-> |]; [| congruence].
        destruct (store !! b); simpl in Hs1; congruence.
      * by apply IHnone.
Qed.

Lemma subroutine_of_none_Forall store b :
  Forall (λ bb, bb_subroutine bb = None) store -> subroutine_of store b = None.
Proof.
  intros Hall. unfold subroutine_of.
  destruct (store !! b) as [bb |] eqn:Hb; [| reflexivity].
  rewrite Forall_lookup in Hall. exact (Hall b bb Hb).
Qed.

Lemma link_blocks_subroutine instructions b bbs next_ins bbs' :
  link_blocks instructions b bbs next_ins = Ok bbs' ->
  Forall (λ bb, bb_subroutine bb = None) bbs ->
  Forall (λ bb, bb_subroutine bb = None) bbs'.
Proof.
  unfold link_blocks.
  destruct (instructions !! next_ins ≫= ins_bb) as [next_bb |],
    (bbs !! b) as [bb |]; try discriminate; try (by intros [= <-]).
  destruct (bool_decide (next_bb ∈ bb_next bb)); [by intros [= <-] |].
  destruct (bbs !! next_bb) as [nb |]; [| by intros [= <-]].
  destruct (bool_decide (b ∈ bb_prev nb)); [discriminate |].
  intros [= <-] Hall. repeat (apply Forall_alter; [| by intros]). exact Hall.
Qed.

Lemma fourth_pass_subroutine instructions bbs bbs' :
  _fourth_pass instructions bbs = Ok bbs' ->
  Forall (λ bb, bb_subroutine bb = None) bbs ->
  Forall (λ bb, bb_subroutine bb = None) bbs'.
Proof.
  apply (for_each_preserves _
           (λ l l', Forall (λ bb, bb_subroutine bb = None) l ->
                    Forall (λ bb, bb_subroutine bb = None) l'));
    [done | by auto |].
  intros cur b cur'. unfold fourth_pass_bb.
  destruct (cur !! b) as [bb |]; [| by intros [= <-]].
  destruct (exit_instr bb) as [e | |]; simpl; [| discriminate | discriminate].
  destruct (instructions !! e) as [ins |]; [| by intros [= <-]].
  apply (for_each_preserves _
           (λ l l', Forall (λ bb, bb_subroutine bb = None) l ->
                    Forall (λ bb, bb_subroutine bb = None) l'));
    [done | by auto |].
  intros ? ? ?. apply link_blocks_subroutine.
Qed.

Lemma assign_idx_subroutine bbs : forall i store,
  Forall (λ bb, bb_subroutine bb = None) store ->
  Forall (λ bb, bb_subroutine bb = None) (assign_idx i bbs store).
Proof.
  induction bbs as [| b bbs IH]; intros i store Hall; simpl; [exact Hall |].
  apply IH. apply Forall_alter; [exact Hall | by intros].
Qed.

Lemma subroutine_of_none_lookup store b :
  store !! b = None -> subroutine_of store b = None.
Proof. unfold subroutine_of. by intros ->. Qed.

Section Discover.

Variable labels : gmap string nat.
Variable instructions0 : list Instruction.
Variable store0 : list BasicBlock.

Lemma bind_ins_bb_same instructions i :
  ins_bb <$> instructions = ins_bb <$> instructions0 ->
  instructions !! i ≫= ins_bb = instructions0 !! i ≫= ins_bb.
Proof.
  intros Hsame.
  assert (H : (ins_bb <$> instructions) !! i = (ins_bb <$> instructions0) !! i)
    by (by rewrite Hsame).
  rewrite !list_lookup_fmap in H.
  destruct (instructions !! i), (instructions0 !! i); simpl in *; congruence.
Qed.

Lemma discover_subroutine_inv instructions store subs item
    instructions' store' subs' :
  ins_bb <$> instructions = ins_bb <$> instructions0 ->
  bb_next <$> store = bb_next <$> store0 ->
  discover_inv labels instructions0 store0 store subs ->
  discover_subroutine labels (instructions, store, subs) item
  = Ok (instructions', store', subs') ->
  discover_inv labels instructions0 store0 store' subs'.
Proof.
  intros Hbb Hnext [Hsubs Hblocks]. unfold discover_subroutine.
  destruct item as [name callsubs].
  destruct (labels !! name) as [label_ins |] eqn:Hlabel; simpl; [| discriminate].
  destruct (instructions !! label_ins ≫= ins_bb) as [entry |] eqn:Hentry;
    simpl; [| discriminate].
  intros [= <- <- <-].
  rewrite (bind_ins_bb_same _ _ Hbb) in Hentry.
  set (store1 := alter (bb_append_comment (Subroutine_named name)) entry store).
  set (blocks := _identify_subroutine_blocks store1 entry).
  assert (Hnext1 : bb_next <$> store1 = bb_next <$> store0).
  { subst store1. by rewrite fmap_alter_same. }
  assert (Hblocks1 : forall b, b ∈ blocks <-> reachable store0 entry b).
  { intros b. subst blocks.
    destruct (identify_subroutine_blocks_spec store1 entry) as (_ & _ & Hr).
    rewrite Hr. by apply reachable_same_next. }
  split.
  - intros name' sub. rewrite lookup_insert.
    destruct (decide (name = name')) as [<- | Hne].
    + intros [= <-]. simpl. split; [eauto | exact Hblocks1].
    + apply Hsubs.
  - intros b.
    destruct (decide (b ∈ blocks)) as [Hin | Hout].
    + destruct (store1 !! b) as [bb |] eqn:Hb.
      * rewrite (proj1 (set_subroutine_of_lookup _ blocks store1 b) Hin)
          by (by eexists).
        eexists. rewrite lookup_insert_eq. split; [reflexivity | exact Hin].
      * rewrite (subroutine_of_none_lookup _ b); [done |].
        destruct (set_subroutine_of (NamedSubroutine name) blocks store1 !! b)
          eqn:Hb'; [| reflexivity].
        apply lookup_lt_Some in Hb'.
        rewrite (same_fmap_length bb_shape _ _
                   (set_subroutine_of_shape _ blocks store1)) in Hb'.
        apply lookup_ge_None in Hb. lia.
    + rewrite (proj2 (set_subroutine_of_lookup _ blocks store1 b) Hout).
      subst store1. rewrite subroutine_of_alter_keep by done.
      specialize (Hblocks b).
      destruct (subroutine_of store b) as [[| name'] |]; try done.
      destruct Hblocks as (sub & Hsub & Hb).
      rewrite lookup_insert. destruct (decide (name = name')) as [<- | Hne].
      * eexists. split; [reflexivity |]. simpl.
        destruct (Hsubs name sub Hsub) as ((li & Hli & He) & Hr).
        assert (li = label_ins) by congruence. subst li.
        assert (subroutine_entry sub = entry) by congruence.
        apply Hblocks1. rewrite <- H. by apply Hr.
      * eauto.
Qed.

Lemma discover_subroutines_inv items : forall instructions store subs
    instructions' store' subs',
  ins_bb <$> instructions = ins_bb <$> instructions0 ->
  bb_next <$> store = bb_next <$> store0 ->
  discover_inv labels instructions0 store0 store subs ->
  for_each (discover_subroutine labels) items (instructions, store, subs)
  = Ok (instructions', store', subs') ->
  discover_inv labels instructions0 store0 store' subs'.
Proof.
  induction items as [| item items IH];
    intros instructions store subs instructions' store' subs' Hbb Hnext Hinv.
  - simpl. intros H. injection H as H1 H2 H3. by subst.
  - rewrite for_each_cons.
    destruct (discover_subroutine labels (instructions, store, subs) item)
      as [[[instructions1 store1] subs1] | |] eqn:H1;
      simpl; [| discriminate | discriminate].
    pose proof (discover_subroutine_inv _ _ _ _ _ _ _ Hbb Hnext Hinv H1) as Hinv1.
    apply discover_subroutine_shape in H1 as (Hs1 & _ & Hb1).
    apply IH; [congruence | | exact Hinv1].
    rewrite <- Hnext. by apply shape_next.
Qed.

End Discover.

Section SubroutinesOfTeal.

Variable parse_line : string -> ParseResult.
Variables (source_code : string) (teal : Teal).
Variable stg : parse_teal_stages parse_line source_code teal.

Let store5 := st_store5 _ _ _ stg.
Let store6 := st_store6 _ _ _ stg.
Let instructions3 := cb_instructions (create_bb (st_instructions2 _ _ _ stg)).

Lemma stages_no_subroutine_yet :
  Forall (λ bb, bb_subroutine bb = None) store5.
Proof.
  pose proof (st_idx _ _ _ stg) as Hidx. unfold _add_basic_blocks_idx in Hidx.
  destruct (keyed _ _ _) as [ks | |]; simpl in Hidx; try discriminate.
  injection Hidx as _ Hstore. subst store5. rewrite <- Hstore.
  apply assign_idx_subroutine.
  apply (fourth_pass_subroutine _ _ _ (st_fourth_pass _ _ _ stg)).
  apply (cbi_subroutine _ _ _ (create_bb_inv_holds _)).
Qed.

Lemma stages_discover_inv :
  discover_inv (fp_labels (st_fp _ _ _ stg)) instructions3 store5
    store6 (teal_subroutines teal).
Proof.
  apply (discover_subroutines_inv (fp_labels (st_fp _ _ _ stg)) instructions3 store5
           (fp_subroutines (st_fp _ _ _ stg)) instructions3 store5 ∅
           (teal_instructions teal) store6 (teal_subroutines teal)
           eq_refl eq_refl); [| exact (st_discover _ _ _ stg)].
  split.
  - intros name sub. by rewrite lookup_empty.
  - intros b. by rewrite (subroutine_of_none_Forall _ _ stages_no_subroutine_yet).
Qed.

Lemma stages_next :
  bb_next <$> teal_store teal = bb_next <$> store5
  /\ bb_next <$> store6 = bb_next <$> store5.
Proof.
  destruct (stages_store_shape _ _ _ stg) as (Hs & Hs6 & _).
  split; by apply shape_next.
Qed.

Lemma stages_subroutine_of b :
  let main_blocks := _identify_subroutine_blocks store6 (st_entry _ _ _ stg) in
  subroutine_of (teal_store teal) b
  = subroutine_of
      (default_to_main (teal_bbs teal)
         (set_subroutine_of MainSubroutine main_blocks store6)) b.
Proof.
  cbv zeta. rewrite (st_store _ _ _ stg). unfold subroutine_of.
  set (s := default_to_main _ _).
  assert (H : bb_subroutine <$>
                fold_left
                  (λ store bb,
                     alter (λ b0, bb_insert_comment_first
                                    (block_id_and_cost (bb_idx b0)) b0) bb store)
                  (teal_bbs teal) s
              = bb_subroutine <$> s).
  { by apply (fold_alter_same bb_subroutine
                (λ _ b0, bb_insert_comment_first (block_id_and_cost (bb_idx b0)) b0)
                id). }
  assert (H' := f_equal (λ l, l !! b) H). simpl in H'.
  rewrite !list_lookup_fmap in H'.
  destruct (fold_left _ _ _ !! b), (s !! b); simpl in *; congruence.
Qed.

Lemma stages_subroutines :
  (forall name sub,
     teal_subroutines teal !! name = Some sub ->
     forall b, b ∈ subroutine_blocks sub
               <-> reachable (teal_store teal) (subroutine_entry sub) b)
  /\ (forall b, b ∈ subroutine_blocks (teal_main teal)
                <-> reachable (teal_store teal)
                      (subroutine_entry (teal_main teal)) b)
  /\ teal_bbs teal !! 0%nat = Some (subroutine_entry (teal_main teal))
  /\ (forall b blk,
        teal_store teal !! b = Some blk ->
        is_Some (bb_subroutine blk)
        /\ (b ∈ subroutine_blocks (teal_main teal) ->
            bb_subroutine blk = Some MainSubroutine)
        /\ ((forall name sub, teal_subroutines teal !! name = Some sub ->
               b ∉ subroutine_blocks sub) ->
            bb_subroutine blk = Some MainSubroutine)).
Proof.
  destruct stages_next as [Hnext Hnext6].
  destruct stages_discover_inv as [Hsubs Hblocks].
  rewrite (st_main _ _ _ stg). simpl.
  split; [| split; [| split]].
  - intros name sub Hsub b. destruct (Hsubs name sub Hsub) as [_ Hr].
    rewrite Hr. symmetry. by apply reachable_same_next.
  - intros b.
    destruct (identify_subroutine_blocks_spec store6 (st_entry _ _ _ stg))
      as (_ & _ & Hr).
    fold store6. rewrite Hr.
    rewrite (reachable_same_next _ _ _ _ Hnext).
    by rewrite (reachable_same_next _ _ _ _ Hnext6).
  - exact (st_entry_block _ _ _ stg).
  - intros b blk Hb.
    pose proof (stages_subroutine_of b) as Hsub. cbv zeta in Hsub.
    unfold subroutine_of at 1 in Hsub. rewrite Hb in Hsub. simpl in Hsub.
    rewrite Hsub. fold store6.
    set (main_blocks := _identify_subroutine_blocks store6 (st_entry _ _ _ stg)).
    set (store7 := set_subroutine_of MainSubroutine main_blocks store6).
    destruct (default_to_main_lookup (teal_bbs teal) store7 b)
      as (Hkeep & Hin & Hnone).
    destruct (set_subroutine_of_lookup MainSubroutine main_blocks store6 b)
      as [Hset_in Hset_out].
    assert (Hlen7 : length store7 = length (teal_store teal)).
    { destruct (stages_store_shape _ _ _ stg) as (Hs & Hs6 & _).
      exact (eq_trans
               (same_fmap_length bb_shape _ _
                  (set_subroutine_of_shape MainSubroutine main_blocks store6))
               (eq_trans (same_fmap_length bb_shape _ _ Hs6)
                  (eq_sym (same_fmap_length bb_shape _ _ Hs)))). }
    assert (Hb7 : is_Some (store7 !! b)).
    { apply lookup_lt_is_Some. rewrite Hlen7. by eapply lookup_lt_Some. }
    assert (Hb6 : is_Some (store6 !! b)).
    { apply lookup_lt_is_Some.
      pose proof (same_fmap_length bb_shape _ _
                    (set_subroutine_of_shape MainSubroutine main_blocks store6))
        as Hlen6.
      fold store7 in Hlen6. apply lookup_lt_Some in Hb. lia. }
    split; [| split].
    + apply Hin; [| exact Hb7].
      destruct (stages_sorted _ _ _ stg) as (Hperm & _).
      rewrite Hperm. apply elem_of_seq. apply lookup_lt_Some in Hb. lia.
    + intros Hmain. apply Hkeep. by apply Hset_in.
    + intros Hnot.
      destruct (decide (b ∈ main_blocks)) as [Hmain | Hmain];
        [apply Hkeep; by apply Hset_in |].
      specialize (Hset_out Hmain). specialize (Hblocks b).
      destruct (subroutine_of store6 b) as [[| name] |] eqn:H6.
      * done.
      * destruct Hblocks as (sub & Hsub' & Hbin). destruct (Hnot name sub Hsub' Hbin).
      * destruct (Hnone Hset_out) as [Hn | Hm]; [| exact Hm].
        destruct Hin as [s Hs]; [| exact Hb7 | congruence].
        destruct (stages_sorted _ _ _ stg) as (Hperm & _).
        rewrite Hperm. apply elem_of_seq. apply lookup_lt_Some in Hb. lia.
Qed.

End SubroutinesOfTeal.

(** C4: in the [Teal] object that [parse_teal] returns, the blocks of
    each subroutine found from a [callsub] are the blocks reachable from
    its entry block along successor edges, whatever the instructions of
    the blocks on the way; the blocks of [__main__] are those reachable
    from the first block of the list; every block refers to a
    subroutine, which is [__main__] for the blocks of its walk and for
    the blocks that are in the walk of no subroutine. *)
Theorem subroutine_blocks_reachable (parse_line : string -> ParseResult)
    (source_code contract_name : string) (teal : Teal) :
  parse_teal parse_line source_code contract_name = Ok teal ->
  (forall name sub,
     teal_subroutines teal !! name = Some sub ->
     forall b, b ∈ subroutine_blocks sub
               <-> reachable (teal_store teal) (subroutine_entry sub) b)
  /\ (forall b, b ∈ subroutine_blocks (teal_main teal)
                <-> reachable (teal_store teal)
                      (subroutine_entry (teal_main teal)) b)
  /\ teal_bbs teal !! 0%nat = Some (subroutine_entry (teal_main teal))
  /\ (forall b blk,
        teal_store teal !! b = Some blk ->
        is_Some (bb_subroutine blk)
        /\ (b ∈ subroutine_blocks (teal_main teal) ->
            bb_subroutine blk = Some MainSubroutine)
        /\ ((forall name sub, teal_subroutines teal !! name = Some sub ->
               b ∉ subroutine_blocks sub) ->
            bb_subroutine blk = Some MainSubroutine)).
Proof.
  intros Hok. destruct (parse_teal_has_stages _ _ _ _ Hok) as [stg].
  exact (stages_subroutines parse_line source_code teal stg).
Qed.

Lemma subroutine_blocks_reachable_witness :
  exists teal,
    parse_teal Sample.parse_line Sample.MULTIPLE_RETURN_POINTS "" = Ok teal
    /\ (subroutine_blocks <$> teal_subroutines teal !! "subroutine_0") = Some [3%nat]
    /\ forall b blk,
         teal_store teal !! b = Some blk -> is_Some (bb_subroutine blk).
Proof.
  eexists. split; [vm_compute; reflexivity |].
  split; [vm_compute; reflexivity |].
  intros b blk Hb.
  eapply (subroutine_blocks_reachable Sample.parse_line
            Sample.MULTIPLE_RETURN_POINTS "");
    [vm_compute; reflexivity | exact Hb].
Defined.

(** ** Scenarios of the specification, run on the model *)

(** An empty subroutine called twice: blocks [B0] (pragma and the first
    [callsub]), [B1] (the second [callsub]), [B2] ([int 1], [return]) and
    [B3] (the label and [retsub]); [B0] and [B1] call the subroutine. *)
Example scenario_subroutine_called_twice :
  (teal ← parse_teal Sample.parse_line Sample.MULTIPLE_RETURN_POINTS "";
   Ok (teal_bbs teal,
       bb_instructions <$> teal_store teal,
       bb_idx <$> teal_store teal,
       caller_blocks <$> teal_subroutines teal !! "subroutine_0"))
  = Ok ([0; 1; 2; 3]%nat,
        [[0; 1]; [2]; [3; 4]; [5; 6]]%nat,
        [Some 0; Some 1; Some 2; Some 3]%nat,
        Some [Some 0; Some 1]%nat).
Proof. vm_compute. reflexivity. Qed.

(** A version mismatch: [log] needs version 5, the program declares 3; a
    diagnostic is printed for line 2 and parsing completes. *)
Example scenario_version_mismatch :
  (teal ← parse_teal Sample.parse_line "#pragma version 3
log
int 1
return" "";
   Ok (teal_version teal, teal_stderr teal))
  = Ok (3, [InstructionNotSupported 2 (OtherInstruction "log") 3 5]).
Proof. vm_compute. reflexivity. Qed.

(** Both modes in one program: a diagnostic lists the two groups, and the
    mode of the program is that of the first such instruction. *)
Example scenario_mode_conflict :
  (teal ← parse_teal Sample.parse_line "app_global_get
arg 0
return" "";
   Ok (teal_mode teal, teal_stderr teal))
  = Ok (STATEFULL,
        [InstructionNotSupported 1 (OtherInstruction "app_global_get") 1 2;
         InstructionNotSupported 3 Return 1 2;
         BothModes [2] [1]]).
Proof. vm_compute. reflexivity. Qed.

(** A [switch] with three targets ends its block, which gets the block
    that follows and the three blocks of the labels as successors. *)
Example scenario_switch :
  (teal ← parse_teal Sample.parse_line "#pragma version 8
int 1
switch a b c
err
a:
return
b:
return
c:
return" "";
   Ok (bb_instructions <$> teal_store teal, bb_next <$> teal_store teal))
  = Ok ([[0; 1; 2]; [3]; [4; 5]; [6; 7]; [8; 9]]%nat,
        [[1; 2; 3; 4]; []; []; []; []]%nat).
Proof. vm_compute. reflexivity. Qed.

(** A jump to a label that has no definition is a [KeyError] of the
    second pass. *)
Example scenario_undefined_label :
  parse_teal Sample.parse_line "b nowhere" "" = Raise (KeyError "nowhere").
Proof. vm_compute. reflexivity. Qed.

(** Field tokens. *)
Example parse_transaction_field_examples :
  parse_transaction_field "Accounts 1" false = Ok (Accounts 1)
  /\ parse_transaction_field "Accounts" true = Ok (Accounts (-1))
  /\ parse_transaction_field "ApplicationArgs 0x10" false = Ok (ApplicationArgs 16)
  /\ parse_transaction_field "Sender" false = Ok Sender
  /\ parse_transaction_field "Type Enum" false = Ok TypeEnum
  /\ parse_transaction_field "Frobnicate" false = Raise (KeyError "Frobnicate")
  /\ parse_transaction_field "Logs" false = Raise ValueError.
Proof. repeat split; vm_compute; reflexivity. Qed.

(** * Further properties *)

(** ** More on version validation *)

Lemma verify_ins_modes program_version ins_list : forall st,
  vv_stateful_ins (fold_left (verify_ins program_version) ins_list st)
  = vv_stateful_ins st ++ filter (λ ins, ins_mode ins = STATEFULL) ins_list
  /\ vv_stateless_ins (fold_left (verify_ins program_version) ins_list st)
     = vv_stateless_ins st ++ filter (λ ins, ins_mode ins = STATELESS) ins_list.
Proof.
  induction ins_list as [| ins ins_list IH]; intros st; simpl.
  - by rewrite !app_nil_r.
  - destruct (IH (verify_ins program_version st ins)) as [-> ->].
    unfold verify_ins.
    destruct (version_diagnostic program_version ins); simpl;
      rewrite !filter_cons; destruct (ins_mode ins) eqn:Hm; simpl;
      repeat case_decide; try congruence; by rewrite <- ?app_assoc.
Qed.

Lemma verify_ins_error program_version ins_list : forall st,
  vv_error (fold_left (verify_ins program_version) ins_list st)
  = vv_error st
    || negb (bool_decide (omap (version_diagnostic program_version) ins_list = [])).
Proof.
  induction ins_list as [| ins ins_list IH]; intros st; simpl.
  - by rewrite orb_false_r.
  - rewrite IH. unfold verify_ins.
    destruct (version_diagnostic program_version ins); simpl.
    + by rewrite orb_true_r.
    + reflexivity.
Qed.

(** What [_verify_version] returns, in one piece. *)
Lemma verify_version_unfold ins_list program_version :
  let per_ins := omap (version_diagnostic program_version) ins_list in
  let stateless := filter (λ ins, ins_mode ins = STATELESS) ins_list in
  let stateful := filter (λ ins, ins_mode ins = STATEFULL) ins_list in
  _verify_version ins_list program_version =
  match stateless, stateful with
  | _ :: _, _ :: _ =>
      (true, per_ins ++ [BothModes (ins_line <$> stateless) (ins_line <$> stateful)])
  | _, _ => (negb (bool_decide (per_ins = [])), per_ins)
  end.
Proof.
  cbv zeta. unfold _verify_version.
  destruct (verify_ins_modes program_version ins_list
              {| vv_error := false; vv_stderr := [];
                 vv_stateful_ins := []; vv_stateless_ins := [] |}) as [-> ->].
  rewrite verify_ins_stderr, verify_ins_error. simpl.
  reflexivity.
Qed.

(** X1: the boolean returned by [_verify_version] tells whether it
    printed something: it is true exactly when the error stream got a
    diagnostic at least. *)
Theorem verify_version_error_iff_printed
    (ins_list : list Instruction) (program_version : Z) :
  (_verify_version ins_list program_version).1 = true
  <-> (_verify_version ins_list program_version).2 <> [].
Proof.
  rewrite verify_version_unfold. cbv zeta.
  destruct (filter (λ ins, ins_mode ins = STATELESS) ins_list) as [| a la],
    (filter (λ ins, ins_mode ins = STATEFULL) ins_list) as [| b lb]; simpl;
    try (rewrite negb_true_iff, bool_decide_eq_false; reflexivity).
  split; [| done]. intros _ H. by apply app_eq_nil in H as [_ ?].
Qed.

(** X2: an instruction diagnostic is printed for an instruction exactly
    when the program version is below the version of the instruction. *)
Theorem verify_version_instruction_diagnostic
    (ins_list : list Instruction) (program_version : Z)
    (line : Z) (c : InsClass) (v supported_from : Z) :
  InstructionNotSupported line c v supported_from
    ∈ (_verify_version ins_list program_version).2
  <->
  exists ins,
    ins ∈ ins_list
    /\ program_version < ins_version ins
    /\ line = ins_line ins /\ c = ins_class ins
    /\ v = program_version /\ supported_from = ins_version ins.
Proof.
  destruct (verify_version_stderr ins_list program_version) as (both & -> & Hboth).
  rewrite elem_of_app, list_elem_of_omap. split.
  - intros [(ins & Hin & Hd) | Hb].
    + exists ins. split; [exact Hin |]. unfold version_diagnostic in Hd.
      destruct (Z.ltb_spec program_version (ins_version ins)).
      * injection Hd as ? ? ? ?. subst. repeat split; done.
      * destruct (checked_field ins) as [f' |]; [| discriminate].
        destruct (program_version <? field_version f'); discriminate.
    + apply Hboth in Hb as (? & ? & ?). discriminate.
  - intros (ins & Hin & Hv & -> & -> & -> & ->).
    left. exists ins. split; [exact Hin |]. unfold version_diagnostic.
    destruct (Z.ltb_spec program_version (ins_version ins)); [done | lia].
Qed.

Lemma verify_version_instruction_diagnostic_witness :
  InstructionNotSupported 2 (OtherInstruction "itxn") 3 5
  ∈ (_verify_version [itxn_StateProofPK] 3).2.
Proof.
  apply (proj2 (verify_version_instruction_diagnostic
                  [itxn_StateProofPK] 3 2 (OtherInstruction "itxn") 3 5)).
  exists itxn_StateProofPK. simpl.
  repeat split; try reflexivity; try lia. apply list_elem_of_singleton. reflexivity.
Defined.



(** X4: [_verify_version] prints nothing and returns false exactly when
    the program version is at least the version of every instruction and
    of every field it checks, and the instructions are not of both
    modes. *)
Theorem verify_version_silent
    (ins_list : list Instruction) (program_version : Z) :
  _verify_version ins_list program_version = (false, [])
  <->
  (forall ins, ins ∈ ins_list ->
     ins_version ins <= program_version
     /\ forall f, checked_field ins = Some f -> field_version f <= program_version)
  /\ (lines_of_mode STATELESS ins_list = [] \/ lines_of_mode STATEFULL ins_list = []).
Proof.
  assert (Hper : omap (version_diagnostic program_version) ins_list = []
                 <-> forall ins, ins ∈ ins_list ->
                       ins_version ins <= program_version
                       /\ forall f, checked_field ins = Some f ->
                                    field_version f <= program_version).
  { split.
    - intros Hnil ins Hin.
      assert (Hd : version_diagnostic program_version ins = None).
      { destruct (version_diagnostic program_version ins) as [d |] eqn:Hd;
          [| reflexivity].
        assert (d ∈ omap (version_diagnostic program_version) ins_list)
          by (apply list_elem_of_omap; eauto).
        rewrite Hnil in H. by apply elem_of_nil in H. }
      unfold version_diagnostic in Hd.
      destruct (Z.ltb_spec program_version (ins_version ins)); [discriminate |].
      split; [done |]. intros f Hf. rewrite Hf in Hd.
      destruct (Z.ltb_spec program_version (field_version f)); [discriminate | done].
    - intros Hall.
      destruct (omap (version_diagnostic program_version) ins_list) as [| d ds] eqn:Ho;
        [reflexivity |].
      assert (Hin : d ∈ omap (version_diagnostic program_version) ins_list)
        by (rewrite Ho; by left).
      apply list_elem_of_omap in Hin as (ins & Hin & Hd).
      destruct (Hall ins Hin) as [Hv Hf]. unfold version_diagnostic in Hd.
      destruct (Z.ltb_spec program_version (ins_version ins)); [lia |].
      destruct (checked_field ins) as [f |]; [| discriminate].
      specialize (Hf f eq_refl).
      destruct (Z.ltb_spec program_version (field_version f)); [lia | discriminate]. }
  rewrite verify_version_unfold. cbv zeta. unfold lines_of_mode.
  rewrite <- Hper.
  destruct (filter (λ ins, ins_mode ins = STATELESS) ins_list) as [| a la],
    (filter (λ ins, ins_mode ins = STATEFULL) ins_list) as [| b lb]; simpl.
  1-3: split;
    [ intros [= Hb ->]; split; [reflexivity | auto]
    | intros [-> _]; reflexivity ].
  split; [discriminate |]. intros [_ [? | ?]]; discriminate.
Qed.

Lemma verify_version_error_iff_printed_witness :
  (_verify_version [itxn_StateProofPK] 3).1 = true.
Proof.
  apply (proj2 (verify_version_error_iff_printed [itxn_StateProofPK] 3)).
  discriminate.
Defined.

Lemma verify_version_silent_witness :
  _verify_version [txn_StateProofPK] 6 = (false, []).
Proof.
  apply (proj2 (verify_version_silent [txn_StateProofPK] 6)). split.
  - intros ins ->%list_elem_of_singleton. split; [simpl; lia |].
    intros f [= <-]. simpl. lia.
  - left. reflexivity.
Defined.

(** ** The mode of a contract *)

(** X5: [_detect_contract_type] returns [ANY] exactly when every
    instruction has the mode [ANY]; otherwise it returns the mode of the
    first instruction whose mode is not [ANY]. *)
Theorem detect_contract_type_first_specific (instructions : list Instruction) :
  (_detect_contract_type instructions = ANY
   <-> Forall (λ ins, ins_mode ins = ANY) instructions)
  /\ (_detect_contract_type instructions <> ANY ->
      exists before ins after,
        instructions = before ++ ins :: after
        /\ Forall (λ ins, ins_mode ins = ANY) before
        /\ ins_mode ins = _detect_contract_type instructions).
Proof.
  induction instructions as [| ins instructions [IHany IHfirst]]; simpl.
  - split; [split; [constructor | reflexivity] | done].
  - destruct (bool_decide_reflect (ins_mode ins ≠ ANY)) as [Hm | Hm].
    + split.
      * split; [done |]. intros Hall. apply Forall_cons in Hall as [? _]. done.
      * intros _. exists [], ins, instructions. repeat split. constructor.
    + assert (Hany : ins_mode ins = ANY)
        by (destruct (decide (ins_mode ins = ANY)); [done | contradiction]).
      split.
      * rewrite IHany. split; [by constructor | by intros [_ ?]%Forall_cons].
      * intros Hne. destruct (IHfirst Hne) as (before & i & after & -> & Hb & Hi).
        exists (ins :: before), i, after. repeat split; [by constructor | done].
Qed.

Lemma detect_contract_type_first_specific_witness :
  exists before ins after,
    [txn_StateProofPK; itxn_StateProofPK] = before ++ ins :: after
    /\ Forall (λ ins, ins_mode ins = ANY) before
    /\ ins_mode ins = STATEFULL.
Proof.
  apply (proj2 (detect_contract_type_first_specific
                  [txn_StateProofPK; itxn_StateProofPK])).
  discriminate.
Defined.

(** ** More on the walk of [_identify_subroutine_blocks] *)

Lemma dfs_loop_keeps_visited fuel store : forall visited stack,
  exists more, (dfs_loop fuel store visited stack).1 = visited ++ more.
Proof.
  induction fuel as [| fuel IH]; intros visited stack; simpl.
  - exists []. by rewrite app_nil_r.
  - destruct stack as [| b stack]; simpl.
    + exists []. by rewrite app_nil_r.
    + destruct (IH (visited ++ [b])
                  (fold_left (push_unseen (visited ++ [b])) (successors store b) stack))
        as [more ->].
      exists (b :: more). by rewrite <- app_assoc.
Qed.

(** X6: the list [_identify_subroutine_blocks] returns begins with the
    entry block, holds no block twice, and holds, apart from the entry,
    only blocks that are successors of a block. *)
Theorem identify_subroutine_blocks_entry_first
    (store : list BasicBlock) (entry_block : nat) :
  exists others,
    _identify_subroutine_blocks store entry_block = entry_block :: others
    /\ NoDup (entry_block :: others)
    /\ forall b, b ∈ others -> b ∈ store ≫= bb_next.
Proof.
  unfold _identify_subroutine_blocks, dfs_fuel. simpl.
  destruct (dfs_loop_keeps_visited (length (store ≫= bb_next)) store [entry_block]
              (fold_left (push_unseen [entry_block])
                 (successors store entry_block) []))
    as [more Hmore].
  rewrite Hmore. exists more. split; [reflexivity |].
  destruct (identify_subroutine_blocks_spec store entry_block) as (_ & Hnd & Hr).
  unfold _identify_subroutine_blocks, dfs_fuel in Hnd, Hr. simpl in Hnd, Hr.
  rewrite Hmore in Hnd, Hr. simpl in Hnd.
  split; [exact Hnd |]. intros b Hb.
  assert (Hreach : reachable store entry_block b) by (apply Hr; by right).
  unfold reachable in Hreach.
  apply rtc_inv_r in Hreach as [-> | (x & _ & Hx)].
  - apply NoDup_cons in Hnd as [Hnot _]. done.
  - by eapply successors_universe.
Qed.

(** ** Where the instructions of the first pass come from *)

Section FirstPassOrigin.

Variable parse_line : string -> ParseResult.

Lemma add_instruction_comments_origin a :
  ins_origin (_add_instruction_comments a) = ins_origin a.
Proof.
  destruct (add_instruction_comments_cases a) as [-> | [c ->]]; reflexivity.
Qed.

(** One line: the instructions before keep their origin; the line adds
    an instruction if it is an instruction line, whose comments are the
    comment lines buffered, and then the buffer is empty. *)
Lemma first_pass_line_origin st line st' :
  first_pass_line parse_line st line = Ok st' ->
  fp_idx st' = fp_idx st + 1
  /\ exists new,
       ins_origin <$> fp_instructions st'
       = (ins_origin <$> fp_instructions st) ++ new
       /\ fst <$> new = numbered_instructions parse_line (fp_idx st + 1) [line]
       /\ match new with
          | [] =>
              fp_instruction_comments st'
              = fp_instruction_comments st
                ++ (if is_comment_line line then [line] else [])
          | o :: _ =>
              o.2 = fp_instruction_comments st
              /\ fp_instruction_comments st' = []
          end.
Proof.
  unfold first_pass_line, read_line. simpl numbered_instructions.
  destruct (is_comment_line line) eqn:Hc; simpl.
  - intros [= <-]. simpl. split; [reflexivity |].
    exists []. by rewrite app_nil_r.
  - destruct (parse_line line) as [msg | [p |]]; simpl; [discriminate | |].
    + assert (Hrec : forall comments a,
                ins_next a = ins_next a ->
                ins_origin <$> fp_instructions
                                 (record_instruction st (fp_idx st + 1) comments a)
                = (ins_origin <$> fp_instructions st)
                    ++ [(fp_idx st + 1, parsed_of a, comments_before_ins a)]).
      { intros comments a _. unfold record_instruction. simpl.
        rewrite fmap_app. f_equal.
        - destruct (fp_prev st); [| reflexivity]. by apply fmap_alter_same.
        - simpl. f_equal.
          transitivity (ins_origin (_add_instruction_comments
                                      (ins_set_line (fp_idx st + 1) a)));
            [by destruct (fp_prev st) |].
          by rewrite add_instruction_comments_origin. }
      destruct (fp_instruction_comments st) as [| c cs] eqn:Hbuf; simpl;
        intros [= <-]; (split; [reflexivity |]);
        eexists [_]; (split; [apply Hrec; reflexivity |]);
        simpl; rewrite ?app_nil_r; by destruct p.
    + intros [= <-]. simpl. split; [reflexivity |].
      exists []. by rewrite !app_nil_r.
Qed.

Lemma numbered_instructions_app k lines1 lines2 :
  numbered_instructions parse_line k (lines1 ++ lines2)
  = numbered_instructions parse_line k lines1
    ++ numbered_instructions parse_line (k + Z.of_nat (length lines1)) lines2.
Proof.
  revert k. induction lines1 as [| line lines1 IH]; intros k; simpl.
  - by rewrite Z.add_0_r.
  - rewrite IH, <- app_assoc. do 3 f_equal. lia.
Qed.

Lemma first_pass_lines_origin lines : forall st st',
  for_each (first_pass_line parse_line) lines st = Ok st' ->
  fp_idx st' = fp_idx st + Z.of_nat (length lines)
  /\ exists new,
       ins_origin <$> fp_instructions st'
       = (ins_origin <$> fp_instructions st) ++ new
       /\ new.*1 = numbered_instructions parse_line (fp_idx st + 1) lines.
Proof.
  induction lines as [| line lines IH]; intros st st'.
  - simpl. intros [= <-]. split; [lia |]. exists []. by rewrite app_nil_r.
  - rewrite for_each_cons.
    destruct (first_pass_line parse_line st line) as [st1 | |] eqn:H1;
      simpl; [| discriminate | discriminate].
    intros Hrest.
    apply first_pass_line_origin in H1 as (Hidx1 & new1 & Hnew1 & Hnum1 & _).
    apply IH in Hrest as (Hidx & new & Hnew & Hnum).
    split; [rewrite Hidx, Hidx1; simpl length; lia |].
    exists (new1 ++ new). split; [by rewrite Hnew, Hnew1, app_assoc |].
    rewrite fmap_app, Hnum1, Hnum, Hidx1.
    symmetry. exact (numbered_instructions_app (fp_idx st + 1) [line] lines).
Qed.

(** X7: the instructions of the first pass are the instruction lines of
    the source, in order: each carries the number of its line, counted
    from 1, and the class, version, mode and field [parse_line] gave. *)
Theorem first_pass_instructions_of_lines (lines : list string) (fp : FirstPass) :
  _first_pass parse_line lines = Ok fp ->
  (λ a, (ins_line a, parsed_of a)) <$> fp_instructions fp
  = numbered_instructions parse_line 1 lines.
Proof.
  intros Hfp. apply first_pass_lines_origin in Hfp as (_ & new & Hnew & Hnum).
  change (fp_idx first_pass_init + 1) with 1 in Hnum.
  change (fp_instructions first_pass_init) with (@nil Instruction) in Hnew.
  rewrite <- Hnum. simpl in Hnew. rewrite <- Hnew.
  rewrite <- list_fmap_compose. reflexivity.
Qed.

End FirstPassOrigin.

Lemma first_pass_instructions_of_lines_witness :
  exists fp,
    _first_pass Sample.parse_line ["// start"; "int 1"; ""; "return"] = Ok fp
    /\ ins_line <$> fp_instructions fp = [2; 4].
Proof.
  eexists. split; [vm_compute; reflexivity |].
  pose proof (first_pass_instructions_of_lines Sample.parse_line
                ["// start"; "int 1"; ""; "return"] _
                ltac:(vm_compute; reflexivity)) as H.
  apply (f_equal (fmap fst)) in H. rewrite <- list_fmap_compose in H.
  exact H.
Defined.

Lemma for_each_app_Ok {A S : Type} (body : S -> A -> Outcome S) xs ys s s' :
  for_each body (xs ++ ys) s = Ok s' ->
  exists s1, for_each body xs s = Ok s1 /\ for_each body ys s1 = Ok s'.
Proof.
  rewrite for_each_app. destruct (for_each body xs s) as [s1 | |]; simpl;
    [eauto | discriminate | discriminate].
Qed.

Section Comments.

Variable parse_line : string -> ParseResult.

(** Lines without instruction fill the buffer of comments. *)
Lemma first_pass_buffer lines : forall st st',
  Forall (no_instruction_line parse_line) lines ->
  for_each (first_pass_line parse_line) lines st = Ok st' ->
  fp_instructions st' = fp_instructions st
  /\ fp_instruction_comments st'
     = fp_instruction_comments st ++ filter (λ l, is_comment_line l = true) lines.
Proof.
  induction lines as [| line lines IH]; intros st st' Hall.
  - simpl. intros [= <-]. by rewrite app_nil_r.
  - apply Forall_cons in Hall as [Hline Hall]. rewrite for_each_cons.
    destruct (first_pass_line parse_line st line) as [st1 | |] eqn:H1;
      simpl; [| discriminate | discriminate].
    intros Hrest. apply (IH _ _ Hall) in Hrest as [Hi Hb].
    assert (H1' : fp_instructions st1 = fp_instructions st
                  /\ fp_instruction_comments st1
                     = fp_instruction_comments st
                       ++ (if is_comment_line line then [line] else [])).
    { unfold first_pass_line, read_line in H1.
      destruct (is_comment_line line) eqn:Hc; simpl in H1.
      - injection H1 as <-. done.
      - destruct Hline as [Hline | Hline]; [congruence |].
        rewrite Hline in H1. simpl in H1. injection H1 as <-. simpl.
        by rewrite app_nil_r. }
    destruct H1' as [Hi1 Hb1]. split; [congruence |].
    rewrite Hb, Hb1, filter_cons, <- app_assoc. f_equal.
    destruct (is_comment_line line) eqn:Hc.
    + by rewrite decide_True.
    + by rewrite decide_False.
Qed.

(** After an instruction line the buffer of comments is empty. *)
Lemma first_pass_buffer_after_instruction st line st' :
  instruction_line parse_line line ->
  first_pass_line parse_line st line = Ok st' ->
  fp_instruction_comments st' = []
  /\ exists a,
       fp_instructions st' !! length (fp_instructions st) = Some a
       /\ length (fp_instructions st') = S (length (fp_instructions st))
       /\ ins_line a = fp_idx st + 1
       /\ comments_before_ins a = fp_instruction_comments st.
Proof.
  intros [Hc [p Hp]] H1.
  apply first_pass_line_origin in H1 as (_ & new & Hnew & Hnum & Hbuf).
  simpl in Hnum. rewrite Hc, Hp in Hnum. simpl in Hnum.
  destruct new as [| [[l q] cs] [| ? ?]]; try discriminate.
  destruct Hbuf as [Hcs Hbuf]. simpl in Hcs. split; [exact Hbuf |].
  injection Hnum as -> ->.
  assert (Hlen : length (fp_instructions st') = S (length (fp_instructions st))).
  { rewrite <- (length_fmap ins_origin (fp_instructions st')), Hnew.
    rewrite length_app, length_fmap. simpl. lia. }
  destruct (lookup_lt_is_Some_2 (fp_instructions st') (length (fp_instructions st)))
    as [a Ha]; [lia |].
  exists a. split; [exact Ha |]. split; [exact Hlen |].
  assert (Ho : (ins_origin <$> fp_instructions st') !! length (fp_instructions st)
               = Some (fp_idx st + 1, p, cs)).
  { rewrite Hnew.
    rewrite <- (length_fmap ins_origin (fp_instructions st)).
    by rewrite list_lookup_middle. }
  rewrite list_lookup_fmap, Ha in Ho. injection Ho as H1 H2 H3.
  split; [exact H1 | congruence].
Qed.

(** The instructions the pass has made keep their line and comments. *)
Lemma first_pass_keeps_origin lines st st' i a :
  for_each (first_pass_line parse_line) lines st = Ok st' ->
  fp_instructions st !! i = Some a ->
  exists a', fp_instructions st' !! i = Some a' /\ ins_origin a' = ins_origin a.
Proof.
  intros Hrest Ha.
  apply first_pass_lines_origin in Hrest as (_ & new & Hnew & _).
  assert (Ho : (ins_origin <$> fp_instructions st') !! i = Some (ins_origin a)).
  { rewrite Hnew. apply lookup_app_l_Some. by rewrite list_lookup_fmap, Ha. }
  rewrite list_lookup_fmap in Ho.
  destruct (fp_instructions st' !! i) as [a' |]; [| discriminate].
  exists a'. split; [reflexivity |]. simpl in Ho. by apply (inj Some).
Qed.

(** X8: the comment lines met since the previous instruction line (or
    since the beginning), blank lines between them dropped, are the
    [comments_before_ins] of the next instruction, which carries the
    number of its own line. *)
Theorem comments_attached_to_next_instruction
    (before between after : list string) (line : string) (fp : FirstPass) :
  _first_pass parse_line (before ++ between ++ line :: after) = Ok fp ->
  (before = []
   \/ exists before' l, before = before' ++ [l] /\ instruction_line parse_line l) ->
  Forall (no_instruction_line parse_line) between ->
  instruction_line parse_line line ->
  exists a,
    fp_instructions fp
      !! length (numbered_instructions parse_line 1 before) = Some a
    /\ ins_line a = Z.of_nat (length before + length between) + 1
    /\ comments_before_ins a = filter (λ l, is_comment_line l = true) between.
Proof.
  intros Hfp Hbefore Hbetween Hline. unfold _first_pass in Hfp.
  apply for_each_app_Ok in Hfp as (st1 & H1 & Hfp).
  apply for_each_app_Ok in Hfp as (st2 & H2 & Hfp).
  rewrite for_each_cons in Hfp.
  destruct (first_pass_line parse_line st2 line) as [st3 | |] eqn:H3;
    simpl in Hfp; [| discriminate | discriminate].
  assert (Hbuf1 : fp_instruction_comments st1 = []).
  { destruct Hbefore as [-> | (before' & l & -> & Hl)].
    - simpl in H1. by injection H1 as <-.
    - apply for_each_app_Ok in H1 as (st0 & _ & H1). simpl in H1.
      destruct (first_pass_line parse_line st0 l) as [st0' | |] eqn:H0;
        simpl in H1; [| discriminate | discriminate].
      injection H1 as <-.
      by destruct (first_pass_buffer_after_instruction _ _ _ Hl H0). }
  pose proof (first_pass_lines_origin parse_line _ _ _ H1) as (Hidx1 & new1 & Hnew1 & Hnum1).
  pose proof (first_pass_lines_origin parse_line _ _ _ H2) as (Hidx2 & _).
  destruct (first_pass_buffer _ _ _ Hbetween H2) as [Hi2 Hbuf2].
  destruct (first_pass_buffer_after_instruction _ _ _ Hline H3)
    as (_ & a & Ha & _ & Hla & Hca).
  destruct (first_pass_keeps_origin _ _ _ _ _ Hfp Ha) as (a' & Ha' & Ho).
  exists a'.
  assert (Hlen : length (fp_instructions st2)
                 = length (numbered_instructions parse_line 1 before)).
  { rewrite Hi2. change (fp_idx first_pass_init + 1) with 1 in Hnum1.
    rewrite <- Hnum1, length_fmap.
    rewrite <- (length_fmap ins_origin (fp_instructions st1)), Hnew1.
    reflexivity. }
  rewrite <- Hlen. split; [exact Ha' |].
  pose proof (f_equal (λ o, o.1.1) Ho) as Hl.
  pose proof (f_equal (λ o, o.2) Ho) as Hc. simpl in Hl, Hc.
  rewrite Hl, Hc, Hla, Hca, Hbuf2, Hbuf1, Hidx2, Hidx1. simpl. split; [lia | done].
Qed.

End Comments.

Lemma comments_attached_to_next_instruction_witness :
  exists fp a,
    _first_pass Sample.parse_line
      ["int 1"; "// first"; ""; "// second"; "return"; "// unused"] = Ok fp
    /\ fp_instructions fp !! 1%nat = Some a
    /\ ins_line a = 5
    /\ comments_before_ins a = ["// first"; "// second"].
Proof.
  eexists.
  destruct (comments_attached_to_next_instruction Sample.parse_line
              ["int 1"] ["// first"; ""; "// second"] ["// unused"] "return" _
              ltac:(vm_compute; reflexivity)) as (a & Ha & Hl & Hc).
  - right. exists [], "int 1". split; [reflexivity |].
    split; [reflexivity | eexists; reflexivity].
  - repeat (apply Forall_cons; split); try apply Forall_nil; try exact I.
    + left; reflexivity.
    + right; reflexivity.
    + left; reflexivity.
  - split; [reflexivity | eexists; reflexivity].
  - exists a. split; [reflexivity |]. split; [exact Ha |]. split; [exact Hl | exact Hc].
Defined.

(** ** The lists collected by the first pass *)

Lemma filter_ext_elem_of {A : Type} (P1 P2 : A -> Prop)
    `{!forall x, Decision (P1 x), !forall x, Decision (P2 x)} (l : list A) :
  (forall x, x ∈ l -> P1 x <-> P2 x) -> filter P1 l = filter P2 l.
Proof.
  induction l as [| x l IH]; intros Hext; [reflexivity |].
  rewrite !filter_cons.
  assert (Hx : P1 x <-> P2 x) by (apply Hext; by left).
  rewrite IH by (intros y Hy; apply Hext; by right).
  destruct (decide (P1 x)), (decide (P2 x)); tauto.
Qed.

Lemma positions_of_classes P (l l' : list Instruction) :
  ins_class <$> l' = ins_class <$> l -> positions_of P l' = positions_of P l.
Proof.
  intros Hcl. unfold positions_of.
  rewrite (same_fmap_length ins_class _ _ Hcl).
  apply filter_ext_elem_of. intros i _.
  assert (H : (ins_class <$> l') !! i = (ins_class <$> l) !! i) by (by rewrite Hcl).
  rewrite !list_lookup_fmap in H.
  destruct (l' !! i), (l !! i); simpl in *; try discriminate; [| done].
  by injection H as ->.
Qed.

Lemma positions_of_snoc P (l : list Instruction) a :
  positions_of P (l ++ [a])
  = positions_of P l ++ (if P (ins_class a) then [length l] else []).
Proof.
  unfold positions_of. rewrite length_app. simpl.
  replace (length l + 1)%nat with (S (length l)) by lia.
  rewrite seq_S, filter_app. simpl. f_equal.
  - apply filter_ext_elem_of. intros i Hi. apply elem_of_seq in Hi.
    by rewrite lookup_app_l by lia.
  - rewrite filter_cons, filter_nil, list_lookup_middle by done. simpl.
    by destruct (P (ins_class a)).
Qed.

Lemma positions_of_lookup P (l : list Instruction) i :
  i ∈ positions_of P l
  <-> exists a, l !! i = Some a /\ P (ins_class a) = true.
Proof.
  unfold positions_of. rewrite list_elem_of_filter, elem_of_seq. split.
  - intros [Hp _]. destruct (l !! i) as [a |]; simpl in Hp; [| done].
    exists a. split; [reflexivity |]. by apply Is_true_true.
  - intros (a & Ha & HP). rewrite Ha. simpl. split; [by rewrite HP |].
    apply lookup_lt_Some in Ha. lia.
Qed.

Lemma positions_of_sorted P (l : list Instruction) :
  StronglySorted lt (positions_of P l).
Proof.
  unfold positions_of. generalize (length l) 0%nat. intros n.
  induction n as [| n IH]; intros j; [constructor |].
  change (seq j (S n)) with (j :: seq (S j) n). rewrite filter_cons.
  case_decide; [| apply IH].
  apply StronglySorted_cons. split; [| apply IH].
  apply Forall_forall. intros i [_ Hi%elem_of_seq]%list_elem_of_filter. lia.
Qed.

(** [d[k].append(v)] on a dict whose keys are distinct. *)
Lemma defaultdict_append_spec (name : string) (n : nat) (d : list (string * list nat)) :
  NoDup d.*1 ->
  NoDup (defaultdict_append name n d).*1
  /\ (forall k, k ∈ (defaultdict_append name n d).*1 <-> k = name \/ k ∈ d.*1)
  /\ forall k ps,
       (k, ps) ∈ defaultdict_append name n d
       <-> (k <> name /\ (k, ps) ∈ d)
           \/ (k = name
               /\ exists old, ps = old ++ [n]
                    /\ ((name, old) ∈ d \/ (old = [] /\ name ∉ d.*1))).
Proof.
  induction d as [| [k' vs] d IH]; intros Hnd.
  - cbn [defaultdict_append]. split; [apply NoDup_singleton |]. split.
    + intros k. rewrite fmap_cons, fmap_nil, list_elem_of_singleton.
      cbn [fst]. split; [by left |]. intros [? | ?%elem_of_nil]; done.
    + intros k ps. rewrite list_elem_of_singleton. split.
      * intros [= -> ->]. right. split; [done |]. exists []. split; [done |].
        right. split; [done | by intros ?%elem_of_nil].
      * intros [[_ ?%elem_of_nil] | (-> & old & -> & Hold)]; [done |].
        destruct Hold as [?%elem_of_nil | [-> _]]; done.
  - rewrite fmap_cons in Hnd. cbn [fst] in Hnd.
    apply NoDup_cons in Hnd as [Hk' Hnd]. specialize (IH Hnd).
    destruct IH as (IHnd & IHkeys & IHin).
    assert (Hfresh : forall vs', (k', vs') ∉ d).
    { intros vs' Hin. apply Hk'. apply list_elem_of_fmap. by exists (k', vs'). }
    cbn [defaultdict_append].
    destruct (String.eqb_spec k' name) as [-> | Hne].
    + rewrite !fmap_cons. cbn [fst]. split; [by constructor |]. split.
      * intros k. rewrite !elem_of_cons. tauto.
      * intros k ps. split.
        -- intros [[= -> ->] | Hin]%elem_of_cons.
           ++ right. split; [done |]. exists vs. split; [done |]. left. by left.
           ++ left. split; [| by right]. intros ->. by apply (Hfresh ps).
        -- intros [[Hk Hin] | (-> & old & -> & Hold)].
           ++ apply elem_of_cons in Hin as [[= -> ->] | Hin]; [done |].
              by right.
           ++ destruct Hold as [Hold | [-> Hnot]].
              ** apply elem_of_cons in Hold as [[= ->] | Hold]; [by left |].
                 by destruct (Hfresh old).
              ** destruct Hnot. by left.
    + rewrite !fmap_cons. cbn [fst]. split; [| split].
      * constructor; [| exact IHnd]. rewrite IHkeys. intros [? | ?]; congruence.
      * intros k. rewrite !elem_of_cons, IHkeys. tauto.
      * intros k ps. split.
        -- intros [[= -> ->] | Hin]%elem_of_cons.
           ++ left. split; [done | by left].
           ++ apply IHin in Hin as [[Hk Hin] | (-> & old & -> & Hold)].
              ** left. split; [done | by right].
              ** right. split; [done |]. exists old. split; [done |].
                 destruct Hold as [Hold | [-> Hnot]]; [left; by right |].
                 right. split; [done |]. rewrite elem_of_cons.
                 intros [? | ?]; congruence.
        -- intros [[Hk Hin] | (-> & old & -> & Hold)].
           ++ apply elem_of_cons in Hin as [[= -> ->] | Hin]; [by left |].
              right. apply IHin. left. done.
           ++ right. apply IHin. right. split; [done |]. exists old.
              split; [done |]. destruct Hold as [Hold | [-> Hnot]].
              ** apply elem_of_cons in Hold as [[= ? ?] | Hold]; [congruence |].
                 by left.
              ** right. split; [done |]. intros Hin. apply Hnot. by right.
Qed.

Section FirstPassLists.

Variable parse_line : string -> ParseResult.

Lemma first_pass_lists_init : first_pass_lists first_pass_init.
Proof.
  split; simpl; try reflexivity; [constructor |].
  intros name ps. split; [by intros ?%elem_of_nil | by intros [? ->]].
Qed.

Lemma record_instruction_lists st idx comments ins :
  first_pass_lists st ->
  first_pass_lists (record_instruction st idx comments ins).
Proof.
  intros [Hintc Hbytec Hkeys Hcalls].
  set (n := length (fp_instructions st)).
  assert (Hclass : exists ins' before,
            fp_instructions (record_instruction st idx comments ins)
            = before ++ [ins']
            /\ ins_class ins' = ins_class ins
            /\ ins_class <$> before = ins_class <$> fp_instructions st).
  { unfold record_instruction. simpl. eexists _, _. split; [reflexivity |]. split.
    - destruct (add_instruction_comments_cases (ins_set_line idx ins))
        as [-> | [c ->]]; by destruct (fp_prev st).
    - destruct (fp_prev st); [| reflexivity]. by apply fmap_alter_same. }
  destruct Hclass as (ins' & before & Hinstrs & Hc & Hbefore).
  assert (Hpos : forall P,
            positions_of P (fp_instructions (record_instruction st idx comments ins))
            = positions_of P (fp_instructions st)
              ++ (if P (ins_class ins) then [n] else [])).
  { intros P. rewrite Hinstrs, positions_of_snoc, Hc.
    rewrite (positions_of_classes P _ _ Hbefore).
    by rewrite (same_fmap_length ins_class _ _ Hbefore). }
  assert (Hcls : ins_class (_add_instruction_comments (ins_set_line idx ins))
                 = ins_class ins).
  { by destruct (add_instruction_comments_cases (ins_set_line idx ins))
      as [-> | [c ->]]. }
  split.
  - rewrite Hpos. unfold record_instruction. simpl. fold n.
    rewrite Hintc. destruct (ins_class ins); simpl; by rewrite ?app_nil_r.
  - rewrite Hpos. unfold record_instruction. simpl. fold n.
    rewrite Hbytec. destruct (ins_class ins); simpl; by rewrite ?app_nil_r.
  - unfold record_instruction. simpl.
    assert (Hins2 : forall x : Instruction,
              ins_class (match fp_prev st with
                         | Some prev => ins_add_prev prev x
                         | None => x
                         end) = ins_class x) by (intros; by destruct (fp_prev st)).
    rewrite Hins2, Hcls.
    destruct (ins_class ins); try exact Hkeys.
    by apply defaultdict_append_spec.
  - intros name ps. rewrite Hpos.
    assert (Hsubs : fp_subroutines (record_instruction st idx comments ins)
                    = match ins_class ins with
                      | Callsub l => defaultdict_append l n (fp_subroutines st)
                      | _ => fp_subroutines st
                      end).
    { unfold record_instruction. simpl.
      assert (Hins2 : forall x : Instruction,
                ins_class (match fp_prev st with
                           | Some prev => ins_add_prev prev x
                           | None => x
                           end) = ins_class x) by (intros; by destruct (fp_prev st)).
      by rewrite Hins2, Hcls. }
    rewrite Hsubs. unfold is_Callsub_to at 2.
    destruct (decide (ins_class ins = Callsub name)) as [Hcall | Hcall].
    + rewrite Hcall, bool_decide_eq_true_2 by done.
      destruct (defaultdict_append_spec name n (fp_subroutines st) Hkeys)
        as (_ & _ & Hin).
      rewrite Hin. split.
      * intros [[? _] | (_ & old & -> & [Hold | [-> Hnot]])]; [done | |].
        -- apply Hcalls in Hold as [_ <-]. split; [| done]. by destruct old.
        -- split; [done |]. f_equal.
           destruct (positions_of (is_Callsub_to name) (fp_instructions st))
             as [| x xs] eqn:Hp; [done |].
           destruct Hnot. apply list_elem_of_fmap.
           exists (name, x :: xs). split; [done |]. apply Hcalls. by rewrite Hp.
      * intros [_ ->]. right. split; [done |].
        exists (positions_of (is_Callsub_to name) (fp_instructions st)).
        split; [done |].
        destruct (positions_of (is_Callsub_to name) (fp_instructions st))
          as [| x xs] eqn:Hp.
        -- right. split; [done |]. intros Hk.
           apply list_elem_of_fmap in Hk as ([k ps0] & Hname & Hk).
           simpl in Hname. subst k.
           apply Hcalls in Hk as [Hne Hk]. rewrite Hp in Hk. done.
        -- left. apply Hcalls. by rewrite Hp.
    + rewrite bool_decide_eq_false_2, app_nil_r by done.
      destruct (ins_class ins) as [| | | | | | | | | l | | | | | |]; try apply Hcalls.
      destruct (defaultdict_append_spec l n (fp_subroutines st) Hkeys)
        as (_ & _ & Hin).
      rewrite Hin, <- Hcalls. split.
      * intros [[_ ?] | [-> _]]; [done | congruence].
      * intros Hin'. left. split; [congruence | done].
Qed.

Lemma first_pass_line_lists st line st' :
  first_pass_lists st ->
  first_pass_line parse_line st line = Ok st' ->
  first_pass_lists st'.
Proof.
  intros Hl. unfold first_pass_line, read_line.
  assert (Hskip : forall idx comments,
            first_pass_lists
              {| fp_idx := idx; fp_prev := fp_prev st;
                 fp_intcblock_ins := fp_intcblock_ins st;
                 fp_bytecblock_ins := fp_bytecblock_ins st;
                 fp_instruction_comments := comments;
                 fp_labels := fp_labels st;
                 fp_subroutines := fp_subroutines st;
                 fp_instructions := fp_instructions st |}).
  { intros idx comments. by destruct Hl. }
  destruct (is_comment_line line); simpl.
  - intros [= <-]. apply Hskip.
  - destruct (parse_line line) as [msg | [p |]]; simpl; [discriminate | |].
    + destruct (fp_instruction_comments st); simpl; intros [= <-];
        by apply record_instruction_lists.
    + intros [= <-]. apply Hskip.
Qed.

Lemma first_pass_lists_hold lines fp :
  _first_pass parse_line lines = Ok fp -> first_pass_lists fp.
Proof.
  unfold _first_pass. generalize first_pass_lists_init.
  generalize first_pass_init. revert fp.
  induction lines as [| line lines IH]; intros fp st Hst.
  - simpl. by intros [= <-].
  - rewrite for_each_cons.
    destruct (first_pass_line parse_line st line) as [st1 | |] eqn:H1;
      simpl; [| discriminate | discriminate].
    apply IH. by eapply first_pass_line_lists.
Qed.

(** X9: after the first pass, the dict [subroutines] has one key for
    each label that a [callsub] calls, and under it the [callsub]
    instructions that call this label, all of them, in the order of the
    source. *)
Theorem first_pass_callsubs_by_label (lines : list string) (fp : FirstPass) :
  _first_pass parse_line lines = Ok fp ->
  NoDup (fp_subroutines fp).*1
  /\ (forall name,
        name ∈ (fp_subroutines fp).*1
        <-> exists i a, fp_instructions fp !! i = Some a
                        /\ ins_class a = Callsub name)
  /\ forall name ps,
       (name, ps) ∈ fp_subroutines fp ->
       StronglySorted lt ps
       /\ forall i, i ∈ ps
            <-> exists a, fp_instructions fp !! i = Some a
                          /\ ins_class a = Callsub name.
Proof.
  intros Hfp. destruct (first_pass_lists_hold _ _ Hfp) as [_ _ Hkeys Hcalls].
  assert (Hpos : forall name i,
            i ∈ positions_of (is_Callsub_to name) (fp_instructions fp)
            <-> exists a, fp_instructions fp !! i = Some a
                          /\ ins_class a = Callsub name).
  { intros name i. rewrite positions_of_lookup. unfold is_Callsub_to.
    by setoid_rewrite bool_decide_eq_true. }
  split; [exact Hkeys |]. split.
  - intros name. rewrite list_elem_of_fmap. split.
    + intros ([k ps] & -> & Hin). simpl. apply Hcalls in Hin as [Hne ->].
      destruct (positions_of (is_Callsub_to k) (fp_instructions fp))
        as [| i ps] eqn:Hp; [done |].
      exists i. apply Hpos. rewrite Hp. by left.
    + intros (i & a & Ha & Hc).
      exists (name, positions_of (is_Callsub_to name) (fp_instructions fp)).
      split; [done |]. apply Hcalls. split; [| done].
      intros Hnil. assert (Hi : i ∈ positions_of (is_Callsub_to name)
                                      (fp_instructions fp)) by (apply Hpos; eauto).
      rewrite Hnil in Hi. by apply elem_of_nil in Hi.
  - intros name ps Hin. apply Hcalls in Hin as [_ ->]. split; [| apply Hpos].
    apply positions_of_sorted.
Qed.

End FirstPassLists.

Lemma first_pass_callsubs_by_label_witness :
  exists fp,
    _first_pass Sample.parse_line
      ["callsub f"; "callsub g"; "callsub f"; "return"; "f:"; "g:"; "retsub"] = Ok fp
    /\ fp_subroutines fp = [("f", [0; 2]%nat); ("g", [1%nat])]
    /\ NoDup (fp_subroutines fp).*1.
Proof.
  eexists. split; [vm_compute; reflexivity |]. split; [reflexivity |].
  apply (first_pass_callsubs_by_label Sample.parse_line
           ["callsub f"; "callsub g"; "callsub f"; "return"; "f:"; "g:"; "retsub"]
           _ ltac:(vm_compute; reflexivity)).
Defined.

(** ** The order of the blocks *)

Lemma StronglySorted_of_lookup {A : Type} (R : A -> A -> Prop) (l : list A) :
  (forall i j x y, (i < j)%nat -> l !! i = Some x -> l !! j = Some y -> R x y) ->
  StronglySorted R l.
Proof.
  induction l as [| a l IH]; intros H; [constructor |].
  constructor.
  - apply IH. intros i j x y Hij Hi Hj. apply (H (S i) (S j)); [lia | done | done].
  - apply Forall_forall. intros y Hy. apply list_elem_of_lookup in Hy as [j Hj].
    apply (H 0%nat (S j)); [lia | done | done].
Qed.

Section BlockOrder.

Variable parse_line : string -> ParseResult.
Variables (source_code : string) (teal : Teal).
Variable stg : parse_teal_stages parse_line source_code teal.

Lemma stages_creation_order :
  teal_bbs teal = seq 0 (length (teal_store teal)).
Proof.
  destruct (stages_sorted _ _ _ stg) as (Hperm & Hlines & _).
  destruct (stages_block_instructions _ _ _ stg) as (Hins & _ & _).
  apply (StronglySorted_unique_strong lt).
  - intros x y _ _ ? ?. lia.
  - apply StronglySorted_of_lookup. intros i j bi bj Hij Hi Hj.
    destruct (Hlines i j bi bj Hij Hi Hj) as (ki & kj & Hki & Hkj & Hlt).
    destruct (decide (bi < bj)%nat) as [| Hge]; [done |].
    assert (Hne : bi <> bj).
    { intros ->.
      assert (Hnd : NoDup (teal_bbs teal)) by (rewrite Hperm; apply NoDup_seq).
      pose proof (NoDup_lookup _ _ _ _ Hnd Hi Hj). lia. }
    assert (kj < ki); [| lia].
    apply (entry_lines_increase (teal_instructions teal) (teal_store teal)
             (length (st_instructions2 _ _ _ stg)) bj bi); [| | lia | done | done].
    + rewrite Hins.
      apply (cbi_concat _ _ _ (create_bb_inv_holds (st_instructions2 _ _ _ stg))).
    + apply (stages_lines_increase _ _ _ stg).
  - apply seq_StronglySorted.
  - exact Hperm.
Qed.

End BlockOrder.

(** X10: the sort of [_add_basic_blocks_idx] moves no block: [create_bb]
    makes the blocks in the order of the lines, so in the [Teal] object
    the list [bbs] holds the blocks in the order in which they were made,
    and [idx] of a block is the position at which it was made. *)
Theorem blocks_keep_creation_order (parse_line : string -> ParseResult)
    (source_code contract_name : string) (teal : Teal) :
  parse_teal parse_line source_code contract_name = Ok teal ->
  teal_bbs teal = seq 0 (length (teal_store teal))
  /\ forall b blk, teal_store teal !! b = Some blk -> bb_idx blk = Some b.
Proof.
  intros Hok. destruct (parse_teal_has_stages _ _ _ _ Hok) as [stg].
  pose proof (stages_creation_order _ _ _ stg) as Hseq.
  split; [exact Hseq |]. intros b blk Hb.
  destruct (stages_sorted _ _ _ stg) as (_ & _ & Hidx).
  destruct (Hidx b b) as (blk' & Hb' & Hi).
  - rewrite Hseq. apply lookup_seq. split; [done |]. by eapply lookup_lt_Some.
  - congruence.
Qed.

Lemma blocks_keep_creation_order_witness :
  exists teal,
    parse_teal Sample.parse_line Sample.MULTIPLE_RETURN_POINTS "" = Ok teal
    /\ teal_bbs teal = seq 0 (length (teal_store teal)).
Proof.
  eexists. split; [vm_compute; reflexivity |].
  apply (blocks_keep_creation_order Sample.parse_line
           Sample.MULTIPLE_RETURN_POINTS "" _ ltac:(vm_compute; reflexivity)).
Defined.

(** ** The blocks of [create_bb] *)

Lemma shape_closes a a0 :
  ins_shape a = ins_shape a0 ->
  closes_with_edge a = closes_with_edge a0
  /\ closes_without_edge a = closes_without_edge a0
  /\ ins_class a = ins_class a0.
Proof.
  unfold ins_shape, closes_with_edge, closes_without_edge.
  intros [= Hc _ Hn _]. by rewrite Hc, Hn.
Qed.

Lemma falls_through_same instructions blk blk' :
  bb_instructions blk' = bb_instructions blk ->
  falls_through instructions blk' = falls_through instructions blk.
Proof. unfold falls_through. by intros ->. Qed.

Lemma start_block_lookup w st b :
  S (cb_bb st) = length (cb_all_bbs st) ->
  cb_all_bbs (start_block w st) !! b =
  if decide (b = S (cb_bb st))
  then Some (if w then bb_add_prev (cb_bb st) new_bb else new_bb)
  else if decide (b = cb_bb st)
       then (if w then bb_add_next (S (cb_bb st)) else id) <$> cb_all_bbs st !! b
       else cb_all_bbs st !! b.
Proof.
  intros Hcur. unfold start_block. cbn [cb_all_bbs]. rewrite <- Hcur.
  assert (Hnew : (cb_all_bbs st ++ [new_bb]) !! S (cb_bb st) = Some new_bb).
  { rewrite lookup_app_r by lia. by rewrite <- Hcur, Nat.sub_diag. }
  assert (Hold : forall b, b <> S (cb_bb st) ->
            (cb_all_bbs st ++ [new_bb]) !! b = cb_all_bbs st !! b).
  { intros b' Hb'. destruct (decide (b' < S (cb_bb st))%nat).
    - by rewrite lookup_app_l by lia.
    - rewrite !lookup_ge_None_2; [done | lia |].
      rewrite length_app. simpl. lia. }
  destruct w.
  - destruct (decide (b = S (cb_bb st))) as [-> |].
    + rewrite list_lookup_alter_eq, list_lookup_alter_ne by lia.
      by rewrite Hnew.
    + rewrite list_lookup_alter_ne by done.
      destruct (decide (b = cb_bb st)) as [-> |].
      * by rewrite list_lookup_alter_eq, Hold by lia.
      * by rewrite list_lookup_alter_ne, Hold by done.
  - destruct (decide (b = S (cb_bb st))) as [-> |]; [exact Hnew |].
    rewrite Hold by done. destruct (decide (b = cb_bb st)); [| done].
    by destruct (cb_all_bbs st !! b).
Qed.

Section CreateBBBlocks.

Variable instructions : list Instruction.

Lemma start_block_blocks w i st :
  create_bb_blocks instructions i st ->
  (forall blk, cb_all_bbs st !! cb_bb st = Some blk ->
     falls_through instructions blk = w
     /\ (bb_instructions blk = [] ->
         exists j a,
           instructions !! j = Some a /\ (S j < length instructions)%nat
           /\ closes_with_edge a = true /\ closes_without_edge a = true)) ->
  create_bb_blocks instructions i (start_block w st).
Proof.
  intros [Hinv Hmem Hjoin Hnext Hprev Hempty] Hw'.
  assert (Hw : forall blk, cb_all_bbs st !! cb_bb st = Some blk ->
            falls_through instructions blk = w) by (intros; by apply Hw').
  pose proof (cbi_current _ _ _ Hinv) as Hcur.
  assert (Hlen : length (cb_all_bbs (start_block w st)) = S (S (cb_bb st))).
  { unfold start_block. cbn [cb_all_bbs].
    destruct w; rewrite ?length_alter, length_app; simpl; lia. }
  split.
  - by apply start_block_inv.
  - intros j a Hj Ha. destruct (Hmem j a Hj Ha) as (b & blk & Hb & Hblk & Hin).
    pose proof (lookup_lt_Some _ _ _ Hblk) as Hlt.
    exists b. rewrite start_block_lookup by done.
    rewrite decide_False by lia.
    destruct (decide (b = cb_bb st)) as [-> |].
    + rewrite Hblk. eexists. split; [done |]. split; [reflexivity |].
      by destruct w.
    + by exists blk.
  - exact Hjoin.
  - intros b blk. rewrite start_block_lookup, Hlen by done.
    destruct (decide (b = S (cb_bb st))) as [-> |].
    + intros [= <-]. rewrite bool_decide_eq_false_2 by lia. by destruct w.
    + destruct (decide (b = cb_bb st)) as [-> |].
      * destruct (cb_all_bbs st !! cb_bb st) as [blk0 |] eqn:H0; [| discriminate].
        simpl. intros [= <-].
        rewrite bool_decide_eq_true_2 by lia. simpl.
        pose proof (Hnext _ _ H0) as Hn0.
        rewrite bool_decide_eq_false_2 in Hn0 by lia. simpl in Hn0.
        pose proof (Hw _ eq_refl) as Hw0.
        destruct w; simpl.
        -- rewrite (falls_through_same _ blk0) by done. by rewrite Hw0, Hn0.
        -- by rewrite Hw0.
      * intros Hb. pose proof (lookup_lt_Some _ _ _ Hb) as Hlt.
        rewrite (Hnext _ _ Hb).
        by rewrite !bool_decide_eq_true_2 by lia.
  - intros b blk. rewrite start_block_lookup by done.
    destruct (decide (b = S (cb_bb st))) as [-> |].
    + intros [= <-]. rewrite start_block_lookup by done.
      rewrite decide_False, decide_True by lia.
      destruct (cb_all_bbs st !! cb_bb st) as [blk0 |] eqn:H0.
      * pose proof (Hw _ eq_refl) as Hw0. destruct w; simpl.
        -- by rewrite (falls_through_same _ blk0), Hw0 by done.
        -- by rewrite Hw0.
      * apply lookup_ge_None in H0. lia.
    + intros Hb.
      assert (Hb0 : exists blk0, cb_all_bbs st !! b = Some blk0
                /\ bb_prev blk = bb_prev blk0).
      { destruct (decide (b = cb_bb st)) as [-> |]; [| eauto].
        destruct (cb_all_bbs st !! cb_bb st) as [blk0 |]; [| discriminate].
        simpl in Hb. injection Hb as <-. exists blk0. by destruct w. }
      destruct Hb0 as (blk0 & Hb0 & ->).
      pose proof (lookup_lt_Some _ _ _ Hb0) as Hlt.
      rewrite (Hprev _ _ Hb0). destruct b as [| p]; [done |].
      rewrite start_block_lookup by done.
      by rewrite !decide_False by lia.
  - intros b blk. rewrite start_block_lookup by done.
    change (cb_bb (start_block w st)) with (length (cb_all_bbs st)).
    rewrite <- Hcur.
    destruct (decide (b = S (cb_bb st))) as [-> |]; [by left |].
    intros Hb Hnil. right.
    destruct (decide (b = cb_bb st)) as [-> |].
    + destruct (cb_all_bbs st !! cb_bb st) as [blk0 |] eqn:H0; [| discriminate].
      simpl in Hb. injection Hb as <-.
      apply (Hw' blk0 eq_refl). by destruct w.
    + by destruct (Hempty b blk Hb Hnil).
Qed.

Lemma add_instruction_blocks i st :
  (i < length instructions)%nat ->
  create_bb_blocks instructions i st ->
  (forall i', i = S i' ->
     exists a', cb_instructions st !! i' = Some a'
       /\ (ins_bb a' = Some (cb_bb st) <-> joined instructions i' = true)) ->
  create_bb_blocks instructions (S i)
    {| cb_all_bbs := alter (bb_add_instruction i) (cb_bb st) (cb_all_bbs st);
       cb_bb := cb_bb st;
       cb_instructions := alter (ins_set_bb (cb_bb st)) i (cb_instructions st) |}
  /\ exists a blk,
       alter (ins_set_bb (cb_bb st)) i (cb_instructions st) !! i = Some a
       /\ ins_bb a = Some (cb_bb st)
       /\ alter (bb_add_instruction i) (cb_bb st) (cb_all_bbs st) !! cb_bb st
          = Some blk
       /\ last (bb_instructions blk) = Some i.
Proof.
  intros Hi [Hinv Hmem Hjoin Hnext Hprev Hempty] Hbefore.
  pose proof (cbi_current _ _ _ Hinv) as Hcur.
  assert (Hlen : length (cb_instructions st) = length instructions)
    by (eapply same_fmap_length, cbi_shape; exact Hinv).
  destruct (lookup_lt_is_Some_2 (cb_instructions st) i ltac:(lia)) as [ins Hins].
  destruct (lookup_lt_is_Some_2 (cb_all_bbs st) (cb_bb st) ltac:(lia))
    as [blk Hblk].
  assert (Hlook : forall b,
            alter (bb_add_instruction i) (cb_bb st) (cb_all_bbs st) !! b
            = if decide (b = cb_bb st) then Some (bb_add_instruction i blk)
              else cb_all_bbs st !! b).
  { intros b. destruct (decide (b = cb_bb st)) as [-> |].
    - by rewrite list_lookup_alter_eq, Hblk.
    - by rewrite list_lookup_alter_ne. }
  assert (Hilook : forall j,
            alter (ins_set_bb (cb_bb st)) i (cb_instructions st) !! j
            = if decide (j = i) then Some (ins_set_bb (cb_bb st) ins)
              else cb_instructions st !! j).
  { intros j. destruct (decide (j = i)) as [-> |].
    - by rewrite list_lookup_alter_eq, Hins.
    - by rewrite list_lookup_alter_ne. }
  split; [split |]; cbn [cb_all_bbs cb_bb cb_instructions].
  - destruct Hinv as [Hc _ Hshape Hsub]. split; simpl.
    + rewrite (list_fmap_alter bb_instructions _ (λ l, l ++ [i]));
        [| by apply Forall_true].
      rewrite concat_alter_last by (by rewrite length_fmap).
      rewrite Hc. symmetry. apply (seq_S i 0).
    + by rewrite length_alter.
    + by rewrite fmap_alter_same.
    + apply Forall_alter; [exact Hsub | by intros].
  - intros j a Hj. rewrite Hilook. destruct (decide (j = i)) as [-> |].
    + intros [= <-]. exists (cb_bb st), (bb_add_instruction i blk).
      split; [done |]. split; [by rewrite Hlook, decide_True |].
      simpl. apply elem_of_app. right. by left.
    + intros Ha.
      destruct (Hmem j a ltac:(lia) Ha) as (b & blk' & Hb & Hblk' & Hin).
      exists b. rewrite Hlook. destruct (decide (b = cb_bb st)) as [-> |].
      * eexists. split; [done |]. split; [done |]. simpl.
        assert (blk' = blk) by congruence. subst.
        apply elem_of_app. by left.
      * by exists blk'.
  - intros j a a' Hj. rewrite !Hilook.
    destruct (decide (S j = i)) as [<- |].
    + rewrite decide_False by lia. intros Ha [= <-]. simpl.
      destruct (Hbefore j eq_refl) as (a'' & Ha'' & Hiff).
      assert (a'' = a) by congruence. subst. exact Hiff.
    + rewrite decide_False by lia. intros Ha Ha'.
      apply Hjoin; [lia | done | done].
  - intros b blk'. rewrite Hlook, length_alter.
    destruct (decide (b = cb_bb st)) as [-> |].
    + intros [= <-]. simpl. rewrite (Hnext _ _ Hblk).
      by rewrite !bool_decide_eq_false_2 by lia.
    + intros Hb. by rewrite (Hnext _ _ Hb).
  - intros b blk' Hb.
    assert (Hb0 : exists blk0, cb_all_bbs st !! b = Some blk0
              /\ bb_prev blk' = bb_prev blk0).
    { rewrite Hlook in Hb. destruct (decide (b = cb_bb st)) as [-> |]; [| eauto].
      injection Hb as <-. by exists blk. }
    destruct Hb0 as (blk0 & Hb0 & ->).
    pose proof (lookup_lt_Some _ _ _ Hb0) as Hlt.
    rewrite (Hprev _ _ Hb0). destruct b as [| p]; [done |].
    by rewrite Hlook, decide_False by lia.
  - intros b blk'. rewrite Hlook.
    destruct (decide (b = cb_bb st)) as [-> |]; [by left |]. apply Hempty.
  - exists (ins_set_bb (cb_bb st) ins), (bb_add_instruction i blk).
    split; [by rewrite Hilook, decide_True |]. split; [done |].
    split; [by rewrite Hlook, decide_True |]. simpl. apply last_snoc.
Qed.

Lemma start_block_current w st :
  S (cb_bb st) = length (cb_all_bbs st) ->
  exists blk,
    cb_all_bbs (start_block w st) !! cb_bb (start_block w st) = Some blk
    /\ bb_instructions blk = [].
Proof.
  intros Hcur. rewrite start_block_lookup by done.
  change (cb_bb (start_block w st)) with (length (cb_all_bbs st)).
  rewrite <- Hcur, decide_True by done. eexists. split; [reflexivity |].
  by destruct w.
Qed.

Lemma create_bb_ins_blocks i st :
  (i < length instructions)%nat ->
  create_bb_blocks instructions i st ->
  create_bb_open instructions i st ->
  create_bb_blocks instructions (S i) (create_bb_ins st i)
  /\ create_bb_open instructions (S i) (create_bb_ins st i).
Proof.
  intros Hi Hblocks Hopen. unfold create_bb_ins.
  pose proof (cbb_inv _ _ _ Hblocks) as Hinv.
  pose proof (cbi_current _ _ _ Hinv) as Hcur.
  pose proof (cbi_shape _ _ _ Hinv) as Hshape.
  assert (Hlen : length (cb_instructions st) = length instructions)
    by (by eapply same_fmap_length).
  destruct (lookup_lt_is_Some_2 (cb_instructions st) i ltac:(lia)) as [ins Hins].
  rewrite Hins.
  destruct (same_fmap_lookup ins_shape _ _ i ins (eq_sym Hshape) Hins)
    as (a0 & Ha0 & Hshape0).
  destruct (shape_closes _ _ Hshape0) as (HW0 & HN0 & HC0).
  destruct (lookup_lt_is_Some_2 (cb_all_bbs st) (cb_bb st) ltac:(lia))
    as [blk Hblk].
  assert (Hbefore : forall i', i = S i' ->
            exists a',
              cb_instructions st !! i' = Some a'
              /\ joined instructions i'
                 = negb (closes_with_edge a') && negb (closes_without_edge a')
                   && negb (is_Label (ins_class ins))
              /\ falls_through instructions blk
                 = match last (bb_instructions blk) with
                   | Some _ => closes_with_edge a' || negb (closes_without_edge a')
                   | None => false
                   end
              /\ (if closes_with_edge a' || closes_without_edge a'
                  then bb_instructions blk = []
                  else ins_bb a' = Some (cb_bb st)
                       /\ last (bb_instructions blk) = Some i')
              /\ (ins_bb a' = Some (cb_bb st) -> bb_instructions blk <> [])).
  { intros i' ->. destruct Hopen as (a' & blk' & Ha' & Hblk' & Hcase).
    assert (blk' = blk) by congruence. subst blk'.
    rewrite bool_decide_eq_true_2 in Hcase by lia. simpl in Hcase.
    destruct (same_fmap_lookup ins_shape _ _ i' a' (eq_sym Hshape) Ha')
      as (a0' & Ha0' & Hshape0').
    destruct (shape_closes _ _ Hshape0') as (HW0' & HN0' & _).
    exists a'. split; [done |]. split; [| split; [| split; [exact Hcase |]]].
    - unfold joined. by rewrite Ha0', Ha0, HW0', HN0', HC0.
    - unfold falls_through.
      destruct (closes_with_edge a' || closes_without_edge a') eqn:Hcl.
      + by rewrite Hcase.
      + destruct Hcase as [_ ->]. simpl. by rewrite Ha0', HW0', HN0'.
    - intros Hbb Hnil.
      destruct (cbb_member _ _ _ Hblocks i' a' ltac:(lia) Ha')
        as (b & blkb & Hb & Hblkb & Hin).
      assert (b = cb_bb st) by congruence. subst b.
      assert (blkb = blk) by congruence. subst blkb.
      rewrite Hnil in Hin. by apply elem_of_nil in Hin. }
  assert (Hfirst : i = 0%nat -> bb_instructions blk = []).
  { intros ->. simpl in Hopen. by assert (blk = new_bb) as -> by congruence. }
  set (st1 := if is_Label (ins_class ins) && negb (block_is_empty st)
              then start_block true st else st).
  assert (H1 : create_bb_blocks instructions i st1
               /\ forall i', i = S i' ->
                    exists a', cb_instructions st1 !! i' = Some a'
                      /\ (ins_bb a' = Some (cb_bb st1)
                          <-> joined instructions i' = true)).
  { subst st1. unfold block_is_empty. rewrite Hblk.
    destruct (bb_instructions blk) as [| x xs] eqn:Hxs.
    - (* the block being filled is empty *)
      rewrite bool_decide_eq_true_2 by done. rewrite andb_false_r.
      split; [exact Hblocks |]. intros i' ->.
      destruct (Hbefore i' eq_refl) as (a' & Ha' & Hj & _ & Hcase & Hne).
      exists a'. split; [done |]. rewrite Hj.
      destruct (closes_with_edge a' || closes_without_edge a') eqn:Hcl.
      + split; [intros Hbb; by destruct (Hne Hbb) |].
        apply orb_true_iff in Hcl as [-> | ->]; simpl;
          rewrite ?andb_false_r; discriminate.
      + by destruct Hcase as [_ ?].
    - (* the block being filled holds an instruction *)
      rewrite bool_decide_eq_false_2 by done. rewrite andb_true_r.
      destruct i as [| i']; [by specialize (Hfirst eq_refl) |].
      destruct (Hbefore i' eq_refl) as (a' & Ha' & Hj & Hft & Hcase & _).
      destruct (closes_with_edge a' || closes_without_edge a') eqn:Hcl;
        [done |].
      apply orb_false_iff in Hcl as [HW' HN'].
      rewrite HW', HN' in Hj, Hft. simpl in Hj, Hft.
      destruct Hcase as [Hbb Hlast]. rewrite Hlast in Hft.
      destruct (is_Label (ins_class ins)) eqn:HL.
      + split.
        * apply start_block_blocks; [exact Hblocks |].
          intros blk' Hblk'. assert (blk' = blk) by congruence. subst blk'.
          split; [congruence |]. by rewrite Hxs.
        * intros ? [= <-]. exists a'. split; [done |]. rewrite Hj.
          change (cb_bb (start_block true st)) with (length (cb_all_bbs st)).
          split; [| discriminate]. rewrite Hbb. intros [= Heq]. lia.
      + split; [exact Hblocks |].
        intros ? [= <-]. exists a'. split; [done |]. by rewrite Hj. }
  clearbody st1. destruct H1 as [Hblocks1 Hbefore1].
  destruct (add_instruction_blocks i st1 Hi Hblocks1 Hbefore1)
    as (Hblocks2 & a2 & blk2 & Ha2 & Hbb2 & Hblk2 & Hlast2).
  assert (Hcl2 : closes_with_edge a2 = closes_with_edge ins
                 /\ closes_without_edge a2 = closes_without_edge ins).
  { pose proof (cbi_shape _ _ _ (cbb_inv _ _ _ Hblocks2)) as Hshape2.
    cbn [cb_instructions] in Hshape2.
    destruct (same_fmap_lookup ins_shape _ _ i a2 (eq_sym Hshape2) Ha2)
      as (a0' & Ha0' & Hshape2').
    assert (a0' = a0) by congruence. subst a0'.
    destruct (shape_closes _ _ Hshape2') as (? & ? & _).
    split; congruence. }
  destruct Hcl2 as [HW2 HN2].
  assert (Hft2 : falls_through instructions blk2
                 = closes_with_edge ins || negb (closes_without_edge ins)).
  { unfold falls_through. rewrite Hlast2. simpl. by rewrite Ha0, HW0, HN0. }
  assert (Hlen2 : length (alter (ins_set_bb (cb_bb st1)) i (cb_instructions st1))
                  = length instructions).
  { rewrite length_alter. eapply same_fmap_length, cbi_shape.
    exact (cbb_inv _ _ _ Hblocks1). }
  set (st2 := {| cb_all_bbs := alter (bb_add_instruction i) (cb_bb st1) (cb_all_bbs st1);
                 cb_bb := cb_bb st1;
                 cb_instructions := alter (ins_set_bb (cb_bb st1)) i (cb_instructions st1) |})
    in *.
  change (cb_all_bbs st2 !! cb_bb st2 = Some blk2) in Hblk2.
  change (cb_instructions st2 !! i = Some a2) in Ha2.
  assert (Hcur2 : S (cb_bb st2) = length (cb_all_bbs st2))
    by exact (cbi_current _ _ _ (cbb_inv _ _ _ Hblocks2)).
  assert (Hkeep : bool_decide (S i < length instructions)%nat
                  && (closes_with_edge ins || closes_without_edge ins) = false ->
                  create_bb_blocks instructions (S i) st2
                  /\ create_bb_open instructions (S i) st2).
  { intros Hc. split; [exact Hblocks2 |]. exists a2, blk2.
    split; [exact Ha2 |]. split; [exact Hblk2 |].
    by rewrite HW2, HN2, Hc. }
  assert (Hclose : forall w,
            (S i < length instructions)%nat ->
            closes_with_edge ins || negb (closes_without_edge ins) = w ->
            (closes_with_edge ins || closes_without_edge ins) = true ->
            create_bb_blocks instructions (S i) (start_block w st2)
            /\ create_bb_open instructions (S i) (start_block w st2)).
  { intros w Hnl Hw Hc. split.
    - apply start_block_blocks; [exact Hblocks2 |].
      intros blk' Hblk'. assert (blk' = blk2) by congruence. subst.
      split; [congruence |]. intros Hnil. by rewrite Hnil in Hlast2.
    - destruct (start_block_current w st2 Hcur2) as (nb & Hnb & Hnil).
      exists a2, nb. split; [exact Ha2 |]. split; [exact Hnb |].
      by rewrite HW2, HN2, Hc, bool_decide_eq_true_2 by lia. }
  change (bool_decide (1 < length (ins_next ins))%nat || is_Callsub (ins_class ins))
    with (closes_with_edge ins).
  change (bool_decide (length (ins_next ins) = 0%nat) || is_B (ins_class ins))
    with (closes_without_edge ins).
  cbv zeta. cbn [cb_instructions]. fold st2.
  change (length (cb_instructions st2) = length instructions) in Hlen2.
  rewrite Hlen2.
  assert (Hlast : bool_decide (S i = length instructions)
                  = negb (bool_decide (S i < length instructions)%nat)).
  { destruct (decide (S i = length instructions)).
    - by rewrite bool_decide_eq_true_2, bool_decide_eq_false_2 by lia.
    - by rewrite bool_decide_eq_false_2, bool_decide_eq_true_2 by lia. }
  rewrite Hlast. clear Hlast.
  destruct (bool_decide_reflect (S i < length instructions)%nat) as [Hnl | Hnl];
    simpl.
  - destruct (closes_with_edge ins) eqn:HW;
      destruct (closes_without_edge ins) eqn:HN; simpl.
    + destruct (Hclose true Hnl eq_refl eq_refl) as [Hb3 Ho3].
      pose proof (cbi_current _ _ _ (cbb_inv _ _ _ Hb3)) as Hcur3.
      destruct (start_block_current true st2 Hcur2) as (nb & Hnb & Hnil).
      split.
      * apply start_block_blocks; [exact Hb3 |].
        intros blk' Hblk'. assert (blk' = nb) by congruence. subst.
        split; [unfold falls_through; by rewrite Hnil |].
        intros _. exists i, a0. by rewrite HW0, HN0.
      * destruct (start_block_current false (start_block true st2) Hcur3)
          as (nb' & Hnb' & Hnil').
        exists a2, nb'. split; [exact Ha2 |]. split; [exact Hnb' |].
        by rewrite HW2, bool_decide_eq_true_2 by lia.
    + by apply (Hclose true).
    + by apply (Hclose false).
    + by apply Hkeep.
  - assert (Hst2 : create_bb_blocks instructions (S i) st2
                   /\ create_bb_open instructions (S i) st2) by (by apply Hkeep).
    by destruct (closes_with_edge ins), (closes_without_edge ins).
Qed.

Lemma create_bb_prefix_blocks m :
  (m <= length instructions)%nat ->
  create_bb_blocks instructions m
    (fold_left create_bb_ins (seq 0 m)
       {| cb_all_bbs := [new_bb]; cb_bb := 0%nat;
          cb_instructions := instructions |})
  /\ create_bb_open instructions m
       (fold_left create_bb_ins (seq 0 m)
          {| cb_all_bbs := [new_bb]; cb_bb := 0%nat;
             cb_instructions := instructions |}).
Proof.
  induction m as [| m IH]; intros Hm.
  - split; [| reflexivity]. split; simpl.
    + by apply (create_bb_prefix_inv instructions 0).
    + intros; lia.
    + intros; lia.
    + intros [| b] blk Hb; [by injection Hb as <- | done].
    + intros [| b] blk Hb; [by injection Hb as <- | done].
    + intros [| b] blk Hb; [by left | done].
  - rewrite seq_S, fold_left_app. simpl.
    destruct IH as [Hb Ho]; [lia |]. by apply create_bb_ins_blocks.
Qed.

Lemma create_bb_blocks_hold :
  create_bb_blocks instructions (length instructions) (create_bb instructions)
  /\ create_bb_open instructions (length instructions) (create_bb instructions).
Proof. by apply create_bb_prefix_blocks. Qed.

End CreateBBBlocks.


(** X12: the default edges of [create_bb]. A block has at most one
    successor, the block made right after it, and has it exactly when
    its last instruction has several successors or is a [callsub], or
    has a successor and is no [b]; the last block made has none. The
    predecessors mirror this: a block has the block made right before it
    as its only predecessor when that block has it as successor. *)
Theorem create_bb_default_edges (instructions : list Instruction) :
  (forall b blk,
     cb_all_bbs (create_bb instructions) !! b = Some blk ->
     bb_next blk =
     if bool_decide (S b < length (cb_all_bbs (create_bb instructions)))%nat
        && falls_through instructions blk
     then [S b] else [])
  /\ (forall b blk,
        cb_all_bbs (create_bb instructions) !! b = Some blk ->
        bb_prev blk =
        match b with
        | O => []
        | S p =>
            match cb_all_bbs (create_bb instructions) !! p with
            | Some pb => if falls_through instructions pb then [p] else []
            | None => []
            end
        end).
Proof.
  destruct (create_bb_blocks_hold instructions) as [[_ _ _ Hnext Hprev _] _].
  by split.
Qed.

(** ** Blocks as intervals of positions *)

Lemma app_seq_middle (xs l ys : list nat) n :
  xs ++ l ++ ys = seq 0 n -> l = seq (length xs) (length l).
Proof.
  intros H.
  assert (Hn : n = (length xs + (length l + length ys))%nat).
  { apply (f_equal length) in H. rewrite !length_app, length_seq in H. lia. }
  subst n. rewrite seq_app in H.
  apply app_inj_1 in H as [_ H]; [| by rewrite length_seq].
  rewrite seq_app in H.
  apply app_inj_1 in H as [H _]; [| by rewrite length_seq].
  exact H.
Qed.

Lemma concat_lookup_interval (L : list (list nat)) n b l :
  concat L = seq 0 n -> L !! b = Some l ->
  l = seq (length (concat (take b L))) (length l).
Proof.
  intros Hc Hb.
  rewrite <- (take_drop_middle L b l Hb), concat_app, concat_cons in Hc.
  by apply app_seq_middle in Hc.
Qed.

Lemma concat_take_S (L : list (list nat)) b l :
  L !! b = Some l ->
  length (concat (take (S b) L)) = (length (concat (take b L)) + length l)%nat.
Proof.
  intros Hb. rewrite (take_S_r _ _ _ Hb), concat_app, length_app. simpl.
  by rewrite app_nil_r.
Qed.

Lemma last_seq s len : last (seq s (S len)) = Some (s + len)%nat.
Proof.
  rewrite seq_S, last_snoc. done.
Qed.

(** In a list of lists whose concatenation is [0, 1, ...]: two lists
    that share an element are the same list; a list that holds two
    positions holds those between; after the last element of a list
    comes the first of the next one. *)
Lemma concat_seq_disjoint (L : list (list nat)) n b1 b2 l1 l2 x :
  concat L = seq 0 n -> L !! b1 = Some l1 -> L !! b2 = Some l2 ->
  x ∈ l1 -> x ∈ l2 -> b1 = b2.
Proof.
  intros Hc H1 H2 Hx1 Hx2.
  assert (Hs : StronglySorted lt (concat L)) by (rewrite Hc; apply seq_StronglySorted).
  destruct (lt_eq_lt_dec b1 b2) as [[Hlt | ->] | Hlt]; [| done |].
  - pose proof (concat_sorted_lookup L b1 b2 l1 l2 x x Hs Hlt H1 H2 Hx1 Hx2). lia.
  - pose proof (concat_sorted_lookup L b2 b1 l2 l1 x x Hs Hlt H2 H1 Hx2 Hx1). lia.
Qed.

Lemma concat_seq_next (L : list (list nat)) n b l1 l2 e :
  concat L = seq 0 n -> L !! b = Some l1 -> L !! S b = Some l2 ->
  last l1 = Some e -> l2 <> [] -> head l2 = Some (S e).
Proof.
  intros Hc H1 H2 He Hne.
  pose proof (concat_lookup_interval L n b l1 Hc H1) as Hl1.
  pose proof (concat_lookup_interval L n (S b) l2 Hc H2) as Hl2.
  rewrite (concat_take_S L b l1 H1) in Hl2.
  destruct (length l1) as [| len1] eqn:Hlen1.
  { apply nil_length_inv in Hlen1. by subst l1. }
  rewrite Hl1, last_seq in He. injection He as <-.
  destruct (length l2) as [| len2] eqn:Hlen2.
  { apply nil_length_inv in Hlen2. by subst l2. }
  rewrite Hl2. simpl. f_equal. lia.
Qed.

Lemma concat_seq_inner (L : list (list nat)) n b l k j j' :
  concat L = seq 0 n -> L !! b = Some l ->
  l !! k = Some j -> l !! S k = Some j' -> j' = S j.
Proof.
  intros Hc Hb Hj Hj'.
  pose proof (concat_lookup_interval L n b l Hc Hb) as Hl.
  rewrite Hl in Hj, Hj'.
  apply lookup_seq in Hj as [-> _]. apply lookup_seq in Hj' as [-> _]. lia.
Qed.

Lemma concat_seq_head (L : list (list nat)) n b l j :
  concat L = seq 0 n -> L !! b = Some l ->
  S j ∈ l -> j ∉ l -> head l = Some (S j).
Proof.
  intros Hc Hb Hin Hnot.
  pose proof (concat_lookup_interval L n b l Hc Hb) as Hl.
  rewrite Hl in Hin, Hnot. rewrite elem_of_seq in Hin, Hnot.
  destruct (length l) as [| len] eqn:Hlen; [lia |].
  rewrite Hl. simpl. f_equal. lia.
Qed.

Lemma concat_seq_last (L : list (list nat)) n b l j :
  concat L = seq 0 n -> L !! b = Some l ->
  j ∈ l -> S j ∉ l -> last l = Some j.
Proof.
  intros Hc Hb Hin Hnot.
  pose proof (concat_lookup_interval L n b l Hc Hb) as Hl.
  rewrite Hl in Hin, Hnot. rewrite elem_of_seq in Hin, Hnot.
  destruct (length l) as [| len] eqn:Hlen; [lia |].
  rewrite Hl, last_seq. f_equal. lia.
Qed.

Lemma head_elem_of {A : Type} (l : list A) x : head l = Some x -> x ∈ l.
Proof. destruct l; [done |]. intros [= ->]. by left. Qed.

Lemma last_elem_of {A : Type} (l : list A) x : last l = Some x -> x ∈ l.
Proof.
  intros H. apply last_Some in H as [l' ->]. apply elem_of_app. right. by left.
Qed.

Section CreateBBMembers.

Variable instructions : list Instruction.

Local Abbreviation cb := (create_bb instructions).

Lemma create_bb_concat :
  concat (bb_instructions <$> cb_all_bbs cb) = seq 0 (length instructions).
Proof. exact (cbi_concat _ _ _ (create_bb_inv_holds instructions)). Qed.

Lemma create_bb_member_iff j a b blk :
  cb_instructions cb !! j = Some a -> cb_all_bbs cb !! b = Some blk ->
  j ∈ bb_instructions blk <-> ins_bb a = Some b.
Proof.
  intros Ha Hb.
  destruct (create_bb_blocks_hold instructions) as [[Hinv Hmem _ _ _ _] _].
  assert (Hj : (j < length instructions)%nat).
  { apply lookup_lt_Some in Ha.
    rewrite (same_fmap_length ins_shape _ _ (cbi_shape _ _ _ Hinv)) in Ha. lia. }
  destruct (Hmem j a Hj Ha) as (b0 & blk0 & Hbb & Hb0 & Hin0).
  split.
  - intros Hin. rewrite Hbb. f_equal.
    apply (concat_seq_disjoint (bb_instructions <$> cb_all_bbs cb)
             (length instructions) b0 b (bb_instructions blk0)
             (bb_instructions blk) j create_bb_concat);
      [| | done | done].
    + by rewrite list_lookup_fmap, Hb0.
    + by rewrite list_lookup_fmap, Hb.
  - intros Hbb'. assert (b0 = b) by congruence. subst b0.
    by assert (blk0 = blk) as <- by congruence.
Qed.

Lemma create_bb_same_block j a a' :
  cb_instructions cb !! j = Some a -> cb_instructions cb !! S j = Some a' ->
  ins_bb a = ins_bb a' <-> joined instructions j = true.
Proof.
  intros Ha Ha'.
  destruct (create_bb_blocks_hold instructions) as [[Hinv _ Hjoin _ _ _] _].
  apply Hjoin; [| done | done].
  apply lookup_lt_Some in Ha'.
  rewrite (same_fmap_length ins_shape _ _ (cbi_shape _ _ _ Hinv)) in Ha'. lia.
Qed.

Lemma create_bb_lookup_instruction b blk j :
  cb_all_bbs cb !! b = Some blk -> j ∈ bb_instructions blk ->
  exists a, cb_instructions cb !! j = Some a /\ ins_bb a = Some b.
Proof.
  intros Hb Hin.
  assert (Hj : j ∈ seq 0 (length instructions)).
  { rewrite <- create_bb_concat. apply list_elem_of_In, in_concat.
    exists (bb_instructions blk). split; [| by apply list_elem_of_In].
    apply list_elem_of_In, list_elem_of_fmap. exists blk. split; [done |].
    by eapply list_elem_of_lookup_2. }
  apply elem_of_seq in Hj.
  destruct (lookup_lt_is_Some_2 (cb_instructions cb) j) as [a Ha].
  { rewrite (same_fmap_length ins_shape _ _
               (cbi_shape _ _ _ (create_bb_inv_holds instructions))). lia. }
  exists a. split; [done |]. by apply (create_bb_member_iff j a b blk).
Qed.

(** Two positions in a row in a block are joined. *)
Lemma create_bb_inner b blk k j j' :
  cb_all_bbs cb !! b = Some blk ->
  bb_instructions blk !! k = Some j -> bb_instructions blk !! S k = Some j' ->
  j' = S j /\ joined instructions j = true.
Proof.
  intros Hb Hj Hj'.
  assert (HLb : (bb_instructions <$> cb_all_bbs cb) !! b = Some (bb_instructions blk))
    by (by rewrite list_lookup_fmap, Hb).
  pose proof (concat_seq_inner _ _ _ _ _ _ _ create_bb_concat HLb Hj Hj') as ->.
  split; [done |].
  destruct (create_bb_lookup_instruction b blk j Hb) as (a & Ha & Hbb);
    [by eapply list_elem_of_lookup_2 |].
  destruct (create_bb_lookup_instruction b blk (S j) Hb) as (a' & Ha' & Hbb');
    [by eapply list_elem_of_lookup_2 |].
  apply (create_bb_same_block j a a' Ha Ha'). congruence.
Qed.

(** An instruction that is not joined to the one before it is the first
    of its block; one that is not joined to the one after it is the last
    of its block. *)
Lemma create_bb_entry b blk j :
  cb_all_bbs cb !! b = Some blk -> S j ∈ bb_instructions blk ->
  joined instructions j = false -> head (bb_instructions blk) = Some (S j).
Proof.
  intros Hb Hin Hnj.
  assert (HLb : (bb_instructions <$> cb_all_bbs cb) !! b = Some (bb_instructions blk))
    by (by rewrite list_lookup_fmap, Hb).
  apply (concat_seq_head _ _ _ _ _ create_bb_concat HLb Hin).
  intros Hin0.
  destruct (create_bb_lookup_instruction b blk j Hb Hin0) as (a & Ha & Hbb).
  destruct (create_bb_lookup_instruction b blk (S j) Hb Hin) as (a' & Ha' & Hbb').
  assert (Hj : joined instructions j = true)
    by (apply (create_bb_same_block j a a' Ha Ha'); congruence).
  congruence.
Qed.

Lemma create_bb_exit b blk j :
  cb_all_bbs cb !! b = Some blk -> j ∈ bb_instructions blk ->
  joined instructions j = false -> last (bb_instructions blk) = Some j.
Proof.
  intros Hb Hin Hnj.
  assert (HLb : (bb_instructions <$> cb_all_bbs cb) !! b = Some (bb_instructions blk))
    by (by rewrite list_lookup_fmap, Hb).
  apply (concat_seq_last _ _ _ _ _ create_bb_concat HLb Hin).
  intros Hin1.
  destruct (create_bb_lookup_instruction b blk j Hb Hin) as (a & Ha & Hbb).
  destruct (create_bb_lookup_instruction b blk (S j) Hb Hin1) as (a' & Ha' & Hbb').
  assert (Hj : joined instructions j = true)
    by (apply (create_bb_same_block j a a' Ha Ha'); congruence).
  congruence.
Qed.

End CreateBBMembers.

(** ** The instructions after the second pass *)

Lemma passes_linked parse_line lines fp instructions2 :
  _first_pass parse_line lines = Ok fp ->
  _second_pass (fp_instructions fp) (fp_labels fp) = Ok instructions2 ->
  linked_program (fp_labels fp) instructions2.
Proof.
  intros H1 H2.
  pose proof (first_pass_inv_holds _ _ _ H1) as Hinv.
  destruct (second_pass_jumps_linked _ _ _ H2) as [Hcl Hlinks].
  assert (Hback : forall k a', instructions2 !! k = Some a' ->
            exists a, fp_instructions fp !! k = Some a
              /\ ins_class a = ins_class a'
              /\ ins_next a'
                 = ins_next a ++ targets_of (fp_labels fp) (ins_class a)
              /\ Forall2 (λ l t, fp_labels fp !! l = Some t)
                   (jump_targets (ins_class a))
                   (targets_of (fp_labels fp) (ins_class a))).
  { intros k a' Ha'.
    destruct (same_classes_lookup _ _ k a' (eq_sym Hcl) Ha') as (a & Ha & Hc).
    destruct (Hlinks k a Ha) as (a'' & Ha'' & Hn & Ht & _).
    assert (a'' = a') by congruence. subst a''.
    pose proof (lookup_lt_Some _ _ _ Ha) as Hk.
    rewrite decide_True in Hn by done.
    exists a. split; [done |]. split; [done |]. split; [done |]. by apply Ht. }
  split.
  - intros k a' Ha'. destruct (Hback k a' Ha') as (a & Ha & Hc & Hn & _).
    rewrite Hn, Hcl, <- Hc. f_equal.
    by destruct (fpi_links _ Hinv k a Ha) as [-> _].
  - intros k a' Ha'. destruct (Hback k a' Ha') as (a & Ha & Hc & _ & Ht).
    by rewrite <- Hc.
  - intros name t. rewrite (fpi_labels _ Hinv).
    symmetry. by apply is_last_label_classes.
Qed.

Lemma linked_program_shape labels instructions instructions' :
  ins_shape <$> instructions' = ins_shape <$> instructions ->
  linked_program labels instructions -> linked_program labels instructions'.
Proof.
  intros Hshape [Hnext Htargets Hlabels].
  assert (Hcl : ins_class <$> instructions' = ins_class <$> instructions)
    by exact (fmap_shape_proj ins_shape (λ s, s.1.1.1) ins_class _ _
                ltac:(done) Hshape).
  assert (Hback : forall k a', instructions' !! k = Some a' ->
            exists a, instructions !! k = Some a /\ ins_shape a = ins_shape a').
  { intros k a' Ha'. exact (same_fmap_lookup ins_shape _ _ k a' (eq_sym Hshape) Ha'). }
  split.
  - intros k a' Ha'. destruct (Hback k a' Ha') as (a & Ha & Hs).
    injection Hs as Hc _ Hn _. rewrite <- Hn, <- Hc, Hcl. by apply Hnext.
  - intros k a' Ha'. destruct (Hback k a' Ha') as (a & Ha & Hs).
    injection Hs as Hc _ _ _. rewrite <- Hc. by apply (Htargets k).
  - intros name t. rewrite Hlabels. symmetry. by apply is_last_label_classes.
Qed.

Section LinkedProgram.

Variable labels : gmap string nat.
Variable instructions : list Instruction.
Hypothesis Hlinked : linked_program labels instructions.

Lemma linked_label_target name t :
  labels !! name = Some t ->
  exists a, instructions !! t = Some a /\ ins_class a = Label name.
Proof.
  intros Ht. apply (lp_labels _ _ Hlinked) in Ht as [Ht _].
  rewrite list_lookup_fmap in Ht.
  destruct (instructions !! t) as [a |]; [| discriminate].
  exists a. split; [done |]. by injection Ht.
Qed.

Lemma linked_targets_labels k a n :
  instructions !! k = Some a -> n ∈ targets_of labels (ins_class a) ->
  exists name an,
    name ∈ jump_targets (ins_class a) /\ labels !! name = Some n
    /\ instructions !! n = Some an /\ ins_class an = Label name.
Proof.
  intros Ha Hn. unfold targets_of in Hn.
  apply list_elem_of_omap in Hn as (name & Hname & Hl).
  destruct (linked_label_target name n Hl) as (an & Han & Hc).
  by exists name, an.
Qed.

Lemma linked_default_next k a :
  instructions !! k = Some a ->
  default_next (ins_class <$> instructions) k
  = if bool_decide (S k < length instructions)%nat
       && negb (is_unconditional_jump_or_exit (ins_class a))
    then [S k] else [].
Proof.
  intros Ha. unfold default_next. rewrite !list_lookup_fmap, Ha. simpl.
  destruct (decide (S k < length instructions)%nat) as [Hlt | Hge].
  - destruct (lookup_lt_is_Some_2 instructions (S k) Hlt) as [a' ->]. simpl.
    rewrite bool_decide_eq_true_2 by done.
    by destruct (is_unconditional_jump_or_exit (ins_class a)).
  - rewrite lookup_ge_None_2 by lia. simpl.
    by rewrite bool_decide_eq_false_2.
Qed.

(** A successor of an instruction is the next instruction or a label. *)
Lemma linked_successor k a n :
  instructions !! k = Some a -> n ∈ ins_next a ->
  exists an, instructions !! n = Some an
    /\ (n = S k \/ is_Label (ins_class an) = true).
Proof.
  intros Ha. rewrite (lp_next _ _ Hlinked k a Ha), (linked_default_next k a Ha).
  intros [Hn | Hn]%elem_of_app.
  - destruct (bool_decide_reflect (S k < length instructions)%nat) as [Hlt |];
      [| by apply elem_of_nil in Hn].
    simpl in Hn.
    destruct (is_unconditional_jump_or_exit (ins_class a));
      [by apply elem_of_nil in Hn |].
    apply list_elem_of_singleton in Hn as ->.
    destruct (lookup_lt_is_Some_2 instructions (S k) Hlt) as [an Han].
    exists an. split; [done | by left].
  - destruct (linked_targets_labels k a n Ha Hn) as (name & an & _ & _ & Han & Hc).
    exists an. split; [done |]. right. by rewrite Hc.
Qed.

Lemma linked_targets_length k a :
  instructions !! k = Some a ->
  length (targets_of labels (ins_class a)) = length (jump_targets (ins_class a)).
Proof.
  intros Ha. symmetry. eapply Forall2_length, (lp_targets _ _ Hlinked k a Ha).
Qed.

(** The two tests of [create_bb] on an instruction that is not the last
    one: the first holds of a [callsub] and of an instruction that jumps
    and has a default successor; the second holds of the unconditional
    jumps and exits. *)
Lemma linked_closes_without_edge k a :
  instructions !! k = Some a -> (S k < length instructions)%nat ->
  closes_without_edge a = is_unconditional_jump_or_exit (ins_class a).
Proof.
  intros Ha Hk. unfold closes_without_edge.
  rewrite (lp_next _ _ Hlinked k a Ha), (linked_default_next k a Ha).
  rewrite (bool_decide_eq_true_2 (S k < length instructions)%nat) by done. simpl.
  rewrite length_app, (linked_targets_length k a Ha).
  destruct (ins_class a); simpl; try reflexivity.
Qed.

Lemma linked_closes_with_edge k a :
  instructions !! k = Some a -> (S k < length instructions)%nat ->
  closes_with_edge a
  = negb (is_unconditional_jump_or_exit (ins_class a))
    && (is_Callsub (ins_class a)
        || bool_decide (jump_targets (ins_class a) <> [])).
Proof.
  intros Ha Hk. unfold closes_with_edge.
  rewrite (lp_next _ _ Hlinked k a Ha), (linked_default_next k a Ha).
  rewrite (bool_decide_eq_true_2 (S k < length instructions)%nat) by done. simpl.
  rewrite length_app, (linked_targets_length k a Ha).
  destruct (ins_class a) as [| | | | | | | | | | | | | | |] eqn:Hc; simpl;
    try reflexivity;
    try (match goal with
         | |- context [jump_targets] => idtac
         | |- bool_decide (1 < S (length ?ls))%nat || false = _ =>
             destruct ls; reflexivity
         end).
Qed.

Lemma linked_not_both k a :
  instructions !! k = Some a -> (S k < length instructions)%nat ->
  closes_with_edge a = true -> closes_without_edge a = true -> False.
Proof.
  intros Ha Hk. rewrite (linked_closes_with_edge k a Ha Hk),
    (linked_closes_without_edge k a Ha Hk).
  by destruct (is_unconditional_jump_or_exit (ins_class a)).
Qed.

(** An instruction joined to the next one has it as its only successor. *)
Lemma linked_joined k a :
  instructions !! k = Some a -> joined instructions k = true ->
  ins_next a = [S k]
  /\ exists a', instructions !! S k = Some a' /\ is_Label (ins_class a') = false.
Proof.
  intros Ha. unfold joined. rewrite Ha.
  destruct (instructions !! S k) as [a' |] eqn:Ha'; [| discriminate].
  pose proof (lookup_lt_Some _ _ _ Ha') as Hk.
  rewrite (linked_closes_with_edge k a Ha Hk),
    (linked_closes_without_edge k a Ha Hk).
  intros H. apply andb_true_iff in H as [H HL].
  apply andb_true_iff in H as [HW HN].
  apply negb_true_iff in HL, HN. rewrite HN in HW. simpl in HW.
  apply negb_true_iff, orb_false_iff in HW as [_ Hj].
  apply bool_decide_eq_false in Hj.
  assert (Hnil : jump_targets (ins_class a) = []).
  { destruct (jump_targets (ins_class a)); [done |]. by destruct Hj. }
  split; [| eauto].
  rewrite (lp_next _ _ Hlinked k a Ha), (linked_default_next k a Ha).
  rewrite (bool_decide_eq_true_2 (S k < length instructions)%nat), HN by done.
  simpl.
  unfold targets_of. by rewrite Hnil.
Qed.

End LinkedProgram.

(** ** The fourth pass *)

Lemma linked_blocks_lookup b b' (bbs : list BasicBlock) x :
  alter (bb_add_prev b) b' (alter (bb_add_next b') b bbs) !! x
  = (λ blk, (if decide (x = b') then bb_add_prev b else id)
              ((if decide (x = b) then bb_add_next b' else id) blk))
    <$> bbs !! x.
Proof.
  destruct (decide (x = b')) as [-> |].
  - rewrite list_lookup_alter_eq. destruct (decide (b' = b)) as [-> |].
    + rewrite list_lookup_alter_eq. by destruct (bbs !! b).
    + rewrite list_lookup_alter_ne by done. by destruct (bbs !! b').
  - rewrite list_lookup_alter_ne by done. destruct (decide (x = b)) as [-> |].
    + rewrite list_lookup_alter_eq. by destruct (bbs !! b).
    + rewrite list_lookup_alter_ne by done. by destruct (bbs !! x).
Qed.

Section FourthPass.

Variable instructions : list Instruction.

Lemma link_blocks_spec b bbs n b' :
  edges_ok bbs -> (b < length bbs)%nat ->
  bb_of instructions n = Some b' -> (b' < length bbs)%nat ->
  exists bbs',
    link_blocks instructions b bbs n = Ok bbs'
    /\ edges_ok bbs'
    /\ bb_instructions <$> bbs' = bb_instructions <$> bbs
    /\ forall x y, has_next bbs' x y <-> has_next bbs x y \/ (x = b /\ y = b').
Proof.
  intros [Hsym Hrange Hnd] Hb Hbb Hb'. unfold link_blocks.
  unfold bb_of in Hbb. rewrite Hbb.
  destruct (lookup_lt_is_Some_2 bbs b Hb) as [blk Hblk]. rewrite Hblk.
  destruct (bool_decide_reflect (b' ∈ bb_next blk)) as [Hin | Hnin].
  - exists bbs. split; [done |]. split; [done |]. split; [done |].
    intros x y. split; [by left |]. intros [? | [-> ->]]; [done |].
    by exists blk.
  - destruct (lookup_lt_is_Some_2 bbs b' Hb') as [nb Hnb]. rewrite Hnb.
    assert (Hnp : b ∉ bb_prev nb).
    { intros Hp. apply Hnin.
      assert (Hn : has_next bbs b b') by (apply Hsym; by exists nb).
      destruct Hn as (blk0 & Hblk0 & Hn). congruence. }
    rewrite bool_decide_eq_false_2 by done.
    eexists. split; [reflexivity |].
    assert (Hnext : forall x y,
              has_next (alter (bb_add_prev b) b' (alter (bb_add_next b') b bbs)) x y
              <-> has_next bbs x y \/ (x = b /\ y = b')).
    { intros x y. unfold has_next. rewrite linked_blocks_lookup. split.
      - intros (blk' & Hx & Hy).
        destruct (bbs !! x) as [blkx |] eqn:Hx0; [| discriminate].
        simpl in Hx. injection Hx as <-.
        assert (Hy' : y ∈ bb_next ((if decide (x = b) then bb_add_next b' else id) blkx)).
        { by destruct (decide (x = b')). }
        destruct (decide (x = b)) as [-> |]; simpl in Hy'.
        + apply elem_of_app in Hy' as [Hy' | Hy']; [left; eauto |].
          apply list_elem_of_singleton in Hy' as ->. by right.
        + left. eauto.
      - intros [(blkx & Hx & Hy) | [-> ->]].
        + rewrite Hx. eexists. split; [reflexivity |].
          destruct (decide (x = b')), (decide (x = b)); simpl;
            rewrite ?elem_of_app; auto.
        + rewrite Hblk. eexists. split; [reflexivity |].
          destruct (decide (b = b)) as [_ |]; [| done].
          destruct (decide (b = b')); simpl; rewrite elem_of_app; right; by left. }
    assert (Hprev : forall x y,
              has_prev (alter (bb_add_prev b) b' (alter (bb_add_next b') b bbs)) y x
              <-> has_prev bbs y x \/ (x = b /\ y = b')).
    { intros x y. unfold has_prev. rewrite linked_blocks_lookup. split.
      - intros (blk' & Hy & Hx).
        destruct (bbs !! y) as [blky |] eqn:Hy0; [| discriminate].
        simpl in Hy. injection Hy as <-.
        assert (Hx' : x ∈ bb_prev ((if decide (y = b') then bb_add_prev b else id) blky)).
        { destruct (decide (y = b')); [| by destruct (decide (y = b))].
          simpl in *. by destruct (decide (y = b)). }
        destruct (decide (y = b')) as [-> |]; simpl in Hx'.
        + apply elem_of_app in Hx' as [Hx' | Hx']; [left; eauto |].
          apply list_elem_of_singleton in Hx' as ->. by right.
        + left. eauto.
      - intros [(blky & Hy & Hx) | [-> ->]].
        + rewrite Hy. eexists. split; [reflexivity |].
          destruct (decide (y = b')), (decide (y = b)); simpl;
            rewrite ?elem_of_app; auto.
        + rewrite Hnb. eexists. split; [reflexivity |].
          rewrite decide_True by done. simpl.
          destruct (decide (b' = b)); simpl; rewrite elem_of_app; right; by left. }
    split; [| split; [by rewrite !fmap_alter_same | exact Hnext]].
    split.
    + intros x y. rewrite Hnext, Hprev, Hsym. done.
    + intros x y. rewrite Hnext, !length_alter.
      intros [Hn | [-> ->]]; [by eapply Hrange | done].
    + intros x blk'. rewrite linked_blocks_lookup.
      destruct (bbs !! x) as [blkx |] eqn:Hx0; [| discriminate].
      simpl. intros [= <-]. destruct (Hnd x blkx Hx0) as [Hn Hp].
      assert (Hfresh : forall (l : list nat) z, NoDup l -> z ∉ l -> NoDup (l ++ [z])).
      { intros l z Hl Hz. apply NoDup_app. split; [done |].
        split; [| apply NoDup_singleton].
        intros w Hw ->%list_elem_of_singleton. done. }
      split.
      * assert (Hsame : bb_next ((if decide (x = b') then bb_add_prev b else id)
                           ((if decide (x = b) then bb_add_next b' else id) blkx))
                        = bb_next ((if decide (x = b) then bb_add_next b' else id) blkx))
          by (by destruct (decide (x = b'))).
        rewrite Hsame. destruct (decide (x = b)) as [Hxb |]; [| done].
        simpl. apply Hfresh; [done |]. subst x. congruence.
      * assert (Hsame : bb_prev ((if decide (x = b') then bb_add_prev b else id)
                           ((if decide (x = b) then bb_add_next b' else id) blkx))
                        = bb_prev ((if decide (x = b') then bb_add_prev b else id) blkx))
          by (by destruct (decide (x = b')), (decide (x = b))).
        rewrite Hsame. destruct (decide (x = b')) as [Hxb |]; [| done].
        simpl. apply Hfresh; [done |]. subst x. congruence.
Qed.

Lemma link_all_blocks_spec b : forall ns bbs,
  edges_ok bbs -> (b < length bbs)%nat ->
  Forall (λ n, exists b', bb_of instructions n = Some b' /\ (b' < length bbs)%nat) ns ->
  exists bbs',
    for_each (link_blocks instructions b) ns bbs = Ok bbs'
    /\ edges_ok bbs'
    /\ bb_instructions <$> bbs' = bb_instructions <$> bbs
    /\ forall x y,
         has_next bbs' x y
         <-> has_next bbs x y
             \/ (x = b /\ exists n, n ∈ ns /\ bb_of instructions n = Some y).
Proof.
  induction ns as [| n ns IH]; intros bbs Hok Hb Hns.
  - exists bbs. split; [done |]. split; [done |]. split; [done |].
    intros x y. split; [by left |].
    intros [? | (_ & n & Hn & _)]; [done | by apply elem_of_nil in Hn].
  - apply Forall_cons in Hns as [(b' & Hbb & Hb') Hns].
    destruct (link_blocks_spec b bbs n b' Hok Hb Hbb Hb')
      as (bbs1 & H1 & Hok1 & Hins1 & Hnext1).
    pose proof (same_fmap_length bb_instructions _ _ Hins1) as Hlen1.
    destruct (IH bbs1 Hok1) as (bbs' & H' & Hok' & Hins' & Hnext');
      [lia | by rewrite Hlen1 |].
    exists bbs'. rewrite for_each_cons, H1. simpl.
    split; [done |]. split; [done |]. split; [congruence |].
    intros x y. rewrite Hnext', Hnext1. split.
    + intros [[? | [-> ->]] | (-> & n' & Hn' & Hy)].
      * by left.
      * right. split; [done |]. exists n. split; [by left | done].
      * right. split; [done |]. exists n'. split; [by right | done].
    + intros [? | (-> & n' & [-> | Hn']%elem_of_cons & Hy)].
      * by left; left.
      * left. right. split; [done |]. congruence.
      * right. eauto.
Qed.

Lemma exits_known_same bbs bbs' :
  bb_instructions <$> bbs' = bb_instructions <$> bbs ->
  exits_known instructions bbs -> exits_known instructions bbs'.
Proof.
  intros Hsame Hex b blk' Hb'.
  destruct (same_fmap_lookup bb_instructions _ _ b blk' (eq_sym Hsame) Hb')
    as (blk & Hb & Hi).
  destruct (Hex b blk Hb) as (e & a & He & Ha & Hn).
  exists e, a. rewrite (same_fmap_length _ _ _ Hsame), <- Hi. done.
Qed.

Lemma exit_successor_same bbs bbs' x y :
  bb_instructions <$> bbs' = bb_instructions <$> bbs ->
  exit_successor instructions bbs' x y <-> exit_successor instructions bbs x y.
Proof.
  assert (H : forall l l', bb_instructions <$> l' = bb_instructions <$> l ->
            exit_successor instructions l' x y -> exit_successor instructions l x y).
  { intros l l' Hsame (blk' & e & a & n & Hb' & He & Ha & Hn & Hy).
    destruct (same_fmap_lookup bb_instructions _ _ x blk' (eq_sym Hsame) Hb')
      as (blk & Hb & Hi).
    exists blk, e, a, n. by rewrite Hi. }
  intros Hsame. split; [by apply H | by apply H].
Qed.

Lemma fourth_pass_bb_spec bbs b :
  edges_ok bbs -> exits_known instructions bbs -> (b < length bbs)%nat ->
  exists bbs',
    fourth_pass_bb instructions bbs b = Ok bbs'
    /\ edges_ok bbs'
    /\ bb_instructions <$> bbs' = bb_instructions <$> bbs
    /\ forall x y,
         has_next bbs' x y
         <-> has_next bbs x y \/ (x = b /\ exit_successor instructions bbs x y).
Proof.
  intros Hok Hex Hb. unfold fourth_pass_bb.
  destruct (lookup_lt_is_Some_2 bbs b Hb) as [blk Hblk]. rewrite Hblk.
  destruct (Hex b blk Hblk) as (e & a & He & Ha & Hns).
  unfold exit_instr. rewrite He. simpl. rewrite Ha.
  destruct (link_all_blocks_spec b (ins_next a) bbs Hok Hb Hns)
    as (bbs' & H' & Hok' & Hins' & Hnext').
  exists bbs'. split; [done |]. split; [done |]. split; [done |].
  intros x y. rewrite Hnext'. split.
  - intros [? | (-> & n & Hn & Hy)]; [by left |]. right. split; [done |].
    by exists blk, e, a, n.
  - intros [? | (-> & blk0 & e0 & a0 & n & Hb0 & He0 & Ha0 & Hn & Hy)];
      [by left |].
    right. split; [done |]. exists n. split; [| done]. congruence.
Qed.

Lemma fourth_pass_prefix_spec bbs0 m :
  edges_ok bbs0 -> exits_known instructions bbs0 -> (m <= length bbs0)%nat ->
  exists bbs,
    for_each (fourth_pass_bb instructions) (seq 0 m) bbs0 = Ok bbs
    /\ edges_ok bbs
    /\ bb_instructions <$> bbs = bb_instructions <$> bbs0
    /\ forall x y,
         has_next bbs x y
         <-> has_next bbs0 x y
             \/ ((x < m)%nat /\ exit_successor instructions bbs0 x y).
Proof.
  intros Hok Hex. induction m as [| m IH]; intros Hm.
  - exists bbs0. split; [done |]. split; [done |]. split; [done |].
    intros x y. split; [by left |]. intros [? | [? _]]; [done | lia].
  - destruct IH as (bbs1 & H1 & Hok1 & Hins1 & Hnext1); [lia |].
    pose proof (same_fmap_length bb_instructions _ _ Hins1) as Hlen1.
    destruct (fourth_pass_bb_spec bbs1 m Hok1) as (bbs & H & Hok' & Hins & Hnext);
      [by eapply exits_known_same | lia |].
    exists bbs. rewrite seq_S, for_each_app, H1. simpl. rewrite H. simpl.
    split; [done |]. split; [done |]. split; [congruence |].
    intros x y. rewrite Hnext, Hnext1, (exit_successor_same _ _ x y Hins1).
    split.
    + intros [[? | [? ?]] | [-> ?]]; [by left | right | right];
        (split; [lia | done]).
    + intros [? | [Hx ?]]; [by left; left |].
      destruct (decide (x = m)) as [-> |]; [by right |].
      left. right. split; [lia | done].
Qed.

Lemma fourth_pass_spec bbs0 :
  edges_ok bbs0 -> exits_known instructions bbs0 ->
  exists bbs,
    _fourth_pass instructions bbs0 = Ok bbs
    /\ edges_ok bbs
    /\ bb_instructions <$> bbs = bb_instructions <$> bbs0
    /\ forall x y,
         has_next bbs x y
         <-> has_next bbs0 x y \/ exit_successor instructions bbs0 x y.
Proof.
  intros Hok Hex.
  destruct (fourth_pass_prefix_spec bbs0 (length bbs0) Hok Hex ltac:(lia))
    as (bbs & H & Hok' & Hins & Hnext).
  exists bbs. split; [exact H |]. split; [done |]. split; [done |].
  intros x y. rewrite Hnext. split; [intros [? | [_ ?]]; auto |].
  intros [? | Hx]; [by left |]. right. split; [| done].
  destruct Hx as (blk & _ & _ & _ & Hb & _). by eapply lookup_lt_Some.
Qed.

End FourthPass.

(** ** The blocks of a linked program *)

Lemma create_bb_edges_ok (instructions : list Instruction) :
  edges_ok (cb_all_bbs (create_bb instructions)).
Proof.
  destruct (create_bb_blocks_hold instructions) as [[_ _ _ Hnext Hprev _] _].
  split.
  - intros b b'. split.
    + intros (blk & Hb & Hin). rewrite (Hnext b blk Hb) in Hin.
      destruct (bool_decide_reflect
                  (S b < length (cb_all_bbs (create_bb instructions)))%nat)
        as [Hlt |]; [| by apply elem_of_nil in Hin].
      simpl in Hin.
      destruct (falls_through instructions blk) eqn:Hft;
        [| by apply elem_of_nil in Hin].
      apply list_elem_of_singleton in Hin as ->.
      destruct (lookup_lt_is_Some_2 _ _ Hlt) as [blk' Hb'].
      exists blk'. split; [done |]. rewrite (Hprev (S b) blk' Hb'), Hb, Hft.
      by left.
    + intros (blk' & Hb' & Hin). rewrite (Hprev b' blk' Hb') in Hin.
      destruct b' as [| p]; [by apply elem_of_nil in Hin |].
      destruct (cb_all_bbs (create_bb instructions) !! p) as [pb |] eqn:Hp;
        [| by apply elem_of_nil in Hin].
      destruct (falls_through instructions pb) eqn:Hft;
        [| by apply elem_of_nil in Hin].
      apply list_elem_of_singleton in Hin as ->.
      exists pb. split; [done |]. rewrite (Hnext p pb Hp), Hft.
      rewrite bool_decide_eq_true_2 by (by eapply lookup_lt_Some).
      by left.
  - intros b b' (blk & Hb & Hin). rewrite (Hnext b blk Hb) in Hin.
    destruct (bool_decide_reflect
                (S b < length (cb_all_bbs (create_bb instructions)))%nat)
      as [Hlt |]; [| by apply elem_of_nil in Hin].
    simpl in Hin.
    destruct (falls_through instructions blk); [| by apply elem_of_nil in Hin].
    by apply list_elem_of_singleton in Hin as ->.
  - intros b blk Hb. rewrite (Hnext b blk Hb), (Hprev b blk Hb). split.
    + destruct (_ && _); [apply NoDup_singleton | apply NoDup_nil_2].
    + destruct b as [| p]; [apply NoDup_nil_2 |].
      destruct (_ !! p) as [pb |]; [| apply NoDup_nil_2].
      destruct (falls_through instructions pb);
        [apply NoDup_singleton | apply NoDup_nil_2].
Qed.

Section CreateBBLinked.

Variable labels : gmap string nat.
Variable instructions : list Instruction.
Hypothesis Hlinked : linked_program labels instructions.
Hypothesis Hne : instructions <> [].

Local Abbreviation cb := (create_bb instructions).

Lemma cb_shape : ins_shape <$> cb_instructions cb = ins_shape <$> instructions.
Proof. exact (cbi_shape _ _ _ (create_bb_inv_holds instructions)). Qed.

Lemma cb_length : length (cb_instructions cb) = length instructions.
Proof. exact (same_fmap_length ins_shape _ _ cb_shape). Qed.

Lemma cb_linked : linked_program labels (cb_instructions cb).
Proof. exact (linked_program_shape _ _ _ cb_shape Hlinked). Qed.

Lemma cb_original j a :
  cb_instructions cb !! j = Some a ->
  exists a0, instructions !! j = Some a0 /\ ins_shape a0 = ins_shape a.
Proof.
  intros Ha. exact (same_fmap_lookup ins_shape _ _ j a (eq_sym cb_shape) Ha).
Qed.

Lemma cb_nonempty b blk :
  cb_all_bbs cb !! b = Some blk -> bb_instructions blk <> [].
Proof.
  intros Hb Hnil.
  destruct (create_bb_blocks_hold instructions) as [[_ _ _ _ _ Hempty] Hopen].
  destruct (Hempty b blk Hb Hnil) as [-> | (j & a & Ha & Hj & HW & HN)].
  - destruct (length instructions) as [| n'] eqn:Hn.
    + by apply nil_length_inv in Hn.
    + destruct Hopen as (a & blk' & _ & Hblk' & Hcase).
      rewrite bool_decide_eq_false_2 in Hcase by lia. simpl in Hcase.
      assert (blk' = blk) by congruence. subst blk'.
      destruct Hcase as [_ Hlast]. by rewrite Hnil in Hlast.
  - exact (linked_not_both labels instructions Hlinked j a Ha Hj HW HN).
Qed.

Lemma cb_exit b blk :
  cb_all_bbs cb !! b = Some blk ->
  exists e a,
    last (bb_instructions blk) = Some e /\ cb_instructions cb !! e = Some a
    /\ ins_bb a = Some b.
Proof.
  intros Hb. pose proof (cb_nonempty b blk Hb) as Hnil.
  destruct (last (bb_instructions blk)) as [e |] eqn:He.
  - destruct (create_bb_lookup_instruction instructions b blk e Hb)
      as (a & Ha & Hbb); [by apply last_elem_of |].
    by exists e, a.
  - by apply last_None in He.
Qed.

Lemma cb_bb_of n an :
  cb_instructions cb !! n = Some an ->
  exists b', bb_of (cb_instructions cb) n = Some b'
    /\ (b' < length (cb_all_bbs cb))%nat.
Proof.
  intros Han.
  destruct (create_bb_blocks_hold instructions) as [[_ Hmem _ _ _ _] _].
  destruct (Hmem n an) as (b' & blk' & Hbb & Hb' & _); [| done |].
  { apply lookup_lt_Some in Han. by rewrite cb_length in Han. }
  exists b'. unfold bb_of. rewrite Han. split; [done |].
  by eapply lookup_lt_Some.
Qed.

Lemma cb_exits_known : exits_known (cb_instructions cb) (cb_all_bbs cb).
Proof.
  intros b blk Hb. destruct (cb_exit b blk Hb) as (e & a & He & Ha & _).
  exists e, a. split; [done |]. split; [done |].
  apply Forall_forall. intros n Hn.
  destruct (linked_successor labels _ cb_linked e a n Ha Hn) as (an & Han & _).
  by apply (cb_bb_of n an).
Qed.

(** A default edge of [create_bb] follows a default link of the last
    instruction of the block. *)
Lemma cb_default_edge b b' :
  has_next (cb_all_bbs cb) b b' ->
  exit_successor (cb_instructions cb) (cb_all_bbs cb) b b'.
Proof.
  intros (blk & Hb & Hin).
  destruct (create_bb_blocks_hold instructions) as [[_ _ _ Hnext _ _] _].
  rewrite (Hnext b blk Hb) in Hin.
  destruct (bool_decide_reflect (S b < length (cb_all_bbs cb))%nat)
    as [Hlt |]; [| by apply elem_of_nil in Hin].
  simpl in Hin.
  destruct (falls_through instructions blk) eqn:Hft;
    [| by apply elem_of_nil in Hin].
  apply list_elem_of_singleton in Hin as ->.
  destruct (cb_exit b blk Hb) as (e & a & He & Ha & _).
  destruct (cb_original e a Ha) as (a0 & Ha0 & Hs0).
  destruct (shape_closes _ _ Hs0) as (HW & HN & Hc).
  unfold falls_through in Hft. rewrite He in Hft. simpl in Hft.
  rewrite Ha0 in Hft.
  destruct (lookup_lt_is_Some_2 _ _ Hlt) as [blk' Hb'].
  pose proof (cb_nonempty (S b) blk' Hb') as Hnil'.
  assert (Hhead : head (bb_instructions blk') = Some (S e)).
  { apply (concat_seq_next (bb_instructions <$> cb_all_bbs cb)
             (length instructions) b (bb_instructions blk)
             (bb_instructions blk') e (create_bb_concat instructions));
      [by rewrite list_lookup_fmap, Hb | by rewrite list_lookup_fmap, Hb'
      | done | done]. }
  destruct (create_bb_lookup_instruction instructions (S b) blk' (S e) Hb')
    as (a' & Ha' & Hbb'); [by apply head_elem_of |].
  assert (Hlt' : (S e < length instructions)%nat).
  { apply lookup_lt_Some in Ha'. by rewrite cb_length in Ha'. }
  rewrite (linked_closes_with_edge labels _ Hlinked e a0 Ha0 Hlt'),
    (linked_closes_without_edge labels _ Hlinked e a0 Ha0 Hlt') in Hft.
  assert (Hnj : is_unconditional_jump_or_exit (ins_class a0) = false)
    by (by destruct (is_unconditional_jump_or_exit (ins_class a0))).
  exists blk, e, a, (S e). split; [done |]. split; [done |]. split; [done |].
  split.
  - injection Hs0 as _ _ Hn _. rewrite <- Hn.
    rewrite (lp_next _ _ Hlinked e a0 Ha0),
      (linked_default_next instructions e a0 Ha0).
    rewrite bool_decide_eq_true_2, Hnj by done. simpl. by left.
  - unfold bb_of. by rewrite Ha'.
Qed.

Lemma fourth_pass_linked :
  exists store4,
    _fourth_pass (cb_instructions cb) (cb_all_bbs cb) = Ok store4
    /\ edges_ok store4
    /\ bb_instructions <$> store4 = bb_instructions <$> cb_all_bbs cb
    /\ forall x y,
         has_next store4 x y
         <-> exit_successor (cb_instructions cb) (cb_all_bbs cb) x y.
Proof.
  destruct (fourth_pass_spec (cb_instructions cb) (cb_all_bbs cb)
              (create_bb_edges_ok instructions) cb_exits_known)
    as (store4 & H4 & Hok & Hins & Hnext).
  exists store4. split; [done |]. split; [done |]. split; [done |].
  intros x y. rewrite Hnext. split; [| by right].
  intros [Hd | ?]; [by apply cb_default_edge | done].
Qed.

End CreateBBLinked.

(** ** The edges of the blocks of a [Teal] object *)

Lemma assign_idx_prev bbs : forall i store,
  bb_prev <$> assign_idx i bbs store = bb_prev <$> store.
Proof.
  induction bbs as [| b bbs IH]; intros i store; simpl; [reflexivity |].
  rewrite IH. by apply fmap_alter_same.
Qed.

Lemma add_basic_blocks_idx_prev instructions store bbs bbs' store' :
  _add_basic_blocks_idx instructions store bbs = Ok (bbs', store') ->
  bb_prev <$> store' = bb_prev <$> store.
Proof.
  unfold _add_basic_blocks_idx.
  destruct (keyed instructions store bbs) as [ks | |];
    simpl; [| discriminate | discriminate].
  intros [= <- <-]. apply assign_idx_prev.
Qed.

Lemma has_next_same (bbs bbs' : list BasicBlock) x y :
  bb_next <$> bbs' = bb_next <$> bbs ->
  has_next bbs' x y <-> has_next bbs x y.
Proof.
  assert (H : forall l l' : list BasicBlock, bb_next <$> l' = bb_next <$> l ->
            has_next l' x y -> has_next l x y).
  { intros l l' Hsame (blk' & Hb' & Hin).
    destruct (same_fmap_lookup bb_next _ _ x blk' (eq_sym Hsame) Hb')
      as (blk & Hb & Hn).
    exists blk. by rewrite Hn. }
  intros Hsame. split; by apply H.
Qed.

Lemma has_prev_same (bbs bbs' : list BasicBlock) x y :
  bb_prev <$> bbs' = bb_prev <$> bbs ->
  has_prev bbs' x y <-> has_prev bbs x y.
Proof.
  assert (H : forall l l' : list BasicBlock, bb_prev <$> l' = bb_prev <$> l ->
            has_prev l' x y -> has_prev l x y).
  { intros l l' Hsame (blk' & Hb' & Hin).
    destruct (same_fmap_lookup bb_prev _ _ x blk' (eq_sym Hsame) Hb')
      as (blk & Hb & Hn).
    exists blk. by rewrite Hn. }
  intros Hsame. split; by apply H.
Qed.

Lemma edges_ok_same (bbs bbs' : list BasicBlock) :
  bb_next <$> bbs' = bb_next <$> bbs -> bb_prev <$> bbs' = bb_prev <$> bbs ->
  edges_ok bbs -> edges_ok bbs'.
Proof.
  intros Hn Hp [Hsym Hrange Hnd]. split.
  - intros b b'. by rewrite (has_next_same _ _ _ _ Hn), (has_prev_same _ _ _ _ Hp).
  - intros b b'. rewrite (has_next_same _ _ _ _ Hn), (same_fmap_length _ _ _ Hn).
    apply Hrange.
  - intros b blk' Hb'.
    destruct (same_fmap_lookup bb_next _ _ b blk' (eq_sym Hn) Hb') as (blk & Hb & Hn').
    destruct (same_fmap_lookup bb_prev _ _ b blk' (eq_sym Hp) Hb') as (blk2 & Hb2 & Hp').
    assert (blk2 = blk) by congruence. subst blk2.
    rewrite <- Hn', <- Hp'. by apply (Hnd b).
Qed.

Lemma bb_of_same (instructions instructions' : list Instruction) n :
  ins_bb <$> instructions' = ins_bb <$> instructions ->
  bb_of instructions' n = bb_of instructions n.
Proof.
  intros Hsame. unfold bb_of.
  assert (H : (ins_bb <$> instructions') !! n = (ins_bb <$> instructions) !! n)
    by (by rewrite Hsame).
  rewrite !list_lookup_fmap in H.
  destruct (instructions' !! n), (instructions !! n); simpl in *; congruence.
Qed.

Lemma exit_successor_transfer instructions instructions' bbs bbs' x y :
  ins_shape <$> instructions' = ins_shape <$> instructions ->
  ins_bb <$> instructions' = ins_bb <$> instructions ->
  bb_instructions <$> bbs' = bb_instructions <$> bbs ->
  exit_successor instructions' bbs' x y <-> exit_successor instructions bbs x y.
Proof.
  assert (H : forall i i' l l',
            ins_shape <$> i' = ins_shape <$> i -> ins_bb <$> i' = ins_bb <$> i ->
            bb_instructions <$> l' = bb_instructions <$> l ->
            exit_successor i' l' x y -> exit_successor i l x y).
  { intros i i' l l' Hs Hbb Hb (blk' & e & a' & n & Hblk' & He & Ha' & Hn & Hy).
    destruct (same_fmap_lookup bb_instructions _ _ x blk' (eq_sym Hb) Hblk')
      as (blk & Hblk & Hi).
    destruct (same_fmap_lookup ins_shape _ _ e a' (eq_sym Hs) Ha')
      as (a & Ha & Hsa).
    exists blk, e, a, n. rewrite Hi. injection Hsa as _ _ -> _.
    by rewrite <- (bb_of_same i i' n Hbb). }
  intros Hs Hbb Hb. split; by apply H.
Qed.

(** Two instructions in a row share their block, or the second one is
    the first of its block; a label is the first of its block. *)
Lemma create_bb_entry_or_joined (instructions : list Instruction) j a' b' blk' :
  cb_instructions (create_bb instructions) !! S j = Some a' ->
  ins_bb a' = Some b' ->
  cb_all_bbs (create_bb instructions) !! b' = Some blk' ->
  (joined instructions j = true
   /\ bb_of (cb_instructions (create_bb instructions)) j = Some b')
  \/ head (bb_instructions blk') = Some (S j).
Proof.
  intros Ha' Hbb' Hb'.
  assert (Hin : S j ∈ bb_instructions blk')
    by (by apply (create_bb_member_iff instructions (S j) a' b' blk')).
  destruct (joined instructions j) eqn:Hj.
  - left. split; [done |].
    destruct (lookup_lt_is_Some_2 (cb_instructions (create_bb instructions)) j)
      as [a Ha]; [apply lookup_lt_Some in Ha'; lia |].
    unfold bb_of. rewrite Ha. simpl. rewrite <- Hbb'.
    by apply (create_bb_same_block instructions j a a').
  - right. by apply (create_bb_entry instructions b').
Qed.

Lemma create_bb_label_entry (instructions : list Instruction) n an a' b' blk' :
  instructions !! n = Some an -> is_Label (ins_class an) = true ->
  cb_instructions (create_bb instructions) !! n = Some a' ->
  ins_bb a' = Some b' ->
  cb_all_bbs (create_bb instructions) !! b' = Some blk' ->
  head (bb_instructions blk') = Some n.
Proof.
  intros Han HL Ha' Hbb' Hb'.
  assert (Hin : n ∈ bb_instructions blk')
    by (by apply (create_bb_member_iff instructions n a' b' blk')).
  destruct n as [| j].
  - pose proof (concat_lookup_interval (bb_instructions <$> cb_all_bbs (create_bb instructions))
                  (length instructions) b' (bb_instructions blk')
                  (create_bb_concat instructions)) as Hl.
    rewrite list_lookup_fmap, Hb' in Hl. specialize (Hl eq_refl).
    rewrite Hl in Hin. apply elem_of_seq in Hin.
    destruct (length (bb_instructions blk')) as [| len]; [lia |].
    rewrite Hl. simpl. f_equal. lia.
  - destruct (create_bb_entry_or_joined instructions j a' b' blk' Ha' Hbb' Hb')
      as [[Hj _] | ?]; [| done].
    unfold joined in Hj. rewrite Han in Hj.
    destruct (instructions !! j); [| discriminate].
    rewrite HL in Hj. by rewrite andb_false_r in Hj.
Qed.

Section BlocksOfTeal.

Variable parse_line : string -> ParseResult.
Variables (source_code : string) (teal : Teal).
Variable stg : parse_teal_stages parse_line source_code teal.

Local Abbreviation fp := (st_fp _ _ _ stg).
Local Abbreviation instructions2 := (st_instructions2 _ _ _ stg).
Local Abbreviation cb := (create_bb instructions2).

Lemma stages_linked : linked_program (fp_labels fp) instructions2.
Proof.
  exact (passes_linked _ _ _ _ (st_first_pass _ _ _ stg) (st_second_pass _ _ _ stg)).
Qed.

Lemma stages_instructions_ne : instructions2 <> [].
Proof.
  intros Hnil. pose proof (st_fourth_pass _ _ _ stg) as H4.
  rewrite Hnil in H4. discriminate.
Qed.

Lemma stages_teal_shapes :
  ins_shape <$> teal_instructions teal = ins_shape <$> cb_instructions cb
  /\ ins_bb <$> teal_instructions teal = ins_bb <$> cb_instructions cb
  /\ bb_instructions <$> teal_store teal = bb_instructions <$> cb_all_bbs cb
  /\ bb_next <$> teal_store teal = bb_next <$> st_store4 _ _ _ stg
  /\ bb_prev <$> teal_store teal = bb_prev <$> st_store4 _ _ _ stg.
Proof.
  destruct (stages_store_shape _ _ _ stg) as (Hs & _ & Hi & Hbb).
  destruct (stages_block_instructions _ _ _ stg) as (Hins & _ & _).
  destruct (add_basic_blocks_idx_spec _ _ _ _ _ (NoDup_seq _ _) (st_idx _ _ _ stg))
    as (_ & _ & Hn5 & _).
  pose proof (add_basic_blocks_idx_prev _ _ _ _ _ (st_idx _ _ _ stg)) as Hp5.
  split; [exact Hi |]. split; [exact Hbb |]. split; [exact Hins |]. split.
  - exact (eq_trans (fmap_shape_proj bb_shape (λ s, s.1.1.2) bb_next _ _
                       ltac:(done) Hs) Hn5).
  - exact (eq_trans (fmap_shape_proj bb_shape (λ s, s.1.2) bb_prev _ _
                       ltac:(done) Hs) Hp5).
Qed.

Lemma stages_teal_linked : linked_program (fp_labels fp) (teal_instructions teal).
Proof.
  destruct stages_teal_shapes as (Hi & _).
  apply (linked_program_shape _ instructions2); [| exact stages_linked].
  exact (eq_trans Hi (cbi_shape _ _ _ (create_bb_inv_holds instructions2))).
Qed.

Lemma stages_edges :
  (forall b blk, teal_store teal !! b = Some blk -> bb_instructions blk <> [])
  /\ (forall b b',
        has_next (teal_store teal) b b'
        <-> exit_successor (teal_instructions teal) (teal_store teal) b b')
  /\ edges_ok (teal_store teal).
Proof.
  destruct stages_teal_shapes as (Hi & Hbb & Hins & Hn & Hp).
  destruct (fourth_pass_linked (fp_labels fp) instructions2 stages_linked
              stages_instructions_ne) as (store4 & H4 & Hok & _ & Hnext).
  assert (store4 = st_store4 _ _ _ stg).
  { pose proof (st_fourth_pass _ _ _ stg) as H4'. congruence. }
  subst store4. split; [| split].
  - intros b blk Hb.
    destruct (same_fmap_lookup bb_instructions _ _ b blk (eq_sym Hins) Hb)
      as (blk0 & Hb0 & <-).
    by apply (cb_nonempty (fp_labels fp) instructions2 stages_linked
                stages_instructions_ne b).
  - intros b b'. rewrite (has_next_same _ _ _ _ Hn), Hnext.
    symmetry. by apply exit_successor_transfer.
  - by apply (edges_ok_same (st_store4 _ _ _ stg)).
Qed.

Lemma stages_member j a :
  teal_instructions teal !! j = Some a ->
  exists b blk a0 blk0,
    ins_bb a = Some b /\ teal_store teal !! b = Some blk
    /\ j ∈ bb_instructions blk
    /\ cb_instructions cb !! j = Some a0 /\ ins_bb a0 = Some b
    /\ ins_shape a0 = ins_shape a
    /\ cb_all_bbs cb !! b = Some blk0
    /\ bb_instructions blk0 = bb_instructions blk.
Proof.
  intros Ha. destruct stages_teal_shapes as (Hi & Hbb & Hins & _).
  destruct (same_fmap_lookup ins_shape _ _ j a (eq_sym Hi) Ha) as (a0 & Ha0 & Hs0).
  destruct (same_fmap_lookup ins_bb _ _ j a (eq_sym Hbb) Ha) as (a1 & Ha1 & Hb1).
  assert (a1 = a0) by congruence. subst a1.
  destruct (create_bb_blocks_hold instructions2) as [[Hinv Hmem _ _ _ _] _].
  destruct (Hmem j a0) as (b & blk0 & Hb0 & Hblk0 & Hin); [| done |].
  { apply lookup_lt_Some in Ha0.
    by rewrite (same_fmap_length ins_shape _ _ (cbi_shape _ _ _ Hinv)) in Ha0. }
  destruct (same_fmap_lookup bb_instructions _ _ b blk0 Hins Hblk0)
    as (blk & Hblk & Hsame).
  exists b, blk, a0, blk0. rewrite Hsame. repeat split; try done. congruence.
Qed.

Lemma stages_block b blk :
  teal_store teal !! b = Some blk ->
  exists blk0, cb_all_bbs cb !! b = Some blk0
    /\ bb_instructions blk0 = bb_instructions blk.
Proof.
  intros Hb. destruct stages_teal_shapes as (_ & _ & Hins & _).
  exact (same_fmap_lookup bb_instructions _ _ b blk (eq_sym Hins) Hb).
Qed.

Lemma stages_joined j : joined (teal_instructions teal) j = joined instructions2 j.
Proof.
  destruct stages_teal_shapes as (Hi & _).
  pose proof (eq_trans Hi (cbi_shape _ _ _ (create_bb_inv_holds instructions2)))
    as Hs.
  assert (H : forall k, ins_shape <$> teal_instructions teal !! k
                        = ins_shape <$> instructions2 !! k).
  { intros k. rewrite <- !list_lookup_fmap. by rewrite Hs. }
  unfold joined. pose proof (H j) as Hj. pose proof (H (S j)) as HSj.
  destruct (teal_instructions teal !! j) as [a |],
    (instructions2 !! j) as [a0 |]; simpl in Hj; try discriminate; [| done].
  destruct (teal_instructions teal !! S j) as [a' |],
    (instructions2 !! S j) as [a0' |]; simpl in HSj; try discriminate; [| done].
  apply (inj Some) in Hj. apply (inj Some) in HSj.
  destruct (shape_closes _ _ Hj) as (-> & -> & _).
  by destruct (shape_closes _ _ HSj) as (_ & _ & ->).
Qed.

Lemma stages_straight_lines :
  (forall j a,
     teal_instructions teal !! j = Some a ->
     exists b blk,
       ins_bb a = Some b /\ teal_store teal !! b = Some blk
       /\ j ∈ bb_instructions blk)
  /\ (forall b blk k j j',
        teal_store teal !! b = Some blk ->
        bb_instructions blk !! k = Some j ->
        bb_instructions blk !! S k = Some j' ->
        j' = S j
        /\ exists a a',
             teal_instructions teal !! j = Some a /\ ins_next a = [S j]
             /\ teal_instructions teal !! S j = Some a'
             /\ is_Label (ins_class a') = false)
  /\ (forall j a n,
        teal_instructions teal !! j = Some a -> n ∈ ins_next a ->
        (n = S j
         /\ bb_of (teal_instructions teal) n = bb_of (teal_instructions teal) j)
        \/ exists b' blk',
             bb_of (teal_instructions teal) n = Some b'
             /\ teal_store teal !! b' = Some blk'
             /\ head (bb_instructions blk') = Some n).
Proof.
  destruct stages_teal_shapes as (Hi & Hbb & Hins & _).
  split; [| split].
  - intros j a Ha.
    destruct (stages_member j a Ha) as (b & blk & _ & _ & ? & ? & ? & _).
    by exists b, blk.
  - intros b blk k j j' Hb Hj Hj'.
    destruct (stages_block b blk Hb) as (blk0 & Hb0 & Hsame).
    rewrite <- Hsame in Hj, Hj'.
    destruct (create_bb_inner instructions2 b blk0 k j j' Hb0 Hj Hj')
      as [-> Hjoin].
    split; [done |].
    rewrite <- stages_joined in Hjoin.
    assert (Ha : is_Some (teal_instructions teal !! j)).
    { unfold joined in Hjoin. by destruct (teal_instructions teal !! j). }
    destruct Ha as [a Ha].
    destruct (linked_joined _ _ stages_teal_linked j a Ha Hjoin)
      as (Hn & a' & Ha' & HL).
    by exists a, a'.
  - intros j a n Ha Hn.
    destruct (linked_successor _ _ stages_teal_linked j a n Ha Hn)
      as (an & Han & Hcase).
    destruct (stages_member n an Han)
      as (b' & blk' & a0 & blk0 & Hbn & Hblk' & _ & Ha0 & Hb0 & Hs0 & Hblk0 & Hsame).
    assert (Hbof : bb_of (teal_instructions teal) n = Some b')
      by (unfold bb_of; by rewrite Han).
    destruct Hcase as [-> | HL].
    + destruct (create_bb_entry_or_joined instructions2 j a0 b' blk0 Ha0 Hb0 Hblk0)
        as [[_ Hj] | Hhead].
      * left. split; [done |]. rewrite Hbof, <- Hj. symmetry.
        by apply bb_of_same.
      * right. exists b', blk'. by rewrite <- Hsame.
    + right. exists b', blk'. split; [done |]. split; [done |].
      rewrite <- Hsame.
      destruct (cb_original instructions2 n a0 Ha0) as (a2 & Ha2 & Hs2).
      apply (create_bb_label_entry instructions2 n a2 a0 b' blk0); try done.
      destruct (shape_closes _ _ Hs2) as (_ & _ & ->).
      by destruct (shape_closes _ _ Hs0) as (_ & _ & ->).
Qed.

End BlocksOfTeal.

(** X13: in the [Teal] object that [parse_teal] returns every block holds
    an instruction at least, and a block has another one among its
    successors exactly when its last instruction has a successor that
    lies in that block; the successors and the predecessors of the blocks
    mirror each other, lead to blocks of the list, and hold no block
    twice. *)
Theorem block_edges_follow_exit_instructions (parse_line : string -> ParseResult)
    (source_code contract_name : string) (teal : Teal) :
  parse_teal parse_line source_code contract_name = Ok teal ->
  (forall b blk, teal_store teal !! b = Some blk -> bb_instructions blk <> [])
  /\ (forall b b',
        has_next (teal_store teal) b b'
        <-> exit_successor (teal_instructions teal) (teal_store teal) b b')
  /\ edges_ok (teal_store teal).
Proof.
  intros Hok. destruct (parse_teal_has_stages _ _ _ _ Hok) as [stg].
  exact (stages_edges _ _ _ stg).
Qed.

Lemma block_edges_follow_exit_instructions_witness :
  exists teal,
    parse_teal Sample.parse_line Sample.MULTIPLE_RETURN_POINTS "" = Ok teal
    /\ bb_next <$> teal_store teal = [[1]; [2]; []; []]%nat
    /\ edges_ok (teal_store teal).
Proof.
  eexists. split; [vm_compute; reflexivity |]. split; [reflexivity |].
  apply (block_edges_follow_exit_instructions Sample.parse_line
           Sample.MULTIPLE_RETURN_POINTS "" _ ltac:(vm_compute; reflexivity)).
Defined.

(** X14: in the [Teal] object that [parse_teal] returns each instruction
    lies in the block its [bb] names; inside a block control goes
    straight on: of two instructions in a row in a block, the second is
    the instruction after the first in the program, is the only successor
    of the first, and is no label; and a successor of an instruction is
    the next instruction in the same block or the first instruction of
    its block. *)
Theorem blocks_are_straight_lines (parse_line : string -> ParseResult)
    (source_code contract_name : string) (teal : Teal) :
  parse_teal parse_line source_code contract_name = Ok teal ->
  (forall j a,
     teal_instructions teal !! j = Some a ->
     exists b blk,
       ins_bb a = Some b /\ teal_store teal !! b = Some blk
       /\ j ∈ bb_instructions blk)
  /\ (forall b blk k j j',
        teal_store teal !! b = Some blk ->
        bb_instructions blk !! k = Some j ->
        bb_instructions blk !! S k = Some j' ->
        j' = S j
        /\ exists a a',
             teal_instructions teal !! j = Some a /\ ins_next a = [S j]
             /\ teal_instructions teal !! S j = Some a'
             /\ is_Label (ins_class a') = false)
  /\ (forall j a n,
        teal_instructions teal !! j = Some a -> n ∈ ins_next a ->
        (n = S j
         /\ bb_of (teal_instructions teal) n = bb_of (teal_instructions teal) j)
        \/ exists b' blk',
             bb_of (teal_instructions teal) n = Some b'
             /\ teal_store teal !! b' = Some blk'
             /\ head (bb_instructions blk') = Some n).
Proof.
  intros Hok. destruct (parse_teal_has_stages _ _ _ _ Hok) as [stg].
  exact (stages_straight_lines _ _ _ stg).
Qed.

Lemma blocks_are_straight_lines_witness :
  exists teal,
    parse_teal Sample.parse_line Sample.MULTIPLE_RETURN_POINTS "" = Ok teal
    /\ bb_instructions <$> teal_store teal = [[0; 1]; [2]; [3; 4]; [5; 6]]%nat
    /\ forall j a,
         teal_instructions teal !! j = Some a ->
         exists b blk,
           ins_bb a = Some b /\ teal_store teal !! b = Some blk
           /\ j ∈ bb_instructions blk.
Proof.
  eexists. split; [vm_compute; reflexivity |]. split; [reflexivity |].
  apply (blocks_are_straight_lines Sample.parse_line
           Sample.MULTIPLE_RETURN_POINTS "" _ ltac:(vm_compute; reflexivity)).
Defined.

(** ** The sources that [parse_teal] accepts *)

Lemma last_label_exists (cs : list InsClass) l :
  Label l ∈ cs ->
  exists t, cs !! t = Some (Label l)
    /\ forall j, (t < j)%nat -> cs !! j <> Some (Label l).
Proof.
  induction cs as [| c cs IH] using rev_ind; [by intros ?%elem_of_nil |].
  intros Hin. destruct (decide (c = Label l)) as [-> | Hc].
  - exists (length cs). split; [by apply list_lookup_middle |].
    intros j Hj. rewrite lookup_ge_None_2; [done |].
    rewrite length_app. simpl. lia.
  - apply elem_of_app in Hin as [Hin | Hin];
      [| apply list_elem_of_singleton in Hin; congruence].
    destruct (IH Hin) as (t & Ht & Hlast).
    pose proof (lookup_lt_Some _ _ _ Ht) as Hlt.
    exists t. split; [by rewrite lookup_app_l |].
    intros j Hj. destruct (decide (j < length cs)%nat).
    + rewrite lookup_app_l by done. by apply Hlast.
    + destruct (decide (j = length cs)) as [-> |].
      * rewrite list_lookup_middle by done. congruence.
      * rewrite lookup_ge_None_2; [done |]. rewrite length_app. simpl. lia.
Qed.

Lemma add_basic_blocks_idx_total instructions (store : list BasicBlock) :
  (forall b blk, store !! b = Some blk ->
     exists e a, head (bb_instructions blk) = Some e /\ instructions !! e = Some a) ->
  exists r, _add_basic_blocks_idx instructions store (seq 0 (length store)) = Ok r.
Proof.
  intros Hall. unfold _add_basic_blocks_idx.
  destruct (keyed_total instructions store (seq 0 (length store))) as [ks ->];
    [| simpl; eauto].
  intros b Hb. apply elem_of_seq in Hb.
  destruct (lookup_lt_is_Some_2 store b ltac:(lia)) as [blk Hblk].
  destruct (Hall b blk Hblk) as (e & a & He & Ha).
  unfold entry_line, entry_instr. rewrite Hblk, He. simpl. rewrite Ha. eauto.
Qed.

Lemma discover_total labels items : forall instructions store subs,
  (forall name ps, (name, ps) ∈ items ->
     exists t, labels !! name = Some t /\ is_Some (bb_of instructions t)) ->
  exists r,
    for_each (discover_subroutine labels) items (instructions, store, subs) = Ok r.
Proof.
  induction items as [| [name ps] items IH]; intros instructions store subs Hall.
  - simpl. eauto.
  - rewrite for_each_cons.
    destruct (Hall name ps) as (t & Ht & [b Hb]); [by left |].
    destruct (discover_subroutine labels (instructions, store, subs) (name, ps))
      as [[[instructions1 store1] subs1] | e | c r] eqn:H1.
    + simpl. apply IH. intros name' ps' Hin.
      destruct (Hall name' ps') as (t' & Ht' & Hb'); [by right |].
      exists t'. split; [done |].
      apply discover_subroutine_shape in H1 as (_ & _ & Hbb).
      by rewrite (bb_of_same _ _ t' Hbb).
    + unfold discover_subroutine in H1. rewrite Ht in H1. simpl in H1.
      unfold bb_of in Hb. rewrite Hb in H1. discriminate.
    + unfold discover_subroutine in H1. rewrite Ht in H1. simpl in H1.
      unfold bb_of in Hb. rewrite Hb in H1. discriminate.
Qed.

Lemma discover_Ok_labels labels items : forall st r,
  for_each (discover_subroutine labels) items st = Ok r ->
  forall name ps, (name, ps) ∈ items -> is_Some (labels !! name).
Proof.
  induction items as [| item items IH]; intros st r Hok name ps Hin;
    [by apply elem_of_nil in Hin |].
  rewrite for_each_cons in Hok.
  destruct (discover_subroutine labels st item) as [st1 | |] eqn:H1;
    simpl in Hok; [| discriminate | discriminate].
  apply elem_of_cons in Hin as [<- | Hin]; [| by eapply IH].
  unfold discover_subroutine in H1. destruct st as [[instructions store] subs].
  destruct (labels !! name); [eauto | discriminate].
Qed.

Section Accepted.

Variable parse_line : string -> ParseResult.

Lemma first_pass_Ok_well_formed lines : forall st st',
  for_each (first_pass_line parse_line) lines st = Ok st' ->
  Forall (well_formed_line parse_line) lines.
Proof.
  induction lines as [| line lines IH]; intros st st' Hok; [constructor |].
  rewrite for_each_cons in Hok.
  destruct (first_pass_line parse_line st line) as [st1 | |] eqn:H1;
    simpl in Hok; [| discriminate | discriminate].
  constructor; [| by eapply IH].
  unfold first_pass_line, read_line in H1. unfold well_formed_line.
  destruct (is_comment_line line); [by left |].
  destruct (parse_line line) as [msg | r]; [discriminate | eauto].
Qed.

Lemma first_pass_classes lines fp :
  _first_pass parse_line lines = Ok fp ->
  ins_class <$> fp_instructions fp = source_classes parse_line lines.
Proof.
  intros Hfp.
  destruct (first_pass_lines_origin parse_line lines _ _ Hfp)
    as (_ & new & Horigin & Hnew).
  simpl in Horigin. unfold source_classes.
  change (fp_idx first_pass_init + 1) with 1 in Hnew.
  rewrite <- Hnew, <- Horigin, <- !list_fmap_compose.
  by apply list_fmap_ext.
Qed.

Lemma first_pass_label_defined fp l :
  first_pass_inv fp ->
  is_Some (fp_labels fp !! l) <-> Label l ∈ ins_class <$> fp_instructions fp.
Proof.
  intros Hinv. split.
  - intros [t Ht]. apply (fpi_labels _ Hinv) in Ht as [Ht _].
    by eapply list_elem_of_lookup_2.
  - intros Hin. destruct (last_label_exists _ l Hin) as (t & Ht & Hlast).
    exists t. apply (fpi_labels _ Hinv). by split.
Qed.

Lemma parse_teal_accepts source_code contract_name :
  Forall (well_formed_line parse_line) (PyStr.splitlines source_code) ->
  source_classes parse_line (PyStr.splitlines source_code) <> [] ->
  labels_defined (source_classes parse_line (PyStr.splitlines source_code)) ->
  exists teal, parse_teal parse_line source_code contract_name = Ok teal.
Proof.
  intros Hwf Hne Hdef. unfold parse_teal.
  destruct (first_pass_lines_well_formed parse_line _ first_pass_init Hwf)
    as (fp & H1 & _).
  change (_first_pass parse_line (PyStr.splitlines source_code) = Ok fp) in H1.
  rewrite H1. simpl.
  pose proof (first_pass_inv_holds _ _ _ H1) as Hinv.
  pose proof (first_pass_lists_hold _ _ _ H1) as Hlists.
  pose proof (first_pass_classes _ _ H1) as Hcl. rewrite <- Hcl in Hne, Hdef.
  destruct (second_pass_total (fp_labels fp) (fp_instructions fp))
    as [instructions2 H2].
  { intros i a l Ha Hl. apply (first_pass_label_defined fp l Hinv).
    apply (Hdef (ins_class a)).
    - apply list_elem_of_fmap. exists a. split; [done |].
      by eapply list_elem_of_lookup_2.
    - unfold labels_used.
      destruct (ins_class a); simpl in *; try done; by apply elem_of_nil in Hl. }
  rewrite H2. simpl.
  pose proof (passes_linked _ _ _ _ H1 H2) as Hlinked.
  destruct (second_pass_jumps_linked _ _ _ H2) as [Hcl2 _].
  assert (Hne2 : instructions2 <> []).
  { intros ->. apply Hne. by rewrite <- Hcl2. }
  destruct (fourth_pass_linked _ _ Hlinked Hne2) as (store4 & H4 & _ & Hins4 & _).
  rewrite H4. simpl.
  destruct (add_basic_blocks_idx_total (cb_instructions (create_bb instructions2))
              store4) as [[all_bbs store5] H5].
  { intros b blk Hb.
    destruct (same_fmap_lookup bb_instructions _ _ b blk (eq_sym Hins4) Hb)
      as (blk0 & Hb0 & <-).
    pose proof (cb_nonempty _ _ Hlinked Hne2 b blk0 Hb0) as Hnil.
    destruct (bb_instructions blk0) as [| e es] eqn:Hes; [done |].
    destruct (create_bb_lookup_instruction instructions2 b blk0 e Hb0)
      as (a & Ha & _); [rewrite Hes; by left |].
    by exists e, a. }
  rewrite H5. simpl.
  destruct (lookup_lt_is_Some_2 (cb_instructions (create_bb instructions2)) 0)
    as [first Hfirst].
  { rewrite (cb_length instructions2). destruct instructions2; [done | simpl; lia]. }
  rewrite Hfirst. simpl.
  destruct (_verify_version _ _) as [err stderr].
  destruct (discover_total (fp_labels fp) (fp_subroutines fp)
              (cb_instructions (create_bb instructions2)) store5 ∅)
    as [[[instructions6 store6] subs] H6].
  { intros name ps Hin.
    apply (fpl_callsubs _ Hlists) in Hin as [Hps ->].
    destruct (positions_of (is_Callsub_to name) (fp_instructions fp))
      as [| i ps] eqn:Hp; [done |].
    assert (Hi : i ∈ positions_of (is_Callsub_to name) (fp_instructions fp))
      by (rewrite Hp; by left).
    apply positions_of_lookup in Hi as (a & Ha & Hc).
    apply bool_decide_eq_true in Hc.
    destruct (proj2 (first_pass_label_defined fp name Hinv)) as [t Ht].
    { apply (Hdef (ins_class a)).
      - apply list_elem_of_fmap. exists a. split; [done |].
        by eapply list_elem_of_lookup_2.
      - rewrite Hc. by left. }
    exists t. split; [done |].
    destruct (linked_label_target _ _ Hlinked name t Ht) as (at2 & Hat2 & _).
    destruct (same_fmap_lookup ins_shape _ _ t at2 (cb_shape instructions2) Hat2)
      as (at3 & Hat3 & _).
    destruct (cb_bb_of instructions2 t at3 Hat3) as (b & -> & _). eauto. }
  rewrite H6. simpl.
  destruct (add_basic_blocks_idx_spec _ _ _ _ _ (NoDup_seq _ _) H5) as (Hperm & _).
  destruct (lookup_lt_is_Some_2 all_bbs 0) as [entry He].
  { rewrite Hperm, length_seq.
    rewrite (same_fmap_length _ _ _ Hins4).
    destruct (create_bb_blocks_hold instructions2) as [[Hinv2 _ _ _ _ _] _].
    pose proof (cbi_current _ _ _ Hinv2). lia. }
  rewrite He. simpl. eauto.
Qed.

Lemma parse_teal_accepted source_code contract_name teal :
  parse_teal parse_line source_code contract_name = Ok teal ->
  Forall (well_formed_line parse_line) (PyStr.splitlines source_code)
  /\ source_classes parse_line (PyStr.splitlines source_code) <> []
  /\ labels_defined (source_classes parse_line (PyStr.splitlines source_code)).
Proof.
  intros Hok. destruct (parse_teal_has_stages _ _ _ _ Hok) as [stg].
  pose proof (st_first_pass _ _ _ stg) as H1.
  pose proof (st_second_pass _ _ _ stg) as H2.
  pose proof (first_pass_inv_holds _ _ _ H1) as Hinv.
  pose proof (first_pass_lists_hold _ _ _ H1) as Hlists.
  pose proof (first_pass_classes _ _ H1) as Hcl. rewrite <- Hcl.
  destruct (second_pass_jumps_linked _ _ _ H2) as [Hcl2 Hlinks].
  split; [by eapply first_pass_Ok_well_formed |]. split.
  - intros Hnil. apply (stages_instructions_ne _ _ _ stg).
    apply fmap_nil_inv with (f := ins_class). by rewrite Hcl2.
  - intros c l Hc Hl.
    apply list_elem_of_fmap in Hc as (a & -> & Ha).
    apply list_elem_of_lookup in Ha as [k Ha].
    apply (first_pass_label_defined _ l Hinv).
    assert (Hj : l ∈ jump_targets (ins_class a) -> is_Some (fp_labels (st_fp _ _ _ stg) !! l)).
    { intros Hjt. destruct (Hlinks k a Ha) as (a' & _ & _ & Ht & _).
      specialize (Ht (lookup_lt_Some _ _ _ Ha)).
      apply list_elem_of_lookup in Hjt as [i Hi].
      destruct (Forall2_lookup_l _ _ _ _ _ Ht Hi) as (t & _ & Hlt). eauto. }
    unfold labels_used in Hl.
    destruct (ins_class a) as [| | | | | | | | | name | | | | | |] eqn:Hca;
      try (by apply Hj).
    apply list_elem_of_singleton in Hl as ->.
    apply (discover_Ok_labels _ _ _ _ (st_discover _ _ _ stg) name
             (positions_of (is_Callsub_to name)
                (fp_instructions (st_fp _ _ _ stg)))).
    apply (fpl_callsubs _ Hlists). split; [| done].
    intros Hnil.
    assert (Hk : k ∈ positions_of (is_Callsub_to name)
                   (fp_instructions (st_fp _ _ _ stg))).
    { apply positions_of_lookup. exists a. split; [done |].
      unfold is_Callsub_to. by rewrite Hca, bool_decide_eq_true_2. }
    rewrite Hnil in Hk. by apply elem_of_nil in Hk.
Qed.

(** X15: [parse_teal] returns a [Teal] object exactly when each line of
    the source is a comment or is accepted by [parse_line], some line
    gives an instruction, and each label that an instruction jumps to or
    calls is the label of some label instruction. No other exception of
    the passes (the assertion of the fourth pass, an unset [bb], an empty
    block) can stop it. *)
Theorem parse_teal_returns_iff (source_code contract_name : string) :
  (exists teal, parse_teal parse_line source_code contract_name = Ok teal)
  <-> Forall (well_formed_line parse_line) (PyStr.splitlines source_code)
      /\ source_classes parse_line (PyStr.splitlines source_code) <> []
      /\ labels_defined (source_classes parse_line (PyStr.splitlines source_code)).
Proof.
  split.
  - intros [teal Hok]. by eapply parse_teal_accepted.
  - intros (Hwf & Hne & Hdef). by apply parse_teal_accepts.
Qed.

End Accepted.

Lemma parse_teal_returns_iff_witness :
  exists teal,
    parse_teal Sample.parse_line Sample.MULTIPLE_RETURN_POINTS "" = Ok teal.
Proof.
  apply (parse_teal_returns_iff Sample.parse_line). split; [| split].
  - assert (Hdec : forall lines,
              forallb (λ line,
                is_comment_line line
                || match Sample.parse_line line with
                   | Parsed _ => true
                   | ParseError _ => false
                   end) lines = true ->
              Forall (well_formed_line Sample.parse_line) lines).
    { induction lines as [| line lines IH]; simpl; [constructor |].
      intros [H1 H2]%andb_true_iff. constructor; [| by apply IH].
      unfold well_formed_line. destruct (is_comment_line line); [by left |].
      right. destruct (Sample.parse_line line); [discriminate | eauto]. }
    apply Hdec. vm_compute. reflexivity.
  - vm_compute. discriminate.
  - intros c l Hc Hl.
    assert (Hcs : source_classes Sample.parse_line
                    (PyStr.splitlines Sample.MULTIPLE_RETURN_POINTS)
                  = [Pragma 7; Callsub "subroutine_0"; Callsub "subroutine_0";
                     OtherInstruction "int"; Return; Label "subroutine_0";
                     Retsub]) by (vm_compute; reflexivity).
    rewrite Hcs in Hc |- *.
    repeat (apply elem_of_cons in Hc as [-> | Hc]);
      try (by apply elem_of_nil in Hl); try (by apply elem_of_nil in Hc);
      apply list_elem_of_singleton in Hl as ->;
      do 5 right; by left.
Defined.

(** ** The subroutines of a [Teal] object *)

Lemma fold_alter_lookup {A : Type} (f : A -> A) (xs : list nat) :
  (forall a, f (f a) = f a) ->
  forall (l : list A) i,
    fold_left (λ l x, alter f x l) xs l !! i
    = (if decide (i ∈ xs) then f else id) <$> l !! i.
Proof.
  intros Hf. induction xs as [| x xs IH]; intros l i.
  - destruct (decide (i ∈ [])) as [Hin | _]; [by apply elem_of_nil in Hin |].
    simpl. by destruct (l !! i).
  - change (fold_left (λ l x, alter f x l) (x :: xs) l)
      with (fold_left (λ l x, alter f x l) xs (alter f x l)).
    rewrite IH. destruct (decide (i = x)) as [-> |].
    + rewrite list_lookup_alter_eq.
      destruct (decide (x ∈ x :: xs)) as [_ | Hnin]; [| destruct Hnin; by left].
      destruct (l !! x); simpl; [| by destruct (decide (x ∈ xs))].
      destruct (decide (x ∈ xs)); simpl; by rewrite ?Hf.
    + rewrite list_lookup_alter_ne by done.
      destruct (decide (i ∈ xs)) as [Hin | Hnin],
        (decide (i ∈ x :: xs)) as [Hin' | Hnin']; try done.
      * destruct Hnin'. by right.
      * apply elem_of_cons in Hin' as [? | ?]; done.
Qed.

Lemma discover_subroutine_unfold labels instructions store subs name callsubs
    instructions' store' subs' :
  discover_subroutine labels (instructions, store, subs) (name, callsubs)
  = Ok (instructions', store', subs') ->
  exists sub,
    subroutine_for labels instructions name callsubs sub
    /\ subs' = <[name := sub]> subs
    /\ instructions'
       = fold_left
           (λ instructions ins,
              alter (ins_set_called_subroutine (NamedSubroutine name))
                ins instructions)
           callsubs instructions.
Proof.
  unfold discover_subroutine.
  destruct (labels !! name) as [t |] eqn:Ht; simpl; [| discriminate].
  destruct (instructions !! t ≫= ins_bb) as [entry |] eqn:He;
    simpl; [| discriminate].
  intros [= <- <- <-]. eexists. split; [| split; reflexivity].
  unfold subroutine_for. simpl. by rewrite Ht.
Qed.

Lemma subroutine_for_same labels instructions instructions' name callsubs sub :
  ins_bb <$> instructions' = ins_bb <$> instructions ->
  subroutine_for labels instructions' name callsubs sub ->
  subroutine_for labels instructions name callsubs sub.
Proof.
  intros Hbb (Hn & He & Hc). split; [done |]. split.
  - rewrite <- He. destruct (labels !! name); [| done]. simpl.
    symmetry. by apply bb_of_same.
  - rewrite Hc. apply list_fmap_ext. intros _ i _. by apply bb_of_same.
Qed.

Lemma discover_subroutines labels instructions0 items :
  forall instructions store subs instructions' store' subs',
  ins_bb <$> instructions = ins_bb <$> instructions0 ->
  for_each (discover_subroutine labels) items (instructions, store, subs)
  = Ok (instructions', store', subs') ->
  (forall name sub,
     subs' !! name = Some sub ->
     (exists callsubs, (name, callsubs) ∈ items
        /\ subroutine_for labels instructions0 name callsubs sub)
     \/ subs !! name = Some sub)
  /\ (forall name,
        is_Some (subs' !! name) <-> name ∈ items.*1 \/ is_Some (subs !! name)).
Proof.
  induction items as [| [name0 ps0] items IH];
    intros instructions store subs instructions' store' subs' Hbb.
  - simpl. intros [= <- <- <-]. split; [by right |].
    intros name. split; [by right |]. intros [?%elem_of_nil | ?]; done.
  - rewrite for_each_cons.
    destruct (discover_subroutine labels (instructions, store, subs) (name0, ps0))
      as [[[instructions1 store1] subs1] | |] eqn:H1;
      simpl; [| discriminate | discriminate].
    intros Hrest.
    pose proof (discover_subroutine_shape _ _ _ _ _ _ _ _ H1) as (_ & _ & Hbb1).
    destruct (discover_subroutine_unfold _ _ _ _ _ _ _ _ _ H1)
      as (sub0 & Hsub0 & -> & _).
    destruct (IH _ _ _ _ _ _ (eq_trans Hbb1 Hbb) Hrest) as [Hsubs Hdom].
    split.
    + intros name sub Hs. destruct (Hsubs name sub Hs) as [(ps & Hin & Hfor) | Hold].
      * left. exists ps. split; [by right | done].
      * destruct (decide (name = name0)) as [-> |].
        -- rewrite lookup_insert_eq in Hold. injection Hold as <-.
           left. exists ps0. split; [by left |].
           by apply (subroutine_for_same _ _ instructions).
        -- rewrite lookup_insert_ne in Hold by done. by right.
    + intros name. rewrite Hdom.
      change (((name0, ps0) :: items).*1) with (name0 :: items.*1).
      rewrite elem_of_cons.
      destruct (decide (name = name0)) as [-> |].
      * rewrite lookup_insert_eq. split; [by left; left |].
        intros _. right. eauto.
      * rewrite lookup_insert_ne by done. tauto.
Qed.

Lemma discover_called labels items :
  forall instructions store subs instructions' store' subs',
  (forall name ps i, (name, ps) ∈ items ->
     i ∈ ps <-> exists a, instructions !! i = Some a /\ ins_class a = Callsub name) ->
  for_each (discover_subroutine labels) items (instructions, store, subs)
  = Ok (instructions', store', subs') ->
  forall i a',
    instructions' !! i = Some a' ->
    exists a,
      instructions !! i = Some a /\ ins_class a' = ins_class a
      /\ forall name,
           ins_class a = Callsub name ->
           (name ∈ items.*1 -> called_subroutine a' = Some (NamedSubroutine name))
           /\ (name ∉ items.*1 -> called_subroutine a' = called_subroutine a).
Proof.
  induction items as [| [name0 ps0] items IH];
    intros instructions store subs instructions' store' subs' Hps.
  - simpl. intros [= <- <- <-] i a' Ha'. exists a'. split; [done |].
    split; [done |]. intros name _. split; [by intros ?%elem_of_nil | done].
  - rewrite for_each_cons.
    destruct (discover_subroutine labels (instructions, store, subs) (name0, ps0))
      as [[[instructions1 store1] subs1] | |] eqn:H1;
      simpl; [| discriminate | discriminate].
    intros Hrest i a' Ha'.
    pose proof (discover_subroutine_shape _ _ _ _ _ _ _ _ H1) as (_ & Hs1 & _).
    destruct (discover_subroutine_unfold _ _ _ _ _ _ _ _ _ H1)
      as (_ & _ & _ & Hi1).
    assert (Hcl1 : forall k a1, instructions1 !! k = Some a1 ->
              exists a, instructions !! k = Some a /\ ins_class a1 = ins_class a
                /\ a1 = (if decide (k ∈ ps0)
                         then ins_set_called_subroutine (NamedSubroutine name0)
                         else id) a).
    { intros k a1 Hk. rewrite Hi1, fold_alter_lookup in Hk by done.
      destruct (instructions !! k) as [a |]; [| discriminate].
      simpl in Hk. injection Hk as <-. exists a. split; [done |].
      split; [| done]. by destruct (decide (k ∈ ps0)). }
    destruct (IH instructions1 store1 subs1 instructions' store' subs')
      with (i := i) (a' := a')
      as (a1 & Ha1 & Hc1 & Hcalled); [| exact Hrest | exact Ha' |].
    { intros name ps k Hin. rewrite (Hps name ps k) by (by right). split.
      - intros (a & Ha & Hc).
        destruct (lookup_lt_is_Some_2 instructions1 k) as [a1 Ha1].
        { rewrite (same_fmap_length ins_shape _ _ Hs1). by eapply lookup_lt_Some. }
        destruct (Hcl1 k a1 Ha1) as (a2 & Ha2 & Hc2 & _).
        exists a1. split; [done |]. congruence.
      - intros (a1 & Ha1 & Hc).
        destruct (Hcl1 k a1 Ha1) as (a & Ha & Hc2 & _).
        exists a. split; [done |]. congruence. }
    destruct (Hcl1 i a1 Ha1) as (a & Ha & Hc & Heq).
    exists a. split; [done |]. split; [congruence |].
    intros name Hname.
    change (((name0, ps0) :: items).*1) with (name0 :: items.*1).
    rewrite elem_of_cons.
    assert (Hname1 : ins_class a1 = Callsub name) by congruence.
    destruct (Hcalled name Hname1) as [Hin Hout]. split.
    + intros [-> | Hin']; [| by apply Hin].
      destruct (decide (name0 ∈ items.*1)) as [Hin' | Hnin]; [by apply Hin |].
      rewrite (Hout Hnin), Heq.
      rewrite decide_True; [done |].
      apply (Hps name0 ps0 i); [by left | eauto].
    + intros Hnot. rewrite Hout by tauto. rewrite Heq.
      rewrite decide_False; [done |].
      intros Hi. apply (Hps name0 ps0 i) in Hi as (a2 & Ha2 & Hc2); [| by left].
      assert (a2 = a) by congruence. subst a2.
      apply Hnot. left. congruence.
Qed.

Section SubroutinesOfCallsubs.

Variable parse_line : string -> ParseResult.
Variables (source_code : string) (teal : Teal).
Variable stg : parse_teal_stages parse_line source_code teal.

Local Abbreviation fp := (st_fp _ _ _ stg).
Local Abbreviation instructions2 := (st_instructions2 _ _ _ stg).
Local Abbreviation instructions3 := (cb_instructions (create_bb instructions2)).

Lemma stages_classes :
  ins_class <$> teal_instructions teal = ins_class <$> fp_instructions fp
  /\ ins_class <$> instructions3 = ins_class <$> fp_instructions fp.
Proof.
  destruct (stages_teal_shapes _ _ _ stg) as (Hi & _).
  destruct (second_pass_jumps_linked _ _ _ (st_second_pass _ _ _ stg)) as [Hcl2 _].
  pose proof (fmap_shape_proj ins_shape (λ s, s.1.1.1) ins_class _ _
                ltac:(done) (cbi_shape _ _ _ (create_bb_inv_holds instructions2)))
    as Hcl3.
  pose proof (fmap_shape_proj ins_shape (λ s, s.1.1.1) ins_class _ _
                ltac:(done) Hi) as Hcl6.
  split; congruence.
Qed.

Lemma stages_callsubs name ps :
  (name, ps) ∈ fp_subroutines fp
  <-> ps <> []
      /\ ps = positions_of (is_Callsub_to name) (teal_instructions teal).
Proof.
  destruct stages_classes as [Hcl _].
  rewrite (fpl_callsubs _ (first_pass_lists_hold _ _ _ (st_first_pass _ _ _ stg))).
  by rewrite (positions_of_classes _ _ _ Hcl).
Qed.

Lemma stages_label_entry t a :
  teal_instructions teal !! t = Some a -> is_Label (ins_class a) = true ->
  exists b blk,
    bb_of (teal_instructions teal) t = Some b
    /\ teal_store teal !! b = Some blk
    /\ head (bb_instructions blk) = Some t.
Proof.
  intros Ha HL.
  destruct (stages_member _ _ _ stg t a Ha)
    as (b & blk & a0 & blk0 & Hb & Hblk & _ & Ha0 & Hb0 & Hs0 & Hblk0 & Hsame).
  exists b, blk. split; [unfold bb_of; by rewrite Ha |]. split; [done |].
  rewrite <- Hsame.
  destruct (same_fmap_lookup ins_shape _ _ t a0
              (eq_sym (cbi_shape _ _ _ (create_bb_inv_holds instructions2))) Ha0)
    as (a2 & Ha2 & Hs2).
  apply (create_bb_label_entry instructions2 t a2 a0 b blk0); try done.
  destruct (shape_closes _ _ Hs2) as (_ & _ & ->).
  by destruct (shape_closes _ _ Hs0) as (_ & _ & ->).
Qed.

Lemma stages_subroutines_of_callsubs :
  (forall name,
     is_Some (teal_subroutines teal !! name)
     <-> exists i a, teal_instructions teal !! i = Some a
                     /\ ins_class a = Callsub name)
  /\ (forall name sub,
        teal_subroutines teal !! name = Some sub ->
        subroutine_name sub = name
        /\ (exists t blk,
              is_last_label (teal_instructions teal) name t
              /\ bb_of (teal_instructions teal) t = Some (subroutine_entry sub)
              /\ teal_store teal !! subroutine_entry sub = Some blk
              /\ head (bb_instructions blk) = Some t)
        /\ caller_blocks sub
           = bb_of (teal_instructions teal)
               <$> positions_of (is_Callsub_to name) (teal_instructions teal))
  /\ (forall i a name,
        teal_instructions teal !! i = Some a -> ins_class a = Callsub name ->
        called_subroutine a = Some (NamedSubroutine name)).
Proof.
  destruct (stages_teal_shapes _ _ _ stg) as (Hi & Hbb & _).
  destruct stages_classes as [Hcl Hcl3].
  assert (Hkeys : forall name,
            name ∈ (fp_subroutines fp).*1
            <-> exists i a, teal_instructions teal !! i = Some a
                            /\ ins_class a = Callsub name).
  { intros name. rewrite list_elem_of_fmap. split.
    - intros ([k ps] & -> & Hin). simpl.
      apply stages_callsubs in Hin as [Hne ->].
      destruct (positions_of (is_Callsub_to k) (teal_instructions teal))
        as [| i ps] eqn:Hp; [done |].
      assert (Hin : i ∈ positions_of (is_Callsub_to k) (teal_instructions teal))
        by (rewrite Hp; by left).
      apply positions_of_lookup in Hin as (a & Ha & Hc).
      apply bool_decide_eq_true in Hc. eauto.
    - intros (i & a & Ha & Hc).
      exists (name, positions_of (is_Callsub_to name) (teal_instructions teal)).
      split; [done |]. apply stages_callsubs. split; [| done].
      intros Hnil.
      assert (Hin : i ∈ positions_of (is_Callsub_to name) (teal_instructions teal)).
      { apply positions_of_lookup. exists a. split; [done |].
        unfold is_Callsub_to. by rewrite Hc, bool_decide_eq_true_2. }
      rewrite Hnil in Hin. by apply elem_of_nil in Hin. }
  destruct (discover_subroutines (fp_labels fp) instructions3
              (fp_subroutines fp) _ _ _ _ _ _ eq_refl (st_discover _ _ _ stg))
    as [Hsubs Hdom].
  split; [| split].
  - intros name. rewrite Hdom, Hkeys. split; [| by left].
    intros [? | [? Hempty]]; [done |]. by rewrite lookup_empty in Hempty.
  - intros name sub Hs.
    destruct (Hsubs name sub Hs) as [(ps & Hin & Hn & He & Hc) | Hempty];
      [| by rewrite lookup_empty in Hempty].
    apply stages_callsubs in Hin as [_ ->].
    split; [done |]. split.
    + destruct (fp_labels fp !! name) as [t |] eqn:Ht; [| discriminate].
      simpl in He.
      pose proof (proj1 (lp_labels _ _ (stages_teal_linked _ _ _ stg) name t) Ht)
        as Hlast.
      destruct (linked_label_target _ _ (stages_teal_linked _ _ _ stg) name t Ht)
        as (a & Ha & Hca).
      destruct (stages_label_entry t a Ha) as (b & blk & Hb & Hblk & Hhead);
        [by rewrite Hca |].
      rewrite (bb_of_same _ _ t Hbb) in Hb.
      assert (b = subroutine_entry sub) by congruence. subst b.
      exists t, blk. split; [done |]. split; [| done].
      by rewrite (bb_of_same _ _ t Hbb).
    + rewrite Hc. apply list_fmap_ext. intros _ i _. symmetry.
      by apply bb_of_same.
  - intros i a name Ha Hc.
    destruct (discover_called (fp_labels fp) (fp_subroutines fp)
                instructions3 (st_store5 _ _ _ stg) ∅
                (teal_instructions teal) (st_store6 _ _ _ stg)
                (teal_subroutines teal)) with (i := i) (a' := a)
      as (a3 & Ha3 & Hc3 & Hcalled); [| exact (st_discover _ _ _ stg) | exact Ha |].
    { intros name' ps k Hin.
      apply (fpl_callsubs _ (first_pass_lists_hold _ _ _ (st_first_pass _ _ _ stg)))
        in Hin as [_ ->].
      rewrite <- (positions_of_classes _ _ _ Hcl3), positions_of_lookup.
      unfold is_Callsub_to. by setoid_rewrite bool_decide_eq_true. }
    apply (Hcalled name); [congruence |].
    apply Hkeys. eauto.
Qed.

End SubroutinesOfCallsubs.

(** X16: in the [Teal] object that [parse_teal] returns, the dict
    [subroutines] has a key exactly for each label that some [callsub]
    calls. The subroutine stored under a name has this name; its entry
    block is the block of the last label instruction of this name, which
    is the first instruction of that block; its caller blocks are the
    blocks of the [callsub] instructions that call the name, in the order
    of the program. Each [callsub] instruction refers, as
    [called_subroutine], to the subroutine stored under its label. *)
Theorem subroutines_of_callsubs (parse_line : string -> ParseResult)
    (source_code contract_name : string) (teal : Teal) :
  parse_teal parse_line source_code contract_name = Ok teal ->
  (forall name,
     is_Some (teal_subroutines teal !! name)
     <-> exists i a, teal_instructions teal !! i = Some a
                     /\ ins_class a = Callsub name)
  /\ (forall name sub,
        teal_subroutines teal !! name = Some sub ->
        subroutine_name sub = name
        /\ (exists t blk,
              is_last_label (teal_instructions teal) name t
              /\ bb_of (teal_instructions teal) t = Some (subroutine_entry sub)
              /\ teal_store teal !! subroutine_entry sub = Some blk
              /\ head (bb_instructions blk) = Some t)
        /\ caller_blocks sub
           = bb_of (teal_instructions teal)
               <$> positions_of (is_Callsub_to name) (teal_instructions teal))
  /\ (forall i a name,
        teal_instructions teal !! i = Some a -> ins_class a = Callsub name ->
        called_subroutine a = Some (NamedSubroutine name)).
Proof.
  intros Hok. destruct (parse_teal_has_stages _ _ _ _ Hok) as [stg].
  exact (stages_subroutines_of_callsubs _ _ _ stg).
Qed.

Lemma subroutines_of_callsubs_witness :
  exists teal,
    parse_teal Sample.parse_line Sample.MULTIPLE_RETURN_POINTS "" = Ok teal
    /\ (caller_blocks <$> teal_subroutines teal !! "subroutine_0")
       = Some [Some 0; Some 1]%nat
    /\ forall i a name,
         teal_instructions teal !! i = Some a -> ins_class a = Callsub name ->
         called_subroutine a = Some (NamedSubroutine name).
Proof.
  eexists. split; [vm_compute; reflexivity |]. split; [reflexivity |].
  apply (subroutines_of_callsubs Sample.parse_line
           Sample.MULTIPLE_RETURN_POINTS "" _ ltac:(vm_compute; reflexivity)).
Defined.

(** ** The other attributes of a [Teal] object *)

Lemma parse_teal_fields parse_line source_code contract_name teal :
  parse_teal parse_line source_code contract_name = Ok teal ->
  exists fp instructions2 first entry,
    _first_pass parse_line (PyStr.splitlines source_code) = Ok fp
    /\ _second_pass (fp_instructions fp) (fp_labels fp) = Ok instructions2
    /\ cb_instructions (create_bb instructions2) !! 0%nat = Some first
    /\ teal_bbs teal !! 0%nat = Some entry
    /\ teal_version teal
       = match ins_class first with Pragma v => v | _ => 1 end
    /\ teal_mode teal
       = _detect_contract_type (cb_instructions (create_bb instructions2))
    /\ teal_stderr teal
       = (_verify_version (cb_instructions (create_bb instructions2))
            (teal_version teal)).2
    /\ teal_int_constants teal
       = only_in_entry_block
           (λ c, match c with Intcblock cs => Some cs | _ => None end)
           (teal_instructions teal) (fp_intcblock_ins fp) entry
    /\ teal_byte_constants teal
       = only_in_entry_block
           (λ c, match c with Bytecblock cs => Some cs | _ => None end)
           (teal_instructions teal) (fp_bytecblock_ins fp) entry
    /\ teal_contract_name teal = contract_name.
Proof.
  unfold parse_teal.
  destruct (_first_pass parse_line (PyStr.splitlines source_code))
    as [fp | |] eqn:H1; simpl; [| discriminate | discriminate].
  destruct (_second_pass (fp_instructions fp) (fp_labels fp))
    as [instructions2 | |] eqn:H2; simpl; [| discriminate | discriminate].
  destruct (_fourth_pass _ _) as [store4 | |] eqn:H4;
    simpl; [| discriminate | discriminate].
  destruct (_add_basic_blocks_idx _ _ _) as [[all_bbs store5] | |] eqn:H5;
    simpl; [| discriminate | discriminate].
  destruct (cb_instructions (create_bb instructions2) !! 0%nat) as [first |] eqn:Hf;
    simpl; [| discriminate].
  destruct (_verify_version _ _) as [err stderr] eqn:Hv.
  destruct (for_each _ (fp_subroutines fp) _) as [[[instructions6 store6] subs] | |]
    eqn:H6; simpl; [| discriminate | discriminate].
  destruct (all_bbs !! 0%nat) as [entry |] eqn:He; simpl; [| discriminate].
  intros [= <-]. simpl.
  exists fp, instructions2, first, entry. rewrite Hv. by repeat split.
Qed.

Lemma link_jump_source labels i instructions l instructions' :
  link_jump labels i instructions l = Ok instructions' ->
  ins_source <$> instructions' = ins_source <$> instructions.
Proof.
  unfold link_jump. destruct (labels !! l); simpl; [| discriminate].
  intros [= <-]. by rewrite !fmap_alter_same.
Qed.

Lemma second_pass_source labels instructions instructions' :
  _second_pass instructions labels = Ok instructions' ->
  ins_source <$> instructions' = ins_source <$> instructions.
Proof.
  apply (for_each_preserves _ (λ l l', ins_source <$> l' = ins_source <$> l));
    [done | congruence |].
  intros cur i cur'. rewrite second_pass_ins_links.
  destruct (cur !! i) as [a |]; [| by intros [= <-]].
  apply (for_each_preserves _ (λ l l', ins_source <$> l' = ins_source <$> l));
    [done | congruence |].
  intros ? ? ?. apply link_jump_source.
Qed.

Lemma create_bb_ins_source st i :
  ins_source <$> cb_instructions (create_bb_ins st i)
  = ins_source <$> cb_instructions st.
Proof.
  unfold create_bb_ins. destruct (cb_instructions st !! i) as [ins |]; [| done].
  cbv zeta.
  repeat match goal with
         | |- context [if ?c then _ else _] => destruct c
         end;
    cbn [cb_instructions start_block]; by rewrite fmap_alter_same.
Qed.

Lemma create_bb_source instructions :
  ins_source <$> cb_instructions (create_bb instructions)
  = ins_source <$> instructions.
Proof.
  unfold create_bb.
  generalize (seq 0 (length instructions)).
  assert (H : forall l st,
            ins_source <$> cb_instructions (fold_left create_bb_ins l st)
            = ins_source <$> cb_instructions st).
  { induction l as [| i l IH]; intros st; simpl; [done |].
    by rewrite IH, create_bb_ins_source. }
  intros l. by rewrite H.
Qed.

Lemma discover_source labels items instructions store subs
    instructions' store' subs' :
  for_each (discover_subroutine labels) items (instructions, store, subs)
  = Ok (instructions', store', subs') ->
  ins_source <$> instructions' = ins_source <$> instructions.
Proof.
  apply (for_each_preserves _
           (λ s s', ins_source <$> s'.1.1 = ins_source <$> s.1.1)
           items); [done | congruence |].
  intros [[i1 s1] m1] [name ps] [[i2 s2] m2] H.
  apply discover_subroutine_unfold in H as (_ & _ & _ & ->). simpl.
  by apply (fold_alter_same ins_source
              (λ _, ins_set_called_subroutine (NamedSubroutine name)) id).
Qed.

Lemma detect_contract_type_source instructions : forall instructions',
  ins_source <$> instructions' = ins_source <$> instructions ->
  _detect_contract_type instructions' = _detect_contract_type instructions.
Proof.
  induction instructions as [| a l IH]; intros [| a' l'] H; try done.
  rewrite !fmap_cons in H. injection H as _ _ _ Hm _ Hl. simpl.
  rewrite Hm, (IH l' Hl). done.
Qed.

Lemma omap_cons_eq {A B : Type} (f : A -> option B) (x : A) (l : list A) :
  omap f (x :: l)
  = match f x with Some y => y :: omap f l | None => omap f l end.
Proof. reflexivity. Qed.

Lemma verify_version_source program_version instructions : forall instructions',
  ins_source <$> instructions' = ins_source <$> instructions ->
  _verify_version instructions' program_version
  = _verify_version instructions program_version.
Proof.
  intros instructions' H.
  assert (Hall : omap (version_diagnostic program_version) instructions'
                 = omap (version_diagnostic program_version) instructions
                 /\ forall m,
                      ins_line <$> filter (λ ins, ins_mode ins = m) instructions'
                      = ins_line <$> filter (λ ins, ins_mode ins = m) instructions).
  { revert instructions' H.
    induction instructions as [| a l IH]; intros [| a' l'] H; try done.
    rewrite !fmap_cons in H. injection H as Hline Hc Hv Hm Hf Hl.
    destruct (IH l' Hl) as [IH1 IH2].
    assert (Hd : version_diagnostic program_version a'
                 = version_diagnostic program_version a).
    { unfold version_diagnostic, checked_field. by rewrite Hline, Hc, Hv, Hf. }
    split.
    - rewrite !omap_cons_eq, Hd, IH1. done.
    - intros m. rewrite !filter_cons, Hm.
      destruct (decide (ins_mode a = m)); simpl; by rewrite ?Hline, IH2. }
  destruct Hall as [Hd Hm].
  pose proof (verify_version_unfold instructions' program_version) as H'.
  pose proof (verify_version_unfold instructions program_version) as H0.
  cbv zeta in H', H0. rewrite H', H0, Hd, !Hm.
  pose proof (Hm STATELESS) as Hless. pose proof (Hm STATEFULL) as Hfull.
  destruct (filter (λ ins, ins_mode ins = STATELESS) instructions'),
    (filter (λ ins, ins_mode ins = STATELESS) instructions);
    try discriminate; try done.
  destruct (filter (λ ins, ins_mode ins = STATEFULL) instructions'),
    (filter (λ ins, ins_mode ins = STATEFULL) instructions);
    try discriminate; done.
Qed.


Section FieldsOfTeal.

Variable parse_line : string -> ParseResult.

Lemma teal_instructions_source source_code contract_name teal fp instructions2 :
  parse_teal parse_line source_code contract_name = Ok teal ->
  _first_pass parse_line (PyStr.splitlines source_code) = Ok fp ->
  _second_pass (fp_instructions fp) (fp_labels fp) = Ok instructions2 ->
  ins_source <$> teal_instructions teal
  = numbered_instructions parse_line 1 (PyStr.splitlines source_code)
  /\ ins_source <$> teal_instructions teal
     = ins_source <$> cb_instructions (create_bb instructions2).
Proof.
  intros Hok H1 H2. destruct (parse_teal_has_stages _ _ _ _ Hok) as [stg].
  assert (fp = st_fp _ _ _ stg).
  { pose proof (st_first_pass _ _ _ stg). congruence. }
  subst fp.
  assert (instructions2 = st_instructions2 _ _ _ stg).
  { pose proof (st_second_pass _ _ _ stg). congruence. }
  subst instructions2.
  pose proof (discover_source _ _ _ _ _ _ _ _ (st_discover _ _ _ stg)) as H6.
  pose proof (create_bb_source (st_instructions2 _ _ _ stg)) as H3.
  pose proof (second_pass_source _ _ _ H2) as H2'.
  split; [| exact H6].
  rewrite H6, H3, H2'.
  destruct (first_pass_lines_origin parse_line _ _ _ H1)
    as (_ & new & Horigin & Hnew).
  simpl in Horigin.
  change (fp_idx first_pass_init + 1) with 1 in Hnew.
  rewrite <- Hnew, <- Horigin, <- list_fmap_compose.
  by apply list_fmap_ext.
Qed.


(** X18: the instructions of the [Teal] object that [parse_teal] returns
    are the instruction lines of the source, in order, each with the
    number of its line and with what [parse_line] made of it. The version
    of the object is that of the pragma when the first instruction of the
    source is one, and 1 otherwise, wherever else a pragma stands; its
    mode is what [_detect_contract_type] makes of these instructions, and
    what parsing printed on the error stream is what [_verify_version]
    prints for them and this version. *)
Theorem teal_of_source_lines (source_code contract_name : string) (teal : Teal) :
  parse_teal parse_line source_code contract_name = Ok teal ->
  ins_source <$> teal_instructions teal
  = numbered_instructions parse_line 1 (PyStr.splitlines source_code)
  /\ teal_version teal
     = match head (source_classes parse_line (PyStr.splitlines source_code)) with
       | Some (Pragma v) => v
       | _ => 1
       end
  /\ teal_mode teal = _detect_contract_type (teal_instructions teal)
  /\ teal_stderr teal
     = (_verify_version (teal_instructions teal) (teal_version teal)).2
  /\ teal_contract_name teal = contract_name.
Proof.
  intros Hok.
  destruct (parse_teal_fields _ _ _ _ Hok)
    as (fp & i2 & first & entry & H1 & H2 & Hf & _ & Hv & Hm & Hs & _ & _ & Hn).
  destruct (teal_instructions_source _ _ _ _ _ Hok H1 H2) as [Hsrc Hcb].
  split; [exact Hsrc |]. split; [| split; [| split; [| exact Hn]]].
  - rewrite Hv. unfold source_classes. rewrite <- Hsrc.
    rewrite <- list_fmap_compose.
    destruct (teal_instructions teal) as [| a l] eqn:Hl.
    + apply (f_equal length) in Hcb. rewrite !length_fmap in Hcb.
      apply lookup_lt_Some in Hf. simpl in Hcb. lia.
    + assert (Ha : ins_source a = ins_source first).
      { assert (H0 : (ins_source <$> a :: l) !! 0%nat
                     = (ins_source <$> cb_instructions (create_bb i2)) !! 0%nat)
          by (by rewrite Hcb).
        rewrite (list_lookup_fmap ins_source (cb_instructions (create_bb i2))),
          Hf in H0.
        simpl in H0. by apply (inj Some). }
      simpl. pose proof (f_equal (λ s, parsed_class s.2) Ha) as Hc.
      simpl in Hc. by rewrite Hc.
  - rewrite Hm. symmetry. by apply detect_contract_type_source.
  - rewrite Hs. symmetry. f_equal. by apply verify_version_source.
Qed.

End FieldsOfTeal.


Lemma teal_of_source_lines_witness :
  exists teal,
    parse_teal Sample.parse_line Sample.MULTIPLE_RETURN_POINTS "" = Ok teal
    /\ teal_version teal = 7
    /\ teal_mode teal = _detect_contract_type (teal_instructions teal).
Proof.
  eexists. split; [vm_compute; reflexivity |]. split; [reflexivity |].
  apply (teal_of_source_lines Sample.parse_line
           Sample.MULTIPLE_RETURN_POINTS "" _ ltac:(vm_compute; reflexivity)).
Defined.

(** ** The choice of detectors and printers *)

Lemma prefix_append (p after : string) : String.prefix p (p +:+ after) = true.
Proof.
  induction p as [| c p IH]; [apply prefix_empty |].
  change (String c p +:+ after) with (String c (p +:+ after)).
  by rewrite prefix_cons_eq.
Qed.

Lemma prefix_occurs (p s : string) :
  String.prefix p s = true <-> exists after, s = p +:+ after.
Proof.
  split; [| intros [after ->]; apply prefix_append].
  revert s. induction p as [| c p IH]; intros s Hp; [by exists s |].
  destruct s as [| c' s]; [discriminate |].
  destruct (Ascii.eqb_spec c c') as [<- | Hne].
  - rewrite prefix_cons_eq in Hp. destruct (IH s Hp) as [after ->].
    by exists after.
  - by rewrite prefix_cons_ne in Hp.
Qed.

Lemma contains_cons c (s sub : string) :
  PyStr.contains (String c s) sub
  = String.prefix sub (String c s) || PyStr.contains s sub.
Proof. reflexivity. Qed.

Lemma contains_empty (sub : string) :
  PyStr.contains "" sub = String.prefix sub "" || false.
Proof. reflexivity. Qed.

Lemma contains_occurs (s sub : string) :
  PyStr.contains s sub = true <-> occurs_in sub s.
Proof.
  split.
  - induction s as [| c s IH].
    + rewrite contains_empty, orb_false_r. intros [after Ha]%prefix_occurs.
      by exists "", after.
    + rewrite contains_cons. intros [Hp | Hc]%orb_true_iff.
      * apply prefix_occurs in Hp as [after Ha]. by exists "", after.
      * destruct (IH Hc) as (before & after & ->).
        by exists (String c before), after.
  - intros (before & after & ->).
    induction before as [| c before IH].
    + change ("" +:+ sub +:+ after) with (sub +:+ after).
      destruct (sub +:+ after) as [| c r] eqn:Heq.
      * rewrite contains_empty, <- Heq, prefix_append. done.
      * rewrite contains_cons, <- Heq, prefix_append. done.
    + change (String c before +:+ sub +:+ after)
        with (String c (before +:+ sub +:+ after)).
      rewrite contains_cons, IH. apply orb_true_r.
Qed.

Lemma snoc_cases {A : Type} (l : list A) : l = [] \/ exists l' x, l = l' ++ [x].
Proof. induction l using rev_ind; [by left | right; eauto]. Qed.

Lemma by_name_snoc {C : Type} (NAME : C -> string) (classes : list C) (c : C) :
  by_name NAME (classes ++ [c]) = <[NAME c := c]> (by_name NAME classes).
Proof. unfold by_name. by rewrite foldl_snoc. Qed.

Lemma last_named_snoc {C : Type} (NAME : C -> string) (classes : list C)
    (c : C) name c0 :
  last_named NAME (classes ++ [c]) name c0
  <-> (NAME c = name /\ c0 = c)
      \/ (NAME c <> name /\ last_named NAME classes name c0).
Proof.
  split.
  - intros (before & after & Heq & Hn & Hafter).
    destruct (snoc_cases after) as [-> | (after' & x & ->)].
    + apply app_inj_tail in Heq as [-> ->]. by left.
    + rewrite app_comm_cons, app_assoc in Heq.
      apply app_inj_tail in Heq as [-> ->].
      apply Forall_app in Hafter as [Hafter Hx].
      rewrite Forall_singleton in Hx. right. split; [exact Hx |].
      by exists before, after'.
  - intros [[Hn ->] | [Hne (before & after & -> & Hn & Hafter)]].
    + exists classes, []. by repeat split.
    + exists before, (after ++ [c]). split; [by rewrite <- app_assoc |].
      split; [done |]. apply Forall_app. split; [done |].
      by apply Forall_singleton.
Qed.

Lemma by_name_lookup {C : Type} (NAME : C -> string) (classes : list C) name :
  (by_name NAME classes !! name = None
   <-> Forall (λ c, NAME c <> name) classes)
  /\ forall c, by_name NAME classes !! name = Some c
               <-> last_named NAME classes name c.
Proof.
  induction classes as [| c classes [IHn IHs]] using rev_ind.
  - split; [by split |]. intros c. split; [done |].
    intros (before & after & Heq & _). by destruct before.
  - rewrite by_name_snoc. split.
    + rewrite Forall_app, Forall_singleton.
      destruct (decide (NAME c = name)) as [<- | Hne].
      * rewrite lookup_insert_eq. split; [done | by intros [_ ?]].
      * rewrite lookup_insert_ne by done. rewrite IHn. tauto.
    + intros c0. rewrite last_named_snoc.
      destruct (decide (NAME c = name)) as [<- | Hne].
      * rewrite lookup_insert_eq. split.
        -- intros [= <-]. by left.
        -- intros [[_ ->] | [? _]]; done.
      * rewrite lookup_insert_ne by done. rewrite IHs. split; [by right |].
        intros [[? _] | [_ ?]]; done.
Qed.

Lemma choose_by_name_spec {C : Type} (classes : gmap string C)
    (message : string -> string) (names : list string) :
  match choose_by_name classes message names with
  | Returned cs => Forall2 (λ n c, classes !! n = Some c) names cs
  | TealerException msg =>
      exists before name after,
        names = before ++ name :: after
        /\ Forall (λ n, is_Some (classes !! n)) before
        /\ classes !! name = None /\ msg = message name
  end.
Proof.
  induction names as [| n names IH]; simpl; [constructor |].
  destruct (classes !! n) as [c |] eqn:Hn.
  - destruct (choose_by_name classes message names) as [cs | msg].
    + by constructor.
    + destruct IH as (before & name & after & -> & Hb & Hname & ->).
      exists (n :: before), name, after. repeat split; try done.
      constructor; [eauto | done].
  - exists [], n, names. by repeat split.
Qed.

Lemma choose_by_name_raises {C : Type} (classes : gmap string C)
    (message : string -> string) (before : list string) name after :
  Forall (λ n, is_Some (classes !! n)) before ->
  classes !! name = None ->
  choose_by_name classes message (before ++ name :: after)
  = TealerException (message name).
Proof.
  intros Hb Hname. induction Hb as [| n before [c Hc] _ IH]; simpl.
  - by rewrite Hname.
  - by rewrite Hc, IH.
Qed.

Section ChooseProperties.

Variables Detector Printer DetectorType : Type.
Context `{EqDecision DetectorType}.
Variable DetectorType_STATEFULL DetectorType_STATELESS : DetectorType.
Variable Detector_NAME : Detector -> string.
Variable Detector_TYPE : Detector -> DetectorType.
Variable Printer_NAME : Printer -> string.

Local Abbreviation choose_detectors' :=
  (choose_detectors Detector DetectorType DetectorType_STATEFULL
     DetectorType_STATELESS Detector_NAME Detector_TYPE).

(** X19: the detectors that [choose_detectors] returns are, in order,
    those of the selection (all detector classes for ["all"], otherwise
    for each piece of the option between commas the last class of this
    name) that pass the filters: a detector is dropped when its name
    occurs anywhere in the text of the option to exclude (the text is
    not cut at the commas), when it is stateful and stateful ones are
    excluded, or when it is stateless and stateless ones are excluded. *)
Theorem choose_detectors_selection_and_filters
    (args : ChooseArgs) (all_detector_classes ds : list Detector) :
  choose_detectors' args all_detector_classes = Returned ds ->
  exists selected,
    (if String.eqb (detectors_to_run args) "all"
     then selected = all_detector_classes
     else Forall2 (last_named Detector_NAME all_detector_classes)
            (PyStr.split (detectors_to_run args) ","%char) selected)
    /\ sublist ds selected
    /\ forall d,
         d ∈ ds
         <-> d ∈ selected
             /\ (forall exclude,
                   detectors_to_exclude args = Some exclude ->
                   exclude <> "" -> ~ occurs_in (Detector_NAME d) exclude)
             /\ (exclude_stateful args = true ->
                 Detector_TYPE d <> DetectorType_STATEFULL)
             /\ (exclude_stateless args = true ->
                 Detector_TYPE d <> DetectorType_STATELESS).
Proof.
  unfold choose_detectors.
  set (chosen := if String.eqb (detectors_to_run args) "all"
                 then Returned all_detector_classes
                 else choose_by_name _ _ _).
  destruct chosen as [selected | msg] eqn:Hchosen; [| discriminate].
  intros [= <-]. exists selected. split.
  - subst chosen. destruct (String.eqb (detectors_to_run args) "all").
    + by injection Hchosen.
    + pose proof (choose_by_name_spec
                    (by_name Detector_NAME all_detector_classes)
                    (λ detector, "Error: " +:+ detector +:+ " is not a detector")
                    (PyStr.split (detectors_to_run args) ",")) as Hspec.
      rewrite Hchosen in Hspec.
      eapply Forall2_impl; [exact Hspec |].
      intros n d Hd. by apply by_name_lookup.
  - clear Hchosen chosen.
    set (l1 := match detectors_to_exclude args with
               | Some exclude =>
                   if String.eqb exclude "" then selected
                   else filter (λ d, PyStr.contains exclude (Detector_NAME d) = false)
                          selected
               | None => selected
               end).
    set (l2 := if exclude_stateful args
               then filter (λ d, Detector_TYPE d <> DetectorType_STATEFULL) l1
               else l1).
    assert (H1 : sublist l1 selected
                 /\ forall d, d ∈ l1 <-> d ∈ selected
                      /\ forall exclude,
                           detectors_to_exclude args = Some exclude ->
                           exclude <> "" -> ~ occurs_in (Detector_NAME d) exclude).
    { subst l1. destruct (detectors_to_exclude args) as [exclude |].
      - destruct (String.eqb_spec exclude "") as [Heq | Hne].
        + split; [done |]. intros d. split; [| by intros [? _]].
          intros Hd. split; [done |]. intros ? [= <-]. done.
        + split; [apply sublist_filter |]. intros d.
          rewrite list_elem_of_filter. split.
          * intros [Hc Hd]. split; [done |]. intros ? [= <-] _ Ho.
            apply contains_occurs in Ho. congruence.
          * intros [Hd Hex]. split; [| done].
            destruct (PyStr.contains exclude (Detector_NAME d)) eqn:Hc; [| done].
            destruct (Hex exclude eq_refl Hne). by apply contains_occurs.
      - split; [done |]. intros d. split; [| by intros [? _]].
        intros Hd. split; [done |]. discriminate. }
    assert (H2 : sublist l2 l1
                 /\ forall d, d ∈ l2 <-> d ∈ l1
                      /\ (exclude_stateful args = true ->
                          Detector_TYPE d <> DetectorType_STATEFULL)).
    { subst l2. destruct (exclude_stateful args).
      - split; [apply sublist_filter |]. intros d.
        rewrite list_elem_of_filter. split; [intros [? ?]; by split |].
        intros [? Ht]. split; [by apply Ht | done].
      - split; [done |]. intros d. split; [| by intros [? _]].
        intros Hd. split; [done |]. discriminate. }
    assert (H3 : sublist (if exclude_stateless args
                          then filter (λ d, Detector_TYPE d <> DetectorType_STATELESS) l2
                          else l2) l2
                 /\ forall d, d ∈ (if exclude_stateless args
                                   then filter (λ d, Detector_TYPE d
                                                     <> DetectorType_STATELESS) l2
                                   else l2)
                      <-> d ∈ l2
                          /\ (exclude_stateless args = true ->
                              Detector_TYPE d <> DetectorType_STATELESS)).
    { destruct (exclude_stateless args).
      - split; [apply sublist_filter |]. intros d.
        rewrite list_elem_of_filter. split; [intros [? ?]; by split |].
        intros [? Ht]. split; [by apply Ht | done].
      - split; [done |]. intros d. split; [| by intros [? _]].
        intros Hd. split; [done |]. discriminate. }
    destruct H1 as [Hs1 H1], H2 as [Hs2 H2], H3 as [Hs3 H3].
    split; [by etrans; [| etrans] |].
    intros d. rewrite H3, H2, H1. tauto.
Qed.

(** X20: [choose_detectors] raises exactly when the option is not
    ["all"] and one of its pieces between commas is the name of no
    detector class; the exception then names the first such piece. The
    pieces are taken as they are: an empty option, a space after a comma
    or a comma at the end give a piece that is no name. *)
Theorem choose_detectors_unknown_name
    (args : ChooseArgs) (all_detector_classes : list Detector) (msg : string) :
  choose_detectors' args all_detector_classes = TealerException msg
  <-> detectors_to_run args <> "all"
      /\ exists before name after,
           PyStr.split (detectors_to_run args) ","%char = before ++ name :: after
           /\ Forall (λ n, exists d, d ∈ all_detector_classes /\ Detector_NAME d = n)
                before
           /\ Forall (λ d, Detector_NAME d <> name) all_detector_classes
           /\ msg = "Error: " +:+ name +:+ " is not a detector".
Proof.
  unfold choose_detectors.
  destruct (String.eqb_spec (detectors_to_run args) "all") as [Hall | Hall].
  - split; [discriminate | by intros [? _]].
  - pose proof (choose_by_name_spec
                  (by_name Detector_NAME all_detector_classes)
                  (λ detector, "Error: " +:+ detector +:+ " is not a detector")
                  (PyStr.split (detectors_to_run args) ",")) as Hspec.
    split.
    + destruct (choose_by_name _ _ _) as [selected | msg']; [discriminate |].
      intros [= <-]. split; [done |].
      destruct Hspec as (before & name & after & Heq & Hb & Hname & ->).
      exists before, name, after. split; [done |]. split; [| split; [| done]].
      * eapply Forall_impl; [exact Hb |]. intros n [d Hd].
        apply by_name_lookup in Hd as (b & a & -> & Hn & _).
        exists d. split; [| done]. apply elem_of_app. right. by left.
      * by apply by_name_lookup.
    + intros (_ & before & name & after & Heq & Hb & Hname & ->).
      rewrite Heq, choose_by_name_raises; [done | |].
      * eapply Forall_impl; [exact Hb |]. intros n (d & Hd & Hn).
        destruct (by_name Detector_NAME all_detector_classes !! n) eqn:Hl;
          [eauto |].
        apply by_name_lookup in Hl. rewrite Forall_forall in Hl.
        by destruct (Hl d Hd).
      * by apply by_name_lookup.
Qed.

(** X21: without the option [choose_printers] returns no printer. With
    it, it returns for each piece of the option between commas the last
    printer class of this name, in the order of the pieces, or raises
    for the first piece that is the name of no printer class. *)
Theorem choose_printers_by_name
    (args : ChooseArgs) (all_printer_classes : list Printer) :
  match printers_to_run args with
  | None =>
      choose_printers Printer Printer_NAME args all_printer_classes = Returned []
  | Some names =>
      match choose_printers Printer Printer_NAME args all_printer_classes with
      | Returned ps =>
          Forall2 (last_named Printer_NAME all_printer_classes)
            (PyStr.split names ","%char) ps
      | TealerException msg =>
          exists before name after,
            PyStr.split names ","%char = before ++ name :: after
            /\ Forall (λ n, exists p, p ∈ all_printer_classes /\ Printer_NAME p = n)
                 before
            /\ Forall (λ p, Printer_NAME p <> name) all_printer_classes
            /\ msg = name +:+ " is not a printer"
      end
  end.
Proof.
  unfold choose_printers. destruct (printers_to_run args) as [names |]; [| done].
  pose proof (choose_by_name_spec
                (by_name Printer_NAME all_printer_classes)
                (λ printer, printer +:+ " is not a printer")
                (PyStr.split names ",")) as Hspec.
  destruct (choose_by_name _ _ _) as [ps | msg].
  - eapply Forall2_impl; [exact Hspec |]. intros n p Hp. by apply by_name_lookup.
  - destruct Hspec as (before & name & after & Heq & Hb & Hname & ->).
    exists before, name, after. split; [done |]. split; [| split; [| done]].
    + eapply Forall_impl; [exact Hb |]. intros n [p Hp].
      apply by_name_lookup in Hp as (b & a & -> & Hn & _).
      exists p. split; [| done]. apply elem_of_app. right. by left.
    + by apply by_name_lookup.
Qed.

End ChooseProperties.

Lemma choose_detectors_selection_and_filters_witness :
  let all := [("can-delete", true); ("rekey-to", false);
              ("group-rekey-to", false)] in
  let args := {| detectors_to_run := "all";
                 detectors_to_exclude := Some "group-rekey-to";
                 exclude_stateful := false; exclude_stateless := false;
                 printers_to_run := None |} in
  choose_detectors (string * bool) bool true false fst snd args all
  = Returned [("can-delete", true)]
  /\ exists selected,
       selected = all /\ sublist [("can-delete", true)] selected.
Proof.
  split; [vm_compute; reflexivity |].
  destruct (choose_detectors_selection_and_filters (string * bool) bool
              true false fst snd
              {| detectors_to_run := "all";
                 detectors_to_exclude := Some "group-rekey-to";
                 exclude_stateful := false; exclude_stateless := false;
                 printers_to_run := None |}
              [("can-delete", true); ("rekey-to", false);
               ("group-rekey-to", false)]
              [("can-delete", true)] ltac:(vm_compute; reflexivity))
    as (selected & Hsel & Hsub & _).
  exists selected. split; [exact Hsel | exact Hsub].
Defined.

Lemma choose_detectors_unknown_name_witness :
  choose_detectors (string * bool) bool true false fst snd
    {| detectors_to_run := "can-delete, rekey-to";
       detectors_to_exclude := None;
       exclude_stateful := false; exclude_stateless := false;
       printers_to_run := None |}
    [("can-delete", true); ("rekey-to", false)]
  = TealerException "Error:  rekey-to is not a detector".
Proof.
  apply (choose_detectors_unknown_name (string * bool) bool true false fst snd).
  split; [discriminate |].
  exists ["can-delete"], " rekey-to", []. split; [vm_compute; reflexivity |].
  split; [| split; [| reflexivity]].
  - constructor; [| constructor]. exists ("can-delete", true).
    split; [by left | reflexivity].
  - repeat constructor; discriminate.
Defined.

Lemma choose_printers_by_name_witness :
  choose_printers (string * nat) fst
    {| detectors_to_run := "all"; detectors_to_exclude := None;
       exclude_stateful := false; exclude_stateless := false;
       printers_to_run := Some "cfg,cfg" |}
    [("cfg", 1%nat); ("human-summary", 2%nat); ("cfg", 3%nat)]
  = Returned [("cfg", 3%nat); ("cfg", 3%nat)]
  /\ Forall2 (last_named fst [("cfg", 1%nat); ("human-summary", 2%nat); ("cfg", 3%nat)])
       (PyStr.split "cfg,cfg" ","%char) [("cfg", 3%nat); ("cfg", 3%nat)].
Proof.
  split; [vm_compute; reflexivity |].
  exact (choose_printers_by_name (string * nat) fst
           {| detectors_to_run := "all"; detectors_to_exclude := None;
              exclude_stateful := false; exclude_stateless := false;
              printers_to_run := Some "cfg,cfg" |}
           [("cfg", 1%nat); ("human-summary", 2%nat); ("cfg", 3%nat)]).
Defined.

(** ** The links between instructions mirror each other *)







Section MirroredLinks.

Variable parse_line : string -> ParseResult.



End MirroredLinks.


(** ** The comments of the blocks *)

Lemma start_block_no_comments e st :
  Forall (λ b, bb_tealer_comments b = []) (cb_all_bbs st) ->
  Forall (λ b, bb_tealer_comments b = []) (cb_all_bbs (start_block e st)).
Proof.
  intros Hall. unfold start_block.
  assert (Forall (λ b, bb_tealer_comments b = []) (cb_all_bbs st ++ [new_bb])).
  { apply Forall_app. split; [done |]. by apply Forall_singleton. }
  destruct e; simpl; [| done].
  repeat (apply Forall_alter; [| by intros]). done.
Qed.

Lemma create_bb_ins_no_comments st i :
  Forall (λ b, bb_tealer_comments b = []) (cb_all_bbs st) ->
  Forall (λ b, bb_tealer_comments b = []) (cb_all_bbs (create_bb_ins st i)).
Proof.
  intros Hall. unfold create_bb_ins.
  destruct (cb_instructions st !! i) as [ins |]; [| done].
  cbv zeta.
  repeat match goal with
         | |- context [if ?c then _ else _] => destruct c
         end;
    repeat apply start_block_no_comments;
    cbn [cb_all_bbs cb_bb cb_instructions];
    (apply Forall_alter; [| by intros]);
    repeat apply start_block_no_comments; exact Hall.
Qed.

Lemma create_bb_no_comments instructions :
  Forall (λ b, bb_tealer_comments b = []) (cb_all_bbs (create_bb instructions)).
Proof.
  unfold create_bb.
  assert (H : forall xs st,
            Forall (λ b, bb_tealer_comments b = []) (cb_all_bbs st) ->
            Forall (λ b, bb_tealer_comments b = [])
              (cb_all_bbs (fold_left create_bb_ins xs st))).
  { induction xs as [| x xs IH]; intros st Hall; simpl; [done |].
    apply IH. by apply create_bb_ins_no_comments. }
  apply H. simpl. by apply Forall_singleton.
Qed.

Lemma link_blocks_comments instructions b bbs next_ins bbs' :
  link_blocks instructions b bbs next_ins = Ok bbs' ->
  bb_tealer_comments <$> bbs' = bb_tealer_comments <$> bbs.
Proof.
  unfold link_blocks.
  destruct (instructions !! next_ins ≫= ins_bb) as [next_bb |],
    (bbs !! b) as [bb |]; try discriminate; try (by intros [= <-]).
  destruct (bool_decide (next_bb ∈ bb_next bb)); [by intros [= <-] |].
  destruct (bbs !! next_bb) as [nb |]; [| by intros [= <-]].
  destruct (bool_decide (b ∈ bb_prev nb)); [discriminate |].
  intros [= <-]. by rewrite !fmap_alter_same.
Qed.

Lemma fourth_pass_comments instructions bbs bbs' :
  _fourth_pass instructions bbs = Ok bbs' ->
  bb_tealer_comments <$> bbs' = bb_tealer_comments <$> bbs.
Proof.
  apply (for_each_preserves _
           (λ l l', bb_tealer_comments <$> l' = bb_tealer_comments <$> l));
    [done | congruence |].
  intros cur b cur'. unfold fourth_pass_bb.
  destruct (cur !! b) as [bb |]; [| by intros [= <-]].
  destruct (exit_instr bb) as [e | |]; simpl; [| discriminate | discriminate].
  destruct (instructions !! e) as [ins |]; [| by intros [= <-]].
  apply (for_each_preserves _
           (λ l l', bb_tealer_comments <$> l' = bb_tealer_comments <$> l));
    [done | congruence |].
  intros ? ? ?. apply link_blocks_comments.
Qed.

Lemma assign_idx_comments bbs : forall i store,
  bb_tealer_comments <$> assign_idx i bbs store = bb_tealer_comments <$> store.
Proof.
  induction bbs as [| b bbs IH]; intros i store; simpl; [reflexivity |].
  rewrite IH. by apply fmap_alter_same.
Qed.

Lemma add_basic_blocks_idx_comments instructions store bbs bbs' store' :
  _add_basic_blocks_idx instructions store bbs = Ok (bbs', store') ->
  bb_tealer_comments <$> store' = bb_tealer_comments <$> store.
Proof.
  unfold _add_basic_blocks_idx.
  destruct (keyed instructions store bbs) as [ks | |];
    simpl; [| discriminate | discriminate].
  intros [= <- <-]. apply assign_idx_comments.
Qed.

Lemma default_to_main_comments all_bbs : forall store,
  bb_tealer_comments <$> default_to_main all_bbs store
  = bb_tealer_comments <$> store.
Proof.
  unfold default_to_main.
  induction all_bbs as [| b all_bbs IH]; intros store; simpl; [reflexivity |].
  rewrite IH. destruct (store !! b ≫= bb_subroutine); [reflexivity |].
  by apply fmap_alter_same.
Qed.

Lemma set_subroutine_of_comments s blocks store :
  bb_tealer_comments <$> set_subroutine_of s blocks store
  = bb_tealer_comments <$> store.
Proof.
  unfold set_subroutine_of.
  by apply (fold_alter_same bb_tealer_comments (λ _, bb_set_subroutine s) id).
Qed.

Lemma discover_subroutine_comments labels instructions store subs name callsubs
    instructions' store' subs' :
  discover_subroutine labels (instructions, store, subs) (name, callsubs)
  = Ok (instructions', store', subs') ->
  exists entry,
    labels !! name ≫= bb_of instructions = Some entry
    /\ bb_tealer_comments <$> store'
       = alter (λ cs, cs ++ [Subroutine_named name]) entry
           (bb_tealer_comments <$> store).
Proof.
  unfold discover_subroutine.
  destruct (labels !! name) as [t |] eqn:Ht; simpl; [| discriminate].
  destruct (instructions !! t ≫= ins_bb) as [entry |] eqn:He;
    simpl; [| discriminate].
  intros [= <- <- <-]. exists entry. split; [done |].
  rewrite set_subroutine_of_comments.
  apply list_eq. intros j. rewrite list_lookup_fmap.
  destruct (decide (j = entry)) as [-> |].
  - rewrite !list_lookup_alter_eq, list_lookup_fmap. by destruct (store !! entry).
  - by rewrite !list_lookup_alter_ne, list_lookup_fmap by done.
Qed.

(** After the loop over the called names a block has got one comment for
    each name whose label is in it, in the order of the names. *)
Lemma discover_comments labels instructions0 items :
  forall instructions store subs instructions' store' subs',
  ins_bb <$> instructions = ins_bb <$> instructions0 ->
  for_each (discover_subroutine labels) items (instructions, store, subs)
  = Ok (instructions', store', subs') ->
  forall b,
    (bb_tealer_comments <$> store') !! b
    = (λ cs, cs ++ (Subroutine_named
                      <$> filter (λ name, labels !! name ≫= bb_of instructions0
                                          = Some b) items.*1))
      <$> (bb_tealer_comments <$> store) !! b.
Proof.
  induction items as [| [name0 ps0] items IH];
    intros instructions store subs instructions' store' subs' Hbb.
  - simpl. intros [= <- <- <-] b.
    destruct ((bb_tealer_comments <$> store) !! b); simpl; [| done].
    by rewrite app_nil_r.
  - intros Hrest b. rewrite for_each_cons in Hrest.
    destruct (discover_subroutine labels (instructions, store, subs) (name0, ps0))
      as [[[instructions1 store1] subs1] | |] eqn:H1;
      simpl in Hrest; [| discriminate | discriminate].
    pose proof (discover_subroutine_shape _ _ _ _ _ _ _ _ H1) as (_ & _ & Hbb1).
    destruct (discover_subroutine_comments _ _ _ _ _ _ _ _ _ H1)
      as (entry & Hentry & Hcs).
    rewrite (IH instructions1 store1 subs1 _ _ _ (eq_trans Hbb1 Hbb) Hrest b).
    rewrite Hcs. rewrite fmap_cons. cbn [fst].
    assert (Hentry0 : labels !! name0 ≫= bb_of instructions0 = Some entry).
    { rewrite <- Hentry. destruct (labels !! name0); [| done]. simpl.
      symmetry. by apply bb_of_same. }
    destruct (decide (b = entry)) as [-> |].
    + rewrite list_lookup_alter_eq, filter_cons_True by done.
      destruct ((bb_tealer_comments <$> store) !! entry); simpl; [| done].
      by rewrite <- app_assoc.
    + rewrite list_lookup_alter_ne by done.
      rewrite filter_cons_False; [done |]. rewrite Hentry0. congruence.
Qed.

Lemma fold_alter_lookup_NoDup {A : Type} (f : A -> A) (xs : list nat) :
  NoDup xs ->
  forall (l : list A) i,
    fold_left (λ l x, alter f x l) xs l !! i
    = (if decide (i ∈ xs) then f else id) <$> l !! i.
Proof.
  induction 1 as [| x xs Hx Hnd IH]; intros l i.
  - destruct (decide (i ∈ [])) as [Hin | _]; [by apply elem_of_nil in Hin |].
    simpl. by destruct (l !! i).
  - change (fold_left (λ l x, alter f x l) (x :: xs) l)
      with (fold_left (λ l x, alter f x l) xs (alter f x l)).
    rewrite IH. destruct (decide (i = x)) as [-> |].
    + rewrite list_lookup_alter_eq.
      destruct (decide (x ∈ x :: xs)) as [_ | Hnin]; [| destruct Hnin; by left].
      destruct (decide (x ∈ xs)); [done |]. by destruct (l !! x).
    + rewrite list_lookup_alter_ne by done.
      destruct (decide (i ∈ xs)) as [Hin | Hnin],
        (decide (i ∈ x :: xs)) as [Hin' | Hnin']; try done.
      * destruct Hnin'. by right.
      * apply elem_of_cons in Hin' as [? | ?]; done.
Qed.

Section BlockComments.

Variable parse_line : string -> ParseResult.
Variables (source_code : string) (teal : Teal).
Variable stg : parse_teal_stages parse_line source_code teal.

Local Abbreviation fp := (st_fp _ _ _ stg).
Local Abbreviation instructions3 :=
  (cb_instructions (create_bb (st_instructions2 _ _ _ stg))).

Lemma stages_comments b blk :
  teal_store teal !! b = Some blk ->
  bb_tealer_comments blk
  = block_id_and_cost (Some b)
    :: (Subroutine_named
          <$> filter (λ name, fp_labels fp !! name ≫= bb_of instructions3 = Some b)
                (fp_subroutines fp).*1).
Proof.
  intros Hblk.
  pose proof (stages_creation_order _ _ _ stg) as Hseq.
  destruct (stages_sorted _ _ _ stg) as (_ & _ & Hidx).
  assert (Hb : (b < length (teal_store teal))%nat) by (by eapply lookup_lt_Some).
  assert (Hbb : teal_bbs teal !! b = Some b).
  { rewrite Hseq. by apply lookup_seq_lt. }
  destruct (Hidx b b Hbb) as (blk' & Hblk' & Hi).
  assert (blk' = blk) by congruence. subst blk'.
  pose proof (st_store _ _ _ stg) as Hstore.
  rewrite Hstore in Hblk.
  rewrite (fold_alter_lookup_NoDup
             (λ b0, bb_insert_comment_first (block_id_and_cost (bb_idx b0)) b0))
    in Hblk by (rewrite Hseq; apply NoDup_seq).
  destruct (decide (b ∈ teal_bbs teal)) as [_ | Hnin];
    [| destruct Hnin; by eapply list_elem_of_lookup_2].
  destruct (default_to_main _ _ !! b) as [blk0 |] eqn:Hblk0; [| discriminate].
  simpl in Hblk. injection Hblk as <-. simpl in Hi. simpl. rewrite Hi. f_equal.
  assert (H0 : (bb_tealer_comments <$> default_to_main (teal_bbs teal)
                  (set_subroutine_of MainSubroutine
                     (_identify_subroutine_blocks (st_store6 _ _ _ stg)
                        (st_entry _ _ _ stg)) (st_store6 _ _ _ stg))) !! b
               = Some (bb_tealer_comments blk0)).
  { by rewrite list_lookup_fmap, Hblk0. }
  rewrite default_to_main_comments, set_subroutine_of_comments in H0.
  rewrite (discover_comments _ instructions3 _ _ _ _ _ _ _ eq_refl
             (st_discover _ _ _ stg) b) in H0.
  rewrite (add_basic_blocks_idx_comments _ _ _ _ _ (st_idx _ _ _ stg)) in H0.
  rewrite (fourth_pass_comments _ _ _ (st_fourth_pass _ _ _ stg)) in H0.
  rewrite list_lookup_fmap in H0.
  destruct (cb_all_bbs (create_bb (st_instructions2 _ _ _ stg)) !! b)
    as [blk3 |] eqn:Hblk3; [| discriminate].
  simpl in H0. injection H0 as <-.
  pose proof (create_bb_no_comments (st_instructions2 _ _ _ stg)) as Hnone.
  rewrite Forall_lookup in Hnone. by rewrite (Hnone b blk3 Hblk3).
Qed.

End BlockComments.

(** X23: in the [Teal] object that [parse_teal] builds (before the
    transaction context analysis) the comments of the block [b] are: first
    the one with the identifier of the block, the number [b], and its
    cost; then, when the block is the entry block of a called subroutine,
    the one naming that subroutine; and nothing else.  No block is the
    entry block of two called subroutines. *)
Theorem block_comments (parse_line : string -> ParseResult)
    (source_code contract_name : string) (teal : Teal) (b : nat)
    (blk : BasicBlock) :
  parse_teal parse_line source_code contract_name = Ok teal ->
  teal_store teal !! b = Some blk ->
  (exists name sub,
     teal_subroutines teal !! name = Some sub
     /\ subroutine_entry sub = b
     /\ bb_tealer_comments blk
        = [block_id_and_cost (Some b); Subroutine_named name])
  \/ ((forall name sub,
         teal_subroutines teal !! name = Some sub -> subroutine_entry sub <> b)
      /\ bb_tealer_comments blk = [block_id_and_cost (Some b)]).
Proof.
  intros Hok Hblk. destruct (parse_teal_has_stages _ _ _ _ Hok) as [stg].
  rewrite (stages_comments _ _ _ stg b blk Hblk).
  set (labels := fp_labels (st_fp _ _ _ stg)).
  set (instructions3 := cb_instructions (create_bb (st_instructions2 _ _ _ stg))).
  set (names := (fp_subroutines (st_fp _ _ _ stg)).*1).
  destruct (discover_subroutines labels instructions3 _ _ _ _ _ _ _ eq_refl
              (st_discover _ _ _ stg)) as [Hsubs Hkeys].
  destruct (stages_subroutines_of_callsubs _ _ _ stg) as (_ & Hentry & _).
  assert (Hsub : forall name sub,
            teal_subroutines teal !! name = Some sub ->
            name ∈ names
            /\ labels !! name ≫= bb_of instructions3 = Some (subroutine_entry sub)).
  { intros name sub Hs. split.
    - destruct (Hkeys name) as [Hk _].
      destruct (Hk (mk_is_Some _ _ Hs)) as [? | [? Hempty]]; [done |].
      by rewrite lookup_empty in Hempty.
    - destruct (Hsubs name sub Hs) as [(callsubs & _ & _ & He & _) | Hempty];
        [done | by rewrite lookup_empty in Hempty]. }
  assert (Hin : forall name,
            name ∈ filter (λ name, labels !! name ≫= bb_of instructions3 = Some b)
                     names ->
            exists sub, teal_subroutines teal !! name = Some sub
                        /\ subroutine_entry sub = b).
  { intros name [He Hn]%list_elem_of_filter.
    destruct (Hkeys name) as [_ Hk]. destruct (Hk (or_introl Hn)) as [sub Hs].
    exists sub. split; [done |]. destruct (Hsub name sub Hs) as [_ He']. congruence. }
  assert (Huniq : forall name1 name2 sub1 sub2,
            teal_subroutines teal !! name1 = Some sub1 ->
            teal_subroutines teal !! name2 = Some sub2 ->
            subroutine_entry sub1 = b -> subroutine_entry sub2 = b ->
            name1 = name2).
  { intros name1 name2 sub1 sub2 Hs1 Hs2 He1 He2.
    destruct (Hentry name1 sub1 Hs1) as (_ & (t1 & blk1 & [Hl1 _] & _ & Hb1 & Hh1) & _).
    destruct (Hentry name2 sub2 Hs2) as (_ & (t2 & blk2 & [Hl2 _] & _ & Hb2 & Hh2) & _).
    rewrite He1 in Hb1. rewrite He2 in Hb2.
    assert (blk1 = blk2) by congruence. subst blk2.
    assert (t1 = t2) by congruence. subst t2. congruence. }
  assert (Hnd : NoDup (filter (λ name, labels !! name ≫= bb_of instructions3 = Some b)
                         names)).
  { apply NoDup_filter.
    exact (fpl_keys _ (first_pass_lists_hold _ _ _ (st_first_pass _ _ _ stg))). }
  destruct (filter (λ name, labels !! name ≫= bb_of instructions3 = Some b) names)
    as [| n1 [| n2 rest]] eqn:HF.
  - right. split; [| done]. intros name sub Hs He.
    destruct (Hsub name sub Hs) as [Hn Hl].
    assert (Hmem : name ∈ filter (λ name, labels !! name ≫= bb_of instructions3
                                          = Some b) names).
    { apply list_elem_of_filter. split; [congruence | done]. }
    rewrite HF in Hmem. by apply elem_of_nil in Hmem.
  - left. destruct (Hin n1 ltac:(by left)) as (sub & Hs & He).
    exists n1, sub. done.
  - exfalso.
    destruct (Hin n1 ltac:(by left)) as (sub1 & Hs1 & He1).
    destruct (Hin n2 ltac:(right; by left)) as (sub2 & Hs2 & He2).
    pose proof (Huniq n1 n2 sub1 sub2 Hs1 Hs2 He1 He2) as ->.
    apply NoDup_cons in Hnd as [Hnin _]. destruct Hnin. by left.
Qed.

Lemma block_comments_witness :
  exists teal blk,
    parse_teal Sample.parse_line Sample.MULTIPLE_RETURN_POINTS "" = Ok teal
    /\ teal_store teal !! 3%nat = Some blk
    /\ bb_tealer_comments blk
       = [block_id_and_cost (Some 3%nat); Subroutine_named "subroutine_0"]
    /\ ((exists name sub,
           teal_subroutines teal !! name = Some sub
           /\ subroutine_entry sub = 3%nat
           /\ bb_tealer_comments blk
              = [block_id_and_cost (Some 3%nat); Subroutine_named name])
        \/ ((forall name sub,
               teal_subroutines teal !! name = Some sub ->
               subroutine_entry sub <> 3%nat)
            /\ bb_tealer_comments blk = [block_id_and_cost (Some 3%nat)])).
Proof.
  eexists. eexists. split; [vm_compute; reflexivity |].
  split; [reflexivity |]. split; [reflexivity |].
  apply (block_comments Sample.parse_line Sample.MULTIPLE_RETURN_POINTS ""
           _ 3%nat _ ltac:(vm_compute; reflexivity) ltac:(reflexivity)).
Defined.
